(** * LDPT route planner: a shallow embedding of the planning core of code.js

    The development follows the structure of the script: the scalar helpers
    (time parsing, temperature rules), the stop sequencer
    ([advancedOptimizeStopOrder], [runNearestNeighbor]), the duty-cycle
    simulator ([calculateRouteMetricsWithHOS]), the insertion scorer
    ([checkAndScoreInsertion]), the rebalancer, the pull-forward pass, the
    planning loop and the overflow handler, followed by the readers of the
    input sheets ([getShipments], [getDistanceMatrix], [getCarriers] with
    [getPalletCapacities] and [getCarrierCosts], [getAddressData]), the
    restrictions column of a plan row and the single-stop diagnosis
    ([getInitialRouteFailureReason]).

    Modelling conventions.
    - JavaScript numbers that carry pallets, miles, minutes and money are
      exact rationals ([Q]); counters are integers ([Z]).  [Math.round] is
      [Qfloor (x + 1/2)], [Math.ceil] is [Qceiling].  Sums, products and
      quotients are exact: the rounding of binary floating point is not
      modelled.
    - A JavaScript object used as a read-only table (distance matrix,
      restrictions, durations) is a lookup function into [option].
    - Objects mutated in place (shipments, routes, time slots) are records
      threaded through the loops; every shipment object is referenced from
      exactly one array at a time, so value semantics agree with the script.
    - [x || d] on a number is [if x == 0 then d else x]; on a string it tests
      for the empty string.
    - A text is the list of the bytes of its UTF-8 encoding. *)

From Stdlib Require Import List String Ascii ZArith QArith Qround Qminmax Lia Lqa
  Bool Permutation Arith DecimalString.
From Stdlib Require DecimalZ DecimalPos.
Import ListNotations.

Set Implicit Arguments.

(* ------------------------------------------------------------------ *)
(** ** JavaScript-level helpers *)

Definition Qlt_bool (a b : Q) : bool := negb (Qle_bool b a).

(** [x || d] for numbers. *)
Definition num_or (x d : Q) : Q := if Qeq_bool x 0 then d else x.

(** [Math.round]: nearest integer, halves towards plus infinity. *)
Definition js_round (x : Q) : Z := Qfloor (x + (1 # 2)).

(** [[...new Set(xs)]]: duplicates removed, first occurrences kept in order. *)
Fixpoint uniq (l : list string) : list string :=
  match l with
  | [] => []
  | x :: xs => x :: filter (fun y => negb (String.eqb y x)) (uniq xs)
  end.

Definition Zlength_of {A} (l : list A) : Z := Z.of_nat (List.length l).

(* ------------------------------------------------------------------ *)
(** ** Data model *)

Inductive Category := Ambient | Chiller | Freezer | Produce.

Definition Category_eqb (a b : Category) : bool :=
  match a, b with
  | Ambient, Ambient | Chiller, Chiller | Freezer, Freezer | Produce, Produce => true
  | _, _ => false
  end.

Inductive FailureReason := TimeConstraint | NoViableCarrier.

Record Shipment := mkShipment {
  store : string;
  category : Category;
  pallets : Q;
  productTypeId : option string;
  cluster : string;
  attempts : Z;
  insertionFailures : Z;
  failureReason : option FailureReason
}.

Record Leg := mkLeg { distance : Q; duration : Q }.

(** [distanceMatrix[from] && distanceMatrix[from][to]] *)
Definition DistanceMatrix := string -> string -> option Leg.

(** A table entry of [detailedDurations[store][productTypeId]]; a field that
    is [0] plays the role of a missing (falsy) field. *)
Record Dur := mkDur { loading : Q; unloading : Q }.

Definition DetailedDurations := string -> option string -> option Dur.

Record Restriction := mkRestriction {
  noise : string;
  equipmentNight : string;
  equipmentDay : string;
  deliveryWindow : string
}.

Definition Restrictions := string -> option Restriction.

Record TimeSlot := mkTimeSlot { slotTime : string; capacity : Z; used : Z }.

Record Carrier := mkCarrier {
  name : string;
  costPerMile : Q;
  costPerRoute : Q;
  pallets36 : Q;
  pallets48 : Q;
  pallets53 : Q;
  timeSlots : list TimeSlot
}.

Record Route := mkRoute {
  carrier : Carrier;
  time : string;
  stops : list Shipment;
  totalPallets : Q;
  routeCluster : string;
  routeId : string;
  seedAttempts : Z;
  notes : string
}.

Record Context := mkContext {
  restrictions : Restrictions;
  detailedDurations : DetailedDurations;
  distanceMatrix : DistanceMatrix;
  warehouse : string;
  OVERPLAN_FACTOR : Q;
  MAX_ROUTE_MILEAGE : Q;
  MAX_STOPS_GENERAL : Z;
  MAX_DISTANCE_BETWEEN_STOPS : Q;
  ABSOLUTE_MAX_DISTANCE_BETWEEN_STOPS : Q;
  ALLOW_ALL_ALL : bool;
  SMALL_AMBIENT_THRESHOLD : Q;
  MIN_PALLETS_PER_ROUTE : Q;
  MAX_PLANNING_ATTEMPTS : Z;
  RELAX_MIN_ATTEMPTS : Z;
  RELAX_MIN_FACTOR : Q;
  CLUSTER_FAILURE_THRESHOLD : Z
}.

Inductive HosStatus := OK | DRIVING_VIOLATION | ON_DUTY_VIOLATION.

Record Metrics := mkMetrics {
  travelTime : Z;
  stopTime : Z;
  totalDuration : Z;
  totalDistance : Z;
  hosStatus : HosStatus
}.

(* ------------------------------------------------------------------ *)
(** ** Duty-cycle simulator: [calculateRouteMetricsWithHOS] *)

Module HOS.

Definition PALLETS_PER_FLS : Q := 26.
Definition ON_DUTY_LIMIT : Q := 14 * 60.
Definition DRIVING_LIMIT : Q := 11 * 60.
Definition BREAK_THRESHOLD : Q := 8 * 60.
Definition BREAK_DURATION : Q := 30.

(** The local variables of the function. *)
Record State := mkState {
  travel : Q;
  dist : Q;
  stopT : Q;
  onDuty : Q;
  breaksTaken : Z;
  currentLocation : string
}.

Definition pDur (dd : DetailedDurations) (s : Shipment) : option Dur :=
  dd (store s) (productTypeId s).

(** First [forEach]: loading time at the warehouse. *)
Definition loadingStep (dd : DetailedDurations) (acc : Q) (s : Shipment) : Q :=
  match pDur dd s with
  | Some d => if Qeq_bool (loading d) 0 then acc
              else acc + (pallets s / PALLETS_PER_FLS) * loading d
  | None => acc
  end.

Definition loadingTime (dd : DetailedDurations) (orderedStops : list Shipment) : Q :=
  fold_left (loadingStep dd) orderedStops 0.

(** The body guarded by [if (leg)] / [if (returnLeg)]. *)
Definition accrueLeg (st : State) (leg : Leg) : State :=
  let crosses :=
    Qlt_bool (inject_Z (breaksTaken st + 1) * BREAK_THRESHOLD)
             (onDuty st + duration leg) in
  let onDuty1 := if crosses then onDuty st + BREAK_DURATION else onDuty st in
  let breaks1 := if crosses then (breaksTaken st + 1)%Z else breaksTaken st in
  mkState (travel st + duration leg) (dist st + distance leg) (stopT st)
          (onDuty1 + duration leg) breaks1 (currentLocation st).

Definition lookupLeg (dm : DistanceMatrix) (st : State) (target : string) : State :=
  match dm (currentLocation st) target with
  | Some leg => accrueLeg st leg
  | None => st
  end.

(** Inner [forEach]: unloading time of the shipments of one store. *)
Definition unloadStep (dd : DetailedDurations) (st : string) (acc : Q) (s : Shipment) : Q :=
  if String.eqb (store s) st then
    match pDur dd s with
    | Some d => if Qeq_bool (unloading d) 0 then acc + 15
                else acc + (pallets s / PALLETS_PER_FLS) * unloading d
    | None => acc + 15
    end
  else acc.

Definition timeAtStop (dd : DetailedDurations) (orderedStops : list Shipment) (st : string) : Q :=
  fold_left (unloadStep dd st) orderedStops 0.

(** One iteration of the loop over the unique stores. *)
Definition visitStore (dm : DistanceMatrix) (dd : DetailedDurations)
    (orderedStops : list Shipment) (st : State) (s : string) : State :=
  let st1 := lookupLeg dm st s in
  let t := timeAtStop dd orderedStops s in
  mkState (travel st1) (dist st1) (stopT st1 + t) (onDuty st1 + t)
          (breaksTaken st1) s.

Definition initial (dd : DetailedDurations) (wh : string) (orderedStops : list Shipment) : State :=
  let l := loadingTime dd orderedStops in
  mkState 0 0 l l 0 wh.

Definition afterStops (dm : DistanceMatrix) (dd : DetailedDurations) (wh : string)
    (orderedStops : list Shipment) : State :=
  fold_left (visitStore dm dd orderedStops) (uniq (map store orderedStops))
            (initial dd wh orderedStops).

(** State after the return leg: the unrounded totals. *)
Definition simulate (dm : DistanceMatrix) (dd : DetailedDurations) (wh : string)
    (orderedStops : list Shipment) : State :=
  lookupLeg dm (afterStops dm dd wh orderedStops) wh.

Definition statusOf (st : State) : HosStatus :=
  let s1 := if Qlt_bool DRIVING_LIMIT (travel st) then DRIVING_VIOLATION else OK in
  if Qlt_bool ON_DUTY_LIMIT (onDuty st) then ON_DUTY_VIOLATION else s1.

End HOS.

Definition calculateRouteMetricsWithHOS (orderedStops : list Shipment) (wh : string)
    (dm : DistanceMatrix) (dd : DetailedDurations) : Metrics :=
  let st := HOS.simulate dm dd wh orderedStops in
  mkMetrics (js_round (HOS.travel st)) (js_round (HOS.stopT st))
            (js_round (HOS.onDuty st)) (js_round (HOS.dist st))
            (HOS.statusOf st).

(* ------------------------------------------------------------------ *)
(** ** Strings: the fragments of the JavaScript string API the planner uses *)

Module Str.

(** The white space of [trim] and of the pattern [\s] is TAB, LF, VT, FF, CR
    and SP (one byte each), U+00A0 (two bytes) and U+1680, U+2000 to U+200A,
    U+2028, U+2029, U+202F, U+205F, U+3000 and U+FEFF (three bytes each). *)
Definition is_ws (c : ascii) : bool :=
  let n := nat_of_ascii c in
  (Nat.eqb n 32 || (Nat.leb 9 n && Nat.leb n 13))%bool.

Definition byteIs (c : ascii) (n : nat) : bool := Nat.eqb (nat_of_ascii c) n.

(** U+00A0 is C2 A0. *)
Definition is_ws2 (b1 b2 : ascii) : bool := (byteIs b1 194 && byteIs b2 160)%bool.

(** U+1680 is E1 9A 80, U+2000 to U+200A are E2 80 80 to E2 80 8A, U+2028,
    U+2029 and U+202F are E2 80 A8, A9 and AF, U+205F is E2 81 9F, U+3000 is
    E3 80 80 and U+FEFF is EF BB BF. *)
Definition is_ws3 (b1 b2 b3 : ascii) : bool :=
  let n3 := nat_of_ascii b3 in
  ((byteIs b1 225 && byteIs b2 154 && byteIs b3 128)
   || (byteIs b1 226 && byteIs b2 128
       && ((Nat.leb 128 n3 && Nat.leb n3 138)
           || Nat.eqb n3 168 || Nat.eqb n3 169 || Nat.eqb n3 175))
   || (byteIs b1 226 && byteIs b2 129 && byteIs b3 159)
   || (byteIs b1 227 && byteIs b2 128 && byteIs b3 128)
   || (byteIs b1 239 && byteIs b2 187 && byteIs b3 191))%bool.

(** The list without the white space at its head; [w2] and [w3] recognise
    the characters of two and three bytes in the direction of the list. *)
Fixpoint dropHead (w2 : ascii -> ascii -> bool) (w3 : ascii -> ascii -> ascii -> bool)
    (l : list ascii) : list ascii :=
  match l with
  | [] => []
  | b1 :: l1 =>
      if is_ws b1 then dropHead w2 w3 l1 else
      match l1 with
      | [] => l
      | b2 :: l2 =>
          if w2 b1 b2 then dropHead w2 w3 l2 else
          match l2 with
          | [] => l
          | b3 :: l3 => if w3 b1 b2 b3 then dropHead w2 w3 l3 else l
          end
      end
  end.

(** The list starts with a white-space character. *)
Definition headWs (w2 : ascii -> ascii -> bool) (w3 : ascii -> ascii -> ascii -> bool)
    (l : list ascii) : bool :=
  match l with
  | [] => false
  | b1 :: l1 =>
      if is_ws b1 then true else
      match l1 with
      | [] => false
      | b2 :: l2 =>
          if w2 b1 b2 then true else
          match l2 with
          | [] => false
          | b3 :: _ => w3 b1 b2 b3
          end
      end
  end.

Definition dropWs (l : list ascii) : list ascii := dropHead is_ws2 is_ws3 l.

(** The same on a text read backwards, last byte first. *)
Definition dropWsBackwards (l : list ascii) : list ascii :=
  dropHead (fun b2 b1 => is_ws2 b1 b2) (fun b3 b2 b1 => is_ws3 b1 b2 b3) l.

(** [s.trim()] *)
Definition trim (s : string) : string :=
  string_of_list_ascii
    (rev (dropWsBackwards (rev (dropWs (list_ascii_of_string s))))).

Definition upper (c : ascii) : ascii :=
  let n := nat_of_ascii c in
  if (Nat.leb 97 n && Nat.leb n 122)%bool then ascii_of_nat (n - 32) else c.

(** [s.toUpperCase()], as far as the script can tell: its results are only
    compared with 'N/A', 'AM' and 'PM', and no character outside ASCII has
    an upper case made of these letters, so only the letters a to z are
    mapped. *)
Definition toUpperCase (s : string) : string :=
  string_of_list_ascii (map upper (list_ascii_of_string s)).

(** [s.split('-')] *)
Fixpoint splitDash (cur : list ascii) (l : list ascii) : list string :=
  match l with
  | [] => [string_of_list_ascii (rev cur)]
  | c :: l' =>
      if Ascii.eqb c "-"%char
      then string_of_list_ascii (rev cur) :: splitDash [] l'
      else splitDash (c :: cur) l'
  end.

Definition split (s : string) : list string := splitDash [] (list_ascii_of_string s).

(** [s.includes(sub)] *)
Definition includes (sub s : string) : bool :=
  match String.index 0 sub s with Some _ => true | None => false end.

(** [s.replace(/\s+/g, '')] *)
Fixpoint removeWs (l : list ascii) : list ascii :=
  match l with
  | [] => []
  | b1 :: l1 =>
      if is_ws b1 then removeWs l1 else
      match l1 with
      | [] => [b1]
      | b2 :: l2 =>
          if is_ws2 b1 b2 then removeWs l2 else
          match l2 with
          | [] => b1 :: removeWs l1
          | b3 :: l3 => if is_ws3 b1 b2 b3 then removeWs l3 else b1 :: removeWs l1
          end
      end
  end.

Definition stripWs (s : string) : string :=
  string_of_list_ascii (removeWs (list_ascii_of_string s)).

Definition isEmpty (s : string) : bool := String.eqb s "".

(** Template literal rendering of an integer. *)
Definition ofZ (z : Z) : string := NilZero.string_of_int (Z.to_int z).

Definition digitOf (c : ascii) : option Z :=
  let n := nat_of_ascii c in
  if (Nat.leb 48 n && Nat.leb n 57)%bool then Some (Z.of_nat (n - 48)) else None.

End Str.

(* ------------------------------------------------------------------ *)
(** ** Time windows *)

Definition twoDigits (a b : ascii) : option Z :=
  match Str.digitOf a, Str.digitOf b with
  | Some x, Some y => Some (10 * x + y)%Z
  | _, _ => None
  end.

(** The outcome of [/^(\d{1,2})(AM|PM)$/i]: the hour digits and whether the
    suffix is PM. *)
Definition meridiem (a m : ascii) : option bool :=
  if Ascii.eqb (Str.upper m) "M"%char then
    if Ascii.eqb (Str.upper a) "A"%char then Some false
    else if Ascii.eqb (Str.upper a) "P"%char then Some true
    else None
  else None.

Definition hoursOfMeridiem (hours : Z) (pm : bool) : Z :=
  if (hours =? 12)%Z then (if pm then 12 else 0)%Z
  else if pm then (hours + 12)%Z else hours.

Definition parseTimeToMinutes (timeStr : string) : option Z :=
  let colonForm :=
    match list_ascii_of_string timeStr with
    | [h1; c; m1; m2] =>
        if Ascii.eqb c ":"%char then
          match Str.digitOf h1, twoDigits m1 m2 with
          | Some h, Some m => Some (h * 60 + m)%Z
          | _, _ => None
          end
        else None
    | [h1; h2; c; m1; m2] =>
        if Ascii.eqb c ":"%char then
          match twoDigits h1 h2, twoDigits m1 m2 with
          | Some h, Some m => Some (h * 60 + m)%Z
          | _, _ => None
          end
        else None
    | _ => None
    end in
  match colonForm with
  | Some r => Some r
  | None =>
      match list_ascii_of_string timeStr with
      | [h1; a; m] =>
          match Str.digitOf h1, meridiem a m with
          | Some h, Some pm => Some (hoursOfMeridiem h pm * 60)%Z
          | _, _ => None
          end
      | [h1; h2; a; m] =>
          match twoDigits h1 h2, meridiem a m with
          | Some h, Some pm => Some (hoursOfMeridiem h pm * 60)%Z
          | _, _ => None
          end
      | _ => None
      end
  end.

Definition isTimeInWindow (routeTimeStr windowStr : string) : bool :=
  if (Str.isEmpty windowStr
      || String.eqb (Str.toUpperCase (Str.trim windowStr)) "N/A"
      || Str.isEmpty (Str.trim windowStr))%bool then true
  else
    match Str.split windowStr with
    | [p0; p1] =>
        match parseTimeToMinutes routeTimeStr,
              parseTimeToMinutes (Str.trim p0),
              parseTimeToMinutes (Str.trim p1) with
        | Some routeTime, Some startTime, Some endTime =>
            if (startTime <=? endTime)%Z
            then ((startTime <=? routeTime) && (routeTime <=? endTime))%Z%bool
            else ((startTime <=? routeTime) || (routeTime <=? endTime))%Z%bool
        | _, _, _ => true
        end
    | _ => true
    end.

(** The delivery-window guard shared by the scorer and the failure
    classification: the store has a window that is neither blank nor N/A. *)
Definition hasDeliveryWindow (res : Restrictions) (st : string) : option string :=
  match res st with
  | Some r =>
      let w := deliveryWindow r in
      if (negb (Str.isEmpty w) && negb (Str.isEmpty (Str.trim w))
          && negb (String.eqb (Str.toUpperCase w) "N/A"))%bool
      then Some w else None
  | None => None
  end.

(* ------------------------------------------------------------------ *)
(** ** Temperature compatibility *)

Definition hasCategory (c : Category) (cats : list Category) : bool :=
  existsb (Category_eqb c) cats.

(** [perStoreCounts[store][category]]: the running sum built by the
    [forEach], starting from an absent (zero) entry. *)
Definition countStep (st : string) (c : Category) (acc : Q) (s : Shipment) : Q :=
  if (String.eqb (store s) st && Category_eqb (category s) c)%bool
  then acc + pallets s else acc.

Definition perStoreCount (tempStops : list Shipment) (st : string) (c : Category) : Q :=
  fold_left (countStep st c) tempStops 0.

Record PerStoreCounts := mkCounts {
  countKeys : list string;
  countOf : string -> Category -> Q
}.

Definition perStoreCounts (tempStops : list Shipment) : PerStoreCounts :=
  mkCounts (uniq (map store tempStops)) (perStoreCount tempStops).

Definition storeWithinThreshold (counts : PerStoreCounts) (smallAmbientThreshold : Q)
    (storeId : string) : bool :=
  let hasStoreChiller := Qlt_bool 0 (countOf counts storeId Chiller) in
  let ambientTotal := countOf counts storeId Ambient + countOf counts storeId Produce in
  if (hasStoreChiller && Qlt_bool smallAmbientThreshold ambientTotal)%bool
  then false else true.

Definition isTempCompatible (requiredCategories : list Category)
    (allowAllAll : bool) (optThreshold : Q) (details : option PerStoreCounts) : bool :=
  let smallAmbientThreshold := num_or optThreshold 6 in
  let hasAmbient := hasCategory Ambient requiredCategories in
  let hasProduce := hasCategory Produce requiredCategories in
  let hasChiller := hasCategory Chiller requiredCategories in
  let hasFreezer := hasCategory Freezer requiredCategories in
  if hasFreezer then
    if hasChiller then false
    else if (hasAmbient || hasProduce)%bool then false
    else true
  else if allowAllAll then
    match details with
    | None => true
    | Some counts =>
        forallb (storeWithinThreshold counts smallAmbientThreshold) (countKeys counts)
    end
  else negb (hasChiller && hasFreezer).

(** The call shared by [checkAndScoreInsertion] and [isRouteValid]. *)
Definition tempCheck (ctx : Context) (tempStops : list Shipment) : bool :=
  isTempCompatible (map category tempStops) (ALLOW_ALL_ALL ctx)
    (num_or (SMALL_AMBIENT_THRESHOLD ctx) 4) (Some (perStoreCounts tempStops)).

(* ------------------------------------------------------------------ *)
(** ** Trailer size *)

Inductive TrailerSize := T36 | T48 | T53.

Definition equipmentFor (res : Restrictions) (routeTime : string) (st : string) : string :=
  match res st with
  | Some r =>
      let routeTimeMins :=
        match parseTimeToMinutes routeTime with Some m => m | None => 0%Z end in
      let isNight := ((1140 <=? routeTimeMins) || (routeTimeMins <? 360))%Z%bool in
      if isNight then equipmentNight r else equipmentDay r
  | None => ""
  end.

Definition getRequiredTrailerSize (routeTime : string) (routeStops : list Shipment)
    (res : Restrictions) : TrailerSize :=
  let uniqueStores := uniq (map store routeStops) in
  let requires36 := existsb (fun st => Str.includes "36" (equipmentFor res routeTime st)) uniqueStores in
  let requires48 := existsb (fun st => Str.includes "48" (equipmentFor res routeTime st)) uniqueStores in
  if requires36 then T36 else if requires48 then T48 else T53.

Definition capacityFor (c : Carrier) (size : TrailerSize) : Q :=
  match size with
  | T36 => pallets36 c
  | T48 => pallets48 c
  | T53 => pallets53 c
  end.

(* ------------------------------------------------------------------ *)
(** ** Leg distances between consecutive stores *)

Record LegDetails := mkLegDetails { legDistances : list Q; hasMissingData : bool }.

(** [forwardLeg || reverseLeg] *)
Definition legEitherWay (dm : DistanceMatrix) (from to : string) : option Leg :=
  match dm from to with
  | Some l => Some l
  | None => dm to from
  end.

Fixpoint legLoop (dm : DistanceMatrix) (uniqueStores : list string) (acc : list Q) : LegDetails :=
  match uniqueStores with
  | from :: ((to :: _) as rest) =>
      if (Str.isEmpty from || Str.isEmpty to)%bool then legLoop dm rest acc
      else
        match legEitherWay dm from to with
        | None => mkLegDetails [] true
        | Some leg => legLoop dm rest (acc ++ [distance leg])
        end
  | _ => mkLegDetails acc false
  end.

Definition getLegDistanceDetails (routeStops : list Shipment) (dm : DistanceMatrix) : LegDetails :=
  match routeStops with
  | [] => mkLegDetails [] false
  | _ =>
      let uniqueStores := uniq (map store routeStops) in
      if (List.length uniqueStores <? 2)%nat then mkLegDetails [] false
      else legLoop dm uniqueStores []
  end.

Definition penaltyStep (threshold : Q) (penalty distance : Q) : Q :=
  if Qle_bool distance threshold then penalty
  else penalty + (distance - threshold) * (distance - threshold).

Definition calculateDistancePenalty (legs : list Q) (preferredThreshold : Q) : Q :=
  match legs with
  | [] => 0
  | _ => fold_left (penaltyStep (num_or preferredThreshold 0)) legs 0
  end.

Definition Qmax_js (a b : Q) : Q := if Qlt_bool a b then b else a.

(** [Math.max(...legs)] on a non-empty array. *)
Definition maxOf (legs : list Q) : Q :=
  match legs with
  | [] => 0
  | x :: xs => fold_left Qmax_js xs x
  end.

(* ------------------------------------------------------------------ *)
(** ** Stop sequencer *)

(** Enumeration order of the keys of a plain object ([for ... in]): keys that
    are array indices (canonical decimal numerals below [2^32 - 1]) come
    first in ascending numeric order, the other keys follow in insertion
    order. *)
Module Keys.

Fixpoint digitsValue (l : list ascii) (acc : Z) : option Z :=
  match l with
  | [] => Some acc
  | c :: l' =>
      match Str.digitOf c with
      | Some d => digitsValue l' (acc * 10 + d)%Z
      | None => None
      end
  end.

Definition arrayIndex (k : string) : option Z :=
  match list_ascii_of_string k with
  | [] => None
  | c :: rest =>
      if (Ascii.eqb c "0"%char && negb (Nat.eqb (List.length rest) 0))%bool then None
      else
        match digitsValue (c :: rest) 0 with
        | Some n => if (n <? 4294967295)%Z then Some n else None
        | None => None
        end
  end.

Definition isIndex (k : string) : bool :=
  match arrayIndex k with Some _ => true | None => false end.

Definition indexValue (k : string) : Z :=
  match arrayIndex k with Some n => n | None => 0%Z end.

(** Distinct array-index keys have distinct values, so the place of a key
    among keys of equal value is immaterial; it goes in front of them. *)
Fixpoint insertKey (k : string) (l : list string) : list string :=
  match l with
  | [] => [k]
  | y :: l' =>
      if (indexValue k <=? indexValue y)%Z then k :: l else y :: insertKey k l'
  end.

Definition sortKeys (l : list string) : list string := fold_right insertKey [] l.

(** [insertionOrder] lists the distinct keys in the order they were added. *)
Definition ownKeys (insertionOrder : list string) : list string :=
  sortKeys (filter isIndex insertionOrder)
  ++ filter (fun k => negb (isIndex k)) insertionOrder.

End Keys.

(** [l.splice(i, 1)] *)
Definition removeAt {A} (i : nat) (l : list A) : list A :=
  firstn i l ++ skipn (S i) l.

(** [l[i] = x] for an index inside the array. *)
Fixpoint setNth {A} (i : nat) (x : A) (l : list A) : list A :=
  match l, i with
  | [], _ => []
  | _ :: l', O => x :: l'
  | y :: l', S i' => y :: setNth i' x l'
  end.

(** [dist < nearestDist], where [None] stands for [Infinity]. *)
Definition closer (d : Q) (nearestDist : option Q) : bool :=
  match nearestDist with
  | None => true
  | Some n => Qlt_bool d n
  end.

(** The inner [for] loop of [runNearestNeighbor], from index [i] on. *)
Fixpoint nearestScan (dm : DistanceMatrix) (currentLocation : string)
    (remaining : list string) (i : nat)
    (nearestDist : option Q) (nearestIndex : option nat) : option nat :=
  match remaining with
  | [] => nearestIndex
  | s :: rest =>
      match dm currentLocation s with
      | Some leg =>
          if closer (distance leg) nearestDist
          then nearestScan dm currentLocation rest (S i) (Some (distance leg)) (Some i)
          else nearestScan dm currentLocation rest (S i) nearestDist nearestIndex
      | None => nearestScan dm currentLocation rest (S i) nearestDist nearestIndex
      end
  end.

Definition nearestIndexOf (dm : DistanceMatrix) (currentLocation : string)
    (remaining : list string) : option nat :=
  nearestScan dm currentLocation remaining 0 None None.

(** The [while (remaining.length > 0)] loop; every round removes one item,
    so [length remaining] rounds are enough. *)
Fixpoint nnLoop (fuel : nat) (dm : DistanceMatrix) (remaining : list string)
    (currentLocation : string) : list string :=
  match fuel with
  | O => remaining
  | S fuel' =>
      match remaining with
      | [] => []
      | _ =>
          match nearestIndexOf dm currentLocation remaining with
          | None => remaining
          | Some i =>
              let nextItem := nth i remaining ""%string in
              nextItem :: nnLoop fuel' dm (removeAt i remaining) nextItem
          end
      end
  end.

Definition runNearestNeighbor (items : list string) (startLocation : string)
    (dm : DistanceMatrix) : list string :=
  if (List.length items <? 2)%nat then items
  else nnLoop (List.length items) dm items startLocation.

Definition isCold (c : Category) : bool :=
  match c with Chiller | Freezer => true | _ => false end.

(** [stopsData[k].shipments] *)
Definition shipmentsOf (routeStops : list Shipment) (k : string) : list Shipment :=
  filter (fun s => String.eqb (store s) k) routeStops.

(** [stopsData[k].categories] holds Chiller or Freezer. *)
Definition hasCold (routeStops : list Shipment) (k : string) : bool :=
  existsb (fun s => isCold (category s)) (shipmentsOf routeStops k).

(** The store order computed by [advancedOptimizeStopOrder] ([finalOrder]). *)
Definition finalOrder (routeStops : list Shipment) (wh : string) (dm : DistanceMatrix)
    : list string :=
  let keys := Keys.ownKeys (uniq (map store routeStops)) in
  let withCold := filter (hasCold routeStops) keys in
  let ambientOnly := filter (fun k => negb (hasCold routeStops k)) keys in
  let orderedAmbient :=
    match ambientOnly with [] => [] | _ => runNearestNeighbor ambientOnly wh dm end in
  let lastLocation := last orderedAmbient wh in
  let orderedCold :=
    match withCold with [] => [] | _ => runNearestNeighbor withCold lastLocation dm end in
  orderedAmbient ++ orderedCold.

Definition advancedOptimizeStopOrder (routeStops : list Shipment) (wh : string)
    (dm : DistanceMatrix) : list Shipment :=
  if (List.length routeStops <=? 1)%nat then routeStops
  else flat_map (shipmentsOf routeStops) (finalOrder routeStops wh dm).

(* ------------------------------------------------------------------ *)
(** ** Insertion scorer *)

Definition preferredLegThreshold (ctx : Context) : Q :=
  num_or (MAX_DISTANCE_BETWEEN_STOPS ctx) 50.

Definition hardLegLimit (ctx : Context) : Q :=
  num_or (ABSOLUTE_MAX_DISTANCE_BETWEEN_STOPS ctx)
         (Qmax_js 75 (preferredLegThreshold ctx)).

Definition windowRejects (ctx : Context) (shipment : Shipment) (routeTime : string) : bool :=
  match hasDeliveryWindow (restrictions ctx) (store shipment) with
  | Some w => negb (isTimeInWindow routeTime w)
  | None => false
  end.

Definition routeCost (c : Carrier) (m : Metrics) : Q :=
  inject_Z (totalDistance m) * costPerMile c + costPerRoute c.

Definition checkAndScoreInsertion (shipment : Shipment) (route : Route) (ctx : Context)
    : option Q :=
  let dm := distanceMatrix ctx in
  let wh := warehouse ctx in
  if Str.isEmpty wh then None else
  let tempStops := stops route ++ [shipment] in
  if (MAX_STOPS_GENERAL ctx <? Zlength_of (uniq (map store tempStops)))%Z then None else
  if negb (tempCheck ctx tempStops) then None else
  if windowRejects ctx shipment (time route) then None else
  let requiredSize := getRequiredTrailerSize (time route) tempStops (restrictions ctx) in
  let capacity := capacityFor (carrier route) requiredSize in
  if (Qeq_bool capacity 0
      || Qlt_bool (capacity * OVERPLAN_FACTOR ctx) (totalPallets route + pallets shipment))%bool
  then None else
  let currentOptimized := advancedOptimizeStopOrder (stops route) wh dm in
  let tempOptimized := advancedOptimizeStopOrder tempStops wh dm in
  let currentLegDetails := getLegDistanceDetails currentOptimized dm in
  if hasMissingData currentLegDetails then None else
  let proposedLegDetails := getLegDistanceDetails tempOptimized dm in
  if hasMissingData proposedLegDetails then None else
  let proposedMaxLeg := maxOf (legDistances proposedLegDetails) in
  if Qlt_bool (hardLegLimit ctx) proposedMaxLeg then None else
  let distancePenaltyDelta :=
    calculateDistancePenalty (legDistances proposedLegDetails) (preferredLegThreshold ctx)
    - calculateDistancePenalty (legDistances currentLegDetails) (preferredLegThreshold ctx) in
  let tempMetrics := calculateRouteMetricsWithHOS tempOptimized wh dm (detailedDurations ctx) in
  if (Qlt_bool (MAX_ROUTE_MILEAGE ctx) (inject_Z (totalDistance tempMetrics))
      || negb (match hosStatus tempMetrics with OK => true | _ => false end))%bool
  then None else
  let originalMetrics := calculateRouteMetricsWithHOS currentOptimized wh dm (detailedDurations ctx) in
  let newCost := routeCost (carrier route) tempMetrics in
  let oldCost := routeCost (carrier route) originalMetrics in
  Some ((newCost - oldCost) + distancePenaltyDelta).

(* ------------------------------------------------------------------ *)
(** ** Route validation and the rebalancer's route score *)

Definition isOK (m : Metrics) : bool :=
  match hosStatus m with OK => true | _ => false end.

Definition routeCapacity (route : Route) (ctx : Context) : Q :=
  capacityFor (carrier route)
    (getRequiredTrailerSize (time route) (stops route) (restrictions ctx)).

Definition routeMetrics (route : Route) (ctx : Context) : Metrics :=
  calculateRouteMetricsWithHOS (stops route) (warehouse ctx) (distanceMatrix ctx)
    (detailedDurations ctx).

Definition isRouteValid (route : Route) (ctx : Context) : bool :=
  if (MAX_STOPS_GENERAL ctx <? Zlength_of (uniq (map store (stops route))))%Z then false
  else if negb (tempCheck ctx (stops route)) then false
  else if Qlt_bool (routeCapacity route ctx * OVERPLAN_FACTOR ctx) (totalPallets route) then false
  else
    let metrics := routeMetrics route ctx in
    if (Qlt_bool (MAX_ROUTE_MILEAGE ctx) (inject_Z (totalDistance metrics))
        || negb (isOK metrics))%bool then false
    else true.

(** A score may be non-finite: the utilization divides by the capacity. *)
Inductive JSNum := Finite (q : Q) | PosInf | NaN.

Definition js_add (a b : JSNum) : JSNum :=
  match a, b with
  | NaN, _ | _, NaN => NaN
  | PosInf, _ | _, PosInf => PosInf
  | Finite x, Finite y => Finite (x + y)
  end.

Definition js_lt (a b : JSNum) : bool :=
  match a, b with
  | Finite x, Finite y => Qlt_bool x y
  | Finite _, PosInf => true
  | _, _ => false
  end.

(** [Math.pow(1 - totalPallets / capacity, 2) * 5000] *)
Definition utilizationPenalty (total capacity : Q) : JSNum :=
  if Qeq_bool capacity 0 then (if Qeq_bool total 0 then NaN else PosInf)
  else Finite ((1 - total / capacity) * (1 - total / capacity) * 5000).

Definition mileagePenalty (ctx : Context) (metrics : Metrics) : Q :=
  let MILEAGE_TARGET := num_or (MAX_ROUTE_MILEAGE ctx) 425 * (85 # 100) in
  if Qlt_bool MILEAGE_TARGET (inject_Z (totalDistance metrics)) then
    let overage := inject_Z (totalDistance metrics) - MILEAGE_TARGET in
    (overage / 10) * (overage / 10) * 100
  else 0.

Definition clusterPenalty (route : Route) : Q :=
  if ((1 <? List.length (stops route))%nat
      && (1 <? List.length (uniq (map cluster (stops route))))%nat)%bool
  then 800 else 0.

Definition calculateRouteScore (route : Route) (ctx : Context) : JSNum :=
  let metrics := routeMetrics route ctx in
  let capacity := routeCapacity route ctx in
  let distanceCost := inject_Z (totalDistance metrics) * num_or (costPerMile (carrier route)) 0 in
  let routeCostPart := num_or (costPerRoute (carrier route)) 0 in
  let totalCost := distanceCost + routeCostPart in
  js_add (js_add (js_add (Finite totalCost) (utilizationPenalty (totalPallets route) capacity))
                 (Finite (mileagePenalty ctx metrics)))
         (Finite (clusterPenalty route)).

(* ------------------------------------------------------------------ *)
(** ** Rebalancer *)

Definition withStops (r : Route) (newStops : list Shipment) (newTotal : Q) : Route :=
  mkRoute (carrier r) (time r) newStops newTotal (routeCluster r) (routeId r)
          (seedAttempts r) (notes r).

Definition sumPallets (l : list Shipment) : Q :=
  fold_left (fun sum s => sum + pallets s) l 0.

Definition sameSlot (a b : Route) : bool :=
  (String.eqb (name (carrier a)) (name (carrier b)) && String.eqb (time a) (time b))%bool.

(** The trial insertions of the consolidation pass: [tempStops] grows,
    [tempPallets] is the constant captured before the loop. *)
Fixpoint canMoveAll (ctx : Context) (targetRoute : Route) (tempStops : list Shipment)
    (tempPallets : Q) (sourceStops : list Shipment) : option (list Shipment) :=
  match sourceStops with
  | [] => Some tempStops
  | stop :: rest =>
      let testRoute := withStops targetRoute tempStops (tempPallets + pallets stop) in
      match checkAndScoreInsertion stop testRoute ctx with
      | None => None
      | Some _ => canMoveAll ctx targetRoute (tempStops ++ [stop]) tempPallets rest
      end
  end.

(** The loop over the targets [j] for one source index [i]; [js] lists the
    target indices still to try. *)
Fixpoint tryTargets (ctx : Context) (i : nat) (routes : list Route) (js : list nat)
    : list Route * bool :=
  match js with
  | [] => (routes, false)
  | j :: js' =>
      if Nat.eqb i j then tryTargets ctx i routes js' else
      match nth_error routes i, nth_error routes j with
      | Some sourceRoute, Some targetRoute =>
          if negb (sameSlot sourceRoute targetRoute) then tryTargets ctx i routes js' else
          match canMoveAll ctx targetRoute (stops targetRoute) (totalPallets targetRoute)
                           (stops sourceRoute) with
          | Some tempStops =>
              if isRouteValid (withStops targetRoute tempStops
                                 (totalPallets targetRoute + totalPallets sourceRoute)) ctx
              then
                let merged := withStops targetRoute (stops targetRoute ++ stops sourceRoute)
                                (totalPallets targetRoute + totalPallets sourceRoute) in
                (removeAt i (setNth j merged routes), true)
              else tryTargets ctx i routes js'
          | None => tryTargets ctx i routes js'
          end
      | _, _ => tryTargets ctx i routes js'
      end
  end.

Definition consolidateAt (ctx : Context) (i : nat) (routes : list Route) : list Route * bool :=
  match nth_error routes i with
  | Some sourceRoute =>
      match stops sourceRoute with
      | [] => (routes, false)
      | _ => tryTargets ctx i routes (seq 0 (List.length routes))
      end
  | None => (routes, false)
  end.

(** [for (let i = routes.length - 1; i >= 0; i--)], with [n = i + 1]. *)
Fixpoint consolidateFrom (ctx : Context) (n : nat) (routes : list Route) (improved : bool)
    : list Route * bool :=
  match n with
  | O => (routes, improved)
  | S i =>
      let '(routes', merged) := consolidateAt ctx i routes in
      consolidateFrom ctx i routes' (improved || merged)%bool
  end.

Definition consolidationPass (ctx : Context) (routes : list Route) : list Route * bool :=
  consolidateFrom ctx (List.length routes) routes false.

(** The tentative swap of [route1.stops[si]] and [route2.stops[sj]]. *)
Record SwapTrial := mkSwapTrial {
  trial1 : Route;
  trial2 : Route;
  oldRoute1Pallets : Q;
  oldRoute2Pallets : Q
}.

Definition applySwap (route1 route2 : Route) (si sj : nat) (stop1 stop2 : Shipment)
    : SwapTrial :=
  let stops1 := setNth si stop2 (stops route1) in
  let stops2 := setNth sj stop1 (stops route2) in
  mkSwapTrial (withStops route1 stops1 (sumPallets stops1))
              (withStops route2 stops2 (sumPallets stops2))
              (totalPallets route1) (totalPallets route2).

Definition revertSwap (t : SwapTrial) (si sj : nat) (stop1 stop2 : Shipment)
    : Route * Route :=
  (withStops (trial1 t) (setNth si stop1 (stops (trial1 t))) (oldRoute1Pallets t),
   withStops (trial2 t) (setNth sj stop2 (stops (trial2 t))) (oldRoute2Pallets t)).

Definition swapAccepted (ctx : Context) (route1 route2 : Route) (t : SwapTrial) : bool :=
  let currentScore := js_add (calculateRouteScore route1 ctx) (calculateRouteScore route2 ctx) in
  let newScore := js_add (calculateRouteScore (trial1 t) ctx)
                         (calculateRouteScore (trial2 t) ctx) in
  (js_lt newScore currentScore && isRouteValid (trial1 t) ctx
   && isRouteValid (trial2 t) ctx)%bool.

(** Body of the innermost loop of the swap pass. *)
Definition swapStep (ctx : Context) (route1 route2 : Route) (si sj : nat)
    : Route * Route * bool :=
  match nth_error (stops route1) si, nth_error (stops route2) sj with
  | Some stop1, Some stop2 =>
      let t := applySwap route1 route2 si sj stop1 stop2 in
      if swapAccepted ctx route1 route2 t then (trial1 t, trial2 t, true)
      else (revertSwap t si sj stop1 stop2, false)
  | _, _ => (route1, route2, false)
  end.

Definition swapAt (ctx : Context) (i j : nat) (acc : list Route * bool) (sisj : nat * nat)
    : list Route * bool :=
  let '(routes, improved) := acc in
  match nth_error routes i, nth_error routes j with
  | Some route1, Some route2 =>
      let '(r1, r2, kept) := swapStep ctx route1 route2 (fst sisj) (snd sisj) in
      (setNth j r2 (setNth i r1 routes), (improved || kept)%bool)
  | _, _ => acc
  end.

Definition swapPair (ctx : Context) (acc : list Route * bool) (ij : nat * nat)
    : list Route * bool :=
  let '(i, j) := ij in
  match nth_error (fst acc) i, nth_error (fst acc) j with
  | Some route1, Some route2 =>
      if negb (sameSlot route1 route2) then acc
      else
        fold_left (swapAt ctx i j)
          (list_prod (seq 0 (List.length (stops route1)))
                     (seq 0 (List.length (stops route2))))
          acc
  | _, _ => acc
  end.

(** All index pairs [i < j], in the order of the two nested loops. *)
Definition indexPairs (n : nat) : list (nat * nat) :=
  flat_map (fun i => map (fun j => (i, j)) (seq (S i) (n - S i))) (seq 0 n).

Definition swapPass (ctx : Context) (routes : list Route) : list Route * bool :=
  fold_left (swapPair ctx) (indexPairs (List.length routes)) (routes, false).

Definition MAX_REBALANCE_ITERATIONS : nat := 15.

Fixpoint rebalanceLoop (fuel : nat) (ctx : Context) (routes : list Route) : list Route :=
  match fuel with
  | O => routes
  | S fuel' =>
      let '(routes1, merged) := consolidationPass ctx routes in
      let '(routes2, swapped) := swapPass ctx routes1 in
      if (merged || swapped)%bool then rebalanceLoop fuel' ctx routes2 else routes2
  end.

Definition rebalanceRoutes (routes : list Route) (ctx : Context) : list Route :=
  rebalanceLoop MAX_REBALANCE_ITERATIONS ctx routes.

(* ------------------------------------------------------------------ *)
(** ** Shipment state updates *)

Definition setFailures (s : Shipment) (n : Z) : Shipment :=
  mkShipment (store s) (category s) (pallets s) (productTypeId s) (cluster s)
             (attempts s) n (failureReason s).

Definition bumpFailures (s : Shipment) : Shipment :=
  setFailures s (insertionFailures s + 1).

Definition bumpAttempts (s : Shipment) : Shipment :=
  mkShipment (store s) (category s) (pallets s) (productTypeId s) (cluster s)
             (attempts s + 1) (insertionFailures s) (failureReason s).

Definition setReason (s : Shipment) (r : FailureReason) : Shipment :=
  mkShipment (store s) (category s) (pallets s) (productTypeId s) (cluster s)
             (attempts s) (insertionFailures s) (Some r).

Definition hasReason (s : Shipment) : bool :=
  match failureReason s with Some _ => true | None => false end.

(** The part of a shipment that planning never changes. *)
Definition freight (s : Shipment) : string * Category * Q * option string * string :=
  (store s, category s, pallets s, productTypeId s, cluster s).

(** [sort((a, b) => b.pallets - a.pallets)]: stable, descending pallets. *)
Fixpoint insertDesc (x : Shipment) (l : list Shipment) : list Shipment :=
  match l with
  | [] => [x]
  | y :: l' => if Qlt_bool (pallets x) (pallets y) then y :: insertDesc x l' else x :: l
  end.

Definition sortByPallets (l : list Shipment) : list Shipment :=
  fold_right insertDesc [] l.

(* ------------------------------------------------------------------ *)
(** ** The plan sheet *)

Record Row := mkRow {
  rowCarrier : string;
  rowRouteId : string;
  rowCluster : string;
  rowStopCount : nat;
  rowStops : list Shipment;
  rowMetrics : Metrics;
  rowTrailer : TrailerSize;
  rowPallets : Q;
  rowCost : Q;
  rowMileageOver : bool;
  rowNotes : string
}.

(** [writeRouteToSheet]: the row appended for a route, if any. *)
Definition writeRouteToSheet (route : Route) (ctx : Context) : list Row :=
  match stops route with
  | [] => []
  | _ =>
      let optimizedStops :=
        advancedOptimizeStopOrder (stops route) (warehouse ctx) (distanceMatrix ctx) in
      let metrics :=
        calculateRouteMetricsWithHOS optimizedStops (warehouse ctx) (distanceMatrix ctx)
          (detailedDurations ctx) in
      let trailerSize := getRequiredTrailerSize (time route) (stops route) (restrictions ctx) in
      let cost := inject_Z (totalDistance metrics) * num_or (costPerMile (carrier route)) 0
                  + num_or (costPerRoute (carrier route)) 0 in
      [mkRow (name (carrier route)) (routeId route) (routeCluster route)
             (List.length (uniq (map store optimizedStops))) optimizedStops metrics
             trailerSize (totalPallets route) cost
             (Qlt_bool (MAX_ROUTE_MILEAGE ctx) (inject_Z (totalDistance metrics)))
             (notes route)]
  end.

(* ------------------------------------------------------------------ *)
(** ** Seed carrier selection *)

Record RouteOption := mkRouteOption {
  optCarrier : nat;      (* index of the carrier in the carrier list *)
  optTimeSlot : nat;     (* index of the slot in the carrier's slots *)
  optRoute : Route
}.

Definition seedRoute (shipment : Shipment) (c : Carrier) (slot : TimeSlot) : Route :=
  mkRoute c (slotTime slot) [shipment] (pallets shipment) (cluster shipment) "" 0 "".

Definition betterCost (cost : Q) (bestCost : option Q) : bool :=
  match bestCost with None => true | Some b => Qlt_bool cost b end.

Fixpoint scanSlots (shipment : Shipment) (ctx : Context) (ci : nat) (c : Carrier)
    (slots : list TimeSlot) (ti : nat) (best : option RouteOption * option Q)
    : option RouteOption * option Q :=
  match slots with
  | [] => best
  | timeSlot :: rest =>
      let continue_ := scanSlots shipment ctx ci c rest (S ti) in
      if (capacity timeSlot <=? used timeSlot)%Z then continue_ best else
      let tempRoute := seedRoute shipment c timeSlot in
      match checkAndScoreInsertion shipment
              (withStops tempRoute [] (totalPallets tempRoute)) ctx with
      | None => continue_ best
      | Some _ =>
          let metrics := calculateRouteMetricsWithHOS [shipment] (warehouse ctx)
                           (distanceMatrix ctx) (detailedDurations ctx) in
          let cost := routeCost c metrics in
          if betterCost cost (snd best)
          then continue_ (Some (mkRouteOption ci ti tempRoute), Some cost)
          else continue_ best
      end
  end.

Fixpoint scanCarriers (shipment : Shipment) (ctx : Context) (carriers : list Carrier)
    (ci : nat) (best : option RouteOption * option Q) : option RouteOption * option Q :=
  match carriers with
  | [] => best
  | c :: rest =>
      scanCarriers shipment ctx rest (S ci)
        (scanSlots shipment ctx ci c (timeSlots c) 0 best)
  end.

Definition findBestInitialCarrier (shipment : Shipment) (carriers : list Carrier)
    (ctx : Context) : option RouteOption :=
  fst (scanCarriers shipment ctx carriers 0 (None, None)).

(** [timeSlot.used++] on slot [ti] of carrier [ci]. *)
Definition useSlot (carriers : list Carrier) (ci ti : nat) : list Carrier :=
  match nth_error carriers ci with
  | Some c =>
      match nth_error (timeSlots c) ti with
      | Some ts =>
          let ts' := mkTimeSlot (slotTime ts) (capacity ts) (used ts + 1) in
          setNth ci (mkCarrier (name c) (costPerMile c) (costPerRoute c) (pallets36 c)
                       (pallets48 c) (pallets53 c) (setNth ti ts' (timeSlots c)))
                 carriers
      | None => carriers
      end
  | None => carriers
  end.

(* ------------------------------------------------------------------ *)
(** ** Pull-forward pass *)

Record PfScan := mkPfScan {
  potentialStops : list Shipment;
  pfPallets : Q;
  extracted : list Shipment;
  pfUnassigned : list Shipment
}.

(** The [while (j < unassigned.length && totalPallets < MIN_PALLETS_PER_ROUTE)]
    loop; [skipped] is [unassigned[0..j)], [rest] is [unassigned[j..]]. *)
Fixpoint pfScan (ctx : Context) (c : Carrier) (slot : string)
    (skipped rest potential : list Shipment) (total : Q) (extr : list Shipment) : PfScan :=
  match rest with
  | [] => mkPfScan potential total extr skipped
  | shipment :: rest' =>
      if Qlt_bool total (MIN_PALLETS_PER_ROUTE ctx) then
        let tempRoute := mkRoute c slot (potential ++ [shipment]) (total + pallets shipment)
                                 "" "" 0 "" in
        match checkAndScoreInsertion shipment tempRoute ctx with
        | Some _ =>
            let s' := setFailures shipment 0 in
            pfScan ctx c slot skipped rest' (potential ++ [s']) (total + pallets shipment)
                   (extr ++ [s'])
        | None =>
            pfScan ctx c slot (skipped ++ [bumpFailures shipment]) rest' potential total extr
        end
      else mkPfScan potential total extr (skipped ++ rest)
  end.

Definition pfRelaxedMinimum (ctx : Context) : Z :=
  Z.max 15 (Qceiling (MIN_PALLETS_PER_ROUTE ctx * RELAX_MIN_FACTOR ctx)).

Record PfState := mkPfState {
  pfPool : list Shipment;
  routesCreated : list Route;
  pfUsed : Z
}.

(** One iteration of [for (let i = 0; i < unusedSlots; i++)]. *)
Definition pfAttempt (ctx : Context) (c : Carrier) (slot : string) (st : PfState) : PfState :=
  let r := pfScan ctx c slot [] (pfPool st) [] 0 [] in
  if Qle_bool (inject_Z (pfRelaxedMinimum ctx)) (pfPallets r) then
    let route :=
      mkRoute c slot (potentialStops r) (pfPallets r)
        (match potentialStops r with s :: _ => cluster s | [] => "" end)
        (Str.stripWs (name c) ++ "_PF_"
           ++ Str.ofZ (Zlength_of (routesCreated st) + 1))
        0 "Pull Forward Request" in
    mkPfState (pfUnassigned r) (routesCreated st ++ [route]) (pfUsed st + 1)
  else mkPfState (pfUnassigned r ++ extracted r) (routesCreated st) (pfUsed st).

Definition pfSlot (ctx : Context) (c : Carrier) (acc : list Shipment * list Route * list TimeSlot)
    (timeSlot : TimeSlot) : list Shipment * list Route * list TimeSlot :=
  let '(pool, created, done) := acc in
  if (used timeSlot <? capacity timeSlot)%Z then
    let unusedSlots := (capacity timeSlot - used timeSlot)%Z in
    let st := Nat.iter (Z.to_nat unusedSlots) (pfAttempt ctx c (slotTime timeSlot))
                (mkPfState pool created (used timeSlot)) in
    (pfPool st, routesCreated st,
     done ++ [mkTimeSlot (slotTime timeSlot) (capacity timeSlot) (pfUsed st)])
  else (pool, created, done ++ [timeSlot]).

Definition pfCarrier (ctx : Context) (acc : list Shipment * list Route * list Carrier)
    (c : Carrier) : list Shipment * list Route * list Carrier :=
  let '(pool, created, done) := acc in
  let '(pool', created', slots') := fold_left (pfSlot ctx c) (timeSlots c) (pool, created, []) in
  (pool', created',
   done ++ [mkCarrier (name c) (costPerMile c) (costPerRoute c) (pallets36 c) (pallets48 c)
              (pallets53 c) slots']).

Record PullForward := mkPullForward {
  pfRemaining : list Shipment;
  pfRoutes : list Route;      (* [existingRoutes] after the final push *)
  pfCarriers : list Carrier
}.

Definition utilizePullForwardRequests (remainingShipments : list Shipment)
    (carriers : list Carrier) (ctx : Context) (existingRoutes : list Route) : PullForward :=
  let '(pool, created, carriers') :=
    fold_left (pfCarrier ctx) carriers (remainingShipments, [], []) in
  mkPullForward pool (existingRoutes ++ created) carriers'.

(* ------------------------------------------------------------------ *)
(** ** Planning loop *)

Definition pushStop (r : Route) (s : Shipment) : Route :=
  withStops r (stops r ++ [s]) (totalPallets r + pallets s).

Definition betterScore (score : Q) (bestScore : option Q) : bool :=
  match bestScore with None => true | Some b => Qlt_bool score b end.

(** Inner loop of the proactive insertion: the first route with the lowest
    score, if any route accepts the shipment. *)
Fixpoint bestRouteScan (ctx : Context) (shipment : Shipment) (routes : list Route) (r : nat)
    (bestRouteIndex : option nat) (bestScore : option Q) : option nat :=
  match routes with
  | [] => bestRouteIndex
  | route :: rest =>
      match checkAndScoreInsertion shipment route ctx with
      | Some score =>
          if betterScore score bestScore
          then bestRouteScan ctx shipment rest (S r) (Some r) (Some score)
          else bestRouteScan ctx shipment rest (S r) bestRouteIndex bestScore
      | None => bestRouteScan ctx shipment rest (S r) bestRouteIndex bestScore
      end
  end.

(** One shipment of the proactive pass; the pass walks the pool from its last
    element to its first, [kept] collects the shipments that stay. *)
Definition proactiveStep (ctx : Context) (shipment : Shipment)
    (acc : list Route * list Shipment) : list Route * list Shipment :=
  let '(routes, kept) := acc in
  if hasReason shipment then (routes, shipment :: kept) else
  match bestRouteScan ctx shipment routes 0 None None with
  | Some r =>
      match nth_error routes r with
      | Some route => (setNth r (pushStop route shipment) routes, kept)
      | None => (routes, shipment :: kept)
      end
  | None => (routes, shipment :: kept)
  end.

Definition proactiveInsert (ctx : Context) (routes : list Route) (unassigned : list Shipment)
    : list Route * list Shipment :=
  match routes with
  | [] => (routes, unassigned)
  | _ => fold_right (proactiveStep ctx) (routes, []) unassigned
  end.

(** [findIndex(s => s.attempts < MAX_PLANNING_ATTEMPTS && !s.failureReason)],
    returning the pool split around the seed. *)
Definition seedEligible (ctx : Context) (s : Shipment) : bool :=
  ((attempts s <? MAX_PLANNING_ATTEMPTS ctx)%Z && negb (hasReason s))%bool.

Fixpoint findSeed (ctx : Context) (before pool : list Shipment)
    : option (list Shipment * Shipment * list Shipment) :=
  match pool with
  | [] => None
  | s :: rest =>
      if seedEligible ctx s then Some (before, s, rest)
      else findSeed ctx (before ++ [s]) rest
  end.

(** One pass of the candidate scan of the growth phase, from the last index
    down to [i]; returns the pool with its failure counters updated and the
    best candidate found. *)
Fixpoint growScan (ctx : Context) (currentRoute : Route) (pool : list Shipment) (i : nat)
    : list Shipment * option (nat * Q) :=
  match pool with
  | [] => ([], None)
  | candidate :: rest =>
      let '(rest', best) := growScan ctx currentRoute rest (S i) in
      if hasReason candidate then (candidate :: rest', best) else
      let differentCluster :=
        (negb (String.eqb (routeCluster currentRoute) "Others")
         && negb (String.eqb (cluster candidate) (routeCluster currentRoute)))%bool in
      let canRelaxCluster :=
        (differentCluster
         && ((CLUSTER_FAILURE_THRESHOLD ctx <=? insertionFailures candidate)%Z
             || (RELAX_MIN_ATTEMPTS ctx <=? seedAttempts currentRoute)%Z))%bool in
      if (differentCluster && negb canRelaxCluster)%bool
      then (bumpFailures candidate :: rest', best) else
      match checkAndScoreInsertion candidate currentRoute ctx with
      | Some score =>
          if betterScore score (option_map snd best)
          then (candidate :: rest', Some (i, score))
          else (candidate :: rest', best)
      | None => (bumpFailures candidate :: rest', best)
      end
  end.

Definition adoptCluster (r : Route) (added : Shipment) : Route :=
  if (String.eqb (routeCluster r) "Others" && negb (String.eqb (cluster added) "Others"))%bool
  then mkRoute (carrier r) (time r) (stops r) (totalPallets r) (cluster added)
               (routeId r) (seedAttempts r) (notes r)
  else r.

(** [while (routeChanged)]: every round that continues takes one shipment out
    of the pool. *)
Fixpoint growLoop (fuel : nat) (ctx : Context) (currentRoute : Route) (pool : list Shipment)
    : Route * list Shipment :=
  match fuel with
  | O => (currentRoute, pool)
  | S fuel' =>
      let '(pool1, best) := growScan ctx currentRoute pool 0 in
      match best with
      | Some (index, _) =>
          match nth_error pool1 index with
          | Some added =>
              let addedShipment := setFailures added 0 in
              growLoop fuel' ctx (adoptCluster (pushStop currentRoute addedShipment) addedShipment)
                       (removeAt index pool1)
          | None => (currentRoute, pool1)
          end
      | None => (currentRoute, pool1)
      end
  end.

Definition relaxedMinimum (ctx : Context) (currentRoute : Route) : Z :=
  Z.max 1 (Qceiling (MIN_PALLETS_PER_ROUTE ctx
                     * (if (RELAX_MIN_ATTEMPTS ctx <=? seedAttempts currentRoute)%Z
                        then RELAX_MIN_FACTOR ctx else 1))).

Record LoopState := mkLoopState {
  unassignedShipments : list Shipment;
  routes : list Route;
  carriers : list Carrier;
  iteration : Z
}.

Definition withSeedAttempts (r : Route) (n : Z) : Route :=
  mkRoute (carrier r) (time r) (stops r) (totalPallets r) (routeCluster r) (routeId r) n (notes r).

Definition withRouteId (r : Route) (id : string) : Route :=
  mkRoute (carrier r) (time r) (stops r) (totalPallets r) (routeCluster r) id
          (seedAttempts r) (notes r).

(** The part of an iteration after a seed was taken out of the pool. *)
Definition seedStep (ctx : Context) (st : LoopState) (pool : list Shipment)
    (seed0 : Shipment) : LoopState :=
  let seedShipment := bumpAttempts seed0 in
  match findBestInitialCarrier seedShipment (carriers st) ctx with
  | None =>
      let reason :=
        match hasDeliveryWindow (restrictions ctx) (store seedShipment) with
        | Some _ => TimeConstraint
        | None => NoViableCarrier
        end in
      mkLoopState (pool ++ [setReason seedShipment reason]) (routes st) (carriers st)
                  (iteration st)
  | Some bestRouteOption =>
      let route0 := withSeedAttempts (optRoute bestRouteOption) (attempts seedShipment) in
      let '(currentRoute, pool1) := growLoop (S (List.length pool)) ctx route0 pool in
      if Qlt_bool (totalPallets currentRoute) (inject_Z (relaxedMinimum ctx currentRoute)) then
        mkLoopState (pool1 ++ map bumpFailures (stops currentRoute)) (routes st) (carriers st)
                    (iteration st)
      else
        let id := (Str.stripWs (name (carrier currentRoute)) ++ "_"
                   ++ Str.ofZ (iteration st))%string in
        mkLoopState pool1 (routes st ++ [withRouteId currentRoute id])
                    (useSlot (carriers st) (optCarrier bestRouteOption)
                             (optTimeSlot bestRouteOption))
                    (iteration st + 1)
  end.

Record PlanningResult := mkPlanningResult {
  remainingShipments : list Shipment;
  iterationOut : Z;
  heldRoutes : list Route;   (* the local array [routes] when the function returns *)
  sheetRows : list Row;      (* rows appended to the plan sheet *)
  carriersOut : list Carrier
}.

(** The exit branch ([seedIndex === -1]) followed by the code after the loop. *)
Definition finishPlanning (ctx : Context) (st : LoopState) (pool : list Shipment)
    : PlanningResult :=
  let routes1 :=
    match routes st with [] => [] | _ => rebalanceRoutes (routes st) ctx end in
  let rows := flat_map (fun r => writeRouteToSheet r ctx) routes1 in
  let pf := utilizePullForwardRequests pool (carriers st) ctx routes1 in
  mkPlanningResult (pfRemaining pf) (iteration st) (pfRoutes pf) rows (pfCarriers pf).

Fixpoint planningLoop (fuel : nat) (ctx : Context) (st : LoopState) : option PlanningResult :=
  match fuel with
  | O => None
  | S fuel' =>
      let sorted := sortByPallets (unassignedShipments st) in
      let '(routes1, pool) := proactiveInsert ctx (routes st) sorted in
      let st1 := mkLoopState pool routes1 (carriers st) (iteration st) in
      match findSeed ctx [] pool with
      | None => Some (finishPlanning ctx st1 pool)
      | Some (before, seed, after) =>
          planningLoop fuel' ctx (seedStep ctx st1 (before ++ after) seed)
      end
  end.

(** Every round but the last raises the attempt count of one eligible
    shipment, so this many rounds are enough. *)
Definition seedBudget (ctx : Context) (shipments : list Shipment) : nat :=
  fold_right (fun s n => (Z.to_nat (MAX_PLANNING_ATTEMPTS ctx - attempts s) + n)%nat) 0%nat
             shipments.

Definition runPlanningLoop (shipmentsToPlan : list Shipment) (availableCarriers : list Carrier)
    (ctx : Context) (startIteration : Z) : option PlanningResult :=
  planningLoop (S (seedBudget ctx shipmentsToPlan)) ctx
    (mkLoopState shipmentsToPlan [] availableCarriers startIteration).

(* ------------------------------------------------------------------ *)
(** ** Overflow handler *)

Definition isTimeConstraint (s : Shipment) : bool :=
  match failureReason s with Some TimeConstraint => true | _ => false end.

Definition isOtherFailure (s : Shipment) : bool :=
  match failureReason s with Some TimeConstraint => false | Some _ => true | None => false end.

Definition manualCarrier (n : string) : Carrier := mkCarrier n 0 0 0 0 0 [].

Definition manualRoute (carrierName id note : string) (group : list Shipment) : Route :=
  mkRoute (manualCarrier carrierName) "" group (sumPallets group) "Manual Review" id 0 note.

Definition overspillCarrier : Carrier := mkCarrier "Overspill" 0 0 18 22 26 [].

(** [for (const route of overspillRoutes)]: first route that accepts. *)
Fixpoint addToOverspill (ctx : Context) (shipment : Shipment) (overspillRoutes : list Route)
    : list Route :=
  match overspillRoutes with
  | [] => [mkRoute overspillCarrier "23:00" [shipment] (pallets shipment) "Overspill" "" 0 ""]
  | route :: rest =>
      match checkAndScoreInsertion shipment route ctx with
      | Some _ => pushStop route shipment :: rest
      | None => route :: addToOverspill ctx shipment rest
      end
  end.

Definition packOverspill (ctx : Context) (overspillShipments : list Shipment) : list Route :=
  fold_left (fun routes s => addToOverspill ctx s routes)
            (sortByPallets overspillShipments) [].

Fixpoint numberOverspill (i : Z) (l : list Route) : list Route :=
  match l with
  | [] => []
  | r :: rest =>
      withRouteId r ("Overspill_" ++ Str.ofZ (i + 1))%string :: numberOverspill (i + 1) rest
  end.

Record Overflow := mkOverflow {
  timeGroup : list Shipment;       (* written as the route "Time_1" *)
  otherGroup : list Shipment;      (* written as the route "Other_1" *)
  overspillRoutes : list Route
}.

Definition classifyRemaining (shipments : list Shipment) (ctx : Context) : Overflow :=
  mkOverflow (filter isTimeConstraint shipments) (filter isOtherFailure shipments)
             (numberOverspill 0
                (packOverspill ctx (filter (fun s => negb (hasReason s)) shipments))).

Definition planRemainingShipments (shipments : list Shipment) (ctx : Context) : list Row :=
  let o := classifyRemaining shipments ctx in
  flat_map (fun r => writeRouteToSheet r ctx)
    ([manualRoute "Unplannable (Time)" "Time_1"
        "Failed due to delivery window constraints." (timeGroup o)]
     ++ [manualRoute "Unplannable (Other)" "Other_1"
           "Failed planning after max attempts or no viable carrier." (otherGroup o)]
     ++ overspillRoutes o).

(** The plan written by [generatePlan]: the rows of the planning loop followed
    by the rows of the overflow handler. *)
Definition planRows (shipments : list Shipment) (allCarriers : list Carrier) (ctx : Context)
    : option (list Row) :=
  match runPlanningLoop shipments allCarriers ctx 1 with
  | Some res => Some (sheetRows res ++ planRemainingShipments (remainingShipments res) ctx)
  | None => None
  end.

(* ------------------------------------------------------------------ *)
(** ** Vocabulary of the statements *)

(** Distance and duration of a forward lookup, zero when the entry is absent. *)
Definition legDistance (dm : DistanceMatrix) (a b : string) : Q :=
  match dm a b with Some l => distance l | None => 0 end.

Definition legDuration (dm : DistanceMatrix) (a b : string) : Q :=
  match dm a b with Some l => duration l | None => 0 end.

(** Sum of [f] over the consecutive pairs of the tour that starts at [from],
    visits [l] and ends at [wh]. *)
Fixpoint tourSum (f : string -> string -> Q) (from : string) (l : list string)
    (wh : string) : Q :=
  match l with
  | [] => f from wh
  | s :: l' => f from s + tourSum f s l' wh
  end.

(** [dm'] knows every entry of [dm]. *)
Definition extends (dm dm' : DistanceMatrix) : Prop :=
  forall a b l, dm a b = Some l -> dm' a b = Some l.

Definition nonnegLegs (dm : DistanceMatrix) : Prop :=
  forall a b l, dm a b = Some l -> 0 <= distance l /\ 0 <= duration l.

Definition nonnegDurations (dm : DistanceMatrix) : Prop :=
  forall a b l, dm a b = Some l -> 0 <= duration l.



(** Comparison of two simulator states: the second run is at least as far in
    travel time and in on-duty time, also after levelling the breaks. *)
Definition ahead (st st' : HOS.State) : Prop :=
  HOS.travel st <= HOS.travel st'
  /\ HOS.onDuty st <= HOS.onDuty st'
  /\ HOS.onDuty st
       + 30 * (inject_Z (HOS.breaksTaken st') - inject_Z (HOS.breaksTaken st))
     <= HOS.onDuty st'
  /\ HOS.currentLocation st = HOS.currentLocation st'.

(* ------------------------------------------------------------------ *)
(** ** Scenarios used as concrete inputs *)

Definition scenarioD_matrix : DistanceMatrix :=
  fun a b => if (String.eqb a "S1" && String.eqb b "S2")%bool
             then Some (mkLeg 40 60) else None.

Definition oneWayMatrix : DistanceMatrix :=
  fun a b => if (String.eqb a "US0007" && String.eqb b "S1")%bool
             then Some (mkLeg 50 60) else None.

Definition roundTripMatrix : DistanceMatrix :=
  fun a b => if (String.eqb a "US0007" && String.eqb b "S1")%bool
             then Some (mkLeg 50 60)
             else if (String.eqb a "S1" && String.eqb b "US0007")%bool
                  then Some (mkLeg 50 60) else None.

(** The legs of a tour in the sense of the glossary: depot to first store,
    store to store, last store to depot (forward entries). *)
Definition tourLegs (dm : DistanceMatrix) (wh : string) (stores : list string) : list Q :=
  match stores with
  | [] => []
  | _ =>
      (fix go (from : string) (l : list string) : list Q :=
         match l with
         | [] => [legDistance dm from wh]
         | s :: l' => legDistance dm from s :: go s l'
         end) wh stores
  end.

(** Sum over the legs of [(max(0, leg - threshold))^2]. *)
Definition penaltyOf (legs : list Q) (threshold : Q) : Q :=
  fold_right (fun d acc => Qmax 0 (d - threshold) * Qmax 0 (d - threshold) + acc) 0 legs.

(** The legs the scorer extracts for a stop sequence. *)
Definition interStopLegs (ctx : Context) (routeStops : list Shipment) : list Q :=
  legDistances
    (getLegDistanceDetails
       (advancedOptimizeStopOrder routeStops (warehouse ctx) (distanceMatrix ctx))
       (distanceMatrix ctx)).

Definition sequencedMetrics (ctx : Context) (routeStops : list Shipment) : Metrics :=
  calculateRouteMetricsWithHOS
    (advancedOptimizeStopOrder routeStops (warehouse ctx) (distanceMatrix ctx))
    (warehouse ctx) (distanceMatrix ctx) (detailedDurations ctx).

(** The stores of the sequenced route, in visiting order. *)
Definition visitOrder (ctx : Context) (routeStops : list Shipment) : list string :=
  uniq (map store
          (advancedOptimizeStopOrder routeStops (warehouse ctx) (distanceMatrix ctx))).

(** [a] and [b] are consecutive entries of [l]. *)
Definition consecutive (l : list string) (a b : string) : Prop :=
  exists l1 l2, l = l1 ++ a :: b :: l2.

(** The threshold the temperature rule ends up using. *)
Definition smallAmbientLimit (ctx : Context) : Q :=
  if Qeq_bool (SMALL_AMBIENT_THRESHOLD ctx) 0 then 4 else SMALL_AMBIENT_THRESHOLD ctx.

(** Everything an accepted insertion has passed, and the value returned. *)
Record Accepted (shipment : Shipment) (route : Route) (ctx : Context) (score : Q) : Prop :=
  mkAccepted {
    acc_stops :
      (Zlength_of (uniq (map store (stops route ++ [shipment]))) <= MAX_STOPS_GENERAL ctx)%Z;
    acc_temp : tempCheck ctx (stops route ++ [shipment]) = true;
    acc_window : windowRejects ctx shipment (time route) = false;
    acc_current :
      hasMissingData
        (getLegDistanceDetails
           (advancedOptimizeStopOrder (stops route) (warehouse ctx) (distanceMatrix ctx))
           (distanceMatrix ctx)) = false;
    acc_proposed :
      hasMissingData
        (getLegDistanceDetails
           (advancedOptimizeStopOrder (stops route ++ [shipment]) (warehouse ctx)
              (distanceMatrix ctx))
           (distanceMatrix ctx)) = false;
    acc_maxLeg : maxOf (interStopLegs ctx (stops route ++ [shipment])) <= hardLegLimit ctx;
    acc_mileage :
      inject_Z (totalDistance (sequencedMetrics ctx (stops route ++ [shipment])))
      <= MAX_ROUTE_MILEAGE ctx;
    acc_hos : hosStatus (sequencedMetrics ctx (stops route ++ [shipment])) = OK;
    acc_score :
      score
      = (routeCost (carrier route) (sequencedMetrics ctx (stops route ++ [shipment]))
         - routeCost (carrier route) (sequencedMetrics ctx (stops route)))
        + (calculateDistancePenalty (interStopLegs ctx (stops route ++ [shipment]))
             (preferredLegThreshold ctx)
           - calculateDistancePenalty (interStopLegs ctx (stops route))
               (preferredLegThreshold ctx))
  }.

Definition depot : string := "US0007".

(** A distance matrix given by its rows [(from, to, miles, minutes)]. *)
Definition matrixOf (rows : list (string * string * Q * Q)) : DistanceMatrix :=
  fun a b =>
    match find (fun r => (String.eqb (fst (fst (fst r))) a
                          && String.eqb (snd (fst (fst r))) b)%bool) rows with
    | Some r => Some (mkLeg (snd (fst r)) (snd r))
    | None => None
    end.

(** The settings of [SettingsService.get] and [generatePlan], with no
    restrictions and no duration table. *)
Definition defaultContext (dm : DistanceMatrix) : Context :=
  mkContext (fun _ => None) (fun _ _ => None) dm depot
            1 425 5 60 75 true 6 20 5 4 (8 # 10) 3.

Definition withMaxStops (ctx : Context) (n : Z) : Context :=
  mkContext (restrictions ctx) (detailedDurations ctx) (distanceMatrix ctx) (warehouse ctx)
            (OVERPLAN_FACTOR ctx) (MAX_ROUTE_MILEAGE ctx) n (MAX_DISTANCE_BETWEEN_STOPS ctx)
            (ABSOLUTE_MAX_DISTANCE_BETWEEN_STOPS ctx) (ALLOW_ALL_ALL ctx)
            (SMALL_AMBIENT_THRESHOLD ctx) (MIN_PALLETS_PER_ROUTE ctx)
            (MAX_PLANNING_ATTEMPTS ctx) (RELAX_MIN_ATTEMPTS ctx) (RELAX_MIN_FACTOR ctx)
            (CLUSTER_FAILURE_THRESHOLD ctx).

(** A shipment as [getShipments] and [generatePlan] hand it to the planner. *)
Definition newShipment (st : string) (c : Category) (p : Q) : Shipment :=
  mkShipment st c p None "Others" 0 0 None.

Definition carrierHB (slots : Z) : Carrier :=
  mkCarrier "HB" 1 100 18 22 26 [mkTimeSlot "08:00" slots 0].

Definition emptyRoute (c : Carrier) : Route := mkRoute c "08:00" [] 0 "Others" "" 0 "".

(** Two stores five miles apart, each a hundred miles from the depot. *)
Definition farPairMatrix : DistanceMatrix :=
  matrixOf [(depot, "S1", 100, 120); ("S1", depot, 100, 120);
            (depot, "S2", 100, 120); ("S2", depot, 100, 120);
            ("S1", "S2", 5, 10); ("S2", "S1", 5, 10)]%string.

Definition farPairShipments : list Shipment :=
  [newShipment "S1" Ambient 12; newShipment "S2" Ambient 8].

(** One store a hundred miles from the depot. *)
Definition farStoreMatrix : DistanceMatrix :=
  matrixOf [(depot, "S1", 100, 120); ("S1", depot, 100, 120)]%string.

Definition nearStoreMatrix : DistanceMatrix :=
  matrixOf [(depot, "S1", 50, 60); ("S1", depot, 50, 60)]%string.

(** Three stores; [b] is next to [a] and to [c], which are thirty miles apart. *)
Definition triangleMatrix : DistanceMatrix :=
  matrixOf [(depot, "a", 10, 15); ("a", depot, 10, 15);
            (depot, "b", 10, 15); ("b", depot, 10, 15);
            (depot, "c", 10, 15); ("c", depot, 10, 15);
            ("a", "b", 1, 2); ("b", "a", 1, 2);
            ("c", "b", 1, 2); ("b", "c", 1, 2);
            ("a", "c", 30, 40); ("c", "a", 30, 40)]%string.

Definition triangleShipments : list Shipment :=
  [newShipment "a" Ambient 9; newShipment "c" Ambient 7; newShipment "b" Ambient 2].

Definition triangleContext : Context := withMaxStops (defaultContext triangleMatrix) 2.

(** [x] occurs in [l] with [y] somewhere after it. *)
Definition before (l : list string) (x y : string) : Prop :=
  exists l1 l2, l = l1 ++ x :: l2 /\ In y l2.

(** Order of two keys in the enumeration of an object, when it does not
    depend on the insertion order. *)
Definition rankLt (x y : string) : Prop :=
  Keys.isIndex x = true
  /\ (Keys.isIndex y = false
      \/ (Keys.isIndex y = true /\ (Keys.indexValue x < Keys.indexValue y)%Z)).

Definition rankEq (x y : string) : Prop :=
  (Keys.isIndex x = false /\ Keys.isIndex y = false)
  \/ (Keys.isIndex x = true /\ Keys.isIndex y = true
      /\ Keys.indexValue x = Keys.indexValue y).

(** The outcome of one scan of [runNearestNeighbor]: nothing is reachable, or
    the list splits at the picked item, which is strictly nearer than every
    item in front of it and at least as near as every item behind it. *)
Inductive Pick (dm : DistanceMatrix) (cur : string) (remaining : list string)
    : option nat -> Prop :=
| PickNone :
    (forall y, In y remaining -> dm cur y = None) -> Pick dm cur remaining None
| PickSome l1 x lx l2 :
    remaining = l1 ++ x :: l2 ->
    dm cur x = Some lx ->
    (forall y ly, In y l1 -> dm cur y = Some ly -> distance lx < distance ly) ->
    (forall y ly, In y l2 -> dm cur y = Some ly -> distance lx <= distance ly) ->
    Pick dm cur remaining (Some (List.length l1)).

(** [y] is not an entry of [l]. *)
Definition notIn (l : list string) (y : string) : bool :=
  negb (existsb (String.eqb y) l).

(** The intermediate lists of [advancedOptimizeStopOrder]. *)
Definition seqKeys (routeStops : list Shipment) : list string :=
  Keys.ownKeys (uniq (map store routeStops)).

Definition seqAmbientOnly (routeStops : list Shipment) : list string :=
  filter (fun k => negb (hasCold routeStops k)) (seqKeys routeStops).

Definition seqWithCold (routeStops : list Shipment) : list string :=
  filter (hasCold routeStops) (seqKeys routeStops).

Definition seqOrderedAmbient (dm : DistanceMatrix) (wh : string)
    (routeStops : list Shipment) : list string :=
  runNearestNeighbor (seqAmbientOnly routeStops) wh dm.

Definition seqOrderedCold (dm : DistanceMatrix) (wh : string)
    (routeStops : list Shipment) : list string :=
  runNearestNeighbor (seqWithCold routeStops)
    (last (seqOrderedAmbient dm wh routeStops) wh) dm.

(** Store [S1] takes deliveries between nine and eleven in the morning. *)
Definition morningWindow : Restrictions :=
  fun st => if String.eqb st "S1" then Some (mkRestriction "" "" "" "09:00-11:00") else None.

Definition withRestrictions (ctx : Context) (res : Restrictions) : Context :=
  mkContext res (detailedDurations ctx) (distanceMatrix ctx) (warehouse ctx)
            (OVERPLAN_FACTOR ctx) (MAX_ROUTE_MILEAGE ctx) (MAX_STOPS_GENERAL ctx)
            (MAX_DISTANCE_BETWEEN_STOPS ctx) (ABSOLUTE_MAX_DISTANCE_BETWEEN_STOPS ctx)
            (ALLOW_ALL_ALL ctx) (SMALL_AMBIENT_THRESHOLD ctx) (MIN_PALLETS_PER_ROUTE ctx)
            (MAX_PLANNING_ATTEMPTS ctx) (RELAX_MIN_ATTEMPTS ctx) (RELAX_MIN_FACTOR ctx)
            (CLUSTER_FAILURE_THRESHOLD ctx).

(** Two stores eighty miles apart. *)
Definition longLegMatrix : DistanceMatrix :=
  matrixOf [(depot, "S1", 20, 30); ("S1", depot, 20, 30);
            (depot, "S2", 20, 30); ("S2", depot, 20, 30);
            ("S1", "S2", 80, 90); ("S2", "S1", 80, 90)]%string.

(** A shipment up to its insertion-failure counter. *)
Definition core (s : Shipment)
    : string * Category * Q * option string * string * Z * option FailureReason :=
  (freight s, attempts s, failureReason s).

Definition allStops (rs : list Route) : list Shipment := flat_map stops rs.

(** Seeding rounds a shipment can still take part in. *)
Definition seedWeight (ctx : Context) (s : Shipment) : nat :=
  if hasReason s then 0%nat else Z.to_nat (MAX_PLANNING_ATTEMPTS ctx - attempts s).

Definition seedsLeft (ctx : Context) (pool : list Shipment) : nat :=
  list_sum (map (seedWeight ctx) pool).

(** Shipments of the pull-forward pass: those in the routes created so far and
    those in the pool. *)
Definition pfHeld (created : list Route) (pool : list Shipment) :=
  map core (allStops created ++ pool).

(* ------------------------------------------------------------------ *)
(** ** Vocabulary of the further properties *)

(** Length of a trailer in feet. *)
Definition feet (t : TrailerSize) : Z :=
  match t with T36 => 36 | T48 => 48 | T53 => 53 end.
(** The two moves of the rebalancer: the merge of a route into another route
    of the same carrier and time slot, and the exchange of one stop between
    two such routes. *)
Inductive RebalanceMove (ctx : Context) (routes : list Route) : list Route -> Prop :=
| MoveMerge (i j : nat) (sourceRoute targetRoute : Route) :
    i <> j ->
    nth_error routes i = Some sourceRoute ->
    nth_error routes j = Some targetRoute ->
    sameSlot sourceRoute targetRoute = true ->
    canMoveAll ctx targetRoute (stops targetRoute) (totalPallets targetRoute)
               (stops sourceRoute)
    = Some (stops targetRoute ++ stops sourceRoute) ->
    isRouteValid (withStops targetRoute (stops targetRoute ++ stops sourceRoute)
                    (totalPallets targetRoute + totalPallets sourceRoute)) ctx = true ->
    RebalanceMove ctx routes
      (removeAt i
         (setNth j (withStops targetRoute (stops targetRoute ++ stops sourceRoute)
                      (totalPallets targetRoute + totalPallets sourceRoute))
                 routes))
| MoveSwap (i j : nat) (route1 route2 : Route) (si sj : nat) (stop1 stop2 : Shipment) :
    (i < j)%nat ->
    nth_error routes i = Some route1 ->
    nth_error routes j = Some route2 ->
    sameSlot route1 route2 = true ->
    nth_error (stops route1) si = Some stop1 ->
    nth_error (stops route2) sj = Some stop2 ->
    swapAccepted ctx route1 route2 (applySwap route1 route2 si sj stop1 stop2) = true ->
    RebalanceMove ctx routes
      (setNth j (trial2 (applySwap route1 route2 si sj stop1 stop2))
         (setNth i (trial1 (applySwap route1 route2 si sj stop1 stop2)) routes)).

Inductive RebalanceMoves (ctx : Context) : list Route -> list Route -> Prop :=
| MovesDone (routes : list Route) : RebalanceMoves ctx routes routes
| MovesStep (routes routes1 routes2 : list Route) :
    RebalanceMove ctx routes routes1 ->
    RebalanceMoves ctx routes1 routes2 ->
    RebalanceMoves ctx routes routes2.

(** A route that differs from [r0] at most in its stops and pallet total. *)
Definition stemsFrom (r r0 : Route) : Prop :=
  r = withStops r0 (stops r) (totalPallets r).
(** A carrier slot in which a seed route for the shipment may start: the slot
    has a free place and the insertion scorer accepts the shipment on the
    empty route of that carrier and time (which carries the shipment's
    pallets as its total already). *)
Definition seedSlotOpen (shipment : Shipment) (ctx : Context) (c : Carrier) (ts : TimeSlot)
    : bool :=
  ((used ts <? capacity ts)%Z
   && match checkAndScoreInsertion shipment
              (withStops (seedRoute shipment c ts) [] (pallets shipment)) ctx with
      | Some _ => true
      | None => false
      end)%bool.

(** Cost of the single-stop route of the shipment with a carrier. *)
Definition seedCost (shipment : Shipment) (ctx : Context) (c : Carrier) : Q :=
  routeCost c (calculateRouteMetricsWithHOS [shipment] (warehouse ctx) (distanceMatrix ctx)
                 (detailedDurations ctx)).

(** Order in which the carrier slots are scanned. *)
Definition earlierSlot (ci ti ci' ti' : nat) : Prop :=
  (ci < ci')%nat \/ (ci = ci' /\ (ti < ti')%nat).

(** What the scan of the carrier slots knows after the slots in [scanned]. *)
Definition BestSoFar (shipment : Shipment) (ctx : Context) (carriers : list Carrier)
    (scanned : nat -> nat -> Prop) (best : option RouteOption * option Q) : Prop :=
  match fst best with
  | None =>
      snd best = None
      /\ forall ci ti c ts,
           nth_error carriers ci = Some c -> nth_error (timeSlots c) ti = Some ts ->
           scanned ci ti -> seedSlotOpen shipment ctx c ts = false
  | Some o =>
      exists c ts,
        nth_error carriers (optCarrier o) = Some c
        /\ nth_error (timeSlots c) (optTimeSlot o) = Some ts
        /\ scanned (optCarrier o) (optTimeSlot o)
        /\ seedSlotOpen shipment ctx c ts = true
        /\ optRoute o = seedRoute shipment c ts
        /\ snd best = Some (seedCost shipment ctx c)
        /\ forall ci ti c' ts',
             nth_error carriers ci = Some c' -> nth_error (timeSlots c') ti = Some ts' ->
             scanned ci ti -> seedSlotOpen shipment ctx c' ts' = true ->
             seedCost shipment ctx c <= seedCost shipment ctx c'
             /\ (earlierSlot ci ti (optCarrier o) (optTimeSlot o) ->
                 seedCost shipment ctx c < seedCost shipment ctx c')
  end.
(** What every route held by the planner satisfies: the stop limit, the
    temperature rule and the trailer capacity (the first three checks of
    [isRouteValid]), a stored pallet total that is the sum of its stops, and
    a time inside the delivery window of each of its stops. *)
Record routeGood (ctx : Context) (r : Route) : Prop := mkRouteGood {
  good_stores : (Zlength_of (uniq (map store (stops r))) <= MAX_STOPS_GENERAL ctx)%Z;
  good_temp : tempCheck ctx (stops r) = true;
  good_capacity : totalPallets r <= routeCapacity r ctx * OVERPLAN_FACTOR ctx;
  good_total : totalPallets r == sumPallets (stops r);
  good_windows : forall s, In s (stops r) -> windowRejects ctx s (time r) = false;
  good_nonempty : stops r <> []
}.

Definition nonnegPallets (l : list Shipment) : Prop :=
  Forall (fun s => 0 <= pallets s) l.
(** Store S1 takes deliveries between six and ten in the morning. *)
Definition dayWindow : Restrictions :=
  fun st => if String.eqb st "S1" then Some (mkRestriction "" "" "" "06:00-10:00") else None.
(** A time slot later in a planning run: the same time and capacity, no
    fewer routes booked, and still within its capacity if it was before. *)
Definition slotGrows (ts ts' : TimeSlot) : Prop :=
  slotTime ts' = slotTime ts /\ capacity ts' = capacity ts
  /\ (used ts <= used ts')%Z
  /\ ((used ts <= capacity ts)%Z -> (used ts' <= capacity ts')%Z).

Definition carrierGrows (c c' : Carrier) : Prop :=
  name c' = name c /\ costPerMile c' = costPerMile c /\ costPerRoute c' = costPerRoute c
  /\ pallets36 c' = pallets36 c /\ pallets48 c' = pallets48 c /\ pallets53 c' = pallets53 c
  /\ Forall2 slotGrows (timeSlots c) (timeSlots c').

(** Routes booked on a list of slots, on a carrier, on a list of carriers. *)
Definition sumUsed (slots : list TimeSlot) : Z :=
  fold_right (fun ts n => (used ts + n)%Z) 0%Z slots.

Definition usedBy (c : Carrier) : Z := sumUsed (timeSlots c).

Definition usedTotal (cs : list Carrier) : Z :=
  fold_right (fun c n => (usedBy c + n)%Z) 0%Z cs.

(* ------------------------------------------------------------------ *)
(** ** Sheet readers

    A sheet is the array of rows that [getSheetData] returns, [None] when the
    sheet is missing or has no row.  A cell holds text (the empty string for
    an empty cell) or a number; date and boolean cells are not modelled.  The
    conversions between numbers and text that the readers rely on,
    [String(n)], [parseFloat(s)] and [parseInt(s, 10)], are parameters of the
    readers, and so is the direction finder of the maps service.  A table
    keyed by names of the sheet holds the entries the script stored: names
    that every object inherits (such as [constructor]) are not modelled as
    keys. *)

Inductive Cell := CText (s : string) | CNum (q : Q).

Definition Sheet := option (list (list Cell)).

Definition lower (c : ascii) : ascii :=
  let n := nat_of_ascii c in
  if (Nat.leb 65 n && Nat.leb n 90)%bool then ascii_of_nat (n + 32) else c.

(** The Kelvin sign U+212A, the bytes E2 84 AA: the one character outside
    ASCII whose lower case is an ASCII letter. *)
Definition isKelvin (b1 b2 b3 : ascii) : bool :=
  (Str.byteIs b1 226 && Str.byteIs b2 132 && Str.byteIs b3 170)%bool.

Fixpoint lowerBytes (l : list ascii) : list ascii :=
  match l with
  | [] => []
  | b1 :: l1 =>
      match l1 with
      | b2 :: b3 :: l3 =>
          if isKelvin b1 b2 b3 then "k"%char :: lowerBytes l3
          else lower b1 :: lowerBytes l1
      | _ => lower b1 :: lowerBytes l1
      end
  end.

(** [s.toLowerCase()], as far as the script can tell: its results are only
    compared with ASCII words ('standby', 'chiller', 'meat', 'freezer',
    'freezertkt'), so the letters A to Z and the Kelvin sign are mapped and
    every other character is left as it is. *)
Definition toLowerCase (s : string) : string :=
  string_of_list_ascii (lowerBytes (list_ascii_of_string s)).

(** [headers.indexOf(name)]: the first cell that is the text [name]. *)
Fixpoint indexOfFrom (name : string) (headers : list Cell) (i : nat) : option nat :=
  match headers with
  | [] => None
  | CText s :: rest => if String.eqb s name then Some i else indexOfFrom name rest (S i)
  | CNum _ :: rest => indexOfFrom name rest (S i)
  end.

Definition indexOf (name : string) (headers : list Cell) : option nat :=
  indexOfFrom name headers 0.

(** [row[i]] for an index that may be [-1]. *)
Definition cellAt (row : list Cell) (i : option nat) : option Cell :=
  match i with Some n => nth_error row n | None => None end.

(** Truthiness of [row[i]]. *)
Definition cellTruthy (c : option Cell) : bool :=
  match c with
  | Some (CText s) => negb (Str.isEmpty s)
  | Some (CNum q) => negb (Qeq_bool q 0)
  | None => false
  end.

Definition categoryName (c : Category) : string :=
  match c with
  | Ambient => "Ambient"
  | Chiller => "Chiller"
  | Freezer => "Freezer"
  | Produce => "Produce"
  end.

(** The category read off [Pallet Type 1]. *)
Definition categoryOfPalletType (palletType1 : string) : Category :=
  let palletTypeLower := toLowerCase palletType1 in
  if (String.eqb palletTypeLower "chiller" || String.eqb palletTypeLower "meat")%bool
  then Chiller
  else if (String.eqb palletTypeLower "freezer"
           || String.eqb palletTypeLower "freezertkt")%bool
  then Freezer
  else Ambient.

(** A shipment object as [getShipments] builds it ([attempts] and
    [insertionFailures] are 0, [failureReason] is null, no cluster yet). *)
Record SheetShipment := mkSheetShipment {
  shStore : string;
  shCategory : Category;
  shPallets : Q;
  shPalletType1 : string;
  shPalletType2 : string;
  shProductTypeId : option string
}.

Record ShipmentColumns := mkShipmentColumns {
  storeIndex : nat;
  palletType1Index : nat;
  palletType2Index : nat;
  palletsIndex : nat;
  productStatusIndex : option nat
}.

Definition firstOf (a b : option nat) : option nat :=
  match a with Some _ => a | None => b end.

(** The column indices, [None] when a required column is missing. *)
Definition shipmentColumns (headers : list Cell) : option ShipmentColumns :=
  match indexOf "Store" headers,
        firstOf (indexOf "Pallet Type 1" headers) (indexOf "PalletType1" headers),
        firstOf (indexOf "Pallet Type 2" headers) (indexOf "PalletType2" headers),
        indexOf "Pallets" headers with
  | Some s, Some p1, Some p2, Some p =>
      Some (mkShipmentColumns s p1 p2 p (indexOf "Status" headers))
  | _, _, _, _ => None
  end.

(** [`${store}-${category}`] *)
Definition shipmentKey (s : SheetShipment) : string :=
  (shStore s ++ "-" ++ categoryName (shCategory s))%string.

Definition addPallets (s : SheetShipment) (p : Q) : SheetShipment :=
  mkSheetShipment (shStore s) (shCategory s) (shPallets s + p) (shPalletType1 s)
                  (shPalletType2 s) (shProductTypeId s).

(** [aggregatedShipments], as the list of its entries in insertion order
    (no key of it is an array index, so this is the order of
    [Object.values]). *)
Fixpoint addShipment (key : string) (s : SheetShipment)
    (aggregatedShipments : list (string * SheetShipment)) : list (string * SheetShipment) :=
  match aggregatedShipments with
  | [] => [(key, s)]
  | (k, old) :: rest =>
      if String.eqb k key then (k, addPallets old (shPallets s)) :: rest
      else (k, old) :: addShipment key s rest
  end.

(** [productTypeMap[palletType1] || null] *)
Definition productTypeOf (productTypeMap : string -> option string) (palletType1 : string)
    : option string :=
  match productTypeMap palletType1 with
  | Some v => if Str.isEmpty v then None else Some v
  | None => None
  end.

Section SheetReaders.

Variable numberText : Q -> string.
Variable parseFloatText : string -> option Q.

(** [String(c || '')] *)
Definition cellText (c : option Cell) : string :=
  match c with
  | Some (CText s) => s
  | Some (CNum q) => if Qeq_bool q 0 then ""%string else numberText q
  | None => ""%string
  end.

(** [parseFloat(c)]; [None] is NaN. *)
Definition parseFloatCell (c : option Cell) : option Q :=
  match c with
  | Some (CText s) => parseFloatText s
  | Some (CNum q) => Some q
  | None => None
  end.

(** The shipment of one row, if the row is valid and not on standby. *)
Definition readShipmentRow (cols : ShipmentColumns) (productTypeMap : string -> option string)
    (row : list Cell) : option SheetShipment :=
  let store := Str.trim (cellText (nth_error row (storeIndex cols))) in
  let palletType1 := Str.trim (cellText (nth_error row (palletType1Index cols))) in
  let palletType2 := Str.trim (cellText (nth_error row (palletType2Index cols))) in
  let status :=
    match productStatusIndex cols with
    | Some i => toLowerCase (cellText (nth_error row i))
    | None => ""%string
    end in
  match parseFloatCell (nth_error row (palletsIndex cols)) with
  | None => None
  | Some pallets =>
      if (Str.isEmpty store || Str.isEmpty palletType1)%bool then None
      else if String.eqb status "standby" then None
      else Some (mkSheetShipment store (categoryOfPalletType palletType1) pallets
                   palletType1 palletType2 (productTypeOf productTypeMap palletType1))
  end.

Definition aggregateRow (cols : ShipmentColumns) (productTypeMap : string -> option string)
    (aggregatedShipments : list (string * SheetShipment)) (row : list Cell)
    : list (string * SheetShipment) :=
  match readShipmentRow cols productTypeMap row with
  | Some s => addShipment (shipmentKey s) s aggregatedShipments
  | None => aggregatedShipments
  end.

Definition getShipments (productTypeMap : string -> option string) (values : Sheet)
    : list SheetShipment :=
  match values with
  | None | Some [] | Some [_] => []
  | Some (headers :: rows) =>
      match shipmentColumns headers with
      | None => []
      | Some cols => map snd (fold_left (aggregateRow cols productTypeMap) rows [])
      end
  end.

End SheetReaders.

(** The valid rows of a shipment sheet, in order. *)
Definition shipmentRows (numberText : Q -> string) (parseFloatText : string -> option Q)
    (cols : ShipmentColumns) (productTypeMap : string -> option string)
    (rows : list (list Cell)) : list SheetShipment :=
  flat_map (fun row =>
              match readShipmentRow numberText parseFloatText cols productTypeMap row with
              | Some s => [s]
              | None => []
              end) rows.

(** Pallets of the shipments of a store and category in a list. *)
Definition palletsOf (st : string) (c : Category) (l : list SheetShipment) : Q :=
  fold_right (fun s acc =>
                if (String.eqb (shStore s) st && Category_eqb (shCategory s) c)%bool
                then shPallets s + acc else acc) 0 l.

(** The last stop of the route would fit on its trailer once more. *)
Definition roomForLastStopAgain (ctx : Context) (r : Route) : Prop :=
  exists front s,
    stops r = front ++ [s]
    /\ ~ routeCapacity r ctx == 0
    /\ totalPallets r + pallets s <= routeCapacity r ctx * OVERPLAN_FACTOR ctx.

(* ------------------------------------------------------------------ *)
(** ** The distance matrix sheet and the direction finder *)

Record MatrixColumns := mkMatrixColumns {
  fromIndex : nat;
  toIndex : nat;
  distIndex : nat;
  durIndex : nat
}.

(** The column indices, [None] when one of them is [-1]. *)
Definition matrixColumns (headers : list Cell) : option MatrixColumns :=
  match indexOf "From" headers, indexOf "To" headers,
        indexOf "Distance (M)" headers, indexOf "Duration (Min)" headers with
  | Some f, Some t, Some d, Some u => Some (mkMatrixColumns f t d u)
  | _, _, _, _ => None
  end.

(** [matrix[from][to] = leg], after [if (!matrix[from]) matrix[from] = {}]. *)
Definition setLeg (matrix : DistanceMatrix) (from to : string) (leg : Leg) : DistanceMatrix :=
  fun a b => if (String.eqb a from && String.eqb b to)%bool then Some leg else matrix a b.

(** An entry of [addressData]; the fields hold the text of the stored
    values. *)
Record Address := mkAddress {
  adName : string;
  adStreet : string;
  adCity : string;
  adZip : string;
  adCluster : string
}.

Definition AddressData := string -> option Address.

(** [addressData[st] ? `${street}, ${city}` : null] *)
Definition addressLine (addressData : AddressData) (st : string) : option string :=
  match addressData st with
  | Some adr => Some (adStreet adr ++ ", " ++ adCity adr)%string
  | None => None
  end.

(** [[...new Set(shipments.map(s => s.store)), warehouseLocation]] *)
Definition uniqueStoreNumbers (stores : list string) (warehouseLocation : string)
    : list string :=
  uniq stores ++ [warehouseLocation].

Definition missingPairs (matrix : DistanceMatrix) (uniqueStoreNumbers : list string)
    : list (string * string) :=
  flat_map (fun from =>
              flat_map (fun to =>
                          match matrix from to with
                          | None => if String.eqb from to then [] else [(from, to)]
                          | Some _ => []
                          end) uniqueStoreNumbers) uniqueStoreNumbers.

(** The entry stored for a leg of [meters] metres and [seconds] seconds. *)
Definition directionsLeg (meters seconds : Q) : Leg :=
  mkLeg (inject_Z (js_round (meters * (621371 # 1000000000))))
        (inject_Z (js_round (seconds / 60))).

Definition keyUsable (apiKey : string) : bool :=
  (negb (Str.isEmpty apiKey) && negb (String.eqb apiKey "YOUR_API_KEY"))%bool.

Section DistanceMatrixReader.

Variable numberText : Q -> string.
Variable parseFloatText : string -> option Q.

(** The direction finder: [directions n origin destination] is the answer to
    the [n]-th request of a run, the length in metres and the duration in
    seconds of the first leg of the first route, or [None] when it finds no
    route or raises. *)
Variable directions : nat -> string -> string -> option (Q * Q).

(** [parseFloat(c) || 0] *)
Definition floatOrZero (c : option Cell) : Q :=
  match parseFloatCell parseFloatText c with
  | Some q => q
  | None => 0
  end.

(** The keys [from] and [to] of a row, when both cells are truthy. *)
Definition rowKeys (cols : MatrixColumns) (row : list Cell) : option (string * string) :=
  let from := nth_error row (fromIndex cols) in
  let to := nth_error row (toIndex cols) in
  if (negb (cellTruthy from) || negb (cellTruthy to))%bool then None
  else Some (cellText numberText from, cellText numberText to).

Definition rowLeg (cols : MatrixColumns) (row : list Cell) : Leg :=
  mkLeg (floatOrZero (nth_error row (distIndex cols)))
        (floatOrZero (nth_error row (durIndex cols))).

Definition readMatrixRow (cols : MatrixColumns) (matrix : DistanceMatrix) (row : list Cell)
    : DistanceMatrix :=
  match rowKeys cols row with
  | Some (from, to) => setLeg matrix from to (rowLeg cols row)
  | None => matrix
  end.

(** The matrix read from the sheet; [None] when the function throws. *)
Definition sheetMatrix (sheetData : Sheet) : option DistanceMatrix :=
  match sheetData with
  | Some (headers :: row :: rows) =>
      match matrixColumns headers with
      | Some cols => Some (fold_left (readMatrixRow cols) (row :: rows) (fun _ _ => None))
      | None => None
      end
  | _ => Some (fun _ _ => None)
  end.

(** One missing pair; the state is the matrix and the number of requests
    made so far. *)
Definition askDirections (addressData : AddressData) (acc : DistanceMatrix * nat)
    (pair : string * string) : DistanceMatrix * nat :=
  let '(matrix, requests) := acc in
  match addressLine addressData (fst pair), addressLine addressData (snd pair) with
  | Some fromAdr, Some toAdr =>
      match directions requests fromAdr toAdr with
      | Some (meters, seconds) =>
          (setLeg matrix (fst pair) (snd pair) (directionsLeg meters seconds), S requests)
      | None => (matrix, S requests)
      end
  | _, _ => acc
  end.

Definition getDistanceMatrix (shipments : list SheetShipment) (addressData : AddressData)
    (warehouseLocation apiKey : string) (sheetData : Sheet) : option DistanceMatrix :=
  match sheetMatrix sheetData with
  | None => None
  | Some matrix =>
      let pairs :=
        missingPairs matrix (uniqueStoreNumbers (map shStore shipments) warehouseLocation) in
      match pairs with
      | [] => Some matrix
      | _ =>
          if keyUsable apiKey
          then Some (fst (fold_left (askDirections addressData) pairs (matrix, 0%nat)))
          else Some matrix
      end
  end.

End DistanceMatrixReader.

(* ------------------------------------------------------------------ *)
(** ** The carrier sheets *)

(** A plain object used as a table, held as its entries in insertion
    order. *)
Fixpoint entryOf {A} (k : string) (entries : list (string * A)) : option A :=
  match entries with
  | [] => None
  | (k', v) :: rest => if String.eqb k' k then Some v else entryOf k rest
  end.

(** [o[k] = f(o[k])] *)
Fixpoint upsert {A} (k : string) (f : option A -> A) (entries : list (string * A))
    : list (string * A) :=
  match entries with
  | [] => [(k, f None)]
  | (k', v) :: rest =>
      if String.eqb k' k then (k', f (Some v)) :: rest else (k', v) :: upsert k f rest
  end.

(** [Object.values(o)] *)
Definition objectValues {A} (entries : list (string * A)) : list A :=
  flat_map (fun k => match entryOf k entries with Some v => [v] | None => [] end)
           (Keys.ownKeys (map fst entries)).

(** An entry of [getCarrierCosts]. *)
Record Costs := mkCosts { perMile : Q; perRoute : Q; notToUse : Q }.

(** An entry of [getPalletCapacities]; [None] is NaN. *)
Record Capacities := mkCapacities {
  max36 : option Q;
  max48 : option Q;
  max53 : option Q
}.

(** [capacities?.field || d] *)
Definition capacityOr (capacities : option Capacities) (field : Capacities -> option Q) (d : Q)
    : Q :=
  match capacities with
  | Some c => match field c with Some q => num_or q d | None => d end
  | None => d
  end.

Definition appendSlots (c : Carrier) (slots : list TimeSlot) : Carrier :=
  mkCarrier (name c) (costPerMile c) (costPerRoute c) (pallets36 c) (pallets48 c)
            (pallets53 c) (timeSlots c ++ slots).

Section CarrierReaders.

Variable numberText : Q -> string.
Variable parseFloatText : string -> option Q.

(** [parseInt(s, 10)]; [None] is NaN. *)
Variable parseIntText : string -> option Z.

(** [String(c)] *)
Definition cellString (c : Cell) : string :=
  match c with
  | CText s => s
  | CNum q => numberText q
  end.

(** [parseInt(c, 10) || 0] *)
Definition intOrZero (c : option Cell) : Z :=
  match c with
  | Some c' => match parseIntText (cellString c') with Some n => n | None => 0%Z end
  | None => 0%Z
  end.

(** [String(row[0] || '').trim()] *)
Definition rowName (row : list Cell) : string :=
  Str.trim (cellText numberText (nth_error row 0)).

Definition readCostRow (costs : list (string * Costs)) (row : list Cell)
    : list (string * Costs) :=
  let carrierName := rowName row in
  if Str.isEmpty carrierName then costs
  else upsert carrierName
         (fun _ => mkCosts (floatOrZero parseFloatText (nth_error row 1))
                           (floatOrZero parseFloatText (nth_error row 2))
                           (floatOrZero parseFloatText (nth_error row 3)))
         costs.

Definition getCarrierCosts (values : Sheet) : list (string * Costs) :=
  match values with
  | Some (headers :: row :: rows) => fold_left readCostRow (row :: rows) []
  | _ => []
  end.

Definition readCapacityRow (carrierIndex sizeIndex maxPalletsIndex : option nat)
    (capacities : list (string * Capacities)) (row : list Cell)
    : list (string * Capacities) :=
  let carrier := Str.trim (cellText numberText (cellAt row carrierIndex)) in
  if Str.isEmpty carrier then capacities
  else
    let size := cellText numberText (cellAt row sizeIndex) in
    let maxPallets := parseFloatCell parseFloatText (cellAt row maxPalletsIndex) in
    upsert carrier
      (fun old =>
         let c := match old with
                  | Some c => c
                  | None => mkCapacities (Some 18) (Some 22) (Some 26)
                  end in
         if String.eqb size "36" then mkCapacities maxPallets (max48 c) (max53 c)
         else if String.eqb size "48" then mkCapacities (max36 c) maxPallets (max53 c)
         else if String.eqb size "53" then mkCapacities (max36 c) (max48 c) maxPallets
         else c)
      capacities.

Definition getPalletCapacities (values : Sheet) : list (string * Capacities) :=
  match values with
  | Some (headers :: row :: rows) =>
      fold_left (readCapacityRow (indexOf "Carrier" headers) (indexOf "Size" headers)
                   (indexOf "Max Pallets" headers))
                (row :: rows) []
  | _ => []
  end.

(** The carrier object created for a name; its field [costNotToUse] is not
    part of [Carrier]. *)
Definition newCarrier (palletCapacities : list (string * Capacities))
    (carrierCosts : list (string * Costs)) (carrierName : string) : Carrier :=
  let costs :=
    match entryOf carrierName carrierCosts with
    | Some c => c
    | None => mkCosts 0 0 0
    end in
  let capacities := entryOf carrierName palletCapacities in
  mkCarrier carrierName (perMile costs) (perRoute costs)
            (capacityOr capacities max36 18) (capacityOr capacities max48 22)
            (capacityOr capacities max53 26) [].

(** The slots that the inner loop pushes for one row: column [j + 1] of the
    row under header [timeSlotsHeaders[j]]. *)
Fixpoint slotsOfRow (timeSlotsHeaders : list Cell) (row : list Cell) (j : nat)
    : list TimeSlot :=
  match timeSlotsHeaders with
  | [] => []
  | time :: rest =>
      let capacity := intOrZero (nth_error row (S j)) in
      (if (0 <? capacity)%Z then [mkTimeSlot (Str.trim (cellString time)) capacity 0] else [])
      ++ slotsOfRow rest row (S j)
  end.

Definition readCarrierRow (palletCapacities : list (string * Capacities))
    (carrierCosts : list (string * Costs)) (timeSlotsHeaders : list Cell)
    (carriers : list (string * Carrier)) (row : list Cell) : list (string * Carrier) :=
  let carrierName := rowName row in
  if Str.isEmpty carrierName then carriers
  else upsert carrierName
         (fun old =>
            appendSlots (match old with
                         | Some c => c
                         | None => newCarrier palletCapacities carrierCosts carrierName
                         end)
                        (slotsOfRow timeSlotsHeaders row 0))
         carriers.

Definition getCarriers (carriers2 inventory costs : Sheet) : list Carrier :=
  match carriers2 with
  | Some (headers :: row :: rows) =>
      let palletCapacities := getPalletCapacities inventory in
      let carrierCosts := getCarrierCosts costs in
      objectValues
        (fold_left (readCarrierRow palletCapacities carrierCosts (tl headers))
                   (row :: rows) [])
  | _ => []
  end.

End CarrierReaders.

(** The data rows of the carrier sheet that name a carrier. *)
Definition carrierRows (numberText : Q -> string) (n : string) (rows : list (list Cell))
    : list (list Cell) :=
  filter (fun row => String.eqb (rowName numberText row) n) rows.

(** The names of the data rows of the carrier sheet, blank ones left out. *)
Definition namedCarriers (numberText : Q -> string) (rows : list (list Cell)) : list string :=
  filter (fun n => negb (Str.isEmpty n)) (map (rowName numberText) rows).

(** The carrier that the rows of a name add up to. *)
Definition carrierOfRows (numberText : Q -> string) (parseIntText : string -> option Z)
    (palletCapacities : list (string * Capacities)) (carrierCosts : list (string * Costs))
    (timeSlotsHeaders : list Cell) (n : string) (rows : list (list Cell)) : Carrier :=
  appendSlots (newCarrier palletCapacities carrierCosts n)
    (flat_map (fun row => slotsOfRow numberText parseIntText timeSlotsHeaders row 0)
              (carrierRows numberText n rows)).

(* ------------------------------------------------------------------ *)
(** ** The restrictions column *)

(** [v && v !== 'N/A'] *)
Definition flagged (v : string) : bool :=
  (negb (Str.isEmpty v) && negb (String.eqb v "N/A"))%bool.

Definition storeRestricted (r : Restriction) : bool :=
  (flagged (noise r) || flagged (equipmentNight r) || flagged (equipmentDay r)
   || (negb (Str.isEmpty (deliveryWindow r))
       && negb (Str.isEmpty (Str.trim (deliveryWindow r)))
       && negb (String.eqb (deliveryWindow r) "N/A")))%bool.

Definition checkRouteForRestrictions (routeStops : list Shipment) (res : Restrictions)
    : string :=
  if existsb (fun s => match res (store s) with
                       | Some r => storeRestricted r
                       | None => false
                       end) routeStops
  then "Yes" else "No".

(** A route with one stop at S1. *)
Definition loneStopRoute : Route :=
  mkRoute (carrierHB 1) "08:00" [newShipment "S1" Ambient 5] 5 "Others" "HB_1" 1 "".

(* ------------------------------------------------------------------ *)
(** ** Route ids *)

(** The id of the route that a carrier gets in iteration [k]. *)
Definition routeIdOf (c : Carrier) (k : Z) : string :=
  (Str.stripWs (name c) ++ "_" ++ Str.ofZ k)%string.

(** [ks] increases strictly and lies in [lo, hi). *)
Fixpoint increasingWithin (lo hi : Z) (ks : list Z) : Prop :=
  match ks with
  | [] => True
  | k :: rest => (lo <= k < hi)%Z /\ increasingWithin (k + 1) hi rest
  end.

(** The routes carry the ids of the iterations [ks], in order. *)
Definition numbered (routes : list Route) (ks : list Z) : Prop :=
  Forall2 (fun r k => routeId r = routeIdOf (carrier r) k) routes ks.

(** The routes carry ids of strictly increasing iterations within [lo, hi). *)
Definition idsWithin (lo hi : Z) (routes : list Route) : Prop :=
  exists ks, numbered routes ks /\ increasingWithin lo hi ks.

(* ------------------------------------------------------------------ *)
(** ** Candidates of the growth phase *)

(** A candidate that a pass of the growth phase submits to the scorer: it
    has no failure reason, and it shares the route's cluster, or the route
    has the cluster Others, or the cluster rule is relaxed for it. *)
Definition growCandidate (ctx : Context) (currentRoute : Route) (candidate : Shipment) : bool :=
  (negb (hasReason candidate)
   && (String.eqb (routeCluster currentRoute) "Others"
       || String.eqb (cluster candidate) (routeCluster currentRoute)
       || (CLUSTER_FAILURE_THRESHOLD ctx <=? insertionFailures candidate)%Z
       || (RELAX_MIN_ATTEMPTS ctx <=? seedAttempts currentRoute)%Z))%bool.

(** A shipment of the pool after a pass: its failure counter went up unless
    it has a failure reason or the scorer accepted it. *)
Definition afterScan (ctx : Context) (currentRoute : Route) (candidate : Shipment) : Shipment :=
  if hasReason candidate then candidate
  else if growCandidate ctx currentRoute candidate then
         match checkAndScoreInsertion candidate currentRoute ctx with
         | Some _ => candidate
         | None => bumpFailures candidate
         end
       else bumpFailures candidate.

(* ------------------------------------------------------------------ *)
(** ** The order of the pool *)

(** No shipment of the list has more pallets than one before it. *)
Fixpoint descending (l : list Shipment) : Prop :=
  match l with
  | [] => True
  | x :: l' => Forall (fun y => pallets y <= pallets x) l' /\ descending l'
  end.

(* ------------------------------------------------------------------ *)
(** ** The address sheet and the clusters of the shipments *)

(** [table[k] = v] *)
Definition setEntry {V} (table : string -> option V) (k : string) (v : V)
    : string -> option V :=
  fun x => if String.eqb x k then Some v else table x.

Section AddressReader.

Variable numberText : Q -> string.

(** The key [storeNumber] of a row, when the cell is truthy. *)
Definition addressKey (headers row : list Cell) : option string :=
  let storeNumber := cellAt row (indexOf "Store Number" headers) in
  if cellTruthy storeNumber then Some (cellText numberText storeNumber) else None.

(** The entry of a row; a cluster given as a number is held as its text. *)
Definition addressOfRow (headers row : list Cell) : Address :=
  let cell := fun col => cellAt row (indexOf col headers) in
  mkAddress (cellText numberText (cell "Name"%string))
            (cellText numberText (cell "Street"%string))
            (cellText numberText (cell "City"%string))
            (cellText numberText (cell "ZipCode"%string))
            (if cellTruthy (cell "Cluster"%string)
             then cellText numberText (cell "Cluster"%string)
             else "Others"%string).

Definition readAddressRow (headers : list Cell) (addresses : AddressData) (row : list Cell)
    : AddressData :=
  match addressKey headers row with
  | Some storeNumber => setEntry addresses storeNumber (addressOfRow headers row)
  | None => addresses
  end.

Definition getAddressData (values : Sheet) : AddressData :=
  match values with
  | Some (headers :: row :: rows) =>
      fold_left (readAddressRow headers) (row :: rows) (fun _ => None)
  | _ => fun _ => None
  end.

End AddressReader.

(** The shipment as [generatePlan] hands it to the planner: the cluster is
    [(addressData[s.store] && addressData[s.store].cluster) || 'Others'], and
    a shipment without a store is passed on without a cluster. *)
Definition planShipment (addressData : AddressData) (s : SheetShipment) : Shipment :=
  mkShipment (shStore s) (shCategory s) (shPallets s) (shProductTypeId s)
    (if Str.isEmpty (shStore s) then ""
     else match addressData (shStore s) with
          | Some adr => if Str.isEmpty (adCluster adr) then "Others" else adCluster adr
          | None => "Others"
          end)%string
    0 0 None.

(* ------------------------------------------------------------------ *)
(** ** Routes and bookings of a carrier at a time *)

Definition atSlot (n t : string) (r : Route) : bool :=
  (String.eqb (name (carrier r)) n && String.eqb (time r) t)%bool.

(** The number of routes of the carriers named [n] that start at [t]. *)
Definition routesAt (n t : string) (routes : list Route) : Z :=
  Z.of_nat (List.length (filter (atSlot n t) routes)).

Definition slotsAt (t : string) (slots : list TimeSlot) : list TimeSlot :=
  filter (fun ts => String.eqb (slotTime ts) t) slots.

Definition named (n : string) (cs : list Carrier) : list Carrier :=
  filter (fun c => String.eqb (name c) n) cs.

(** The routes booked, and the places offered, at [t] by the carriers named
    [n]. *)
Definition usedAt (n t : string) (cs : list Carrier) : Z :=
  fold_right (fun c acc => (sumUsed (slotsAt t (timeSlots c)) + acc)%Z) 0%Z (named n cs).

Definition capacityAt (n t : string) (cs : list Carrier) : Z :=
  fold_right (fun c acc =>
                (fold_right (fun ts m => (capacity ts + m)%Z) 0%Z (slotsAt t (timeSlots c))
                 + acc)%Z)
             0%Z (named n cs).

(* ------------------------------------------------------------------ *)
(** ** Single-stop diagnosis: [getInitialRouteFailureReason] *)

(** The reason returned for a shipment that cannot open a route.  The two
    messages about the distance matrix ('Missing distance matrix data' when
    the depot has no row, 'Missing distance data from warehouse to store'
    when the row lacks the store) are one reason here: a [DistanceMatrix]
    does not tell an absent row from an absent entry. *)
Inductive InitialFailure :=
| InvalidShipmentData
| MissingDistanceData
| OutsideWindow
| ExceedsTrailerCapacity
| ViolatesHOS (status : HosStatus)
| ExceedsMaxMileage.

(** [null] is [None].  Of [route] the function reads the carrier and the
    time; the trailer is sized for a route object without a time. *)
Definition getInitialRouteFailureReason (shipment : Shipment) (route : Route) (ctx : Context)
    : option InitialFailure :=
  let dm := distanceMatrix ctx in
  let wh := warehouse ctx in
  if Str.isEmpty (store shipment) then Some InvalidShipmentData else
  match dm wh (store shipment) with
  | None => Some MissingDistanceData
  | Some _ =>
      if windowRejects ctx shipment (time route) then Some OutsideWindow else
      let requiredSize := getRequiredTrailerSize "" [shipment] (restrictions ctx) in
      let capacity := capacityFor (carrier route) requiredSize in
      if (Qeq_bool capacity 0 || Qlt_bool capacity (pallets shipment))%bool
      then Some ExceedsTrailerCapacity else
      let metrics := calculateRouteMetricsWithHOS [shipment] wh dm (detailedDurations ctx) in
      if negb (isOK metrics) then Some (ViolatesHOS (hosStatus metrics)) else
      if Qlt_bool (MAX_ROUTE_MILEAGE ctx) (inject_Z (totalDistance metrics))
      then Some ExceedsMaxMileage else None
  end.

(* ------------------------------------------------------------------ *)
(** ** Further concrete inputs *)

(** Two stores seventy miles apart, each twenty miles from the depot. *)
Definition penaltyLegMatrix : DistanceMatrix :=
  matrixOf [(depot, "S1", 20, 30); ("S1", depot, 20, 30);
            (depot, "S2", 20, 30); ("S2", depot, 20, 30);
            ("S1", "S2", 70, 80); ("S2", "S1", 70, 80)]%string.

Definition penaltyLegRoute : Route :=
  mkRoute (carrierHB 1) "08:00" [newShipment "S1" Ambient 12] 12 "Others" "" 1 "".

(** Four stores ten miles from the depot: [C]-[D] and [A]-[B] are seventy
    miles apart, every other pair eighty. *)
Definition crossMatrix : DistanceMatrix :=
  matrixOf [(depot, "A", 10, 15); ("A", depot, 10, 15);
            (depot, "B", 10, 15); ("B", depot, 10, 15);
            (depot, "C", 10, 15); ("C", depot, 10, 15);
            (depot, "D", 10, 15); ("D", depot, 10, 15);
            ("C", "D", 70, 90); ("D", "C", 70, 90);
            ("A", "B", 70, 90); ("B", "A", 70, 90);
            ("A", "C", 80, 100); ("C", "A", 80, 100);
            ("A", "D", 80, 100); ("D", "A", 80, 100);
            ("B", "C", 80, 100); ("C", "B", 80, 100);
            ("B", "D", 80, 100); ("D", "B", 80, 100)]%string.

Definition crossShipments : list Shipment :=
  [newShipment "C" Ambient 13; newShipment "A" Ambient 12;
   newShipment "D" Ambient 10; newShipment "B" Ambient 8].

(** A route of two stops, of carrier HB at 08:00. *)
Definition crossRoute (id : string) (a b : Shipment) : Route :=
  mkRoute (carrierHB 2) "08:00" [a; b] (pallets a + pallets b) "Others" id 1 "".

(** Two stores five miles apart.  The depot's row knows a third store only:
    there is no entry between the depot and [S1] or [S2], in either
    direction. *)
Definition noDepotLegMatrix : DistanceMatrix :=
  matrixOf [(depot, "S9", 10, 15); ("S9", depot, 10, 15);
            ("S1", "S2", 5, 10); ("S2", "S1", 5, 10)]%string.

Definition noDepotLegShipments : list Shipment :=
  [newShipment "S1" Ambient 13; newShipment "S2" Ambient 8].

(* ------------------------------------------------------------------ *)
(** ** The overflow loop over an acceptance test *)

(** [checkAndScoreInsertion(shipment, route, context) !== null] *)
Definition scorerAccepts (ctx : Context) (shipment : Shipment) (route : Route) : bool :=
  match checkAndScoreInsertion shipment route ctx with Some _ => true | None => false end.

(** The loops of [planRemainingShipments] with the test [accepts] in the place
    of the call of the scorer. *)
Fixpoint addToOverspillBy (accepts : Shipment -> Route -> bool) (shipment : Shipment)
    (overspillRoutes : list Route) : list Route :=
  match overspillRoutes with
  | [] => [mkRoute overspillCarrier "23:00" [shipment] (pallets shipment) "Overspill" "" 0 ""]
  | route :: rest =>
      if accepts shipment route then pushStop route shipment :: rest
      else route :: addToOverspillBy accepts shipment rest
  end.

Definition packOverspillBy (accepts : Shipment -> Route -> bool)
    (overspillShipments : list Shipment) : list Route :=
  fold_left (fun routes s => addToOverspillBy accepts s routes)
            (sortByPallets overspillShipments) [].

Definition classifyRemainingBy (accepts : Shipment -> Route -> bool)
    (shipments : list Shipment) : Overflow :=
  mkOverflow (filter isTimeConstraint shipments) (filter isOtherFailure shipments)
             (numberOverspill 0
                (packOverspillBy accepts (filter (fun s => negb (hasReason s)) shipments))).

(** What every overspill route has: the Overspill carrier at 23:00, at least
    one stop, the stops in descending order of their pallets; every stop but
    the first inside its delivery window at 23:00, and no more stores than
    the stop limit once a second shipment is on it. *)
Definition overspillShape (ctx : Context) (r : Route) : Prop :=
  carrier r = overspillCarrier /\ time r = "23:00"%string
  /\ descending (stops r)
  /\ exists first rest,
       stops r = first :: rest
       /\ (forall s, In s rest -> windowRejects ctx s "23:00" = false)
       /\ (rest <> [] ->
           (Zlength_of (uniq (map store (stops r))) <= MAX_STOPS_GENERAL ctx)%Z).

(** An acceptance test that has at least the scorer's tests of the delivery
    window and of the number of stores. *)
Definition testsWindowAndStops (ctx : Context) (accepts : Shipment -> Route -> bool) : Prop :=
  forall s r, accepts s r = true ->
    windowRejects ctx s (time r) = false
    /\ (Zlength_of (uniq (map store (stops r ++ [s]))) <= MAX_STOPS_GENERAL ctx)%Z.

(** Four shipments of two stores for the overflow handler. *)
Definition overflowShipments : list Shipment :=
  [newShipment "S1" Ambient 20; newShipment "S2" Ambient 5;
   newShipment "S1" Ambient 4; newShipment "S2" Ambient 18].

(* ================================================================== *)
(** * Properties *)

(* ------------------------------------------------------------------ *)
(** ** Arithmetic and list helpers *)

Lemma Qlt_bool_iff a b : Qlt_bool a b = true <-> a < b.
Proof.
  unfold Qlt_bool. rewrite negb_true_iff. split; intro H.
  - apply Qnot_le_lt. intro Hle. apply Qle_bool_iff in Hle. congruence.
  - destruct (Qle_bool b a) eqn:E; [|reflexivity].
    apply Qle_bool_iff in E. exfalso. exact (Qlt_not_le _ _ H E).
Qed.

Lemma Qlt_bool_false_iff a b : Qlt_bool a b = false <-> b <= a.
Proof.
  unfold Qlt_bool. rewrite negb_false_iff. apply Qle_bool_iff.
Qed.

Lemma Qle_bool_false_iff a b : Qle_bool a b = false <-> b < a.
Proof.
  rewrite <- Qlt_bool_iff. unfold Qlt_bool. rewrite negb_true_iff. tauto.
Qed.

Lemma num_or_zero x : num_or x 0 == x.
Proof.
  unfold num_or. destruct (Qeq_bool x 0) eqn:E; [|reflexivity].
  apply Qeq_bool_iff in E. symmetry. exact E.
Qed.

Lemma js_round_mono x y : x <= y -> (js_round x <= js_round y)%Z.
Proof. intro H. unfold js_round. apply Qfloor_resp_le. lra. Qed.

Lemma Category_eqb_eq a b : Category_eqb a b = true <-> a = b.
Proof. destruct a, b; simpl; split; congruence. Qed.

Lemma setNth_same {A} (l : list A) i x :
  nth_error l i = Some x -> setNth i x l = l.
Proof.
  revert i; induction l as [|a l IH]; intros [|i] H; simpl in *; try congruence.
  f_equal. auto.
Qed.

Lemma setNth_twice {A} (l : list A) i x y :
  setNth i x (setNth i y l) = setNth i x l.
Proof.
  revert i; induction l as [|a l IH]; intros [|i]; simpl; try reflexivity.
  f_equal. apply IH.
Qed.


Lemma withStops_self r : withStops r (stops r) (totalPallets r) = r.
Proof. destruct r; reflexivity. Qed.

(* ------------------------------------------------------------------ *)
(** ** Duty-cycle simulator *)

Section Simulator.

Variable dm : DistanceMatrix.
Variable dd : DetailedDurations.

Lemma lookupLeg_known st target leg :
  dm (HOS.currentLocation st) target = Some leg ->
  HOS.lookupLeg dm st target = HOS.accrueLeg st leg.
Proof. unfold HOS.lookupLeg. intros ->. reflexivity. Qed.

Lemma lookupLeg_missing st target :
  dm (HOS.currentLocation st) target = None -> HOS.lookupLeg dm st target = st.
Proof. unfold HOS.lookupLeg. intros ->. reflexivity. Qed.

Lemma lookupLeg_location st target :
  HOS.currentLocation (HOS.lookupLeg dm st target) = HOS.currentLocation st.
Proof. unfold HOS.lookupLeg. destruct (dm _ _); reflexivity. Qed.


Lemma lookupLeg_dist st target :
  HOS.dist (HOS.lookupLeg dm st target)
  == HOS.dist st + legDistance dm (HOS.currentLocation st) target.
Proof.
  unfold HOS.lookupLeg, legDistance. destruct (dm _ _); simpl; lra.
Qed.

Lemma lookupLeg_travel st target :
  HOS.travel (HOS.lookupLeg dm st target)
  == HOS.travel st + legDuration dm (HOS.currentLocation st) target.
Proof.
  unfold HOS.lookupLeg, legDuration. destruct (dm _ _); simpl; lra.
Qed.

Lemma tour_dist orderedStops wh l st :
  HOS.dist (HOS.lookupLeg dm (fold_left (HOS.visitStore dm dd orderedStops) l st) wh)
  == HOS.dist st + tourSum (legDistance dm) (HOS.currentLocation st) l wh.
Proof.
  revert st; induction l as [|a l IH]; intro st; cbn [fold_left tourSum].
  - apply lookupLeg_dist.
  - rewrite IH. cbn [HOS.visitStore HOS.dist HOS.currentLocation].
    rewrite lookupLeg_dist. lra.
Qed.

Lemma tour_travel orderedStops wh l st :
  HOS.travel (HOS.lookupLeg dm (fold_left (HOS.visitStore dm dd orderedStops) l st) wh)
  == HOS.travel st + tourSum (legDuration dm) (HOS.currentLocation st) l wh.
Proof.
  revert st; induction l as [|a l IH]; intro st; cbn [fold_left tourSum].
  - apply lookupLeg_travel.
  - rewrite IH. cbn [HOS.visitStore HOS.travel HOS.currentLocation].
    rewrite lookupLeg_travel. lra.
Qed.

End Simulator.

Lemma tourSum_le f g from l wh :
  (forall a b, f a b <= g a b) -> tourSum f from l wh <= tourSum g from l wh.
Proof.
  intro H. revert from; induction l as [|a l IH]; intro from; simpl.
  - apply H.
  - pose proof (H from a). pose proof (IH a). lra.
Qed.

Lemma legDistance_extends dm dm' a b :
  extends dm dm' -> nonnegLegs dm' -> legDistance dm a b <= legDistance dm' a b.
Proof.
  intros He Hn. unfold legDistance. destruct (dm a b) as [l|] eqn:E.
  - rewrite (He _ _ _ E). lra.
  - destruct (dm' a b) as [l'|] eqn:E'; [|lra]. apply (Hn _ _ _ E').
Qed.

Lemma legDuration_extends dm dm' a b :
  extends dm dm' -> nonnegLegs dm' -> legDuration dm a b <= legDuration dm' a b.
Proof.
  intros He Hn. unfold legDuration. destruct (dm a b) as [l|] eqn:E.
  - rewrite (He _ _ _ E). lra.
  - destruct (dm' a b) as [l'|] eqn:E'; [|lra]. apply (Hn _ _ _ E').
Qed.

(** *** Two runs side by side *)

Lemma break_gap (b b' : Z) (x : Q) :
  inject_Z (b + 1) * HOS.BREAK_THRESHOLD < x ->
  x <= inject_Z (b' + 1) * HOS.BREAK_THRESHOLD ->
  1 <= inject_Z b' - inject_Z b.
Proof.
  unfold HOS.BREAK_THRESHOLD. intros H1 H2.
  assert (Hlt : inject_Z (b + 1) < inject_Z (b' + 1)) by lra.
  rewrite <- Zlt_Qlt in Hlt.
  assert (Hle : (b + 1 <= b')%Z) by lia.
  rewrite Zle_Qle in Hle. rewrite inject_Z_plus in Hle.
  change (inject_Z 1) with 1 in Hle. lra.
Qed.

Lemma ahead_refl st : ahead st st.
Proof. unfold ahead. repeat split; lra. Qed.

Lemma accrueLeg_cases st leg :
  (inject_Z (HOS.breaksTaken st + 1) * HOS.BREAK_THRESHOLD < HOS.onDuty st + duration leg
   /\ HOS.onDuty (HOS.accrueLeg st leg) == HOS.onDuty st + 30 + duration leg
   /\ HOS.breaksTaken (HOS.accrueLeg st leg) = (HOS.breaksTaken st + 1)%Z)
  \/ (HOS.onDuty st + duration leg <= inject_Z (HOS.breaksTaken st + 1) * HOS.BREAK_THRESHOLD
      /\ HOS.onDuty (HOS.accrueLeg st leg) == HOS.onDuty st + duration leg
      /\ HOS.breaksTaken (HOS.accrueLeg st leg) = HOS.breaksTaken st).
Proof.
  unfold HOS.accrueLeg. cbn [HOS.onDuty HOS.breaksTaken].
  destruct (Qlt_bool _ _) eqn:E.
  - left. apply Qlt_bool_iff in E. unfold HOS.BREAK_DURATION.
    split; [exact E|split; [lra|reflexivity]].
  - right. apply Qlt_bool_false_iff in E.
    split; [exact E|split; [lra|reflexivity]].
Qed.

Lemma accrueLeg_ahead st st' leg :
  ahead st st' -> ahead (HOS.accrueLeg st leg) (HOS.accrueLeg st' leg).
Proof.
  intros (Ht & Ho & Hb & Hc).
  destruct (accrueLeg_cases st leg) as [(C & O & B)|(C & O & B)];
    destruct (accrueLeg_cases st' leg) as [(C' & O' & B')|(C' & O' & B')];
    unfold ahead; rewrite O, O', B, B'; cbn [HOS.accrueLeg HOS.travel HOS.currentLocation];
    rewrite ?inject_Z_plus; change (inject_Z 1) with 1;
    repeat split; try lra; try assumption.
  pose proof (@break_gap (HOS.breaksTaken st) (HOS.breaksTaken st')
                (HOS.onDuty st + duration leg) C ltac:(lra)). lra.
Qed.

Lemma accrueLeg_ahead_right st st' leg :
  0 <= duration leg -> ahead st st' -> ahead st (HOS.accrueLeg st' leg).
Proof.
  intros Hd (Ht & Ho & Hb & Hc).
  destruct (accrueLeg_cases st' leg) as [(C' & O' & B')|(C' & O' & B')];
    unfold ahead; rewrite O', B'; cbn [HOS.accrueLeg HOS.travel HOS.currentLocation];
    rewrite ?inject_Z_plus; change (inject_Z 1) with 1;
    repeat split; try lra; try assumption.
Qed.

Lemma lookupLeg_ahead dm dm' st st' target :
  extends dm dm' -> nonnegDurations dm' -> ahead st st' ->
  ahead (HOS.lookupLeg dm st target) (HOS.lookupLeg dm' st' target).
Proof.
  intros He Hn Ha. unfold HOS.lookupLeg.
  destruct Ha as (Ht & Ho & Hb & Hc). rewrite <- Hc.
  destruct (dm (HOS.currentLocation st) target) as [l|] eqn:E.
  - rewrite (He _ _ _ E). apply accrueLeg_ahead. unfold ahead; auto.
  - destruct (dm' (HOS.currentLocation st) target) as [l'|] eqn:E'.
    + apply accrueLeg_ahead_right; [apply (Hn _ _ _ E')|unfold ahead; auto].
    + unfold ahead; auto.
Qed.

Lemma visitStore_ahead dm dm' dd l l' st st' k :
  extends dm dm' -> nonnegDurations dm' -> ahead st st' ->
  HOS.timeAtStop dd l k <= HOS.timeAtStop dd l' k ->
  ahead (HOS.visitStore dm dd l st k) (HOS.visitStore dm' dd l' st' k).
Proof.
  intros He Hn Ha Ht.
  destruct (lookupLeg_ahead k He Hn Ha) as (H1 & H2 & H3 & H4).
  unfold HOS.visitStore, ahead. cbn [HOS.travel HOS.onDuty HOS.breaksTaken HOS.currentLocation].
  repeat split; try lra; reflexivity.
Qed.

Lemma fold_visit_ahead dm dm' dd l l' ks st st' :
  extends dm dm' -> nonnegDurations dm' -> ahead st st' ->
  (forall k, HOS.timeAtStop dd l k <= HOS.timeAtStop dd l' k) ->
  ahead (fold_left (HOS.visitStore dm dd l) ks st)
        (fold_left (HOS.visitStore dm' dd l') ks st').
Proof.
  intros He Hn Ha Ht. revert st st' Ha.
  induction ks as [|k ks IH]; intros st st' Ha; [exact Ha|].
  cbn [fold_left]. apply IH. apply visitStore_ahead; auto.
Qed.


(** *** The break rule and the final status *)

(** C4. The leg to every store and the return leg to the depot are accrued
    through the same guarded step: when the on-duty time plus the duration of
    a known leg exceeds the next 8-hour boundary ([(breaksTaken + 1) * 480]) a
    30-minute break is added before the leg, otherwise the leg is added alone;
    the service time of the store follows the leg.  The final status is
    ON_DUTY_VIOLATION when the on-duty time exceeds 840 minutes, else
    DRIVING_VIOLATION when the travel time exceeds 660 minutes, else OK. *)
Theorem C4_break_before_crossing_leg_and_final_status :
  forall (dm : DistanceMatrix) (dd : DetailedDurations) (wh : string)
         (orderedStops : list Shipment),
    (forall st s,
        HOS.visitStore dm dd orderedStops st s
        = let st1 := HOS.lookupLeg dm st s in
          HOS.mkState (HOS.travel st1) (HOS.dist st1)
            (HOS.stopT st1 + HOS.timeAtStop dd orderedStops s)
            (HOS.onDuty st1 + HOS.timeAtStop dd orderedStops s)
            (HOS.breaksTaken st1) s)
    /\ HOS.simulate dm dd wh orderedStops
       = HOS.lookupLeg dm
           (fold_left (HOS.visitStore dm dd orderedStops) (uniq (map store orderedStops))
              (HOS.initial dd wh orderedStops)) wh
    /\ (forall st target leg,
           dm (HOS.currentLocation st) target = Some leg ->
           let st' := HOS.lookupLeg dm st target in
           HOS.travel st' == HOS.travel st + duration leg
           /\ (inject_Z (HOS.breaksTaken st + 1) * (8 * 60) < HOS.onDuty st + duration leg ->
               HOS.onDuty st' == HOS.onDuty st + 30 + duration leg
               /\ HOS.breaksTaken st' = (HOS.breaksTaken st + 1)%Z)
           /\ (HOS.onDuty st + duration leg <= inject_Z (HOS.breaksTaken st + 1) * (8 * 60) ->
               HOS.onDuty st' == HOS.onDuty st + duration leg
               /\ HOS.breaksTaken st' = HOS.breaksTaken st))
    /\ (let st := HOS.simulate dm dd wh orderedStops in
        let status := hosStatus (calculateRouteMetricsWithHOS orderedStops wh dm dd) in
        (14 * 60 < HOS.onDuty st -> status = ON_DUTY_VIOLATION)
        /\ (HOS.onDuty st <= 14 * 60 -> 11 * 60 < HOS.travel st ->
            status = DRIVING_VIOLATION)
        /\ (HOS.onDuty st <= 14 * 60 -> HOS.travel st <= 11 * 60 -> status = OK)).
Proof.
  intros dm dd wh orderedStops.
  split; [reflexivity|]. split; [reflexivity|]. split.
  - intros st target leg Hleg st'. subst st'. rewrite (lookupLeg_known _ _ _ Hleg).
    split; [cbn; lra|].
    destruct (accrueLeg_cases st leg) as [(C & O & B)|(C & O & B)];
      unfold HOS.BREAK_THRESHOLD in C; split; intro H; try (split; assumption); lra.
  - cbn zeta. cbn [calculateRouteMetricsWithHOS hosStatus]. unfold HOS.statusOf.
    unfold HOS.ON_DUTY_LIMIT, HOS.DRIVING_LIMIT.
    destruct (Qlt_bool (14 * 60) (HOS.onDuty (HOS.simulate dm dd wh orderedStops))) eqn:E1;
      destruct (Qlt_bool (11 * 60) (HOS.travel (HOS.simulate dm dd wh orderedStops))) eqn:E2;
      rewrite ?Qlt_bool_iff, ?Qlt_bool_false_iff in *;
      repeat split; intros; try reflexivity; lra.
Qed.

(** Scenario D: 421 minutes on duty, a 60-minute leg ahead. *)
Lemma C4_witness :
  HOS.onDuty (HOS.lookupLeg scenarioD_matrix (HOS.mkState 300 200 121 421 0 "S1") "S2")
  == 511.
Proof.
  destruct (C4_break_before_crossing_leg_and_final_status
              scenarioD_matrix (fun _ _ => None) "US0007" []) as (_ & _ & H & _).
  destruct (H (HOS.mkState 300 200 121 421 0 "S1") "S2"%string (mkLeg 40 60) eq_refl)
    as (_ & Hbreak & _).
  destruct Hbreak as [Ho _]; [vm_compute; reflexivity|].
  rewrite Ho. vm_compute. reflexivity.
Defined.

(** *** Missing legs *)

(** C10. A leg whose forward entry is absent from the distance matrix is
    skipped whatever the reverse entry holds: the state is unchanged.  The
    unrounded mileage and travel time of a route are the sums of the forward
    entries along depot, stores, depot, with zero for an absent entry.  So
    the reported mileage, travel time, total duration and cost never exceed
    those computed with a matrix that fills the gaps with non-negative legs,
    and no error is signalled. *)
Theorem C10_missing_forward_leg_is_skipped_and_undercounts :
  forall (dm : DistanceMatrix) (dd : DetailedDurations) (wh : string)
         (orderedStops : list Shipment),
    let stores := uniq (map store orderedStops) in
    let st := HOS.simulate dm dd wh orderedStops in
    (forall s target,
        dm (HOS.currentLocation s) target = None -> HOS.lookupLeg dm s target = s)
    /\ HOS.dist st == tourSum (legDistance dm) wh stores wh
    /\ HOS.travel st == tourSum (legDuration dm) wh stores wh
    /\ (forall dm', extends dm dm' -> nonnegLegs dm' ->
          let m := calculateRouteMetricsWithHOS orderedStops wh dm dd in
          let m' := calculateRouteMetricsWithHOS orderedStops wh dm' dd in
          (totalDistance m <= totalDistance m')%Z
          /\ (travelTime m <= travelTime m')%Z
          /\ (totalDuration m <= totalDuration m')%Z
          /\ forall c, 0 <= costPerMile c -> routeCost c m <= routeCost c m').
Proof.
  intros dm dd wh orderedStops stores st.
  assert (Hd : forall d, HOS.dist (HOS.simulate d dd wh orderedStops)
                         == tourSum (legDistance d) wh stores wh).
  { intro d. unfold HOS.simulate, HOS.afterStops. rewrite tour_dist.
    unfold HOS.initial; cbn [HOS.dist HOS.currentLocation]. apply Qplus_0_l. }
  assert (Ht : forall d, HOS.travel (HOS.simulate d dd wh orderedStops)
                         == tourSum (legDuration d) wh stores wh).
  { intro d. unfold HOS.simulate, HOS.afterStops. rewrite tour_travel.
    unfold HOS.initial; cbn [HOS.travel HOS.currentLocation]. apply Qplus_0_l. }
  split; [intros s target H; apply lookupLeg_missing; exact H|].
  split; [apply Hd|]. split; [apply Ht|].
  intros dm' He Hn m m'.
  assert (Hdist : (totalDistance m <= totalDistance m')%Z).
  { subst m m'. cbn [calculateRouteMetricsWithHOS totalDistance]. apply js_round_mono.
    rewrite !Hd. apply tourSum_le. intros; apply legDistance_extends; assumption. }
  assert (Hnd : nonnegDurations dm') by (intros a b l Hl; apply (Hn _ _ _ Hl)).
  assert (Hah : ahead (HOS.simulate dm dd wh orderedStops) (HOS.simulate dm' dd wh orderedStops)).
  { unfold HOS.simulate, HOS.afterStops. apply lookupLeg_ahead; try assumption.
    apply fold_visit_ahead; try assumption; [apply ahead_refl|intro; lra]. }
  destruct Hah as (Htr & Hon & _ & _).
  split; [exact Hdist|]. split; [|split].
  - subst m m'. cbn [calculateRouteMetricsWithHOS travelTime]. apply js_round_mono. exact Htr.
  - subst m m'. cbn [calculateRouteMetricsWithHOS totalDuration]. apply js_round_mono. exact Hon.
  - intros c Hc. unfold routeCost. rewrite Zle_Qle in Hdist.
    apply Qplus_le_l. apply Qmult_le_compat_r; assumption.
Qed.

Lemma oneWay_extends : extends oneWayMatrix roundTripMatrix.
Proof.
  intros a b l. unfold oneWayMatrix, roundTripMatrix.
  destruct (String.eqb a "US0007" && String.eqb b "S1")%bool; [auto|discriminate].
Qed.

Lemma roundTrip_nonneg : nonnegLegs roundTripMatrix.
Proof.
  intros a b l. unfold roundTripMatrix.
  destruct (String.eqb a "US0007" && String.eqb b "S1")%bool;
    [|destruct (String.eqb a "S1" && String.eqb b "US0007")%bool];
    intro H; inversion H; subst; cbn; split; lra.
Qed.

(** A single stop whose return entry is absent: 50 miles are reported where
    the completed matrix gives 100. *)
Lemma C10_witness :
  let stops1 := [mkShipment "S1" Ambient 10 None "Others" 0 0 None] in
  (totalDistance (calculateRouteMetricsWithHOS stops1 "US0007" oneWayMatrix (fun _ _ => None))
   <= totalDistance (calculateRouteMetricsWithHOS stops1 "US0007" roundTripMatrix (fun _ _ => None)))%Z.
Proof.
  intro stops1.
  destruct (C10_missing_forward_leg_is_skipped_and_undercounts
              oneWayMatrix (fun _ _ => None) "US0007" stops1) as (_ & _ & _ & H).
  destruct (H roundTripMatrix oneWay_extends roundTrip_nonneg) as (Hd & _).
  exact Hd.
Defined.

(* ------------------------------------------------------------------ *)
(** ** Insertion scorer *)

Lemma check_accepted shipment route ctx score :
  checkAndScoreInsertion shipment route ctx = Some score ->
  Accepted shipment route ctx score.
Proof.
  unfold checkAndScoreInsertion. cbn zeta.
  destruct (Str.isEmpty (warehouse ctx)); [discriminate|].
  destruct (Z.ltb _ _) eqn:E1; [discriminate|].
  destruct (tempCheck ctx _) eqn:E2; [|discriminate]. cbn [negb].
  destruct (windowRejects ctx shipment (time route)) eqn:E3; [discriminate|].
  destruct (orb (Qeq_bool _ 0) _) eqn:E4; [discriminate|].
  destruct (hasMissingData _) eqn:E5; [discriminate|].
  destruct (hasMissingData (getLegDistanceDetails (advancedOptimizeStopOrder (stops route ++ _) _ _) _))
    eqn:E6; [discriminate|].
  destruct (Qlt_bool (hardLegLimit ctx) _) eqn:E7; [discriminate|].
  destruct (orb (Qlt_bool (MAX_ROUTE_MILEAGE ctx) _) _) eqn:E8; [discriminate|].
  intro H. injection H as <-.
  apply orb_false_iff in E8. destruct E8 as [E8 E9].
  apply Z.ltb_ge in E1. apply Qlt_bool_false_iff in E7, E8.
  constructor; try assumption; try reflexivity.
  unfold sequencedMetrics. destruct (hosStatus _); [reflexivity|discriminate|discriminate].
Qed.

Lemma check_missing_current shipment route ctx :
  hasMissingData
    (getLegDistanceDetails
       (advancedOptimizeStopOrder (stops route) (warehouse ctx) (distanceMatrix ctx))
       (distanceMatrix ctx)) = true ->
  checkAndScoreInsertion shipment route ctx = None.
Proof.
  intro H. destruct (checkAndScoreInsertion shipment route ctx) eqn:E; [|reflexivity].
  apply check_accepted in E. destruct E. congruence.
Qed.

Lemma check_missing_proposed shipment route ctx :
  hasMissingData
    (getLegDistanceDetails
       (advancedOptimizeStopOrder (stops route ++ [shipment]) (warehouse ctx)
          (distanceMatrix ctx))
       (distanceMatrix ctx)) = true ->
  checkAndScoreInsertion shipment route ctx = None.
Proof.
  intro H. destruct (checkAndScoreInsertion shipment route ctx) eqn:E; [|reflexivity].
  apply check_accepted in E. destruct E. congruence.
Qed.

Lemma isEmpty_false s : Str.isEmpty s = false <-> s <> ""%string.
Proof. unfold Str.isEmpty. apply String.eqb_neq. Qed.

Lemma uniq_In x l : In x (uniq l) <-> In x l.
Proof.
  induction l as [|a l IH]; [reflexivity|].
  cbn [uniq]. cbn [In]. rewrite filter_In, IH, negb_true_iff, String.eqb_neq.
  destruct (string_dec a x) as [->|Hne]; [tauto|].
  split; [tauto|]. intros [H|H]; [tauto|]. right. split; [exact H|congruence].
Qed.

Lemma legLoop_step dm x y rest acc :
  legLoop dm (x :: y :: rest) acc
  = if (Str.isEmpty x || Str.isEmpty y)%bool then legLoop dm (y :: rest) acc
    else match legEitherWay dm x y with
         | None => mkLegDetails [] true
         | Some leg => legLoop dm (y :: rest) (acc ++ [distance leg])
         end.
Proof. reflexivity. Qed.

Lemma legLoop_missing dm l1 a b l2 acc :
  a <> ""%string -> b <> ""%string -> legEitherWay dm a b = None ->
  hasMissingData (legLoop dm (l1 ++ a :: b :: l2) acc) = true.
Proof.
  intros Ha Hb Hnone. apply isEmpty_false in Ha, Hb.
  revert acc; induction l1 as [|x l1 IH]; intro acc.
  - cbn [app]. rewrite legLoop_step, Ha, Hb, Hnone. reflexivity.
  - assert (Hrest : exists y rest, l1 ++ a :: b :: l2 = y :: rest)
      by (destruct l1; cbn; eauto).
    destruct Hrest as (y & rest & Hrest).
    change ((x :: l1) ++ a :: b :: l2) with (x :: (l1 ++ a :: b :: l2)).
    rewrite Hrest in *. rewrite legLoop_step.
    destruct (Str.isEmpty x || Str.isEmpty y)%bool; [apply IH|].
    destruct (legEitherWay dm x y); [apply IH|reflexivity].
Qed.

Lemma legLoop_known dm l :
  forall acc, hasMissingData (legLoop dm l acc) = false ->
  (forall d, In d acc -> In d (legDistances (legLoop dm l acc)))
  /\ forall a b, consecutive l a b -> a <> ""%string -> b <> ""%string ->
       exists leg, legEitherWay dm a b = Some leg
                   /\ In (distance leg) (legDistances (legLoop dm l acc)).
Proof.
  induction l as [|x l IH]; intros acc Hok.
  - split; [auto|]. intros a b (l1 & l2 & H). destruct l1; discriminate.
  - destruct l as [|y rest].
    + split; [auto|]. intros a b (l1 & l2 & H).
      destruct l1 as [|? [|? ?]]; discriminate.
    + rewrite legLoop_step in *.
      destruct (Str.isEmpty x || Str.isEmpty y)%bool eqn:Eskip.
      * destruct (IH acc Hok) as [Hacc Hpairs]. split; [exact Hacc|].
        intros a b (l1 & l2 & H) Ha Hb. destruct l1 as [|z l1].
        -- cbn in H. injection H as -> -> _. apply isEmpty_false in Ha, Hb.
           rewrite Ha, Hb in Eskip. discriminate.
        -- cbn in H. injection H as _ H. apply Hpairs; [|assumption..].
           exists l1, l2. exact H.
      * destruct (legEitherWay dm x y) as [leg|] eqn:Eleg; [|discriminate].
        destruct (IH (acc ++ [distance leg]) Hok) as [Hacc Hpairs]. split.
        -- intros d Hd. apply Hacc. apply in_or_app. auto.
        -- intros a b (l1 & l2 & H) Ha Hb. destruct l1 as [|z l1].
           ++ cbn in H. injection H as -> -> _. exists leg. split; [exact Eleg|].
              apply Hacc. apply in_or_app. right. left. reflexivity.
           ++ cbn in H. injection H as _ H. apply Hpairs; [|assumption..].
              exists l1, l2. exact H.
Qed.

Lemma consecutive_length l a b : consecutive l a b -> (2 <= List.length l)%nat.
Proof.
  intros (l1 & l2 & ->). rewrite length_app. cbn. lia.
Qed.

Lemma details_missing dm routeStops a b :
  consecutive (uniq (map store routeStops)) a b ->
  a <> ""%string -> b <> ""%string -> legEitherWay dm a b = None ->
  hasMissingData (getLegDistanceDetails routeStops dm) = true.
Proof.
  intros Hc Ha Hb Hnone. pose proof (consecutive_length Hc) as Hlen.
  unfold getLegDistanceDetails. destruct routeStops as [|s0 rs]; [cbn in Hlen; lia|].
  destruct (Nat.ltb_spec (List.length (uniq (map store (s0 :: rs)))) 2); [lia|].
  destruct Hc as (l1 & l2 & ->). apply legLoop_missing; assumption.
Qed.

Lemma details_known dm routeStops a b :
  hasMissingData (getLegDistanceDetails routeStops dm) = false ->
  consecutive (uniq (map store routeStops)) a b ->
  a <> ""%string -> b <> ""%string ->
  exists leg, legEitherWay dm a b = Some leg
              /\ In (distance leg) (legDistances (getLegDistanceDetails routeStops dm)).
Proof.
  intros Hok Hc Ha Hb. pose proof (consecutive_length Hc) as Hlen.
  unfold getLegDistanceDetails in *. destruct routeStops as [|s0 rs]; [cbn in Hlen; lia|].
  destruct (Nat.ltb_spec (List.length (uniq (map store (s0 :: rs)))) 2); [lia|].
  apply (legLoop_known _ _ _ Hok); assumption.
Qed.

Lemma Qmax_js_fold xs :
  forall x, x <= fold_left Qmax_js xs x
            /\ forall d, In d xs -> d <= fold_left Qmax_js xs x.
Proof.
  induction xs as [|y xs IH]; intro x; cbn [fold_left].
  - split; [lra|]. intros d [].
  - destruct (IH (Qmax_js x y)) as [H1 H2].
    assert (Hm : x <= Qmax_js x y /\ y <= Qmax_js x y).
    { unfold Qmax_js. destruct (Qlt_bool x y) eqn:E.
      - apply Qlt_bool_iff in E. lra.
      - apply Qlt_bool_false_iff in E. lra. }
    split; [lra|]. intros d [->|Hd]; [lra|auto].
Qed.

Lemma maxOf_ge legs d : In d legs -> d <= maxOf legs.
Proof.
  destruct legs as [|x xs]; [intros []|].
  cbn [maxOf]. destruct (Qmax_js_fold xs x) as [H1 H2].
  intros [->|Hd]; auto.
Qed.

Lemma isRouteValid_mileage route ctx :
  isRouteValid route ctx = true ->
  inject_Z (totalDistance (routeMetrics route ctx)) <= MAX_ROUTE_MILEAGE ctx
  /\ hosStatus (routeMetrics route ctx) = OK.
Proof.
  unfold isRouteValid.
  destruct (Z.ltb _ _); [discriminate|].
  destruct (negb (tempCheck _ _)); [discriminate|].
  destruct (Qlt_bool (_ * _) _); [discriminate|]. cbn zeta.
  destruct (orb _ _) eqn:E; [discriminate|]. intros _.
  apply orb_false_iff in E. destruct E as [E1 E2].
  apply Qlt_bool_false_iff in E1. split; [exact E1|].
  unfold isOK in E2. destruct (hosStatus _); [reflexivity|discriminate..].
Qed.

(** Fail-closed lookup of the legs between stores: when two consecutive
    stores (non-empty identifiers) of the sequenced current route or of the
    sequenced route-plus-shipment have no entry in the distance matrix in
    either direction, the scorer rejects the insertion. *)
Lemma checkAndScoreInsertion_rejects_unknown_store_leg :
  forall (shipment : Shipment) (route : Route) (ctx : Context) (a b : string),
    consecutive (visitOrder ctx (stops route)) a b
    \/ consecutive (visitOrder ctx (stops route ++ [shipment])) a b ->
    a <> ""%string -> b <> ""%string ->
    distanceMatrix ctx a b = None -> distanceMatrix ctx b a = None ->
    checkAndScoreInsertion shipment route ctx = None.
Proof.
  intros shipment route ctx a b Hc Ha Hb Hf Hr.
  assert (Hnone : legEitherWay (distanceMatrix ctx) a b = None)
    by (unfold legEitherWay; rewrite Hf; exact Hr).
  destruct Hc as [Hc|Hc].
  - apply check_missing_current. eapply details_missing; eassumption.
  - apply check_missing_proposed. eapply details_missing; eassumption.
Qed.

(** An accepted insertion bounds the legs between stores and the reported
    mileage of the sequenced route-plus-shipment: every pair of consecutive
    stores (non-empty identifiers) has a known leg, in one direction or the
    other, of at most the hard leg limit, and the rounded total distance of
    the simulator is at most MAX_ROUTE_MILEAGE.  A route that passes
    [isRouteValid] has the rounded total distance of its stops, in stored
    order, at most MAX_ROUTE_MILEAGE. *)
Lemma checkAndScoreInsertion_caps_store_legs_and_mileage :
  forall (ctx : Context),
    (forall shipment route score,
        checkAndScoreInsertion shipment route ctx = Some score ->
        (forall a b,
            consecutive (visitOrder ctx (stops route ++ [shipment])) a b ->
            a <> ""%string -> b <> ""%string ->
            exists leg, legEitherWay (distanceMatrix ctx) a b = Some leg
                        /\ distance leg <= hardLegLimit ctx)
        /\ inject_Z (totalDistance (sequencedMetrics ctx (stops route ++ [shipment])))
           <= MAX_ROUTE_MILEAGE ctx)
    /\ (forall route,
           isRouteValid route ctx = true ->
           inject_Z (totalDistance (routeMetrics route ctx)) <= MAX_ROUTE_MILEAGE ctx).
Proof.
  intro ctx. split.
  - intros shipment route score H. apply check_accepted in H. destruct H. split; [|assumption].
    intros a b Hc Ha Hb.
    destruct (details_known _ _ acc_proposed0 Hc Ha Hb) as (leg & Hleg & Hin).
    exists leg. split; [exact Hleg|].
    apply Qle_trans with (2 := acc_maxLeg0). apply maxOf_ge. exact Hin.
  - intros route H. apply isRouteValid_mileage in H. apply H.
Qed.

Lemma penalty_fold t t' legs :
  t == t' ->
  forall acc, fold_left (penaltyStep t) legs acc == acc + penaltyOf legs t'.
Proof.
  intro Ht. induction legs as [|d legs IH]; intro acc; cbn [fold_left penaltyOf fold_right].
  - lra.
  - rewrite IH. fold (penaltyOf legs t'). unfold penaltyStep.
    destruct (Qle_bool d t) eqn:E.
    + apply Qle_bool_iff in E.
      assert (Hm : Qmax 0 (d - t') == 0) by (apply Q.max_l; lra).
      rewrite Hm. lra.
    + apply Qle_bool_false_iff in E.
      assert (Hm : Qmax 0 (d - t') == d - t') by (apply Q.max_r; lra).
      rewrite Hm. rewrite Ht. lra.
Qed.

Lemma calculateDistancePenalty_spec legs thr :
  calculateDistancePenalty legs thr == penaltyOf legs thr.
Proof.
  unfold calculateDistancePenalty. destruct legs as [|d legs]; [reflexivity|].
  rewrite (penalty_fold (d :: legs) (num_or_zero thr)). lra.
Qed.

(** C6 (amended). The score of an accepted insertion is the cost of the
    sequenced route-plus-shipment minus the cost of the sequenced current
    route, each cost being rounded total distance times cost per mile plus
    the fixed cost, plus the penalty of the proposed sequence minus the
    penalty of the current one, where the penalty is the sum of
    [(max(0, leg - preferred threshold))^2] over the legs between consecutive
    stores; the legs from and to the depot carry no penalty. *)
Theorem C6_score_is_cost_delta_plus_inter_stop_penalty_delta :
  forall (shipment : Shipment) (route : Route) (ctx : Context) (score : Q),
    checkAndScoreInsertion shipment route ctx = Some score ->
    let c := carrier route in
    let newMiles := inject_Z (totalDistance (sequencedMetrics ctx (stops route ++ [shipment]))) in
    let oldMiles := inject_Z (totalDistance (sequencedMetrics ctx (stops route))) in
    let threshold := preferredLegThreshold ctx in
    score == ((newMiles * costPerMile c + costPerRoute c)
              - (oldMiles * costPerMile c + costPerRoute c))
             + (penaltyOf (interStopLegs ctx (stops route ++ [shipment])) threshold
                - penaltyOf (interStopLegs ctx (stops route)) threshold).
Proof.
  intros shipment route ctx score H c newMiles oldMiles threshold.
  apply check_accepted in H. destruct H. rewrite acc_score0.
  rewrite !calculateDistancePenalty_spec. unfold routeCost. reflexivity.
Qed.

(* ------------------------------------------------------------------ *)
(** ** Temperature rule *)

Lemma hasCategory_In c cats : hasCategory c cats = true <-> In c cats.
Proof.
  unfold hasCategory. rewrite existsb_exists. split.
  - intros (x & Hin & Heq). apply Category_eqb_eq in Heq. subst. exact Hin.
  - intro H. exists c. split; [exact H|]. apply Category_eqb_eq. reflexivity.
Qed.

Lemma hasCategory_false c cats : hasCategory c cats = false -> ~ In c cats.
Proof.
  intros H Hin. apply hasCategory_In in Hin. congruence.
Qed.

Lemma perStoreCount_absent l st c :
  (forall s, In s l -> category s <> c) -> perStoreCount l st c = 0.
Proof.
  intro H. unfold perStoreCount.
  assert (Hacc : forall acc, fold_left (countStep st c) l acc = acc); [|apply Hacc].
  induction l as [|s l IH]; intro acc; [reflexivity|].
  cbn [fold_left]. rewrite IH by (intros; apply H; right; assumption).
  unfold countStep.
  destruct (Category_eqb (category s) c) eqn:E.
  - apply Category_eqb_eq in E. exfalso. apply (H s); [left; reflexivity|exact E].
  - rewrite andb_false_r. reflexivity.
Qed.

Lemma smallAmbientLimit_eq ctx :
  num_or (num_or (SMALL_AMBIENT_THRESHOLD ctx) 4) 6 = smallAmbientLimit ctx.
Proof.
  unfold smallAmbientLimit, num_or.
  destruct (Qeq_bool (SMALL_AMBIENT_THRESHOLD ctx) 0) eqn:E; [reflexivity|].
  rewrite E. reflexivity.
Qed.

Lemma tempCheck_sound ctx tempStops :
  tempCheck ctx tempStops = true ->
  (forall s1 s2, In s1 tempStops -> In s2 tempStops ->
      category s1 = Freezer -> category s2 = Freezer)
  /\ (ALLOW_ALL_ALL ctx = true ->
      forall s, In s tempStops ->
        perStoreCount tempStops (store s) Chiller <= 0
        \/ perStoreCount tempStops (store s) Ambient
           + perStoreCount tempStops (store s) Produce <= smallAmbientLimit ctx).
Proof.
  unfold tempCheck, isTempCompatible. rewrite smallAmbientLimit_eq.
  destruct (hasCategory Freezer (map category tempStops)) eqn:EF.
  - destruct (hasCategory Chiller _) eqn:EC; [discriminate|].
    destruct (orb _ _) eqn:EA; [discriminate|]. intros _.
    apply orb_false_iff in EA. destruct EA as [EA EP].
    apply hasCategory_false in EC, EA, EP.
    split.
    + intros s1 s2 _ H2 _. destruct (category s2) eqn:E; try reflexivity; exfalso;
        [apply EA|apply EC|apply EP]; rewrite <- E; apply in_map; exact H2.
    + intros _ s Hs. left. rewrite perStoreCount_absent; [lra|].
      intros s' Hs' E. apply EC. rewrite <- E. apply in_map. exact Hs'.
  - apply hasCategory_false in EF. split.
    + intros s1 s2 H1 _ E. exfalso. apply EF. rewrite <- E. apply in_map. exact H1.
    + intros Hallow s Hs. rewrite Hallow in H. rewrite forallb_forall in H.
      specialize (H (store s)). cbn [perStoreCounts countKeys] in H.
      rewrite uniq_In in H. specialize (H (in_map store _ _ Hs)).
      unfold storeWithinThreshold in H. cbn [perStoreCounts countOf] in H.
      destruct (Qlt_bool 0 _) eqn:E1.
      * destruct (Qlt_bool (smallAmbientLimit ctx) _) eqn:E2; [discriminate|].
        apply Qlt_bool_false_iff in E2. right. exact E2.
      * apply Qlt_bool_false_iff in E1. left. exact E1.
Qed.

(** C3 (amended). An accepted insertion never puts Freezer freight on a route
    together with Chiller, Ambient or Produce freight, whatever the capacity
    left; and with the mixed-zone flag set, every store of the accepted
    route-plus-shipment has no Chiller pallets or an Ambient plus Produce
    total that does not exceed the small-quantity threshold (the configured
    value, 4 when that value is 0): a total equal to the threshold passes. *)
Theorem C3_freezer_never_mixed_and_small_ambient_rule :
  forall (shipment : Shipment) (route : Route) (ctx : Context) (score : Q),
    checkAndScoreInsertion shipment route ctx = Some score ->
    let tempStops := stops route ++ [shipment] in
    (forall s1 s2, In s1 tempStops -> In s2 tempStops -> category s1 = Freezer ->
        category s2 <> Chiller /\ category s2 <> Ambient /\ category s2 <> Produce)
    /\ (ALLOW_ALL_ALL ctx = true ->
        forall s, In s tempStops ->
          perStoreCount tempStops (store s) Chiller <= 0
          \/ perStoreCount tempStops (store s) Ambient
             + perStoreCount tempStops (store s) Produce <= smallAmbientLimit ctx).
Proof.
  intros shipment route ctx score H tempStops.
  apply check_accepted in H. destruct H.
  destruct (tempCheck_sound _ _ acc_temp0) as [HF HA]. split; [|exact HA].
  intros s1 s2 H1 H2 E. rewrite (HF s1 s2 H1 H2 E). repeat split; discriminate.
Qed.

(* ------------------------------------------------------------------ *)
(** ** Swap pass *)

Lemma revertSwap_restores route1 route2 si sj stop1 stop2 :
  nth_error (stops route1) si = Some stop1 ->
  nth_error (stops route2) sj = Some stop2 ->
  revertSwap (applySwap route1 route2 si sj stop1 stop2) si sj stop1 stop2
  = (route1, route2).
Proof.
  intros H1 H2. unfold revertSwap, applySwap, withStops.
  cbn [trial1 trial2 oldRoute1Pallets oldRoute2Pallets stops carrier time routeCluster
       routeId seedAttempts notes].
  rewrite !setNth_twice, (setNth_same _ _ H1), (setNth_same _ _ H2).
  destruct route1, route2. reflexivity.
Qed.

Lemma swapStep_rejected ctx route1 route2 si sj :
  snd (swapStep ctx route1 route2 si sj) = false ->
  fst (swapStep ctx route1 route2 si sj) = (route1, route2).
Proof.
  unfold swapStep.
  destruct (nth_error (stops route1) si) as [stop1|] eqn:E1; [|reflexivity].
  destruct (nth_error (stops route2) sj) as [stop2|] eqn:E2; [|reflexivity].
  destruct (swapAccepted _ _ _ _); [discriminate|]. intros _.
  cbn [fst]. apply revertSwap_restores; assumption.
Qed.

Lemma swapAt_unimproved ctx i j acc sisj :
  snd (swapAt ctx i j acc sisj) = false ->
  snd acc = false /\ fst (swapAt ctx i j acc sisj) = fst acc.
Proof.
  destruct acc as [routes improved]. unfold swapAt.
  destruct (nth_error routes i) as [r1|] eqn:E1; [|auto].
  destruct (nth_error routes j) as [r2|] eqn:E2; [|auto].
  pose proof (@swapStep_rejected ctx r1 r2 (fst sisj) (snd sisj)) as Hrej.
  destruct (swapStep ctx r1 r2 (fst sisj) (snd sisj)) as [[r1' r2'] kept].
  cbn [fst snd] in *. intro H. apply orb_false_iff in H. destruct H as [-> ->].
  specialize (Hrej eq_refl). injection Hrej as -> ->.
  rewrite (setNth_same _ _ E1), (setNth_same _ _ E2). auto.
Qed.

Lemma fold_unimproved {A} (f : list Route * bool -> A -> list Route * bool) l :
  (forall acc x, snd (f acc x) = false -> snd acc = false /\ fst (f acc x) = fst acc) ->
  forall acc, snd (fold_left f l acc) = false ->
              snd acc = false /\ fst (fold_left f l acc) = fst acc.
Proof.
  intro Hf. induction l as [|x l IH]; intros acc H; [auto|].
  cbn [fold_left] in *. destruct (IH _ H) as [H1 H2].
  destruct (Hf _ _ H1) as [H3 H4]. split; congruence.
Qed.

Lemma swapPair_unimproved ctx acc ij :
  snd (swapPair ctx acc ij) = false ->
  snd acc = false /\ fst (swapPair ctx acc ij) = fst acc.
Proof.
  unfold swapPair. destruct ij as [i j].
  destruct (nth_error (fst acc) i); [|auto].
  destruct (nth_error (fst acc) j); [|auto].
  destruct (negb _); [auto|].
  apply fold_unimproved. intros; apply swapAt_unimproved; assumption.
Qed.

(** C9. A tentative swap is kept only when the sum of the two route scores
    strictly improves and both swapped routes pass [isRouteValid]; a rejected
    swap gives back both routes exactly as they were (stop lists, pallet
    totals and every other field), and a swap pass that keeps no swap leaves
    the list of routes unchanged. *)
Theorem C9_swap_kept_only_if_better_and_valid_else_restored :
  forall (ctx : Context) (route1 route2 : Route) (si sj : nat),
    let res := swapStep ctx route1 route2 si sj in
    (snd res = false -> fst res = (route1, route2))
    /\ (snd res = true ->
        exists stop1 stop2,
          nth_error (stops route1) si = Some stop1
          /\ nth_error (stops route2) sj = Some stop2
          /\ let t := applySwap route1 route2 si sj stop1 stop2 in
             fst res = (trial1 t, trial2 t)
             /\ stops (trial1 t) = setNth si stop2 (stops route1)
             /\ stops (trial2 t) = setNth sj stop1 (stops route2)
             /\ js_lt (js_add (calculateRouteScore (trial1 t) ctx)
                              (calculateRouteScore (trial2 t) ctx))
                      (js_add (calculateRouteScore route1 ctx)
                              (calculateRouteScore route2 ctx)) = true
             /\ isRouteValid (trial1 t) ctx = true
             /\ isRouteValid (trial2 t) ctx = true)
    /\ (forall routes,
           snd (swapPass ctx routes) = false -> fst (swapPass ctx routes) = routes).
Proof.
  intros ctx route1 route2 si sj res. split; [apply swapStep_rejected|]. split.
  - subst res. unfold swapStep.
    destruct (nth_error (stops route1) si) as [stop1|] eqn:E1; [|discriminate].
    destruct (nth_error (stops route2) sj) as [stop2|] eqn:E2; [|discriminate].
    destruct (swapAccepted _ _ _ _) eqn:Eacc; [|discriminate]. intros _.
    exists stop1, stop2. split; [reflexivity|]. split; [reflexivity|].
    unfold swapAccepted in Eacc. apply andb_true_iff in Eacc. destruct Eacc as [Eacc V2].
    apply andb_true_iff in Eacc. destruct Eacc as [Elt V1].
    cbn zeta. repeat split; assumption.
  - intros routes H. unfold swapPass in *.
    apply (fold_unimproved (swapPair ctx)) in H; [apply H|].
    intros; apply swapPair_unimproved; assumption.
Qed.

(* ------------------------------------------------------------------ *)
(** ** Appending a stop *)

Lemma uniq_snoc l x :
  uniq (l ++ [x]) = if in_dec string_dec x l then uniq l else uniq l ++ [x].
Proof.
  induction l as [|a l IH]; [reflexivity|].
  change ((a :: l) ++ [x]) with (a :: (l ++ [x])). cbn [uniq]. rewrite IH.
  destruct (in_dec string_dec x l) as [Hin|Hnin].
  - destruct (in_dec string_dec x (a :: l)) as [_|Hn]; [reflexivity|].
    exfalso. apply Hn. right. exact Hin.
  - rewrite filter_app. cbn [filter].
    destruct (String.eqb_spec x a) as [->|Hne]; cbn [negb].
    + rewrite app_nil_r.
      destruct (in_dec string_dec a (a :: l)) as [_|Hn]; [reflexivity|].
      exfalso. apply Hn. left. reflexivity.
    + destruct (in_dec string_dec x (a :: l)) as [[Heq|Hin]|_];
        [congruence|contradiction|reflexivity].
Qed.











(* ------------------------------------------------------------------ *)
(** ** Order of the entries of a list *)

Lemma before_cons_iff a l x y :
  before (a :: l) x y <-> (a = x /\ In y l) \/ before l x y.
Proof.
  split.
  - intros (l1 & l2 & H & Hy). destruct l1 as [|b l1]; cbn in H; injection H as -> ->.
    + left. auto.
    + right. exists l1, l2. auto.
  - intros [[-> Hy]|(l1 & l2 & -> & Hy)].
    + exists [], l. auto.
    + exists (a :: l1), l2. auto.
Qed.

Lemma before_nil x y : ~ before [] x y.
Proof. intros (l1 & l2 & H & _). destruct l1; discriminate. Qed.

Lemma before_In l x y : before l x y -> In x l /\ In y l.
Proof.
  intros (l1 & l2 & -> & Hy). split; apply in_or_app; right; [left; reflexivity|right; exact Hy].
Qed.

Lemma before_app_iff l l' x y :
  before (l ++ l') x y <-> before l x y \/ (In x l /\ In y l') \/ before l' x y.
Proof.
  induction l as [|a l IH]; cbn [app].
  - split; [auto|]. intros [H|[[[] _]|H]]; [destruct (before_nil H)|exact H].
  - rewrite !before_cons_iff, IH, in_app_iff. cbn [In]. tauto.
Qed.

Lemma before_filter_iff p l x y :
  before (filter p l) x y <-> before l x y /\ p x = true /\ p y = true.
Proof.
  induction l as [|a l IH]; cbn [filter].
  - split; [intro H; destruct (before_nil H)|intros (H & _); destruct (before_nil H)].
  - destruct (p a) eqn:E.
    + rewrite !before_cons_iff, IH, filter_In. split.
      * intros [[-> [Hy Hpy]]|H]; [|tauto]. auto.
      * intros [[[-> Hy]|H] [Hx Hpy]]; [left|right]; auto.
    + rewrite before_cons_iff, IH. split; [tauto|].
      intros [[[-> Hy]|H] [Hx Hpy]]; [congruence|auto].
Qed.

Lemma before_total l x y :
  In x l -> In y l -> x <> y -> before l x y \/ before l y x.
Proof.
  induction l as [|a l IH]; [intros []|].
  intros [->|Hx] [->|Hy] Hne; rewrite !before_cons_iff; try congruence; auto.
  destruct (IH Hx Hy Hne); auto.
Qed.

Lemma before_head_absurd a l x : ~ In a l -> ~ before (a :: l) x a.
Proof.
  intros Hn H. apply before_cons_iff in H. destruct H as [[_ H]|H]; [auto|].
  apply before_In in H. tauto.
Qed.

Lemma before_asym l x y : NoDup l -> before l x y -> before l y x -> False.
Proof.
  induction 1 as [|a l Hn Hnd IH]; [intro H; destruct (before_nil H)|].
  rewrite !before_cons_iff. intros [[-> Hy]|H1] [[-> Hx]|H2]; auto.
  - apply before_In in H2. tauto.
  - apply before_In in H1. tauto.
Qed.

Lemma before_irrefl l x : NoDup l -> ~ before l x x.
Proof. intros Hn H. exact (before_asym Hn H H). Qed.

(** Two duplicate-free lists with the same entries in the same order. *)
Lemma same_order_eq l1 :
  forall l2, NoDup l1 -> NoDup l2 -> (forall x, In x l1 <-> In x l2) ->
             (forall x y, before l2 x y -> before l1 x y) -> l1 = l2.
Proof.
  induction l1 as [|a l1 IH]; intros l2 H1 H2 Hin Hord.
  - destruct l2 as [|b l2]; [reflexivity|]. exfalso. apply (Hin b). left. reflexivity.
  - destruct l2 as [|b l2]; [exfalso; apply (Hin a); left; reflexivity|].
    inversion H1 as [|? ? Ha H1']; subst. inversion H2 as [|? ? Hb H2']; subst.
    assert (a = b).
    { destruct (string_dec a b) as [E|Hne]; [exact E|]. exfalso.
      assert (Hab : In a l2).
      { destruct (proj1 (Hin a) (or_introl eq_refl)) as [E|H]; [congruence|exact H]. }
      apply (@before_head_absurd a l1 b Ha). apply Hord.
      apply before_cons_iff. left. auto. }
    subst b. f_equal. apply IH; try assumption.
    + intro x. split; intro H.
      * destruct (proj1 (Hin x) (or_intror H)) as [E|H']; [subst; contradiction|exact H'].
      * destruct (proj2 (Hin x) (or_intror H)) as [E|H']; [subst; contradiction|exact H'].
    + intros x y H. assert (H' : before (a :: l1) x y).
      { apply Hord. apply before_cons_iff. right. exact H. }
      apply before_cons_iff in H'. destruct H' as [[-> _]|H']; [|exact H'].
      apply before_In in H. tauto.
Qed.

(* ------------------------------------------------------------------ *)
(** ** Nearest neighbour *)

Section NearestNeighbour.

Variable dm : DistanceMatrix.

Lemma closer_trans d d' nd :
  closer d nd = true -> d' < d -> closer d' nd = true.
Proof.
  destruct nd as [n|]; cbn; [|reflexivity].
  rewrite !Qlt_bool_iff. intros; lra.
Qed.

(** What the scan returns: either no entry of [remaining] beats the running
    minimum, or the list splits at the first entry with the least known
    distance. *)
Lemma nearestScan_spec cur remaining :
  forall i nd ni,
    (nearestScan dm cur remaining i nd ni = ni
     /\ forall y ly, In y remaining -> dm cur y = Some ly ->
                     closer (distance ly) nd = false)
    \/ exists l1 x lx l2,
         remaining = l1 ++ x :: l2
         /\ nearestScan dm cur remaining i nd ni = Some (i + List.length l1)%nat
         /\ dm cur x = Some lx
         /\ closer (distance lx) nd = true
         /\ (forall y ly, In y l1 -> dm cur y = Some ly -> distance lx < distance ly)
         /\ (forall y ly, In y l2 -> dm cur y = Some ly -> distance lx <= distance ly).
Proof.
  induction remaining as [|s rest IH]; intros i nd ni.
  - left. split; [reflexivity|]. intros y ly [].
  - cbn [nearestScan]. destruct (dm cur s) as [leg|] eqn:Es.
    + destruct (closer (distance leg) nd) eqn:Ec.
      * right.
        destruct (IH (S i) (Some (distance leg)) (Some i))
          as [[Hres Hno]|(l1 & x & lx & l2 & Hsplit & Hres & Hx & Hcl & H1 & H2)].
        -- exists [], s, leg, rest. cbn [List.length app]. rewrite Nat.add_0_r.
           refine (conj eq_refl (conj Hres (conj Es (conj Ec (conj _ _))))).
           ++ intros y ly [].
           ++ intros y ly Hy Hly. specialize (Hno y ly Hy Hly).
              cbn in Hno. apply Qlt_bool_false_iff in Hno. exact Hno.
        -- exists (s :: l1), x, lx, l2. cbn [List.length app].
           subst rest. cbn in Hcl. apply Qlt_bool_iff in Hcl.
           refine (conj eq_refl (conj _ (conj Hx (conj _ (conj _ H2))))).
           ++ rewrite Hres. f_equal. lia.
           ++ apply (closer_trans _ Ec Hcl).
           ++ intros y ly [->|Hy] Hly; [|eauto]. rewrite Es in Hly.
              injection Hly as <-. exact Hcl.
      * destruct (IH (S i) nd ni)
          as [[Hres Hno]|(l1 & x & lx & l2 & Hsplit & Hres & Hx & Hcl & H1 & H2)].
        -- left. split; [exact Hres|]. intros y ly [->|Hy] Hly; [|eauto].
           rewrite Es in Hly. injection Hly as <-. exact Ec.
        -- right. exists (s :: l1), x, lx, l2. cbn [List.length app]. subst rest.
           refine (conj eq_refl (conj _ (conj Hx (conj Hcl (conj _ H2))))).
           ++ rewrite Hres. f_equal. lia.
           ++ intros y ly [->|Hy] Hly; [|eauto]. rewrite Es in Hly.
              injection Hly as <-. destruct nd as [n|]; cbn in Ec, Hcl; [|discriminate].
              apply Qlt_bool_iff in Hcl. apply Qlt_bool_false_iff in Ec. lra.
    + destruct (IH (S i) nd ni)
        as [[Hres Hno]|(l1 & x & lx & l2 & Hsplit & Hres & Hx & Hcl & H1 & H2)].
      * left. split; [exact Hres|]. intros y ly [->|Hy] Hly; [congruence|eauto].
      * right. exists (s :: l1), x, lx, l2. cbn [List.length app]. subst rest.
        refine (conj eq_refl (conj _ (conj Hx (conj Hcl (conj _ H2))))).
        -- rewrite Hres. f_equal. lia.
        -- intros y ly [->|Hy] Hly; [congruence|eauto].
Qed.

Lemma nearestIndexOf_pick cur remaining :
  Pick dm cur remaining (nearestIndexOf dm cur remaining).
Proof.
  unfold nearestIndexOf.
  destruct (nearestScan_spec cur remaining 0 None None)
    as [[Hres Hno]|(l1 & x & lx & l2 & Hsplit & Hres & Hx & _ & H1 & H2)].
  - rewrite Hres. constructor. intros y Hy.
    destruct (dm cur y) as [ly|] eqn:E; [|reflexivity].
    specialize (Hno y ly Hy E). discriminate.
  - rewrite Hres. cbn [Nat.add]. econstructor; eassumption.
Qed.

Lemma nth_middle_default (l1 l2 : list string) x d : nth (List.length l1) (l1 ++ x :: l2) d = x.
Proof. induction l1; cbn; auto. Qed.

Lemma removeAt_middle (l1 l2 : list string) x :
  removeAt (List.length l1) (l1 ++ x :: l2) = l1 ++ l2.
Proof.
  unfold removeAt. induction l1 as [|a l1 IH]; cbn; [reflexivity|].
  cbn in IH. rewrite IH. reflexivity.
Qed.

(** One round of the loop, on the split of the list at the picked item. *)
Lemma nnLoop_unfold fuel remaining cur :
  nnLoop (S fuel) dm remaining cur
  = match remaining with
    | [] => []
    | _ =>
        match nearestIndexOf dm cur remaining with
        | None => remaining
        | Some i =>
            nth i remaining ""%string
            :: nnLoop fuel dm (removeAt i remaining) (nth i remaining ""%string)
        end
    end.
Proof. reflexivity. Qed.

Lemma nnLoop_perm fuel :
  forall remaining cur,
    (List.length remaining <= fuel)%nat ->
    Permutation (nnLoop fuel dm remaining cur) remaining.
Proof.
  induction fuel as [|fuel IH]; intros remaining cur Hlen.
  - reflexivity.
  - rewrite nnLoop_unfold. destruct remaining as [|r0 rest]; [reflexivity|].
    destruct (nearestIndexOf_pick cur (r0 :: rest)) as [Hnone|l1 x lx l2 Hsplit Hx H1 H2];
      [reflexivity|].
    rewrite Hsplit, nth_middle_default, removeAt_middle.
    rewrite (IH (l1 ++ l2) x).
    + apply Permutation_middle.
    + rewrite Hsplit in Hlen. rewrite length_app in *. cbn in Hlen. lia.
Qed.

Lemma runNearestNeighbor_loop items start :
  runNearestNeighbor items start dm = nnLoop (List.length items) dm items start.
Proof.
  unfold runNearestNeighbor. destruct items as [|a [|b items]]; try reflexivity.
  cbn [List.length Nat.ltb Nat.leb]. rewrite nnLoop_unfold.
  destruct (nearestIndexOf_pick start [a]) as [Hnone|l1 x lx l2 Hsplit Hx H1 H2];
    [reflexivity|].
  destruct l1 as [|? [|? ?]]; try discriminate.
  cbn in Hsplit. injection Hsplit as <- <-. reflexivity.
Qed.

Lemma runNearestNeighbor_perm items start :
  Permutation (runNearestNeighbor items start dm) items.
Proof. rewrite runNearestNeighbor_loop. apply nnLoop_perm. lia. Qed.

Lemma before_middle_iff (a b : list string) m x y :
  before (a ++ m :: b) x y
  <-> before (a ++ b) x y \/ (x = m /\ In y b) \/ (y = m /\ In x a).
Proof.
  rewrite !before_app_iff, before_cons_iff. cbn [In]. split.
  - intros [H|[[Hx [->|Hy]]|[[-> Hy]|H]]]; auto 6.
  - intros [[H|[[Hx Hy]|H]]|[[-> Hy]|[-> Hx]]]; auto 6.
Qed.

(** The outcome of the loop does not depend on the order of the items as
    long as every pair that changed places is ordered as in the outcome. *)
Lemma nnLoop_reorder fuel :
  forall L1 L2 cur,
    NoDup L1 -> NoDup L2 -> (forall x, In x L1 <-> In x L2) ->
    (List.length L1 <= fuel)%nat -> (List.length L2 <= fuel)%nat ->
    (forall x y, before L2 x y ->
                 before L1 x y \/ before (nnLoop fuel dm L1 cur) x y) ->
    nnLoop fuel dm L2 cur = nnLoop fuel dm L1 cur.
Proof.
  induction fuel as [|fuel IH]; intros L1 L2 cur N1 N2 Hin Hl1 Hl2 Hord.
  - destruct L1; [|cbn in Hl1; lia]. destruct L2; [|cbn in Hl2; lia]. reflexivity.
  - rewrite nnLoop_unfold in Hord. rewrite !nnLoop_unfold.
    destruct L1 as [|r1 rest1].
    { destruct L2 as [|r2 rest2]; [reflexivity|].
      exfalso. apply (Hin r2). left. reflexivity. }
    destruct L2 as [|r2 rest2].
    { exfalso. apply (Hin r1). left. reflexivity. }
    destruct (nearestIndexOf_pick cur (r1 :: rest1))
      as [Hnone1|a1 x1 lx1 b1 Hs1 Hx1 Hf1 Hb1];
      destruct (nearestIndexOf_pick cur (r2 :: rest2))
        as [Hnone2|a2 x2 lx2 b2 Hs2 Hx2 Hf2 Hb2].
    + symmetry. apply same_order_eq; try assumption.
      intros x y H. destruct (Hord x y H); assumption.
    + exfalso. assert (Hx : In x2 (r1 :: rest1)).
      { apply Hin. rewrite Hs2. apply in_or_app. right. left. reflexivity. }
      rewrite (Hnone1 _ Hx) in Hx2. discriminate.
    + exfalso. assert (Hx : In x1 (r2 :: rest2)).
      { apply Hin. rewrite Hs1. apply in_or_app. right. left. reflexivity. }
      rewrite (Hnone2 _ Hx) in Hx1. discriminate.
    + rewrite Hs1, Hs2 in *. clear Hs1 Hs2.
      rewrite !nth_middle_default, !removeAt_middle in *.
      pose proof (NoDup_remove_1 _ _ _ N1) as N1'.
      pose proof (NoDup_remove_2 _ _ _ N1) as X1.
      pose proof (NoDup_remove_1 _ _ _ N2) as N2'.
      pose proof (NoDup_remove_2 _ _ _ N2) as X2.
      assert (Hl1' : (List.length (a1 ++ b1) <= fuel)%nat)
        by (rewrite length_app in *; cbn in Hl1; lia).
      assert (Hl2' : (List.length (a2 ++ b2) <= fuel)%nat)
        by (rewrite length_app in *; cbn in Hl2; lia).
      assert (Hout : ~ In x1 (nnLoop fuel dm (a1 ++ b1) x1)).
      { intro H. apply X1. eapply Permutation_in; [apply nnLoop_perm; exact Hl1'|exact H]. }
      assert (Hle12 : distance lx1 <= distance lx2).
      { assert (Hx : In x2 (a1 ++ x1 :: b1))
          by (apply Hin; apply in_or_app; right; left; reflexivity).
        apply in_app_or in Hx. destruct Hx as [Hx|[->|Hx]].
        - apply Qlt_le_weak. eapply Hf1; eassumption.
        - rewrite Hx1 in Hx2. injection Hx2 as ->. lra.
        - eapply Hb1; eassumption. }
      assert (Hle21 : distance lx2 <= distance lx1).
      { assert (Hx : In x1 (a2 ++ x2 :: b2))
          by (apply Hin; apply in_or_app; right; left; reflexivity).
        apply in_app_or in Hx. destruct Hx as [Hx|[->|Hx]].
        - apply Qlt_le_weak. eapply Hf2; eassumption.
        - rewrite Hx1 in Hx2. injection Hx2 as ->. lra.
        - eapply Hb2; eassumption. }
      assert (Heq : x2 = x1).
      { destruct (string_dec x2 x1) as [E|Hne]; [exact E|]. exfalso.
        assert (Hx : In x1 (a2 ++ x2 :: b2))
          by (apply Hin; apply in_or_app; right; left; reflexivity).
        apply in_app_or in Hx. destruct Hx as [Hx|[E|Hx]]; [|congruence|].
        - pose proof (Hf2 _ _ Hx Hx1). lra.
        - assert (Hb : before (a2 ++ x2 :: b2) x2 x1) by (exists a2, b2; auto).
          destruct (Hord _ _ Hb) as [H|H].
          + apply before_app_iff in H. destruct H as [H|[[H _]|H]].
            * apply before_In in H. apply X1. apply in_or_app. tauto.
            * pose proof (Hf1 _ _ H Hx2). lra.
            * revert H. apply before_head_absurd. intro H. apply X1.
              apply in_or_app. auto.
          + revert H. apply before_head_absurd. exact Hout. }
      subst x2. f_equal. apply IH; try assumption.
      * intro x. split; intro H.
        -- assert (Hx : In x (a2 ++ x1 :: b2)).
           { apply Hin. apply in_app_or in H. apply in_or_app. cbn [In]. tauto. }
           apply in_app_or in Hx. apply in_or_app. destruct Hx as [Hx|[E|Hx]]; auto.
           subst x. contradiction.
        -- assert (Hx : In x (a1 ++ x1 :: b1)).
           { apply Hin. apply in_app_or in H. apply in_or_app. cbn [In]. tauto. }
           apply in_app_or in Hx. apply in_or_app. destruct Hx as [Hx|[E|Hx]]; auto.
           subst x. contradiction.
      * intros x y H. pose proof (before_In H) as [Hxin Hyin].
        assert (Hb : before (a2 ++ x1 :: b2) x y)
          by (apply before_middle_iff; auto).
        destruct (Hord _ _ Hb) as [H'|H'].
        -- left. apply before_middle_iff in H'.
           destruct H' as [H'|[[-> _]|[-> _]]]; [exact H'|contradiction..].
        -- right. apply before_cons_iff in H'.
           destruct H' as [[-> _]|H']; [contradiction|exact H'].
Qed.

Lemma runNearestNeighbor_reorder L1 L2 start :
  NoDup L1 -> NoDup L2 -> (forall x, In x L1 <-> In x L2) ->
  (forall x y, before L2 x y ->
               before L1 x y \/ before (runNearestNeighbor L1 start dm) x y) ->
  runNearestNeighbor L2 start dm = runNearestNeighbor L1 start dm.
Proof.
  intros N1 N2 Hin Hord. rewrite !runNearestNeighbor_loop in *.
  assert (Hlen : List.length L2 = List.length L1).
  { apply Permutation_length. apply NoDup_Permutation; try assumption.
    intro x. symmetry. apply Hin. }
  rewrite Hlen. apply nnLoop_reorder; try assumption; lia.
Qed.

End NearestNeighbour.

(* ------------------------------------------------------------------ *)
(** ** Key enumeration order *)

Lemma insertKey_In k l x : In x (Keys.insertKey k l) <-> x = k \/ In x l.
Proof.
  induction l as [|h t IH]; cbn [Keys.insertKey].
  - cbn. intuition congruence.
  - destruct (Z.leb _ _); cbn [In]; [intuition congruence|]. rewrite IH. tauto.
Qed.

Lemma sortKeys_In l x : In x (Keys.sortKeys l) <-> In x l.
Proof.
  induction l as [|k l IH]; [reflexivity|].
  cbn [Keys.sortKeys fold_right]. fold (Keys.sortKeys l).
  rewrite insertKey_In, IH. cbn [In]. intuition congruence.
Qed.

Lemma insertKey_NoDup k l : ~ In k l -> NoDup l -> NoDup (Keys.insertKey k l).
Proof.
  induction l as [|h t IH]; intros Hk Hn; cbn [Keys.insertKey].
  - constructor; [auto|constructor].
  - destruct (Z.leb _ _); [constructor; assumption|].
    inversion Hn as [|? ? Hh Ht]; subst. constructor.
    + rewrite insertKey_In. intros [->|H]; [apply Hk; left; reflexivity|auto].
    + apply IH; [intro; apply Hk; right; assumption|assumption].
Qed.

Lemma sortKeys_NoDup l : NoDup l -> NoDup (Keys.sortKeys l).
Proof.
  induction 1 as [|k l Hk Hn IH]; [constructor|].
  cbn [Keys.sortKeys fold_right]. fold (Keys.sortKeys l).
  apply insertKey_NoDup; [rewrite sortKeys_In; exact Hk|exact IH].
Qed.

Lemma insertKey_before k s x y :
  (forall a b, before s a b -> (Keys.indexValue a <= Keys.indexValue b)%Z) ->
  before (Keys.insertKey k s) x y ->
  before s x y
  \/ (x = k /\ In y s /\ (Keys.indexValue k <= Keys.indexValue y)%Z)
  \/ (y = k /\ In x s /\ (Keys.indexValue x < Keys.indexValue k)%Z).
Proof.
  induction s as [|h t IH]; intros Hs; cbn [Keys.insertKey].
  - intro H. apply before_cons_iff in H. destruct H as [[_ []]|H]. destruct (before_nil H).
  - destruct (Z.leb_spec (Keys.indexValue k) (Keys.indexValue h)) as [Hle|Hlt].
    + intro H. apply before_cons_iff in H. destruct H as [[-> Hy]|H]; [|auto].
      right. left. split; [reflexivity|]. split; [exact Hy|].
      destruct Hy as [->|Hy]; [exact Hle|].
      assert (Hb : before (h :: t) h y) by (apply before_cons_iff; auto).
      specialize (Hs _ _ Hb). lia.
    + intro H. apply before_cons_iff in H. destruct H as [[-> Hy]|H].
      * rewrite insertKey_In in Hy. destruct Hy as [->|Hy].
        -- right. right. cbn [In]. auto.
        -- left. apply before_cons_iff. auto.
      * assert (Hs' : forall a b, before t a b -> (Keys.indexValue a <= Keys.indexValue b)%Z).
        { intros a b Hab. apply Hs. apply before_cons_iff. auto. }
        destruct (IH Hs' H) as [H'|[(-> & Hy & Hv)|(-> & Hx & Hv)]].
        -- left. apply before_cons_iff. auto.
        -- right. left. cbn [In]. auto.
        -- right. right. cbn [In]. auto.
Qed.

Lemma sortKeys_before l x y :
  before (Keys.sortKeys l) x y ->
  (Keys.indexValue x < Keys.indexValue y)%Z
  \/ (Keys.indexValue x = Keys.indexValue y /\ before l x y).
Proof.
  revert x y. induction l as [|k l IH]; intros x y.
  - intro H. destruct (before_nil H).
  - cbn [Keys.sortKeys fold_right]. fold (Keys.sortKeys l). intro H.
    apply insertKey_before in H.
    + destruct H as [H|[(-> & Hy & Hv)|(-> & Hx & Hv)]].
      * destruct (IH _ _ H) as [Hlt|[Heq Hb]]; [auto|].
        right. split; [exact Heq|]. apply before_cons_iff. auto.
      * rewrite sortKeys_In in Hy.
        destruct (Z.eq_dec (Keys.indexValue k) (Keys.indexValue y)) as [E|Hne]; [|lia].
        right. split; [exact E|]. apply before_cons_iff. auto.
      * auto.
    + intros a b Hab. destruct (IH _ _ Hab) as [Hlt|[Heq _]]; lia.
Qed.

Lemma partition_perm (p : string -> bool) l :
  Permutation (filter (fun k => negb (p k)) l ++ filter p l) l.
Proof.
  induction l as [|a l IH]; [constructor|].
  cbn [filter]. destruct (p a); cbn [negb app].
  - apply Permutation_sym, Permutation_cons_app. apply Permutation_sym. exact IH.
  - constructor. exact IH.
Qed.

Lemma ownKeys_In l x : In x (Keys.ownKeys l) <-> In x l.
Proof.
  unfold Keys.ownKeys. rewrite in_app_iff, sortKeys_In, !filter_In.
  destruct (Keys.isIndex x); cbn; tauto.
Qed.

Lemma ownKeys_NoDup l : NoDup l -> NoDup (Keys.ownKeys l).
Proof.
  intro Hn. unfold Keys.ownKeys. apply NoDup_app.
  - apply sortKeys_NoDup, NoDup_filter, Hn.
  - apply NoDup_filter, Hn.
  - intros x H1 H3. rewrite sortKeys_In in H1. apply filter_In in H1, H3.
    destruct H1 as [_ E1], H3 as [_ E3]. rewrite E1 in E3. discriminate.
Qed.

Lemma ownKeys_before l x y :
  before (Keys.ownKeys l) x y -> rankLt x y \/ (rankEq x y /\ before l x y).
Proof.
  unfold Keys.ownKeys. intro H. apply before_app_iff in H.
  destruct H as [H|[[Hx Hy]|H]].
  - pose proof (before_In H) as [Hx Hy].
    rewrite sortKeys_In in Hx, Hy. apply filter_In in Hx, Hy.
    destruct Hx as [_ Ex], Hy as [_ Ey].
    destruct (sortKeys_before _ H) as [Hlt|[Heq Hb]].
    + left. unfold rankLt. auto.
    + right. apply before_filter_iff in Hb. unfold rankEq. tauto.
  - rewrite sortKeys_In in Hx. apply filter_In in Hx, Hy.
    destruct Hx as [_ Ex], Hy as [_ Ey]. apply negb_true_iff in Ey.
    left. unfold rankLt. auto.
  - apply before_filter_iff in H. destruct H as (Hb & Ex & Ey).
    apply negb_true_iff in Ex, Ey. right. unfold rankEq. auto.
Qed.

Lemma ownKeys_ranked l x y :
  NoDup l -> In x l -> In y l -> rankLt x y -> before (Keys.ownKeys l) x y.
Proof.
  intros Hn Hx Hy Hr.
  assert (Hne : x <> y).
  { intros ->. destruct Hr as [E [E'|[_ Hlt]]]; [congruence|lia]. }
  destruct (@before_total (Keys.ownKeys l) x y) as [H|H];
    [apply ownKeys_In; assumption..|exact Hne|exact H|].
  exfalso. apply ownKeys_before in H. unfold rankLt, rankEq in *.
  destruct Hr as [E [E'|[E' Hlt]]], H as [[F [F'|[F' Hlt']]]|[[[F F']|(F & F' & Hv)] _]];
    try congruence; lia.
Qed.

(* ------------------------------------------------------------------ *)
(** ** Stop sequencer *)

Lemma filter_none {A} (p : A -> bool) l :
  (forall x, In x l -> p x = false) -> filter p l = [].
Proof.
  induction l as [|a l IH]; intro H; [reflexivity|].
  cbn [filter]. rewrite (H a (or_introl eq_refl)). apply IH. intros; apply H; right; assumption.
Qed.

Lemma filter_all {A} (p : A -> bool) l :
  (forall x, In x l -> p x = true) -> filter p l = l.
Proof.
  induction l as [|a l IH]; intro H; [reflexivity|].
  cbn [filter]. rewrite (H a (or_introl eq_refl)). f_equal.
  apply IH. intros; apply H; right; assumption.
Qed.

Lemma filter_twice {A} (p q : A -> bool) l :
  filter p (filter q l) = filter (fun x => (q x && p x)%bool) l.
Proof.
  induction l as [|a l IH]; [reflexivity|].
  cbn [filter]. destruct (q a); cbn [filter andb]; [destruct (p a)|]; rewrite IH; reflexivity.
Qed.

Lemma uniq_NoDup l : NoDup (uniq l).
Proof.
  induction l as [|a l IH]; [constructor|].
  cbn [uniq]. constructor; [|apply NoDup_filter; exact IH].
  rewrite filter_In. intros [_ H]. rewrite String.eqb_refl in H. discriminate.
Qed.

Lemma uniq_app l l' : uniq (l ++ l') = uniq l ++ filter (notIn l) (uniq l').
Proof.
  induction l as [|a l IH].
  - cbn [app uniq]. symmetry. apply filter_all. reflexivity.
  - change ((a :: l) ++ l') with (a :: (l ++ l')). cbn [uniq]. rewrite IH, filter_app.
    rewrite filter_twice. cbn [app]. f_equal. f_equal. apply filter_ext. intro y.
    unfold notIn. cbn [existsb]. rewrite negb_orb. apply andb_comm.
Qed.

Lemma uniq_const l k : l <> [] -> (forall x, In x l -> x = k) -> uniq l = [k].
Proof.
  destruct l as [|a l]; [congruence|]. intros _ H.
  cbn [uniq]. rewrite (H a (or_introl eq_refl)). f_equal.
  apply filter_none. intros x Hx. rewrite uniq_In in Hx.
  rewrite (H x (or_intror Hx)), String.eqb_refl. reflexivity.
Qed.

Lemma shipmentsOf_In routeStops k s :
  In s (shipmentsOf routeStops k) <-> In s routeStops /\ store s = k.
Proof.
  unfold shipmentsOf. rewrite filter_In, String.eqb_eq. reflexivity.
Qed.

Lemma shipmentsOf_nonempty routeStops k :
  In k (map store routeStops) -> shipmentsOf routeStops k <> [].
Proof.
  intros H E. apply in_map_iff in H. destruct H as (s & Hs & Hin).
  assert (Hs' : In s (shipmentsOf routeStops k)) by (apply shipmentsOf_In; auto).
  rewrite E in Hs'. destruct Hs'.
Qed.

Lemma shipmentsOf_absent routeStops k :
  ~ In k (map store routeStops) -> shipmentsOf routeStops k = [].
Proof.
  intro H. apply filter_none. intros s Hs. apply String.eqb_neq. intro E.
  apply H. rewrite <- E. apply in_map. exact Hs.
Qed.

Lemma shipmentsOf_flat_in routeStops ks k :
  NoDup ks -> In k ks ->
  shipmentsOf (flat_map (shipmentsOf routeStops) ks) k = shipmentsOf routeStops k.
Proof.
  intros Hn. revert k. induction Hn as [|k0 ks Hk0 Hn IH]; intros k Hk; [destruct Hk|].
  cbn [flat_map]. unfold shipmentsOf at 1. rewrite filter_app.
  fold (shipmentsOf (shipmentsOf routeStops k0) k).
  fold (shipmentsOf (flat_map (shipmentsOf routeStops) ks) k).
  destruct (string_dec k0 k) as [->|Hne].
  - assert (Hrest : shipmentsOf (flat_map (shipmentsOf routeStops) ks) k = []).
    { apply filter_none. intros s Hs. apply String.eqb_neq. intro E.
      apply in_flat_map in Hs. destruct Hs as (k' & Hk' & Hs).
      apply shipmentsOf_In in Hs. destruct Hs as [_ Hs]. apply Hk0. congruence. }
    rewrite Hrest, app_nil_r. unfold shipmentsOf. rewrite filter_twice.
    apply filter_ext. intro s. apply andb_diag.
  - destruct Hk as [E|Hk]; [contradiction|]. rewrite (IH _ Hk).
    assert (Hfirst : shipmentsOf (shipmentsOf routeStops k0) k = []).
    { apply filter_none. intros s Hs. apply shipmentsOf_In in Hs. destruct Hs as [_ Hs].
      apply String.eqb_neq. congruence. }
    rewrite Hfirst. reflexivity.
Qed.

Lemma uniq_flat routeStops ks :
  NoDup ks -> (forall k, In k ks -> In k (map store routeStops)) ->
  uniq (map store (flat_map (shipmentsOf routeStops) ks)) = ks.
Proof.
  induction 1 as [|k ks Hk Hn IH]; intro Hin; [reflexivity|].
  cbn [flat_map]. rewrite map_app, uniq_app.
  rewrite IH by (intros; apply Hin; right; assumption).
  assert (Hall : forall x, In x (map store (shipmentsOf routeStops k)) -> x = k).
  { intros x Hx. apply in_map_iff in Hx. destruct Hx as (s & <- & Hs).
    apply shipmentsOf_In in Hs. apply Hs. }
  rewrite (@uniq_const _ k); [|
    intro E; apply map_eq_nil in E; revert E; apply shipmentsOf_nonempty;
    apply Hin; left; reflexivity | exact Hall].
  cbn [app]. f_equal. apply filter_all. intros y Hy. unfold notIn.
  apply negb_true_iff. destruct (existsb _ _) eqn:E; [|reflexivity].
  apply existsb_exists in E. destruct E as (x & Hx & E). apply String.eqb_eq in E.
  subst x. apply Hall in Hx. subst y. contradiction.
Qed.

Lemma nn_guard l start dm :
  match l with [] => [] | _ :: _ => runNearestNeighbor l start dm end
  = runNearestNeighbor l start dm.
Proof. destruct l; reflexivity. Qed.

Section Sequencer.

Variable dm : DistanceMatrix.
Variable wh : string.
Variable routeStops : list Shipment.

Local Abbreviation keys := (seqKeys routeStops).
Local Abbreviation ambientOnly := (seqAmbientOnly routeStops).
Local Abbreviation withCold := (seqWithCold routeStops).
Local Abbreviation orderedAmbient := (seqOrderedAmbient dm wh routeStops).
Local Abbreviation orderedCold := (seqOrderedCold dm wh routeStops).

Lemma finalOrder_eq :
  finalOrder routeStops wh dm = orderedAmbient ++ orderedCold.
Proof.
  unfold finalOrder. rewrite !nn_guard. reflexivity.
Qed.

Lemma keys_NoDup : NoDup keys.
Proof. apply ownKeys_NoDup, uniq_NoDup. Qed.

Lemma finalOrder_perm : Permutation (finalOrder routeStops wh dm) keys.
Proof.
  rewrite finalOrder_eq.
  rewrite (runNearestNeighbor_perm dm ambientOnly wh : Permutation orderedAmbient _).
  rewrite (runNearestNeighbor_perm dm withCold _ : Permutation orderedCold _).
  apply partition_perm.
Qed.

Lemma finalOrder_NoDup : NoDup (finalOrder routeStops wh dm).
Proof.
  apply (Permutation_NoDup (Permutation_sym finalOrder_perm)). apply keys_NoDup.
Qed.

Lemma finalOrder_In k :
  In k (finalOrder routeStops wh dm) <-> In k (map store routeStops).
Proof.
  split; intro H.
  - apply (Permutation_in _ finalOrder_perm) in H.
    unfold seqKeys in H. rewrite ownKeys_In, uniq_In in H. exact H.
  - apply (Permutation_in _ (Permutation_sym finalOrder_perm)).
    unfold seqKeys. rewrite ownKeys_In, uniq_In. exact H.
Qed.

Lemma orderedAmbient_In k :
  In k orderedAmbient <-> In k (map store routeStops) /\ hasCold routeStops k = false.
Proof.
  assert (H : In k orderedAmbient <-> In k ambientOnly).
  { split; apply Permutation_in;
      [|apply Permutation_sym]; apply runNearestNeighbor_perm. }
  rewrite H. unfold seqAmbientOnly, seqKeys.
  rewrite filter_In, ownKeys_In, uniq_In, negb_true_iff. reflexivity.
Qed.

Lemma orderedCold_In k :
  In k orderedCold <-> In k (map store routeStops) /\ hasCold routeStops k = true.
Proof.
  assert (H : In k orderedCold <-> In k withCold).
  { split; apply Permutation_in;
      [|apply Permutation_sym]; apply runNearestNeighbor_perm. }
  rewrite H. unfold seqWithCold, seqKeys.
  rewrite filter_In, ownKeys_In, uniq_In. reflexivity.
Qed.

(** Sequencing any stop list whose stores are listed in the final order,
    with the same cold stores, gives that order again. *)
Lemma finalOrder_stable stops2 :
  uniq (map store stops2) = finalOrder routeStops wh dm ->
  (forall k, hasCold stops2 k = hasCold routeStops k) ->
  finalOrder stops2 wh dm = finalOrder routeStops wh dm.
Proof.
  intros Hstores Hcold.
  assert (Hamb : runNearestNeighbor
                   (filter (fun k => negb (hasCold stops2 k))
                      (Keys.ownKeys (uniq (map store stops2)))) wh dm
                 = orderedAmbient).
  { rewrite Hstores. apply runNearestNeighbor_reorder.
    - apply NoDup_filter, keys_NoDup.
    - apply NoDup_filter, ownKeys_NoDup, finalOrder_NoDup.
    - intro x. unfold seqAmbientOnly, seqKeys.
      rewrite !filter_In, Hcold, !ownKeys_In, finalOrder_In, uniq_In. reflexivity.
    - intros x y H. apply before_filter_iff in H. destruct H as (H & Ex & Ey).
      rewrite Hcold, negb_true_iff in Ex, Ey.
      pose proof (before_In H) as [Hx Hy]. rewrite ownKeys_In, finalOrder_In in Hx, Hy.
      apply ownKeys_before in H. destruct H as [Hr|[_ Hb]].
      + left. unfold seqAmbientOnly. apply before_filter_iff. rewrite Ex, Ey.
        split; [|split; reflexivity].
        apply ownKeys_ranked; [apply uniq_NoDup|apply uniq_In; assumption..|exact Hr].
      + right. rewrite finalOrder_eq in Hb. apply before_app_iff in Hb.
        destruct Hb as [Hb|[[_ Hc]|Hb]]; [exact Hb|exfalso..].
        * apply orderedCold_In in Hc. destruct Hc as [_ Hc]. congruence.
        * apply before_In in Hb. destruct Hb as [Hc _].
          apply orderedCold_In in Hc. destruct Hc as [_ Hc]. congruence. }
  unfold finalOrder at 1. rewrite !nn_guard, Hamb.
  rewrite finalOrder_eq. f_equal.
  rewrite Hstores. apply runNearestNeighbor_reorder.
  - apply NoDup_filter, keys_NoDup.
  - apply NoDup_filter, ownKeys_NoDup, finalOrder_NoDup.
  - intro x. unfold seqWithCold, seqKeys.
    rewrite !filter_In, Hcold, !ownKeys_In, finalOrder_In, uniq_In. reflexivity.
  - intros x y H. apply before_filter_iff in H. destruct H as (H & Ex & Ey).
    rewrite Hcold in Ex, Ey.
    pose proof (before_In H) as [Hx Hy]. rewrite ownKeys_In, finalOrder_In in Hx, Hy.
    apply ownKeys_before in H. destruct H as [Hr|[_ Hb]].
    + left. unfold seqWithCold. apply before_filter_iff. rewrite Ex, Ey.
      split; [|split; reflexivity].
      apply ownKeys_ranked; [apply uniq_NoDup|apply uniq_In; assumption..|exact Hr].
    + right. rewrite finalOrder_eq in Hb. apply before_app_iff in Hb.
      destruct Hb as [Hb|[[Hc _]|Hb]]; [exfalso..|exact Hb].
      * apply before_In in Hb. destruct Hb as [Hc _].
        apply orderedAmbient_In in Hc. destruct Hc as [_ Hc]. congruence.
      * apply orderedAmbient_In in Hc. destruct Hc as [_ Hc]. congruence.
Qed.

Lemma sequenced_twice :
  advancedOptimizeStopOrder (advancedOptimizeStopOrder routeStops wh dm) wh dm
  = advancedOptimizeStopOrder routeStops wh dm.
Proof.
  unfold advancedOptimizeStopOrder at 2 3.
  destruct (Nat.leb (List.length routeStops) 1) eqn:Elen.
  - unfold advancedOptimizeStopOrder. rewrite Elen. reflexivity.
  - set (out := flat_map (shipmentsOf routeStops) (finalOrder routeStops wh dm)).
    unfold advancedOptimizeStopOrder.
    destruct (Nat.leb (List.length out) 1); [reflexivity|].
    assert (Hship : forall k, shipmentsOf out k = shipmentsOf routeStops k).
    { intro k. destruct (in_dec string_dec k (finalOrder routeStops wh dm)) as [Hin|Hnin].
      - apply shipmentsOf_flat_in; [apply finalOrder_NoDup|exact Hin].
      - rewrite (shipmentsOf_absent routeStops k) by (rewrite <- finalOrder_In; exact Hnin).
        apply filter_none. intros s Hs. apply String.eqb_neq. intro E.
        apply in_flat_map in Hs. destruct Hs as (k' & Hk' & Hs).
        apply shipmentsOf_In in Hs. destruct Hs as [_ Hs]. apply Hnin. congruence. }
    rewrite finalOrder_stable.
    + apply flat_map_ext. exact Hship.
    + apply uniq_flat; [apply finalOrder_NoDup|]. intros k Hk. apply finalOrder_In. exact Hk.
    + intro k. unfold hasCold. rewrite Hship. reflexivity.
Qed.

End Sequencer.

(** *** Dependence on the oracle *)

Section SameOracle.

Variables dm dm' : DistanceMatrix.
Hypothesis same : forall a b, dm a b = dm' a b.

Lemma nearestScan_same cur remaining :
  forall i nd ni,
    nearestScan dm cur remaining i nd ni = nearestScan dm' cur remaining i nd ni.
Proof.
  induction remaining as [|s rest IH]; intros i nd ni; [reflexivity|].
  cbn [nearestScan]. rewrite same. destruct (dm' cur s); [|apply IH].
  destruct (closer _ _); apply IH.
Qed.

Lemma nnLoop_same fuel :
  forall remaining cur, nnLoop fuel dm remaining cur = nnLoop fuel dm' remaining cur.
Proof.
  induction fuel as [|fuel IH]; intros remaining cur; [reflexivity|].
  cbn [nnLoop]. unfold nearestIndexOf. rewrite nearestScan_same.
  destruct remaining; [reflexivity|].
  destruct (nearestScan dm' cur _ 0 None None); [|reflexivity].
  rewrite IH. reflexivity.
Qed.

Lemma runNearestNeighbor_same items start :
  runNearestNeighbor items start dm = runNearestNeighbor items start dm'.
Proof.
  unfold runNearestNeighbor. rewrite nnLoop_same. reflexivity.
Qed.

Lemma sequencer_same routeStops wh :
  advancedOptimizeStopOrder routeStops wh dm = advancedOptimizeStopOrder routeStops wh dm'.
Proof.
  unfold advancedOptimizeStopOrder, finalOrder.
  rewrite !nn_guard, !runNearestNeighbor_same. reflexivity.
Qed.

End SameOracle.

(** C8. The stop sequencer is a function of the stop list, the depot and the
    entries of the distance oracle (two oracles with the same entries give
    the same ordering); each nearest-neighbour scan picks the first index
    whose known distance is the least (every earlier item is strictly
    farther or unknown, every item is at least as far or unknown) and picks
    nothing exactly when no distance is known; and sequencing the output of
    the sequencer again returns it unchanged. *)
Theorem C8_sequencer_deterministic_first_nearest_and_idempotent :
  forall (dm : DistanceMatrix) (wh : string) (routeStops : list Shipment),
    (forall dm', (forall a b, dm a b = dm' a b) ->
        advancedOptimizeStopOrder routeStops wh dm'
        = advancedOptimizeStopOrder routeStops wh dm)
    /\ (forall cur remaining i,
           nearestIndexOf dm cur remaining = Some i ->
           exists x lx,
             nth_error remaining i = Some x /\ dm cur x = Some lx
             /\ forall j y ly,
                  nth_error remaining j = Some y -> dm cur y = Some ly ->
                  distance lx <= distance ly
                  /\ ((j < i)%nat -> distance lx < distance ly))
    /\ (forall cur remaining,
           nearestIndexOf dm cur remaining = None <->
           forall y, In y remaining -> dm cur y = None)
    /\ advancedOptimizeStopOrder (advancedOptimizeStopOrder routeStops wh dm) wh dm
       = advancedOptimizeStopOrder routeStops wh dm.
Proof.
  intros dm wh routeStops. split; [|split; [|split]].
  - intros dm' Hsame. symmetry. apply sequencer_same. exact Hsame.
  - intros cur remaining i Hi.
    pose proof (nearestIndexOf_pick dm cur remaining) as Hp. rewrite Hi in Hp.
    inversion Hp as [|l1 x lx l2 Hsplit Hx H1 H2 Hlen]. subst remaining.
    exists x, lx. split; [|split; [exact Hx|]].
    + rewrite nth_error_app2, Nat.sub_diag by lia. reflexivity.
    + intros j y ly Hj Hy.
      destruct (Nat.lt_ge_cases j (List.length l1)) as [Hlt|Hge].
      * rewrite nth_error_app1 in Hj by exact Hlt. apply nth_error_In in Hj.
        pose proof (H1 _ _ Hj Hy). split; [lra|auto].
      * rewrite nth_error_app2 in Hj by exact Hge. split; [|lia].
        destruct (j - List.length l1)%nat as [|n] eqn:E; cbn in Hj.
        -- injection Hj as <-. rewrite Hx in Hy. injection Hy as <-. lra.
        -- apply nth_error_In in Hj. eapply H2; eassumption.
  - intros cur remaining. split.
    + intro Hn. pose proof (nearestIndexOf_pick dm cur remaining) as Hp.
      rewrite Hn in Hp. inversion Hp. assumption.
    + intro Hall. destruct (nearestIndexOf_pick dm cur remaining)
        as [|l1 x lx l2 Hsplit Hx _ _]; [reflexivity|].
      rewrite (Hall x) in Hx; [discriminate|].
      rewrite Hsplit. apply in_or_app. right. left. reflexivity.
  - apply sequenced_twice.
Qed.

(** Three stores at the same distance from the depot: the first one is picked. *)
Lemma C8_witness :
  exists x lx,
    nth_error ["a"; "b"; "c"]%string 0 = Some x
    /\ triangleMatrix depot x = Some lx
    /\ forall j y ly,
         nth_error ["a"; "b"; "c"]%string j = Some y -> triangleMatrix depot y = Some ly ->
         distance lx <= distance ly /\ ((j < 0)%nat -> distance lx < distance ly).
Proof.
  destruct (C8_sequencer_deterministic_first_nearest_and_idempotent
              triangleMatrix depot triangleShipments) as (_ & H & _).
  apply (H depot ["a"; "b"; "c"]%string 0%nat). vm_compute. reflexivity.
Defined.

(* ------------------------------------------------------------------ *)
(** ** Shipments held by the planning loop *)

Lemma nth_error_parts {A} (l : list A) i x :
  nth_error l i = Some x ->
  exists l1 l2, l = l1 ++ x :: l2
                /\ removeAt i l = l1 ++ l2
                /\ forall y, setNth i y l = l1 ++ y :: l2.
Proof.
  revert i. induction l as [|a l IH]; intros [|i] H; cbn in H; try discriminate.
  - injection H as ->. exists [], l. repeat split.
  - destruct (IH _ H) as (l1 & l2 & -> & Hr & Hs).
    exists (a :: l1), l2. split; [reflexivity|]. split.
    + unfold removeAt in *. cbn [firstn skipn app] in *. rewrite <- Hr. reflexivity.
    + intro y. cbn [setNth app]. rewrite Hs. reflexivity.
Qed.

Lemma insertDesc_perm x l : Permutation (insertDesc x l) (x :: l).
Proof.
  induction l as [|y l IH]; cbn [insertDesc]; [reflexivity|].
  destruct (Qlt_bool _ _); [|reflexivity].
  rewrite IH. apply perm_swap.
Qed.

Lemma sortByPallets_perm l : Permutation (sortByPallets l) l.
Proof.
  induction l as [|x l IH]; [reflexivity|].
  cbn [sortByPallets fold_right]. fold (sortByPallets l).
  rewrite insertDesc_perm. constructor. exact IH.
Qed.

Lemma core_bumpFailures s : core (bumpFailures s) = core s.
Proof. reflexivity. Qed.

Lemma core_setFailures s n : core (setFailures s n) = core s.
Proof. reflexivity. Qed.

Lemma freight_of_core l l' :
  Permutation (map core l) (map core l') -> Permutation (map freight l) (map freight l').
Proof.
  intro H. apply (Permutation_map (fun c => fst (fst c))) in H.
  rewrite !map_map in H. exact H.
Qed.

Lemma growScan_core ctx r pool :
  forall i, map core (fst (growScan ctx r pool i)) = map core pool.
Proof.
  induction pool as [|c rest IH]; intro i; [reflexivity|].
  cbn [growScan]. specialize (IH (S i)).
  destruct (growScan ctx r rest (S i)) as [rest' best]. cbn [fst] in IH.
  destruct (hasReason c); [cbn; congruence|].
  destruct (andb _ (negb _)); [cbn; rewrite IH; reflexivity|].
  destruct (checkAndScoreInsertion c r ctx) as [score|].
  - destruct (betterScore _ _); cbn; congruence.
  - cbn. rewrite IH. reflexivity.
Qed.

Lemma stops_adoptCluster r s : stops (adoptCluster r s) = stops r.
Proof. unfold adoptCluster. destruct (andb _ _); reflexivity. Qed.

Lemma growLoop_core fuel ctx :
  forall r pool,
    Permutation (map core (stops (fst (growLoop fuel ctx r pool))
                           ++ snd (growLoop fuel ctx r pool)))
                (map core (stops r ++ pool)).
Proof.
  induction fuel as [|fuel IH]; intros r pool; [reflexivity|].
  cbn [growLoop]. pose proof (growScan_core ctx r pool 0) as Hscan.
  destruct (growScan ctx r pool 0) as [pool1 best]. cbn [fst] in Hscan.
  assert (Hsame : Permutation (map core (stops r ++ pool1)) (map core (stops r ++ pool)))
    by (rewrite !map_app, Hscan; reflexivity).
  destruct best as [[index score]|]; [|exact Hsame].
  destruct (nth_error pool1 index) as [added|] eqn:E; [|exact Hsame].
  rewrite IH, <- Hsame. rewrite stops_adoptCluster. cbn [pushStop withStops stops].
  destruct (nth_error_parts _ _ E) as (l1 & l2 & -> & -> & _).
  rewrite !map_app. cbn [map]. rewrite core_setFailures.
  rewrite <- !app_assoc. apply Permutation_app_head. cbn [app].
  apply Permutation_middle.
Qed.

Lemma allStops_app rs rs' : allStops (rs ++ rs') = allStops rs ++ allStops rs'.
Proof. apply flat_map_app. Qed.

Lemma proactiveInsert_perm ctx rs pool :
  Permutation (allStops (fst (proactiveInsert ctx rs pool)) ++ snd (proactiveInsert ctx rs pool))
              (allStops rs ++ pool).
Proof.
  unfold proactiveInsert. destruct rs as [|r0 rs0]; [reflexivity|].
  generalize (r0 :: rs0) as routes0. intro routes0.
  induction pool as [|s pool IH]; [reflexivity|].
  cbn [fold_right]. destruct (fold_right _ _ pool) as [R K]. cbn [fst snd] in IH.
  unfold proactiveStep.
  assert (Hkeep : Permutation (allStops R ++ s :: K) (allStops routes0 ++ s :: pool)).
  { rewrite <- !Permutation_middle. constructor. exact IH. }
  destruct (hasReason s); [exact Hkeep|].
  destruct (bestRouteScan ctx s R 0 None None) as [r|]; [|exact Hkeep].
  destruct (nth_error R r) as [route|] eqn:E; [|exact Hkeep].
  cbn [fst snd]. destruct (nth_error_parts _ _ E) as (l1 & l2 & -> & _ & Hset).
  rewrite Hset. apply Permutation_trans with (s :: (allStops (l1 ++ route :: l2) ++ K)).
  - unfold allStops. rewrite !flat_map_app. cbn [flat_map pushStop withStops stops].
    rewrite <- !app_assoc. cbn [app].
    rewrite (app_assoc (flat_map stops l1) (stops route) (s :: _)).
    apply Permutation_sym, Permutation_cons_app.
    rewrite <- app_assoc. reflexivity.
  - apply Permutation_trans with (s :: (allStops routes0 ++ pool)).
    + constructor. exact IH.
    + apply Permutation_middle.
Qed.

Lemma findSeed_split ctx pool :
  forall front b s a,
    findSeed ctx front pool = Some (b, s, a) ->
    b ++ s :: a = front ++ pool /\ seedEligible ctx s = true.
Proof.
  induction pool as [|x pool IH]; intros front b s a H; cbn [findSeed] in H; [discriminate|].
  destruct (seedEligible ctx x) eqn:E.
  - injection H as <- <- <-. auto.
  - destruct (IH _ _ _ _ H) as [H1 H2]. rewrite <- app_assoc in H1. auto.
Qed.

Lemma scanSlots_stops shipment ctx ci c slots :
  forall ti best,
    (forall o, fst best = Some o -> stops (optRoute o) = [shipment]) ->
    forall o, fst (scanSlots shipment ctx ci c slots ti best) = Some o ->
              stops (optRoute o) = [shipment].
Proof.
  induction slots as [|ts rest IH]; intros ti best Hbest; [exact Hbest|].
  cbn [scanSlots]. destruct (Z.leb _ _); [apply IH; exact Hbest|].
  destruct (checkAndScoreInsertion _ _ _); [|apply IH; exact Hbest].
  destruct (betterCost _ _); apply IH; [|exact Hbest].
  cbn [fst]. intros o H. injection H as <-. reflexivity.
Qed.

Lemma scanCarriers_stops shipment ctx cs :
  forall ci best,
    (forall o, fst best = Some o -> stops (optRoute o) = [shipment]) ->
    forall o, fst (scanCarriers shipment ctx cs ci best) = Some o ->
              stops (optRoute o) = [shipment].
Proof.
  induction cs as [|c rest IH]; intros ci best Hbest; [exact Hbest|].
  cbn [scanCarriers]. apply IH. apply scanSlots_stops. exact Hbest.
Qed.

Lemma findBestInitialCarrier_stops shipment cs ctx o :
  findBestInitialCarrier shipment cs ctx = Some o -> stops (optRoute o) = [shipment].
Proof.
  unfold findBestInitialCarrier. apply scanCarriers_stops. cbn. discriminate.
Qed.

Lemma freight_bumpFailures l : map freight (map bumpFailures l) = map freight l.
Proof. rewrite map_map. reflexivity. Qed.

Lemma seedStep_freight ctx st pool seed0 :
  let st' := seedStep ctx st pool seed0 in
  Permutation (map freight (allStops (routes st') ++ unassignedShipments st'))
              (map freight (allStops (routes st) ++ seed0 :: pool)).
Proof.
  cbn zeta. unfold seedStep.
  destruct (findBestInitialCarrier _ _ _) as [opt|] eqn:Eopt.
  - apply findBestInitialCarrier_stops in Eopt.
    pose proof (growLoop_core (S (List.length pool)) ctx
                  (withSeedAttempts (optRoute opt) (attempts (bumpAttempts seed0))) pool) as Hg.
    destruct (growLoop _ ctx _ pool) as [currentRoute pool1]. cbn [fst snd] in Hg.
    cbn [withSeedAttempts stops] in Hg. rewrite Eopt in Hg. apply freight_of_core in Hg.
    cbn [app map] in Hg. change (freight (bumpAttempts seed0)) with (freight seed0) in Hg.
    destruct (Qlt_bool _ _); cbn [routes unassignedShipments].
    + rewrite !map_app, freight_bumpFailures. apply Permutation_app_head.
      rewrite (Permutation_app_comm (map freight pool1)), <- map_app. exact Hg.
    + rewrite allStops_app. cbn [allStops flat_map withRouteId stops]. rewrite app_nil_r.
      rewrite <- app_assoc, !map_app. apply Permutation_app_head.
      rewrite <- map_app. exact Hg.
  - cbn [routes unassignedShipments]. rewrite !map_app. apply Permutation_app_head.
    cbn [map]. rewrite <- Permutation_middle, app_nil_r. reflexivity.
Qed.

(** *** Rebalancer *)

Lemma allStops_parts l1 x l2 :
  Permutation (allStops (l1 ++ x :: l2)) (stops x ++ allStops (l1 ++ l2)).
Proof.
  rewrite !allStops_app. cbn [allStops flat_map].
  rewrite !app_assoc. apply Permutation_app_tail. apply Permutation_app_comm.
Qed.

Lemma nth_error_setNth_other {A} (l : list A) i j y :
  i <> j -> nth_error (setNth j y l) i = nth_error l i.
Proof.
  revert i j. induction l as [|a l IH]; intros [|i] [|j] H; cbn; try reflexivity; try lia.
  apply IH. lia.
Qed.

(** Replacing the routes at two different positions by routes that hold the
    same stops between them. *)
Lemma allStops_two_set l i j r1 r2 r1' r2' :
  i <> j -> nth_error l i = Some r1 -> nth_error l j = Some r2 ->
  Permutation (stops r1' ++ stops r2') (stops r1 ++ stops r2) ->
  Permutation (allStops (setNth j r2' (setNth i r1' l))) (allStops l).
Proof.
  intros Hij E1 E2 Hp.
  destruct (nth_error_parts _ _ E1) as (l1 & l2 & Hl & _ & Hset1).
  assert (E2' : nth_error (setNth i r1' l) j = Some r2)
    by (rewrite nth_error_setNth_other; auto).
  destruct (nth_error_parts _ _ E2') as (k1 & k2 & Hk & _ & Hset2).
  assert (Ha : Permutation (allStops (k1 ++ r2' :: k2)) (stops r2' ++ allStops (k1 ++ k2)))
    by apply allStops_parts.
  assert (Hb : Permutation (stops r2 ++ allStops (k1 ++ k2)) (stops r1' ++ allStops (l1 ++ l2))).
  { rewrite <- (allStops_parts k1 r2 k2), <- (allStops_parts l1 r1' l2).
    rewrite <- Hk, (Hset1 r1'). reflexivity. }
  assert (Hc : Permutation (allStops l) (stops r1 ++ allStops (l1 ++ l2)))
    by (rewrite Hl; apply allStops_parts).
  rewrite Hset2, Ha, Hc. apply (Permutation_app_inv_l (stops r2)).
  transitivity (stops r2' ++ (stops r2 ++ allStops (k1 ++ k2)));
    [apply Permutation_app_swap_app|].
  rewrite Hb.
  transitivity ((stops r1' ++ stops r2') ++ allStops (l1 ++ l2)).
  { rewrite (Permutation_app_comm (stops r1') (stops r2')), app_assoc. reflexivity. }
  rewrite Hp, <- app_assoc. apply Permutation_app_swap_app.
Qed.

Lemma allStops_merge l i j source target merged :
  i <> j -> nth_error l i = Some source -> nth_error l j = Some target ->
  stops merged = stops target ++ stops source ->
  Permutation (allStops (removeAt i (setNth j merged l))) (allStops l).
Proof.
  intros Hij Ei Ej Hm.
  destruct (nth_error_parts _ _ Ej) as (l1 & l2 & Hl & _ & Hset).
  assert (Ei' : nth_error (setNth j merged l) i = Some source)
    by (rewrite nth_error_setNth_other; auto).
  destruct (nth_error_parts _ _ Ei') as (k1 & k2 & Hk & Hrem & _).
  rewrite Hrem. apply (Permutation_app_inv_l (stops source)).
  rewrite <- (allStops_parts k1 source k2), <- Hk, (Hset merged).
  rewrite (allStops_parts l1 merged l2), Hm, Hl, (allStops_parts l1 target l2).
  rewrite <- app_assoc. apply Permutation_app_swap_app.
Qed.

Lemma tryTargets_perm ctx i rs js :
  Permutation (allStops (fst (tryTargets ctx i rs js))) (allStops rs).
Proof.
  induction js as [|j js IH]; [reflexivity|].
  cbn [tryTargets]. destruct (Nat.eqb_spec i j) as [->|Hij]; [exact IH|].
  destruct (nth_error rs i) as [sourceRoute|] eqn:Ei; [|exact IH].
  destruct (nth_error rs j) as [targetRoute|] eqn:Ej; [|exact IH].
  destruct (negb _); [exact IH|].
  destruct (canMoveAll _ _ _ _ _); [|exact IH].
  destruct (isRouteValid _ _); [|exact IH].
  cbn [fst]. eapply allStops_merge; eauto.
Qed.

Lemma consolidateFrom_perm ctx n :
  forall rs improved,
    Permutation (allStops (fst (consolidateFrom ctx n rs improved))) (allStops rs).
Proof.
  induction n as [|i IH]; intros rs improved; [reflexivity|].
  cbn [consolidateFrom].
  assert (Hat : Permutation (allStops (fst (consolidateAt ctx i rs))) (allStops rs)).
  { unfold consolidateAt. destruct (nth_error rs i) as [src|]; [|reflexivity].
    destruct (stops src); [reflexivity|apply tryTargets_perm]. }
  destruct (consolidateAt ctx i rs) as [rs' merged]. cbn [fst] in Hat.
  rewrite IH. exact Hat.
Qed.

Lemma swapStep_perm ctx route1 route2 si sj :
  let res := fst (swapStep ctx route1 route2 si sj) in
  Permutation (stops (fst res) ++ stops (snd res)) (stops route1 ++ stops route2).
Proof.
  cbn zeta. destruct (snd (swapStep ctx route1 route2 si sj)) eqn:Ekept.
  - unfold swapStep in *.
    destruct (nth_error (stops route1) si) as [stop1|] eqn:E1; [|reflexivity].
    destruct (nth_error (stops route2) sj) as [stop2|] eqn:E2; [|reflexivity].
    destruct (swapAccepted _ _ _ _); [|discriminate].
    cbn [fst snd applySwap trial1 trial2 withStops stops].
    destruct (nth_error_parts _ _ E1) as (a1 & a2 & -> & _ & ->).
    destruct (nth_error_parts _ _ E2) as (b1 & b2 & -> & _ & ->).
    rewrite <- !app_assoc. apply Permutation_app_head. cbn [app].
    rewrite <- !Permutation_middle. apply perm_swap.
  - rewrite (swapStep_rejected _ _ _ _ _ Ekept). reflexivity.
Qed.

Lemma swapAt_perm ctx i j acc sisj :
  i <> j ->
  Permutation (allStops (fst (swapAt ctx i j acc sisj))) (allStops (fst acc)).
Proof.
  intro Hij. destruct acc as [rs improved]. unfold swapAt.
  destruct (nth_error rs i) as [r1|] eqn:E1; [|reflexivity].
  destruct (nth_error rs j) as [r2|] eqn:E2; [|reflexivity].
  pose proof (swapStep_perm ctx r1 r2 (fst sisj) (snd sisj)) as Hp.
  destruct (swapStep ctx r1 r2 (fst sisj) (snd sisj)) as [[r1' r2'] kept].
  cbn [fst snd] in *. eapply allStops_two_set; eauto.
Qed.

Lemma fold_perm {A} (f : list Route * bool -> A -> list Route * bool) l :
  (forall acc x, In x l -> Permutation (allStops (fst (f acc x))) (allStops (fst acc))) ->
  forall acc, Permutation (allStops (fst (fold_left f l acc))) (allStops (fst acc)).
Proof.
  induction l as [|x l IH]; intros Hf acc; [reflexivity|].
  cbn [fold_left]. rewrite IH by (intros; apply Hf; right; assumption).
  apply Hf. left. reflexivity.
Qed.

Lemma indexPairs_lt n i j : In (i, j) (indexPairs n) -> (i < j)%nat.
Proof.
  unfold indexPairs. rewrite in_flat_map. intros (i' & _ & H).
  apply in_map_iff in H. destruct H as (j' & E & Hj). injection E as -> ->.
  apply in_seq in Hj. lia.
Qed.

Lemma swapPair_perm ctx acc ij :
  (fst ij < snd ij)%nat ->
  Permutation (allStops (fst (swapPair ctx acc ij))) (allStops (fst acc)).
Proof.
  destruct ij as [i j]. cbn [fst snd]. intro Hij. unfold swapPair.
  destruct (nth_error (fst acc) i); [|reflexivity].
  destruct (nth_error (fst acc) j); [|reflexivity].
  destruct (negb _); [reflexivity|].
  apply fold_perm. intros; apply swapAt_perm. lia.
Qed.

Lemma rebalanceRoutes_perm ctx rs :
  Permutation (allStops (rebalanceRoutes rs ctx)) (allStops rs).
Proof.
  unfold rebalanceRoutes. generalize MAX_REBALANCE_ITERATIONS as fuel.
  intro fuel. revert rs. induction fuel as [|fuel IH]; intro rs; [reflexivity|].
  cbn [rebalanceLoop].
  pose proof (consolidateFrom_perm ctx (List.length rs) rs false) as H1.
  unfold consolidationPass. destruct (consolidateFrom ctx _ rs false) as [rs1 merged].
  cbn [fst] in H1.
  assert (H2 : Permutation (allStops (fst (swapPass ctx rs1))) (allStops rs1)).
  { unfold swapPass. apply (fold_perm (swapPair ctx)).
    intros acc [i j] Hin. apply swapPair_perm. apply indexPairs_lt in Hin. exact Hin. }
  destruct (swapPass ctx rs1) as [rs2 swapped]. cbn [fst] in H2.
  destruct (orb merged swapped); [rewrite IH|]; rewrite H2; exact H1.
Qed.

(** *** Pull-forward pass *)

Lemma pfScan_spec ctx c slot rest :
  forall skipped potential total extr,
    let r := pfScan ctx c slot skipped rest potential total extr in
    exists added,
      potentialStops r = potential ++ added
      /\ extracted r = extr ++ added
      /\ Permutation (map core (added ++ pfUnassigned r)) (map core (skipped ++ rest)).
Proof.
  induction rest as [|s rest IH]; intros skipped potential total extr; cbn zeta.
  - exists []. cbn. rewrite !app_nil_r. auto.
  - cbn [pfScan]. destruct (Qlt_bool total _).
    + destruct (checkAndScoreInsertion _ _ _).
      * destruct (IH skipped (potential ++ [setFailures s 0]) (total + pallets s)
                    (extr ++ [setFailures s 0])) as (added & Hp & He & Hperm).
        exists (setFailures s 0 :: added). rewrite Hp, He, <- !app_assoc.
        split; [reflexivity|]. split; [reflexivity|].
        cbn [app map]. rewrite core_setFailures, Hperm, map_app, map_app. cbn [map].
        apply Permutation_middle.
      * destruct (IH (skipped ++ [bumpFailures s]) potential total extr)
          as (added & Hp & He & Hperm).
        exists added. split; [exact Hp|]. split; [exact He|].
        rewrite Hperm, <- app_assoc, !map_app. cbn [app map]. reflexivity.
    + exists []. cbn [pfUnassigned potentialStops extracted]. rewrite !app_nil_r. auto.
Qed.

Lemma pfAttempt_perm ctx c slot st :
  Permutation
    (pfHeld (routesCreated (pfAttempt ctx c slot st)) (pfPool (pfAttempt ctx c slot st)))
    (pfHeld (routesCreated st) (pfPool st)).
Proof.
  unfold pfAttempt, pfHeld.
  destruct (pfScan_spec ctx c slot (pfPool st) [] [] 0 []) as (added & Hp & He & Hperm).
  cbn [app] in Hp, He, Hperm.
  destruct (Qle_bool _ _); cbn [routesCreated pfPool].
  - rewrite allStops_app. cbn [allStops flat_map stops]. rewrite app_nil_r, Hp.
    rewrite <- app_assoc, !map_app. apply Permutation_app_head.
    rewrite <- map_app. exact Hperm.
  - rewrite He, !map_app. apply Permutation_app_head.
    rewrite <- Hperm, map_app. apply Permutation_app_comm.
Qed.

Lemma pfIter_perm ctx c slot n st :
  Permutation
    (pfHeld (routesCreated (Nat.iter n (pfAttempt ctx c slot) st))
            (pfPool (Nat.iter n (pfAttempt ctx c slot) st)))
    (pfHeld (routesCreated st) (pfPool st)).
Proof.
  induction n as [|n IH]; [reflexivity|].
  rewrite Nat.iter_succ.
  exact (Permutation_trans (pfAttempt_perm ctx c slot _) IH).
Qed.

Lemma pfSlot_perm ctx c acc ts :
  Permutation (pfHeld (snd (fst (pfSlot ctx c acc ts))) (fst (fst (pfSlot ctx c acc ts))))
              (pfHeld (snd (fst acc)) (fst (fst acc))).
Proof.
  destruct acc as [[pool created] done]. unfold pfSlot.
  destruct (Z.ltb _ _); [|reflexivity].
  cbn [fst snd]. apply (pfIter_perm ctx c (slotTime ts) _ (mkPfState pool created (used ts))).
Qed.

Lemma pfSlots_perm ctx c slots :
  forall acc,
    Permutation (pfHeld (snd (fst (fold_left (pfSlot ctx c) slots acc)))
                        (fst (fst (fold_left (pfSlot ctx c) slots acc))))
                (pfHeld (snd (fst acc)) (fst (fst acc))).
Proof.
  induction slots as [|ts slots IH]; intro acc; [reflexivity|].
  cbn [fold_left]. rewrite IH. apply pfSlot_perm.
Qed.

Lemma pfCarrier_perm ctx acc c :
  Permutation (pfHeld (snd (fst (pfCarrier ctx acc c))) (fst (fst (pfCarrier ctx acc c))))
              (pfHeld (snd (fst acc)) (fst (fst acc))).
Proof.
  destruct acc as [[pool created] done]. unfold pfCarrier.
  pose proof (pfSlots_perm ctx c (timeSlots c) (pool, created, [])) as H.
  destruct (fold_left (pfSlot ctx c) (timeSlots c) (pool, created, [])) as [[pool' created'] slots'].
  exact H.
Qed.

Lemma pfCarriers_perm ctx cs :
  forall acc,
    Permutation (pfHeld (snd (fst (fold_left (pfCarrier ctx) cs acc)))
                        (fst (fst (fold_left (pfCarrier ctx) cs acc))))
                (pfHeld (snd (fst acc)) (fst (fst acc))).
Proof.
  induction cs as [|c cs IH]; intro acc; [reflexivity|].
  cbn [fold_left]. rewrite IH. apply pfCarrier_perm.
Qed.

Lemma utilizePullForwardRequests_perm remaining cs ctx existing :
  let pf := utilizePullForwardRequests remaining cs ctx existing in
  Permutation (map core (allStops (pfRoutes pf) ++ pfRemaining pf))
              (map core (allStops existing ++ remaining)).
Proof.
  cbn zeta. unfold utilizePullForwardRequests.
  pose proof (pfCarriers_perm ctx cs (remaining, [], [])) as H.
  destruct (fold_left (pfCarrier ctx) cs (remaining, [], [])) as [[pool created] cs'].
  cbn [fst snd pfRoutes pfRemaining] in *. unfold pfHeld in H. cbn [allStops flat_map app] in H.
  rewrite allStops_app, <- app_assoc, !map_app. apply Permutation_app_head.
  rewrite <- map_app. exact H.
Qed.

(** *** The loop *)

Lemma finishPlanning_freight ctx st pool :
  let res := finishPlanning ctx st pool in
  Permutation (map freight (allStops (heldRoutes res) ++ remainingShipments res))
              (map freight (allStops (routes st) ++ pool)).
Proof.
  cbn zeta. unfold finishPlanning. cbn [heldRoutes remainingShipments].
  set (routes1 := match routes st with [] => [] | _ :: _ => rebalanceRoutes (routes st) ctx end).
  assert (H1 : Permutation (allStops routes1) (allStops (routes st))).
  { subst routes1. destruct (routes st); [reflexivity|apply rebalanceRoutes_perm]. }
  rewrite (freight_of_core _ _ (utilizePullForwardRequests_perm pool (carriers st) ctx routes1)).
  rewrite !map_app. apply Permutation_app_tail. apply Permutation_map. exact H1.
Qed.

Lemma planningLoop_freight ctx fuel :
  forall st res,
    planningLoop fuel ctx st = Some res ->
    Permutation (map freight (allStops (heldRoutes res) ++ remainingShipments res))
                (map freight (allStops (routes st) ++ unassignedShipments st)).
Proof.
  induction fuel as [|fuel IH]; intros st res H; [discriminate|].
  cbn [planningLoop] in H.
  pose proof (proactiveInsert_perm ctx (routes st) (sortByPallets (unassignedShipments st)))
    as Hpro.
  destruct (proactiveInsert ctx (routes st) (sortByPallets (unassignedShipments st)))
    as [routes1 pool]. cbn [fst snd] in Hpro.
  rewrite (sortByPallets_perm (unassignedShipments st)) in Hpro.
  apply (Permutation_map freight) in Hpro.
  destruct (findSeed ctx [] pool) as [[[b seed] a]|] eqn:Eseed.
  - apply IH in H. rewrite H.
    rewrite (seedStep_freight ctx (mkLoopState pool routes1 (carriers st) (iteration st))
               (b ++ a) seed).
    cbn [routes]. rewrite <- Hpro.
    apply findSeed_split in Eseed. destruct Eseed as [Hsplit _]. cbn [app] in Hsplit.
    rewrite <- Hsplit. apply Permutation_map. apply Permutation_app_head.
    apply Permutation_middle.
  - injection H as <-.
    rewrite (finishPlanning_freight ctx (mkLoopState pool routes1 (carriers st) (iteration st))
               pool).
    cbn [routes]. exact Hpro.
Qed.

(** *** Overflow handler *)

Lemma classes_perm l :
  Permutation (filter isTimeConstraint l ++ filter isOtherFailure l
               ++ filter (fun s => negb (hasReason s)) l) l.
Proof.
  induction l as [|s l IH]; [reflexivity|].
  cbn [filter]. unfold isTimeConstraint, isOtherFailure, hasReason.
  destruct (failureReason s) as [[|]|]; cbn [negb app].
  - constructor. exact IH.
  - rewrite <- Permutation_middle. constructor. exact IH.
  - rewrite app_assoc, <- Permutation_middle, <- app_assoc. constructor. exact IH.
Qed.

Lemma addToOverspill_perm ctx s rs :
  Permutation (allStops (addToOverspill ctx s rs)) (s :: allStops rs).
Proof.
  induction rs as [|r rs IH]; cbn [addToOverspill]; [reflexivity|].
  destruct (checkAndScoreInsertion s r ctx); cbn [allStops flat_map].
  - cbn [pushStop withStops stops]. rewrite <- app_assoc. cbn [app].
    symmetry. apply Permutation_middle.
  - fold (allStops (addToOverspill ctx s rs)). fold (allStops rs). rewrite IH.
    symmetry. apply Permutation_middle.
Qed.

Lemma packOverspill_perm ctx l : Permutation (allStops (packOverspill ctx l)) l.
Proof.
  unfold packOverspill. rewrite <- (sortByPallets_perm l) at 2.
  generalize (sortByPallets l) as sorted. intro sorted.
  assert (H : forall rs, Permutation
                           (allStops (fold_left (fun routes s => addToOverspill ctx s routes)
                                                sorted rs))
                           (allStops rs ++ sorted)).
  { induction sorted as [|s sorted IH]; intro rs; cbn [fold_left].
    - rewrite app_nil_r. reflexivity.
    - rewrite IH, addToOverspill_perm. cbn [app]. apply Permutation_middle. }
  apply H.
Qed.

Lemma numberOverspill_stops l : forall i, allStops (numberOverspill i l) = allStops l.
Proof.
  induction l as [|r l IH]; intro i; [reflexivity|].
  cbn [numberOverspill allStops flat_map withRouteId stops]. f_equal. apply IH.
Qed.

Lemma classifyRemaining_perm shipments ctx :
  let o := classifyRemaining shipments ctx in
  Permutation (timeGroup o ++ otherGroup o ++ allStops (overspillRoutes o)) shipments.
Proof.
  cbn zeta. unfold classifyRemaining. cbn [timeGroup otherGroup overspillRoutes].
  rewrite numberOverspill_stops, packOverspill_perm. apply classes_perm.
Qed.

(** *** The loop returns *)

Lemma list_sum_perm l l' : Permutation l l' -> list_sum l = list_sum l'.
Proof.
  induction 1; unfold list_sum in *; cbn [fold_right]; lia.
Qed.

Lemma seedWeight_core ctx s s' : core s = core s' -> seedWeight ctx s = seedWeight ctx s'.
Proof.
  intro H. unfold seedWeight, hasReason.
  pose proof (f_equal (fun c => snd (fst c)) H) as Ha.
  pose proof (f_equal snd H) as Hr.
  cbn [core fst snd] in Ha, Hr. rewrite Ha, Hr. reflexivity.
Qed.

Lemma seedsLeft_core ctx l l' :
  Permutation (map core l) (map core l') -> seedsLeft ctx l = seedsLeft ctx l'.
Proof.
  intro H. unfold seedsLeft.
  set (g := fun c : string * Category * Q * option string * string * Z * option FailureReason =>
              match snd c with
              | Some _ => 0%nat
              | None => Z.to_nat (MAX_PLANNING_ATTEMPTS ctx - snd (fst c))
              end).
  assert (Hg : forall l0, map (seedWeight ctx) l0 = map g (map core l0)).
  { intro l0. rewrite map_map. apply map_ext. intro s.
    unfold g, seedWeight, core, hasReason. cbn [fst snd].
    destruct (failureReason s); reflexivity. }
  rewrite !Hg. apply list_sum_perm. apply Permutation_map. exact H.
Qed.

Lemma seedsLeft_perm ctx l l' : Permutation l l' -> seedsLeft ctx l = seedsLeft ctx l'.
Proof.
  intro H. apply seedsLeft_core. apply Permutation_map. exact H.
Qed.

Lemma seedsLeft_app ctx l l' : seedsLeft ctx (l ++ l') = (seedsLeft ctx l + seedsLeft ctx l')%nat.
Proof.
  unfold seedsLeft. rewrite map_app. apply list_sum_app.
Qed.

Lemma seedsLeft_cons ctx s l : seedsLeft ctx (s :: l) = (seedWeight ctx s + seedsLeft ctx l)%nat.
Proof.
  reflexivity.
Qed.

Lemma core_map_bumpFailures l : map core (map bumpFailures l) = map core l.
Proof.
  rewrite map_map. apply map_ext. intro s. apply core_bumpFailures.
Qed.

Lemma proactiveStep_seedsLeft ctx s acc :
  (seedsLeft ctx (snd (proactiveStep ctx s acc)) <= seedWeight ctx s + seedsLeft ctx (snd acc))%nat.
Proof.
  destruct acc as [rs kept]. unfold proactiveStep.
  destruct (hasReason s); [cbn [snd]; rewrite seedsLeft_cons; lia|].
  destruct (bestRouteScan ctx s rs 0 None None) as [r|];
    [destruct (nth_error rs r)|]; cbn [snd]; rewrite ?seedsLeft_cons; lia.
Qed.

Lemma proactiveInsert_seedsLeft ctx rs pool :
  (seedsLeft ctx (snd (proactiveInsert ctx rs pool)) <= seedsLeft ctx pool)%nat.
Proof.
  unfold proactiveInsert. destruct rs as [|r0 rs]; [cbn [snd]; lia|].
  induction pool as [|s pool IH]; [cbn; lia|].
  cbn [fold_right]. rewrite seedsLeft_cons.
  pose proof (proactiveStep_seedsLeft ctx s (fold_right (proactiveStep ctx) (r0 :: rs, []) pool)).
  lia.
Qed.

Lemma seedWeight_eligible ctx s :
  seedEligible ctx s = true ->
  (seedWeight ctx (bumpAttempts s) < seedWeight ctx s)%nat
  /\ forall r, seedWeight ctx (setReason (bumpAttempts s) r) = 0%nat.
Proof.
  unfold seedEligible, seedWeight, hasReason. intro H.
  apply andb_true_iff in H. destruct H as [Ha Hr].
  apply Z.ltb_lt in Ha. cbn [bumpAttempts setReason failureReason attempts].
  destruct (failureReason s); [discriminate|]. split; [lia|reflexivity].
Qed.

Lemma seedStep_seedsLeft ctx st pool seed0 :
  seedEligible ctx seed0 = true ->
  (seedsLeft ctx (unassignedShipments (seedStep ctx st pool seed0))
   < seedsLeft ctx (seed0 :: pool))%nat.
Proof.
  intro He. destruct (seedWeight_eligible ctx seed0 He) as [Hlt Hzero].
  rewrite seedsLeft_cons. unfold seedStep.
  destruct (findBestInitialCarrier (bumpAttempts seed0) (carriers st) ctx) as [o|] eqn:Eo.
  - pose proof (growLoop_core (S (List.length pool)) ctx
                  (withSeedAttempts (optRoute o) (attempts (bumpAttempts seed0))) pool) as Hg.
    destruct (growLoop _ ctx _ pool) as [currentRoute pool1]. cbn [fst snd] in Hg.
    cbn [withSeedAttempts stops] in Hg.
    rewrite (findBestInitialCarrier_stops _ _ _ Eo) in Hg.
    apply (seedsLeft_core ctx) in Hg. rewrite seedsLeft_app in Hg.
    cbn [app] in Hg. rewrite seedsLeft_cons in Hg.
    destruct (Qlt_bool _ _); cbn [unassignedShipments].
    + rewrite seedsLeft_app, (seedsLeft_core ctx _ _
                                (eq_ind_r (fun l => Permutation l _) (Permutation_refl _)
                                          (core_map_bumpFailures (stops currentRoute)))).
      lia.
    + lia.
  - cbn [unassignedShipments]. rewrite seedsLeft_app, seedsLeft_cons, Hzero.
    change (seedsLeft ctx []) with 0%nat. lia.
Qed.

Lemma planningLoop_returns ctx fuel :
  forall st,
    (seedsLeft ctx (unassignedShipments st) < fuel)%nat ->
    exists res, planningLoop fuel ctx st = Some res.
Proof.
  induction fuel as [|fuel IH]; intros st Hfuel; [lia|].
  cbn [planningLoop].
  pose proof (proactiveInsert_seedsLeft ctx (routes st) (sortByPallets (unassignedShipments st)))
    as Hpro.
  rewrite (seedsLeft_perm ctx (sortByPallets_perm (unassignedShipments st))) in Hpro.
  destruct (proactiveInsert ctx (routes st) (sortByPallets (unassignedShipments st)))
    as [routes1 pool]. cbn [snd] in Hpro.
  destruct (findSeed ctx [] pool) as [[[b seed] a]|] eqn:Eseed; [|eauto].
  apply findSeed_split in Eseed. destruct Eseed as [Hsplit He]. cbn [app] in Hsplit.
  apply IH.
  pose proof (seedStep_seedsLeft ctx (mkLoopState pool routes1 (carriers st) (iteration st))
                (b ++ a) seed He) as Hstep.
  rewrite (seedsLeft_perm ctx (Permutation_middle b a seed)), Hsplit in Hstep. lia.
Qed.

Lemma seedsLeft_le_budget ctx l : (seedsLeft ctx l <= seedBudget ctx l)%nat.
Proof.
  induction l as [|s l IH]; [cbn; lia|].
  rewrite seedsLeft_cons. cbn [seedBudget fold_right]. fold (seedBudget ctx l).
  unfold seedWeight. destruct (hasReason s); lia.
Qed.

Lemma finishPlanning_rows ctx st pool :
  exists written pulled,
    heldRoutes (finishPlanning ctx st pool) = written ++ pulled
    /\ sheetRows (finishPlanning ctx st pool)
       = flat_map (fun r => writeRouteToSheet r ctx) written
    /\ Permutation (allStops written) (allStops (routes st)).
Proof.
  unfold finishPlanning. cbn [heldRoutes sheetRows].
  set (routes1 := match routes st with [] => [] | _ :: _ => rebalanceRoutes (routes st) ctx end).
  unfold utilizePullForwardRequests.
  destruct (fold_left (pfCarrier ctx) (carriers st) (pool, [], [])) as [[pool' created] cs'].
  exists routes1, created. cbn [pfRoutes]. split; [reflexivity|]. split; [reflexivity|].
  subst routes1. destruct (routes st); [reflexivity|apply rebalanceRoutes_perm].
Qed.

Lemma planningLoop_rows ctx fuel :
  forall st res,
    planningLoop fuel ctx st = Some res ->
    exists written pulled,
      heldRoutes res = written ++ pulled
      /\ sheetRows res = flat_map (fun r => writeRouteToSheet r ctx) written.
Proof.
  induction fuel as [|fuel IH]; intros st res H; [discriminate|].
  cbn [planningLoop] in H.
  destruct (proactiveInsert ctx (routes st) (sortByPallets (unassignedShipments st)))
    as [routes1 pool].
  destruct (findSeed ctx [] pool) as [[[b seed] a]|].
  - exact (IH _ _ H).
  - injection H as <-.
    destruct (finishPlanning_rows ctx (mkLoopState pool routes1 (carriers st) (iteration st)) pool)
      as (written & pulled & Hh & Hr & _).
    eauto.
Qed.

(** X16. The planning loop always returns, and when it does every shipment it was
    given is held exactly once, with its store, category, pallets, product
    type and cluster unchanged, either as a stop of a route in the local
    array [routes] or in the returned [remainingShipments].  The rows on the
    sheet are those of an initial part of that array: the routes the
    pull-forward pass pushes after them are not among the rows. *)
Theorem runPlanningLoop_holds_every_shipment shipments cs ctx start :
  exists res,
    runPlanningLoop shipments cs ctx start = Some res
    /\ Permutation (map freight (allStops (heldRoutes res) ++ remainingShipments res))
                   (map freight shipments)
    /\ exists written pulled,
         heldRoutes res = written ++ pulled
         /\ sheetRows res = flat_map (fun r => writeRouteToSheet r ctx) written.
Proof.
  unfold runPlanningLoop.
  destruct (@planningLoop_returns ctx (S (seedBudget ctx shipments))
              (mkLoopState shipments [] cs start)) as [res Hres].
  { cbn [unassignedShipments]. pose proof (seedsLeft_le_budget ctx shipments). lia. }
  exists res. split; [exact Hres|]. split.
  - apply planningLoop_freight in Hres. exact Hres.
  - apply planningLoop_rows in Hres. exact Hres.
Qed.

(** X17. The overflow handler places every remaining shipment in exactly one of
    the time group, the other group and the overspill routes. *)
Theorem planRemainingShipments_places_every_shipment shipments ctx :
  let o := classifyRemaining shipments ctx in
  Permutation (timeGroup o ++ otherGroup o ++ allStops (overspillRoutes o)) shipments.
Proof.
  apply classifyRemaining_perm.
Qed.

(* ------------------------------------------------------------------ *)
(** ** Concrete runs *)







(** The legs between the depot and a stop are outside the leg limit: the
    route of the far pair is committed and written with depot legs of a
    hundred miles. *)
Example far_pair_depot_legs_uncapped :
  let ctx := defaultContext farPairMatrix in
  exists res route row,
    runPlanningLoop farPairShipments [carrierHB 1] ctx 1 = Some res
    /\ heldRoutes res = [route]
    /\ sheetRows res = [row]
    /\ rowCarrier row = "HB"%string
    /\ rowRouteId row = routeId route
    /\ map store (rowStops row) = ["S1"; "S2"]%string
    /\ tourLegs farPairMatrix depot (uniq (map store (rowStops row))) = [100; 5; 100]
    /\ hardLegLimit ctx == 75.
Proof.
  intro ctx.
  destruct (runPlanningLoop farPairShipments [carrierHB 1] ctx 1) as [res|] eqn:E;
    [|vm_compute in E; discriminate].
  vm_compute in E. injection E as <-.
  do 3 eexists. repeat split.
Qed.

(** One Chiller pallet and six Ambient pallets for the same store, with the
    threshold at six. *)
Lemma C3_counterexample :
  let ctx := defaultContext nearStoreMatrix in
  let route := mkRoute (carrierHB 1) "08:00" [newShipment "S1" Chiller 1] 1 "Others" "" 0 "" in
  let shipment := newShipment "S1" Ambient 6 in
  let tempStops := stops route ++ [shipment] in
  checkAndScoreInsertion shipment route ctx = Some 0
  /\ ALLOW_ALL_ALL ctx = true
  /\ ~ (perStoreCount tempStops "S1" Chiller <= 0
        \/ perStoreCount tempStops "S1" Ambient + perStoreCount tempStops "S1" Produce
           < SMALL_AMBIENT_THRESHOLD ctx).
Proof.
  cbn zeta. split; [vm_compute; reflexivity|]. split; [reflexivity|].
  intros [H|H]; vm_compute in H; [apply H; reflexivity|discriminate].
Qed.

Lemma C3_witness :
  let route := mkRoute (carrierHB 1) "08:00" [newShipment "S1" Chiller 1] 1 "Others" "" 0 "" in
  let shipment := newShipment "S1" Ambient 6 in
  let tempStops := stops route ++ [shipment] in
  perStoreCount tempStops "S1" Chiller <= 0
  \/ perStoreCount tempStops "S1" Ambient + perStoreCount tempStops "S1" Produce
     <= smallAmbientLimit (defaultContext nearStoreMatrix).
Proof.
  intros route shipment tempStops.
  destruct (@C3_freezer_never_mixed_and_small_ambient_rule shipment route
              (defaultContext nearStoreMatrix) 0 ltac:(vm_compute; reflexivity))
    as [_ H].
  apply (H eq_refl shipment). apply in_or_app. right. left. reflexivity.
Defined.

(** Two stores with no entry between them in either direction. *)
Example unknown_store_leg_is_rejected :
  checkAndScoreInsertion (newShipment "S2" Ambient 8)
    (mkRoute (carrierHB 1) "08:00" [newShipment "S1" Ambient 12] 12 "Others" "" 1 "")
    (defaultContext farStoreMatrix) = None.
Proof.
  apply (@checkAndScoreInsertion_rejects_unknown_store_leg _ _ _ "S1"%string "S2"%string).
  - right. exists [], []. vm_compute. reflexivity.
  - discriminate.
  - discriminate.
  - vm_compute. reflexivity.
  - vm_compute. reflexivity.
Qed.

(** A single stop a hundred miles out, preferred leg length sixty: the
    score is the cost of 200 miles, with no penalty for the two depot legs,
    where the sum over all legs of the tour would add 3200. *)
Lemma C6_counterexample :
  let ctx := defaultContext farStoreMatrix in
  let route := emptyRoute (carrierHB 1) in
  let shipment := newShipment "S1" Ambient 10 in
  let c := carrier route in
  let newMiles := inject_Z (totalDistance (sequencedMetrics ctx (stops route ++ [shipment]))) in
  let oldMiles := inject_Z (totalDistance (sequencedMetrics ctx (stops route))) in
  let allLegsNew := tourLegs farStoreMatrix depot (visitOrder ctx (stops route ++ [shipment])) in
  let allLegsOld := tourLegs farStoreMatrix depot (visitOrder ctx (stops route)) in
  checkAndScoreInsertion shipment route ctx = Some 200
  /\ allLegsNew = [100; 100]
  /\ ~ 200 == ((newMiles * costPerMile c + costPerRoute c)
               - (oldMiles * costPerMile c + costPerRoute c))
              + (penaltyOf allLegsNew (preferredLegThreshold ctx)
                 - penaltyOf allLegsOld (preferredLegThreshold ctx)).
Proof.
  cbn zeta. split; [vm_compute; reflexivity|]. split; [vm_compute; reflexivity|].
  intro H. vm_compute in H. discriminate.
Qed.

(** A second store seventy miles from the first, ten miles over the
    preferred leg length: the score is the cost of seventy more miles plus a
    penalty of a hundred. *)
Lemma C6_witness :
  checkAndScoreInsertion (newShipment "S2" Ambient 8) penaltyLegRoute
    (defaultContext penaltyLegMatrix) = Some 170
  /\ interStopLegs (defaultContext penaltyLegMatrix)
       (stops penaltyLegRoute ++ [newShipment "S2" Ambient 8]) = [70]
  /\ interStopLegs (defaultContext penaltyLegMatrix) (stops penaltyLegRoute) = []
  /\ preferredLegThreshold (defaultContext penaltyLegMatrix) == 60
  /\ penaltyOf [70] 60 == 100
  /\ 170 == ((inject_Z 110 * 1 + 100) - (inject_Z 40 * 1 + 100))
            + (penaltyOf [70] 60 - penaltyOf [] 60).
Proof.
  split; [vm_compute; reflexivity|]. split; [vm_compute; reflexivity|].
  split; [vm_compute; reflexivity|]. split; [vm_compute; reflexivity|].
  split; [vm_compute; reflexivity|].
  exact (@C6_score_is_cost_delta_plus_inter_stop_penalty_delta
           (newShipment "S2" Ambient 8) penaltyLegRoute
           (defaultContext penaltyLegMatrix) 170 ltac:(vm_compute; reflexivity)).
Defined.

(** Swapping the only stops of two routes of the same carrier and slot
    leaves the summed score as it was: the swap is undone. *)
Lemma C9_witness :
  let route1 := mkRoute (carrierHB 2) "08:00" [newShipment "a" Ambient 9] 9 "Others" "HB_1" 1 "" in
  let route2 := mkRoute (carrierHB 2) "08:00" [newShipment "c" Ambient 7] 7 "Others" "HB_2" 1 "" in
  fst (swapStep triangleContext route1 route2 0 0) = (route1, route2).
Proof.
  intros route1 route2.
  destruct (C9_swap_kept_only_if_better_and_valid_else_restored
              triangleContext route1 route2 0 0) as [H _].
  apply H. vm_compute. reflexivity.
Defined.

(** *** Scenarios of the specification *)

Example parse_colon_form : parseTimeToMinutes "19:30" = Some 1170%Z.
Proof. reflexivity. Qed.

Example parse_meridiem_forms :
  map parseTimeToMinutes ["6AM"; "12AM"; "12PM"; "7pm"; "noon"; "7:5"]%string
  = [Some 360; Some 0; Some 720; Some 1140; None; None]%Z.
Proof. reflexivity. Qed.

Example window_wraps_midnight :
  (isTimeInWindow "23:00" "22:00-05:00", isTimeInWindow "12:00" "22:00-05:00",
   isTimeInWindow "12:00" " n/a ") = (true, false, true).
Proof. reflexivity. Qed.

(** A window whose text starts with a no-break space (U+00A0). *)
Example window_after_no_break_space :
  isTimeInWindow "14:00"
    (String (ascii_of_nat 194) (String (ascii_of_nat 160) "09:00-11:00")) = false
  /\ Str.trim (String (ascii_of_nat 239) (String (ascii_of_nat 187)
                 (String (ascii_of_nat 191) " HB "))) = "HB"%string.
Proof. split; reflexivity. Qed.

Example index_keys_come_first :
  Keys.ownKeys ["b"; "10"; "9"; "007"; "a"]%string = ["9"; "10"; "b"; "007"; "a"]%string.
Proof. reflexivity. Qed.

Example trailer_substring : Str.includes "36" "Max 36ft" = true.
Proof. reflexivity. Qed.

(** Scenario A: ten Ambient pallets, fifty miles and sixty minutes out. *)
Example scenario_A :
  let shipment := newShipment "S1" Ambient 10 in
  let m := calculateRouteMetricsWithHOS [shipment] depot oneWayMatrix (fun _ _ => None) in
  checkAndScoreInsertion shipment (emptyRoute (carrierHB 1)) (defaultContext oneWayMatrix)
  = Some 50
  /\ routeCost (carrierHB 1) m == 50 * costPerMile (carrierHB 1) + costPerRoute (carrierHB 1)
  /\ hosStatus m = OK.
Proof. vm_compute. repeat split. Qed.

(** Scenario B: Chiller and Freezer for the same store. *)
Example scenario_B :
  checkAndScoreInsertion (newShipment "S1" Freezer 1)
    (mkRoute (carrierHB 1) "08:00" [newShipment "S1" Chiller 1] 1 "Others" "" 0 "")
    (defaultContext nearStoreMatrix) = None.
Proof. vm_compute. reflexivity. Qed.

(** Scenario C: the only leg between the two stops is eighty miles long. *)
Example scenario_C :
  let route := mkRoute (carrierHB 1) "08:00" [newShipment "S1" Ambient 5] 5 "Others" "" 0 "" in
  let shipment := newShipment "S2" Ambient 5 in
  let ctx := defaultContext longLegMatrix in
  checkAndScoreInsertion shipment route ctx = None
  /\ interStopLegs ctx (stops route ++ [shipment]) = [80]
  /\ totalDistance (sequencedMetrics ctx (stops route ++ [shipment])) = 120%Z.
Proof. vm_compute. repeat split. Qed.

(** Scenario E: a two o'clock slot against a morning window. *)
Example scenario_E :
  isTimeInWindow "14:00" "09:00-11:00" = false
  /\ checkAndScoreInsertion (newShipment "S1" Ambient 10)
       (mkRoute (carrierHB 1) "14:00" [] 0 "Others" "" 0 "")
       (withRestrictions (defaultContext nearStoreMatrix) morningWindow) = None
  /\ checkAndScoreInsertion (newShipment "S1" Ambient 10)
       (mkRoute (carrierHB 1) "10:00" [] 0 "Others" "" 0 "")
       (withRestrictions (defaultContext nearStoreMatrix) morningWindow) = Some 100.
Proof. vm_compute. repeat split. Qed.

(** C1 (failing run). Three shipments, one carrier slot, at most two stores
    per route.  No seed reaches the minimum load, so the loop ends without a
    route; the pull-forward pass then builds a route for the shipments of [a]
    and [c], which is pushed on the local route list after the rows were
    written.  The sheet receives only the overspill route of [b]: the
    shipments of [a] and [c] are in no written route and in no manual-review
    group. *)
Theorem C1_pull_forward_route_never_written :
  exists res rows pf,
    runPlanningLoop triangleShipments [carrierHB 1] triangleContext 1 = Some res
    /\ planRows triangleShipments [carrierHB 1] triangleContext = Some rows
    /\ sheetRows res = []
    /\ heldRoutes res = [pf]
    /\ routeId pf = "HB_PF_1"%string
    /\ map freight (stops pf)
       = [freight (newShipment "a" Ambient 9); freight (newShipment "c" Ambient 7)]
    /\ map freight (remainingShipments res) = [freight (newShipment "b" Ambient 2)]
    /\ map rowRouteId rows = ["Overspill_1"%string]
    /\ map freight (flat_map rowStops rows) = [freight (newShipment "b" Ambient 2)].
Proof.
  destruct (runPlanningLoop triangleShipments [carrierHB 1] triangleContext 1)
    as [res|] eqn:E; [|vm_compute in E; discriminate].
  destruct (planRows triangleShipments [carrierHB 1] triangleContext)
    as [rows|] eqn:E'; [|vm_compute in E'; discriminate].
  vm_compute in E, E'. injection E as <-. injection E' as <-.
  do 3 eexists. repeat split.
Qed.

(** C2 (failing run). Four shipments, two slots of one carrier.  The loop
    builds the routes [C, D] and [A, B], whose stores are seventy miles
    apart.  The swap pass of the rebalancer then exchanges [C] and [A]: the
    summed route score improves and both routes pass [isRouteValid], which
    has no test of the legs.  The rows written are [A, D] and [C, B], each
    with a leg of eighty miles between its two stores, over the hard limit
    of seventy-five for which the scorer refuses [D] on a route with [A] and
    [B] on a route with [C]. *)
Theorem C2_swap_pass_commits_leg_over_hard_limit :
  exists res row1 row2,
    runPlanningLoop crossShipments [carrierHB 2] (defaultContext crossMatrix) 1 = Some res
    /\ remainingShipments res = []
    /\ sheetRows res = [row1; row2]
    /\ (rowRouteId row1, map store (rowStops row1)) = ("HB_1", ["A"; "D"])%string
    /\ (rowRouteId row2, map store (rowStops row2)) = ("HB_2", ["C"; "B"])%string
    /\ interStopLegs (defaultContext crossMatrix) (rowStops row1) = [80]
    /\ interStopLegs (defaultContext crossMatrix) (rowStops row2) = [80]
    /\ hardLegLimit (defaultContext crossMatrix) == 75
    /\ checkAndScoreInsertion (newShipment "D" Ambient 10)
         (mkRoute (carrierHB 2) "08:00" [newShipment "A" Ambient 12] 12 "Others" "" 1 "")
         (defaultContext crossMatrix) = None
    /\ checkAndScoreInsertion (newShipment "B" Ambient 8)
         (mkRoute (carrierHB 2) "08:00" [newShipment "C" Ambient 13] 13 "Others" "" 1 "")
         (defaultContext crossMatrix) = None
    /\ interStopLegs (defaultContext crossMatrix)
         [newShipment "C" Ambient 13; newShipment "D" Ambient 10] = [70]
    /\ interStopLegs (defaultContext crossMatrix)
         [newShipment "A" Ambient 12; newShipment "B" Ambient 8] = [70]
    /\ rebalanceRoutes
         [crossRoute "HB_1" (newShipment "C" Ambient 13) (newShipment "D" Ambient 10);
          crossRoute "HB_2" (newShipment "A" Ambient 12) (newShipment "B" Ambient 8)]
         (defaultContext crossMatrix)
       = [crossRoute "HB_1" (newShipment "A" Ambient 12) (newShipment "D" Ambient 10);
          crossRoute "HB_2" (newShipment "C" Ambient 13) (newShipment "B" Ambient 8)]
    /\ isRouteValid
         (crossRoute "HB_1" (newShipment "A" Ambient 12) (newShipment "D" Ambient 10))
         (defaultContext crossMatrix) = true
    /\ isRouteValid
         (crossRoute "HB_2" (newShipment "C" Ambient 13) (newShipment "B" Ambient 8))
         (defaultContext crossMatrix) = true.
Proof.
  destruct (runPlanningLoop crossShipments [carrierHB 2] (defaultContext crossMatrix) 1)
    as [res|] eqn:E; [|vm_compute in E; discriminate].
  vm_compute in E. injection E as <-.
  do 3 eexists. split; [reflexivity|]. split; [reflexivity|]. split; [reflexivity|].
  repeat split; vm_compute; reflexivity.
Qed.

(** C5 (failing run). The matrix has no entry between the depot and store
    [S1], in either direction.  The scorer accepts the shipment of [S1] on an
    empty route with a score of zero, on a mileage of zero, where the
    single-stop diagnosis of the script reports the missing distance; and a
    planning run commits and writes the route [S1, S2] with a total of five
    miles, the leg between the two stores, both depot legs counting for
    nothing. *)
Theorem C5_missing_depot_leg_is_scored_as_zero_miles :
  distanceMatrix (defaultContext noDepotLegMatrix) depot "S1"%string = None
  /\ distanceMatrix (defaultContext noDepotLegMatrix) "S1"%string depot = None
  /\ checkAndScoreInsertion (newShipment "S1" Ambient 13) (emptyRoute (carrierHB 1))
       (defaultContext noDepotLegMatrix) = Some 0
  /\ totalDistance (sequencedMetrics (defaultContext noDepotLegMatrix)
                      [newShipment "S1" Ambient 13]) = 0%Z
  /\ getInitialRouteFailureReason (newShipment "S1" Ambient 13) (emptyRoute (carrierHB 1))
       (defaultContext noDepotLegMatrix) = Some MissingDistanceData
  /\ exists res row,
       runPlanningLoop noDepotLegShipments [carrierHB 1] (defaultContext noDepotLegMatrix) 1
       = Some res
       /\ remainingShipments res = []
       /\ sheetRows res = [row]
       /\ (rowRouteId row, map store (rowStops row)) = ("HB_1", ["S1"; "S2"])%string
       /\ tourLegs noDepotLegMatrix depot (map store (rowStops row)) = [0; 5; 0]
       /\ totalDistance (rowMetrics row) = 5%Z
       /\ rowCost row == 105.
Proof.
  split; [reflexivity|]. split; [reflexivity|]. split; [vm_compute; reflexivity|].
  split; [vm_compute; reflexivity|]. split; [vm_compute; reflexivity|].
  destruct (runPlanningLoop noDepotLegShipments [carrierHB 1]
              (defaultContext noDepotLegMatrix) 1) as [res|] eqn:E;
    [|vm_compute in E; discriminate].
  vm_compute in E. injection E as <-.
  do 2 eexists. split; [reflexivity|]. repeat split.
Qed.

(* ================================================================== *)
(** * Further properties of the planner's functions *)

(* ------------------------------------------------------------------ *)
(** ** Trailer size *)

Lemma existsb_uniq f l : existsb f (uniq l) = existsb f l.
Proof.
  apply eq_true_iff_eq. rewrite !existsb_exists.
  split; intros (x & Hx & Hf); exists x; (split; [|exact Hf]); apply uniq_In; exact Hx.
Qed.

Lemma existsb_same_elements {A} (f : A -> bool) l l' :
  (forall x, In x l <-> In x l') -> existsb f l = existsb f l'.
Proof.
  intro H. apply eq_true_iff_eq. rewrite !existsb_exists.
  split; intros (x & Hx & Hf); exists x; (split; [|exact Hf]); apply H; exact Hx.
Qed.

(** X2. The required trailer depends only on the set of stores of the route,
    never grows when stops are added (a route that needs a 36-foot trailer
    keeps needing it, and 36 wins over 48), and is the 53-foot trailer when
    no store of the route has a restriction entry. *)
Theorem getRequiredTrailerSize_by_store_set_and_antitone :
  forall (res : Restrictions) (routeTime : string) (l l' : list Shipment),
    ((forall k, In k (map store l) <-> In k (map store l')) ->
     getRequiredTrailerSize routeTime l res = getRequiredTrailerSize routeTime l' res)
    /\ (feet (getRequiredTrailerSize routeTime (l ++ l') res)
        <= feet (getRequiredTrailerSize routeTime l res))%Z
    /\ (feet (getRequiredTrailerSize routeTime (l ++ l') res)
        <= feet (getRequiredTrailerSize routeTime l' res))%Z
    /\ ((forall s, In s l -> res (store s) = None) ->
        getRequiredTrailerSize routeTime l res = T53).
Proof.
  intros res routeTime l l'. unfold getRequiredTrailerSize. rewrite !existsb_uniq.
  split; [|split; [|split]].
  - intro H. rewrite (existsb_same_elements _ _ _ H).
    rewrite (existsb_same_elements
               (fun st => Str.includes "48" (equipmentFor res routeTime st)) _ _ H).
    reflexivity.
  - rewrite map_app, !existsb_app.
    destruct (existsb _ (map store l)); [cbn; lia|].
    destruct (existsb _ (map store l)); cbn [orb];
      repeat (destruct (existsb _ (map store l'))); cbn; lia.
  - rewrite map_app, !existsb_app.
    destruct (existsb _ (map store l')); [rewrite orb_true_r; cbn; lia|].
    destruct (existsb _ (map store l')); rewrite ?orb_false_r, ?orb_true_r;
      repeat (destruct (existsb _ (map store l))); cbn; lia.
  - intro Hnone.
    assert (H : forall sub, Str.includes sub "" = false ->
                existsb (fun st => Str.includes sub (equipmentFor res routeTime st))
                        (map store l) = false).
    { intros sub Hsub. destruct (existsb _ _) eqn:E; [|reflexivity].
      apply existsb_exists in E. destruct E as (k & Hk & E).
      apply in_map_iff in Hk. destruct Hk as (s & <- & Hs).
      unfold equipmentFor in E. rewrite (Hnone s Hs) in E. congruence. }
    rewrite !H by reflexivity. reflexivity.
Qed.

(* ------------------------------------------------------------------ *)
(** ** Leg penalty *)

Lemma penaltyOf_nonneg legs t : 0 <= penaltyOf legs t.
Proof.
  induction legs as [|d legs IH]; cbn [penaltyOf fold_right]; [lra|].
  fold (penaltyOf legs t).
  pose proof (Q.le_max_l 0 (d - t)) as Hm.
  assert (0 <= Qmax 0 (d - t) * Qmax 0 (d - t)) by (apply Qmult_le_0_compat; exact Hm).
  lra.
Qed.

Lemma penaltyOf_zero_iff legs t :
  penaltyOf legs t == 0 <-> forall d, In d legs -> d <= t.
Proof.
  induction legs as [|d legs IH]; cbn [penaltyOf fold_right].
  - split; [intros _ d []|reflexivity].
  - fold (penaltyOf legs t).
    pose proof (penaltyOf_nonneg legs t) as Hrest.
    pose proof (Q.le_max_l 0 (d - t)) as Hm.
    assert (Hsq : 0 <= Qmax 0 (d - t) * Qmax 0 (d - t))
      by (apply Qmult_le_0_compat; exact Hm).
    split.
    + intro H.
      assert (H0 : Qmax 0 (d - t) * Qmax 0 (d - t) == 0) by lra.
      assert (Hr : penaltyOf legs t == 0) by lra.
      intros x [<-|Hx]; [|apply IH; assumption].
      apply Qmult_integral in H0.
      pose proof (Q.le_max_r 0 (d - t)). destruct H0; lra.
    + intro H.
      assert (Hr : penaltyOf legs t == 0) by (apply IH; intros; apply H; right; assumption).
      assert (Hd : Qmax 0 (d - t) == 0) by (apply Q.max_l; specialize (H d (or_introl eq_refl)); lra).
      rewrite Hd, Hr. lra.
Qed.

(** X3. The leg penalty is never negative, and it is zero exactly when every
    leg is within the preferred threshold (an empty leg list included). *)
Theorem calculateDistancePenalty_nonneg_and_zero_iff_within :
  forall (legs : list Q) (preferredThreshold : Q),
    0 <= calculateDistancePenalty legs preferredThreshold
    /\ (calculateDistancePenalty legs preferredThreshold == 0
        <-> forall d, In d legs -> d <= preferredThreshold).
Proof.
  intros legs t. rewrite calculateDistancePenalty_spec. split.
  - apply penaltyOf_nonneg.
  - apply penaltyOf_zero_iff.
Qed.

(* ------------------------------------------------------------------ *)
(** ** Stop sequencer: nothing lost, cold stores last *)

Lemma filter_split_perm {A} (p q : A -> bool) (l : list A) :
  (forall x, In x l -> p x = true -> q x = true -> False) ->
  Permutation (filter (fun x => p x || q x)%bool l) (filter p l ++ filter q l).
Proof.
  induction l as [|a l IH]; intro Hdis; [reflexivity|].
  assert (IH' := IH (fun x Hx => Hdis x (or_intror Hx))).
  cbn [filter].
  destruct (p a) eqn:Ep; destruct (q a) eqn:Eq; cbn [orb app].
  - exfalso. exact (Hdis a (or_introl eq_refl) Ep Eq).
  - constructor. exact IH'.
  - rewrite <- Permutation_middle. constructor. exact IH'.
  - exact IH'.
Qed.

Lemma flat_shipments_perm routeStops ks :
  NoDup ks ->
  Permutation (flat_map (shipmentsOf routeStops) ks)
              (filter (fun s => existsb (String.eqb (store s)) ks) routeStops).
Proof.
  induction 1 as [|k ks Hk Hn IH].
  - cbn [flat_map existsb]. rewrite filter_none; [reflexivity|]. reflexivity.
  - cbn [flat_map existsb]. rewrite IH.
    rewrite (@filter_split_perm _ (fun s => String.eqb (store s) k)
               (fun s => existsb (String.eqb (store s)) ks)).
    + reflexivity.
    + intros s _ E1 E2. apply String.eqb_eq in E1. apply existsb_exists in E2.
      destruct E2 as (k' & Hk' & E2). apply String.eqb_eq in E2. apply Hk. congruence.
Qed.

Lemma flat_shipments_all routeStops ks :
  NoDup ks -> (forall s, In s routeStops -> In (store s) ks) ->
  Permutation (flat_map (shipmentsOf routeStops) ks) routeStops.
Proof.
  intros Hn Hall. rewrite (flat_shipments_perm routeStops Hn).
  rewrite filter_all; [reflexivity|].
  intros s Hs. apply existsb_exists. exists (store s). split; [apply Hall; exact Hs|].
  apply String.eqb_refl.
Qed.

Lemma sequencer_perm routeStops wh dm :
  Permutation (advancedOptimizeStopOrder routeStops wh dm) routeStops.
Proof.
  unfold advancedOptimizeStopOrder. destruct (Nat.leb _ _); [reflexivity|].
  apply flat_shipments_all.
  - apply finalOrder_NoDup.
  - intros s Hs. apply finalOrder_In. apply in_map. exact Hs.
Qed.

(** X5. The stop sequencer returns every stop of its input exactly once, and
    it puts all the stops of stores that receive only Ambient or Produce
    before all the stops of stores that receive Chiller or Freezer goods.
    (An input of at most one stop is returned unchanged.) *)
Theorem advancedOptimizeStopOrder_permutes_and_puts_cold_last :
  forall (routeStops : list Shipment) (wh : string) (dm : DistanceMatrix),
    Permutation (advancedOptimizeStopOrder routeStops wh dm) routeStops
    /\ exists ambientStops coldStops,
         advancedOptimizeStopOrder routeStops wh dm = ambientStops ++ coldStops
         /\ (forall s, In s ambientStops -> hasCold routeStops (store s) = false)
         /\ (forall s, In s coldStops -> hasCold routeStops (store s) = true).
Proof.
  intros routeStops wh dm. split; [apply sequencer_perm|].
  unfold advancedOptimizeStopOrder. destruct (Nat.leb _ _) eqn:Elen.
  - destruct routeStops as [|s [|s' l]]; [| |discriminate].
    + exists [], []. split; [reflexivity|]. split; intros s [].
    + destruct (hasCold [s] (store s)) eqn:E.
      * exists [], [s]. split; [reflexivity|]. split; [intros x []|].
        intros x [<-|[]]. exact E.
      * exists [s], []. split; [reflexivity|]. split; [|intros x []].
        intros x [<-|[]]. exact E.
  - rewrite finalOrder_eq, flat_map_app.
    exists (flat_map (shipmentsOf routeStops) (seqOrderedAmbient dm wh routeStops)),
           (flat_map (shipmentsOf routeStops) (seqOrderedCold dm wh routeStops)).
    split; [reflexivity|]. split; intros s Hs; apply in_flat_map in Hs;
      destruct Hs as (k & Hk & Hs); apply shipmentsOf_In in Hs; destruct Hs as [_ <-].
    + apply orderedAmbient_In in Hk. apply Hk.
    + apply orderedCold_In in Hk. apply Hk.
Qed.

(* ------------------------------------------------------------------ *)
(** ** The row of a route *)

Lemma uniq_length_perm l l' :
  Permutation l l' -> List.length (uniq l) = List.length (uniq l').
Proof.
  intro H. apply Permutation_length. apply NoDup_Permutation; try apply uniq_NoDup.
  intro x. rewrite !uniq_In. split; apply Permutation_in; [exact H|symmetry; exact H].
Qed.

(** X6. A route without stops writes no row.  A route with stops writes
    exactly one row: it carries every stop of the route exactly once (in the
    sequenced order), its stop count is the number of distinct stores of the
    route, its pallet figure is the route's stored total, and its mileage
    flag is raised exactly when the simulated mileage of the sequenced stops
    exceeds the route mileage limit. *)
Theorem writeRouteToSheet_one_row_per_nonempty_route :
  forall (route : Route) (ctx : Context),
    (stops route = [] -> writeRouteToSheet route ctx = [])
    /\ (stops route <> [] ->
        exists row,
          writeRouteToSheet route ctx = [row]
          /\ Permutation (rowStops row) (stops route)
          /\ rowStops row
             = advancedOptimizeStopOrder (stops route) (warehouse ctx) (distanceMatrix ctx)
          /\ rowStopCount row = List.length (uniq (map store (stops route)))
          /\ rowPallets row = totalPallets route
          /\ rowMetrics row = sequencedMetrics ctx (stops route)
          /\ (rowMileageOver row = true
              <-> MAX_ROUTE_MILEAGE ctx < inject_Z (totalDistance (rowMetrics row)))).
Proof.
  intros route ctx. unfold writeRouteToSheet. split.
  - intros ->. reflexivity.
  - intro Hne. destruct (stops route) as [|s l] eqn:E; [congruence|].
    eexists. split; [reflexivity|].
    cbn [rowStops rowStopCount rowPallets rowMetrics rowMileageOver].
    split; [apply sequencer_perm|]. split; [reflexivity|].
    split; [|split; [reflexivity|split; [reflexivity|apply Qlt_bool_iff]]].
    apply uniq_length_perm. apply Permutation_map. apply sequencer_perm.
Qed.

(* ------------------------------------------------------------------ *)
(** ** The rebalancer as a sequence of validated moves *)

Lemma RebalanceMoves_trans ctx a b c :
  RebalanceMoves ctx a b -> RebalanceMoves ctx b c -> RebalanceMoves ctx a c.
Proof.
  induction 1 as [|a a1 b Hm _ IH]; intro H; [exact H|].
  eapply MovesStep; [exact Hm|apply IH; exact H].
Qed.

Lemma RebalanceMoves_one ctx a b : RebalanceMove ctx a b -> RebalanceMoves ctx a b.
Proof.
  intro H. eapply MovesStep; [exact H|apply MovesDone].
Qed.

Lemma canMoveAll_stops ctx targetRoute tempPallets sourceStops :
  forall tempStops res,
    canMoveAll ctx targetRoute tempStops tempPallets sourceStops = Some res ->
    res = tempStops ++ sourceStops.
Proof.
  induction sourceStops as [|s l IH]; intros tempStops res H; cbn [canMoveAll] in H.
  - injection H as <-. symmetry. apply app_nil_r.
  - destruct (checkAndScoreInsertion _ _ _); [|discriminate].
    apply IH in H. rewrite H, <- app_assoc. reflexivity.
Qed.

Lemma tryTargets_moves ctx i rs js :
  RebalanceMoves ctx rs (fst (tryTargets ctx i rs js)).
Proof.
  induction js as [|j js IH]; [apply MovesDone|].
  cbn [tryTargets]. destruct (Nat.eqb_spec i j) as [->|Hij]; [exact IH|].
  destruct (nth_error rs i) as [sourceRoute|] eqn:Ei; [|exact IH].
  destruct (nth_error rs j) as [targetRoute|] eqn:Ej; [|exact IH].
  destruct (sameSlot sourceRoute targetRoute) eqn:Eslot; cbn [negb]; [|exact IH].
  destruct (canMoveAll _ _ _ _ _) as [tempStops|] eqn:Emove; [|exact IH].
  pose proof (canMoveAll_stops _ _ _ _ _ Emove) as ->.
  destruct (isRouteValid _ _) eqn:Evalid; [|exact IH].
  cbn [fst]. apply RebalanceMoves_one. eapply MoveMerge; eassumption.
Qed.

Lemma consolidateFrom_moves ctx n :
  forall rs improved, RebalanceMoves ctx rs (fst (consolidateFrom ctx n rs improved)).
Proof.
  induction n as [|i IH]; intros rs improved; [apply MovesDone|].
  cbn [consolidateFrom].
  assert (Hat : RebalanceMoves ctx rs (fst (consolidateAt ctx i rs))).
  { unfold consolidateAt. destruct (nth_error rs i) as [src|]; [|apply MovesDone].
    destruct (stops src); [apply MovesDone|apply tryTargets_moves]. }
  destruct (consolidateAt ctx i rs) as [rs' merged]. cbn [fst] in Hat.
  eapply RebalanceMoves_trans; [exact Hat|apply IH].
Qed.

Lemma nth_error_setNth_here {A} (l : list A) i x y :
  nth_error l i = Some y -> nth_error (setNth i x l) i = Some x.
Proof.
  revert i. induction l as [|a l IH]; intros [|i] H; cbn in *; try discriminate.
  - reflexivity.
  - apply IH. exact H.
Qed.

Lemma sameSlot_withStops a b sa ta sb tb :
  sameSlot (withStops a sa ta) (withStops b sb tb) = sameSlot a b.
Proof. reflexivity. Qed.

(** One tentative swap either is a move or leaves the routes as they were;
    the two routes stay at their indices, with their carrier and time. *)
Lemma swapAt_moves ctx i j rs improved sisj r1 r2 :
  (i < j)%nat ->
  nth_error rs i = Some r1 -> nth_error rs j = Some r2 -> sameSlot r1 r2 = true ->
  let rs' := fst (swapAt ctx i j (rs, improved) sisj) in
  RebalanceMoves ctx rs rs'
  /\ exists r1' r2',
       nth_error rs' i = Some r1' /\ nth_error rs' j = Some r2'
       /\ sameSlot r1' r2' = true.
Proof.
  intros Hij E1 E2 Hslot. cbn zeta. unfold swapAt. rewrite E1, E2.
  unfold swapStep.
  destruct (nth_error (stops r1) (fst sisj)) as [stop1|] eqn:Es1;
    [destruct (nth_error (stops r2) (snd sisj)) as [stop2|] eqn:Es2|].
  - destruct (swapAccepted ctx r1 r2 _) eqn:Eacc; cbn [fst snd].
    + split.
      * apply RebalanceMoves_one. eapply MoveSwap; eassumption.
      * do 2 eexists. split; [|split].
        -- rewrite nth_error_setNth_other by lia.
           eapply nth_error_setNth_here; exact E1.
        -- eapply nth_error_setNth_here.
           rewrite nth_error_setNth_other by lia. exact E2.
        -- exact Hslot.
    + rewrite revertSwap_restores by assumption. cbn [fst snd].
      rewrite (setNth_same _ _ E1), (setNth_same _ _ E2).
      split; [apply MovesDone|]. exists r1, r2. auto.
  - cbn [fst snd]. rewrite (setNth_same _ _ E1), (setNth_same _ _ E2).
    split; [apply MovesDone|]. exists r1, r2. auto.
  - cbn [fst snd]. rewrite (setNth_same _ _ E1), (setNth_same _ _ E2).
    split; [apply MovesDone|]. exists r1, r2. auto.
Qed.

Lemma swapAt_fold_moves ctx i j pairs :
  (i < j)%nat ->
  forall rs improved r1 r2,
    nth_error rs i = Some r1 -> nth_error rs j = Some r2 -> sameSlot r1 r2 = true ->
    RebalanceMoves ctx rs (fst (fold_left (swapAt ctx i j) pairs (rs, improved))).
Proof.
  intro Hij. induction pairs as [|p pairs IH]; intros rs improved r1 r2 E1 E2 Hslot.
  - apply MovesDone.
  - cbn [fold_left].
    destruct (@swapAt_moves ctx i j rs improved p r1 r2 Hij E1 E2 Hslot)
      as (Hm & r1' & r2' & E1' & E2' & Hs').
    destruct (swapAt ctx i j (rs, improved) p) as [rs' improved'] eqn:E.
    cbn [fst] in *. eapply RebalanceMoves_trans; [exact Hm|].
    eapply IH; eassumption.
Qed.

Lemma swapPair_moves ctx acc ij :
  (fst ij < snd ij)%nat -> RebalanceMoves ctx (fst acc) (fst (swapPair ctx acc ij)).
Proof.
  destruct ij as [i j]. destruct acc as [rs improved]. cbn [fst snd]. intro Hij.
  unfold swapPair. cbn [fst].
  destruct (nth_error rs i) as [r1|] eqn:E1; [|apply MovesDone].
  destruct (nth_error rs j) as [r2|] eqn:E2; [|apply MovesDone].
  destruct (sameSlot r1 r2) eqn:Hslot; cbn [negb]; [|apply MovesDone].
  eapply swapAt_fold_moves; eassumption.
Qed.

Lemma swapPass_moves ctx rs : RebalanceMoves ctx rs (fst (swapPass ctx rs)).
Proof.
  unfold swapPass.
  assert (H : forall pairs acc,
             (forall ij, In ij pairs -> (fst ij < snd ij)%nat) ->
             RebalanceMoves ctx (fst acc) (fst (fold_left (swapPair ctx) pairs acc))).
  { induction pairs as [|p pairs IH]; intros acc Hlt; [apply MovesDone|].
    cbn [fold_left]. eapply RebalanceMoves_trans.
    - apply swapPair_moves. apply Hlt. left. reflexivity.
    - apply IH. intros; apply Hlt; right; assumption. }
  apply (H _ (rs, false)). intros [i j] Hin. apply indexPairs_lt in Hin. exact Hin.
Qed.

Lemma rebalanceLoop_moves ctx fuel :
  forall rs, RebalanceMoves ctx rs (rebalanceLoop fuel ctx rs).
Proof.
  induction fuel as [|fuel IH]; intro rs; [apply MovesDone|].
  cbn [rebalanceLoop].
  pose proof (consolidateFrom_moves ctx (List.length rs) rs false) as H1.
  unfold consolidationPass. destruct (consolidateFrom ctx _ rs false) as [rs1 merged].
  cbn [fst] in H1.
  pose proof (swapPass_moves ctx rs1) as H2.
  destruct (swapPass ctx rs1) as [rs2 swapped]. cbn [fst] in H2.
  pose proof (RebalanceMoves_trans H1 H2) as H12.
  destruct (orb merged swapped); [|exact H12].
  eapply RebalanceMoves_trans; [exact H12|apply IH].
Qed.

(** X7. Whatever the rebalancer returns is reached from its input by a finite
    sequence of moves of two kinds only.  A merge moves all the stops of one
    route to the end of another route of the same carrier name and time,
    after the insertion scorer accepted them one by one and route validation
    accepted the merged route, and removes the emptied route.  A swap
    exchanges one stop of a route with one stop of a later route of the same
    carrier name and time, recomputes both pallet totals, and is kept only
    when the summed route score got strictly lower and both routes are
    valid. *)
Theorem rebalanceRoutes_is_a_sequence_of_validated_moves :
  forall (routes : list Route) (ctx : Context),
    RebalanceMoves ctx routes (rebalanceRoutes routes ctx).
Proof.
  intros routes ctx. apply rebalanceLoop_moves.
Qed.

Lemma setNth_length {A} (l : list A) i x : List.length (setNth i x l) = List.length l.
Proof.
  revert i. induction l as [|a l IH]; intros [|i]; cbn; try reflexivity.
  f_equal. apply IH.
Qed.

Lemma removeAt_length_le {A} (l : list A) i : (List.length (removeAt i l) <= List.length l)%nat.
Proof.
  unfold removeAt. rewrite length_app, length_firstn, length_skipn. lia.
Qed.

Lemma In_setNth {A} (l : list A) i x y : In y (setNth i x l) -> y = x \/ In y l.
Proof.
  revert i. induction l as [|a l IH]; intros [|i] H; cbn in *; try tauto.
  - destruct H as [->|H]; auto.
  - destruct H as [->|H]; auto. apply IH in H. tauto.
Qed.

Lemma In_removeAt {A} (l : list A) i y : In y (removeAt i l) -> In y l.
Proof.
  unfold removeAt. intro H. apply in_app_or in H. destruct H as [H|H].
  - rewrite <- (firstn_skipn i l). apply in_or_app. left. exact H.
  - rewrite <- (firstn_skipn (S i) l). apply in_or_app. right. exact H.
Qed.

Lemma stemsFrom_refl r : stemsFrom r r.
Proof. unfold stemsFrom. symmetry. apply withStops_self. Qed.

Lemma stemsFrom_withStops r l t : stemsFrom (withStops r l t) r.
Proof. reflexivity. Qed.

Lemma stemsFrom_trans a b c : stemsFrom a b -> stemsFrom b c -> stemsFrom a c.
Proof.
  unfold stemsFrom. intros Hab Hbc. rewrite Hab at 1. rewrite Hbc at 1. reflexivity.
Qed.

Lemma RebalanceMove_facts ctx rs rs' :
  RebalanceMove ctx rs rs' ->
  Permutation (allStops rs') (allStops rs)
  /\ (List.length rs' <= List.length rs)%nat
  /\ forall r, In r rs' -> exists r0, In r0 rs /\ stemsFrom r r0.
Proof.
  intros [i j src tgt Hij Ei Ej Hslot Hmove Hvalid
         |i j r1 r2 si sj stop1 stop2 Hij Ei Ej Hslot Es1 Es2 Hacc].
  - split; [|split].
    + eapply allStops_merge; eauto.
    + etransitivity; [apply removeAt_length_le|]. rewrite setNth_length. lia.
    + intros r Hr. apply In_removeAt, In_setNth in Hr. destruct Hr as [->|Hr].
      * exists tgt. split; [eapply nth_error_In; exact Ej|apply stemsFrom_withStops].
      * exists r. split; [exact Hr|apply stemsFrom_refl].
  - split; [|split].
    + eapply allStops_two_set; [lia|exact Ei|exact Ej|].
      cbn [applySwap trial1 trial2 withStops stops].
      destruct (nth_error_parts _ _ Es1) as (a1 & a2 & -> & _ & ->).
      destruct (nth_error_parts _ _ Es2) as (b1 & b2 & -> & _ & ->).
      rewrite <- !app_assoc. apply Permutation_app_head. cbn [app].
      rewrite <- !Permutation_middle. apply perm_swap.
    + rewrite !setNth_length. lia.
    + intros r Hr. apply In_setNth in Hr. destruct Hr as [->|Hr].
      * exists r2. split; [eapply nth_error_In; exact Ej|apply stemsFrom_withStops].
      * apply In_setNth in Hr. destruct Hr as [->|Hr].
        -- exists r1. split; [eapply nth_error_In; exact Ei|apply stemsFrom_withStops].
        -- exists r. split; [exact Hr|apply stemsFrom_refl].
Qed.

Lemma RebalanceMoves_facts ctx rs out :
  RebalanceMoves ctx rs out ->
  Permutation (allStops out) (allStops rs)
  /\ (List.length out <= List.length rs)%nat
  /\ forall r, In r out -> exists r0, In r0 rs /\ stemsFrom r r0.
Proof.
  induction 1 as [rs|rs rs1 rs2 Hm _ IH].
  - split; [reflexivity|]. split; [lia|].
    intros r Hr. exists r. split; [exact Hr|apply stemsFrom_refl].
  - destruct (RebalanceMove_facts Hm) as (Hp & Hl & Hs).
    destruct IH as (Hp' & Hl' & Hs').
    split; [rewrite Hp'; exact Hp|]. split; [lia|].
    intros r Hr. destruct (Hs' r Hr) as (r1 & Hr1 & Hst1).
    destruct (Hs r1 Hr1) as (r0 & Hr0 & Hst0).
    exists r0. split; [exact Hr0|]. eapply stemsFrom_trans; eassumption.
Qed.

(** X8. The rebalancer neither loses nor duplicates a stop, never adds a
    route, and every route it returns is one of the input routes with at most
    its stops and pallet total changed: carrier, time, route id, cluster,
    seed attempts and notes are those of an input route. *)
Theorem rebalanceRoutes_keeps_stops_and_route_identities :
  forall (routes : list Route) (ctx : Context),
    Permutation (allStops (rebalanceRoutes routes ctx)) (allStops routes)
    /\ (List.length (rebalanceRoutes routes ctx) <= List.length routes)%nat
    /\ forall r, In r (rebalanceRoutes routes ctx) ->
                 exists r0, In r0 routes /\ stemsFrom r r0.
Proof.
  intros routes ctx. apply (@RebalanceMoves_facts ctx). apply rebalanceLoop_moves.
Qed.

(* ------------------------------------------------------------------ *)
(** ** Seed carrier selection *)

Lemma BestSoFar_scanned shipment ctx carriers (P P' : nat -> nat -> Prop) best :
  (forall ci ti c ts,
      nth_error carriers ci = Some c -> nth_error (timeSlots c) ti = Some ts ->
      (P ci ti <-> P' ci ti)) ->
  BestSoFar shipment ctx carriers P best -> BestSoFar shipment ctx carriers P' best.
Proof.
  intros Hext. unfold BestSoFar. destruct (fst best) as [o|].
  - intros (c & ts & Hc & Hts & Hp & Hopen & Hroute & Hcost & Hmin).
    exists c, ts. repeat (split; [assumption|]).
    split; [apply (Hext _ _ _ _ Hc Hts); exact Hp|].
    repeat (split; [assumption|]).
    intros ci ti c' ts' Hc' Hts' Hp'. apply Hmin; try assumption.
    apply (Hext _ _ _ _ Hc' Hts'); exact Hp'.
  - intros [Hn Hall]. split; [exact Hn|].
    intros ci ti c ts Hc Hts Hp'. apply (Hall ci ti c ts Hc Hts).
    apply (Hext _ _ _ _ Hc Hts); exact Hp'.
Qed.

Lemma nth_error_snoc_split {A} (pre : list A) x rest :
  nth_error (pre ++ x :: rest) (List.length pre) = Some x.
Proof.
  rewrite nth_error_app2, Nat.sub_diag by lia. reflexivity.
Qed.

Lemma scanSlots_best shipment ctx carriers ci c :
  nth_error carriers ci = Some c ->
  forall slots pre best,
    timeSlots c = pre ++ slots ->
    BestSoFar shipment ctx carriers
      (fun a b => (a < ci)%nat \/ (a = ci /\ (b < List.length pre)%nat)) best ->
    BestSoFar shipment ctx carriers
      (fun a b => (a < ci)%nat \/ (a = ci /\ (b < List.length (timeSlots c))%nat))
      (scanSlots shipment ctx ci c slots (List.length pre) best).
Proof.
  intros Hc. induction slots as [|timeSlot rest IH]; intros pre best Hsplit Hbest.
  - cbn [scanSlots]. rewrite Hsplit, app_nil_r. exact Hbest.
  - cbn [scanSlots].
    assert (Hsplit' : timeSlots c = (pre ++ [timeSlot]) ++ rest)
      by (rewrite <- app_assoc; exact Hsplit).
    assert (Hlen : List.length (pre ++ [timeSlot]) = S (List.length pre))
      by (rewrite length_app; cbn; lia).
    assert (Hts : nth_error (timeSlots c) (List.length pre) = Some timeSlot)
      by (rewrite Hsplit; apply nth_error_snoc_split).
    specialize (IH (pre ++ [timeSlot])). rewrite Hlen in IH.
    (* the slot is open or not *)
    assert (Hstep :
              forall best',
                BestSoFar shipment ctx carriers
                  (fun a b => (a < ci)%nat \/ (a = ci /\ (b < S (List.length pre))%nat)) best' ->
                BestSoFar shipment ctx carriers
                  (fun a b => (a < ci)%nat \/ (a = ci /\ (b < List.length (timeSlots c))%nat))
                  (scanSlots shipment ctx ci c rest (S (List.length pre)) best')).
    { intros best' Hb. apply IH; [exact Hsplit'|]. exact Hb. }
    assert (Hclosed :
              seedSlotOpen shipment ctx c timeSlot = false ->
              BestSoFar shipment ctx carriers
                (fun a b => (a < ci)%nat \/ (a = ci /\ (b < S (List.length pre))%nat)) best).
    { intro Hcl. unfold BestSoFar in *. destruct (fst best) as [o|].
      - destruct Hbest as (c0 & ts0 & Hc0 & Hts0 & Hp & Hopen & Hroute & Hcost & Hmin).
        exists c0, ts0. repeat (split; [assumption|]).
        split; [destruct Hp as [Hp|[Hp1 Hp2]]; [left; exact Hp|right; split; [exact Hp1|lia]]|].
        repeat (split; [assumption|]).
        intros a b c' ts' Hc' Hts' Hp' Hopen'.
        destruct Hp' as [Hp'|[-> Hp']].
        + apply (Hmin a b c' ts' Hc' Hts'); [left; exact Hp'|exact Hopen'].
        + assert (b = List.length pre \/ (b < List.length pre)%nat) as [->|Hb] by lia.
          * rewrite Hc in Hc'. injection Hc' as <-. rewrite Hts in Hts'.
            injection Hts' as <-. congruence.
          * apply (Hmin ci b c' ts' Hc' Hts'); [right; split; [reflexivity|exact Hb]|exact Hopen'].
      - destruct Hbest as [Hn Hall]. split; [exact Hn|].
        intros a b c' ts' Hc' Hts' Hp'.
        destruct Hp' as [Hp'|[-> Hp']].
        + eapply Hall; eauto.
        + assert (b = List.length pre \/ (b < List.length pre)%nat) as [->|Hb] by lia.
          * rewrite Hc in Hc'. injection Hc' as <-. rewrite Hts in Hts'.
            injection Hts' as <-. exact Hcl.
          * eapply Hall; eauto. }
    destruct (Z.leb (capacity timeSlot) (used timeSlot)) eqn:Efull.
    { apply Hstep, Hclosed. unfold seedSlotOpen.
      apply Z.leb_le in Efull. assert (E : Z.ltb (used timeSlot) (capacity timeSlot) = false)
        by (apply Z.ltb_ge; exact Efull).
      rewrite E. reflexivity. }
    change (totalPallets (seedRoute shipment c timeSlot)) with (pallets shipment).
    destruct (checkAndScoreInsertion shipment
                (withStops (seedRoute shipment c timeSlot) [] (pallets shipment)) ctx)
      as [score|] eqn:Echeck.
    2:{ apply Hstep, Hclosed. unfold seedSlotOpen. rewrite Echeck. apply andb_false_r. }
    assert (Hopen : seedSlotOpen shipment ctx c timeSlot = true).
    { unfold seedSlotOpen. rewrite Echeck.
      apply Z.leb_gt in Efull. apply Z.ltb_lt in Efull. rewrite Efull. reflexivity. }
    fold (seedCost shipment ctx c).
    unfold betterCost.
    destruct (snd best) as [b|] eqn:Esnd.
    + (* a best option exists *)
      assert (Hsome : exists o, fst best = Some o).
      { unfold BestSoFar in Hbest. destruct (fst best) as [o|]; [eauto|].
        destruct Hbest as [Hn _]. congruence. }
      destruct Hsome as [o Eo]. unfold BestSoFar in Hbest. rewrite Eo in Hbest.
      destruct Hbest as (c0 & ts0 & Hc0 & Hts0 & Hp & Hopen0 & Hroute & Hcost & Hmin).
      rewrite Esnd in Hcost. injection Hcost as ->.
      destruct (Qlt_bool (seedCost shipment ctx c) (seedCost shipment ctx c0)) eqn:Elt.
      * apply Qlt_bool_iff in Elt. apply Hstep. unfold BestSoFar. cbn [fst snd optCarrier optTimeSlot optRoute].
        exists c, timeSlot. split; [exact Hc|]. split; [exact Hts|].
        split; [right; split; [reflexivity|lia]|]. split; [exact Hopen|].
        split; [reflexivity|]. split; [reflexivity|].
        intros a b' c' ts' Hc' Hts' Hp' Hopen'.
        destruct Hp' as [Hp'|[-> Hp']].
        -- destruct (Hmin a b' c' ts' Hc' Hts' (or_introl Hp') Hopen') as [Hle _].
           split; intros; lra.
        -- assert (b' = List.length pre \/ (b' < List.length pre)%nat) as [->|Hb] by lia.
           ++ rewrite Hc in Hc'. injection Hc' as <-. split; [lra|].
              unfold earlierSlot. intro; lia.
           ++ destruct (Hmin ci b' c' ts' Hc' Hts' (or_intror (conj eq_refl Hb)) Hopen')
                as [Hle _].
              split; intros; lra.
      * apply Qlt_bool_false_iff in Elt. apply Hstep. unfold BestSoFar. rewrite Eo.
        exists c0, ts0. repeat (split; [assumption|]).
        split; [destruct Hp as [Hp|[Hp1 Hp2]]; [left; exact Hp|right; split; [exact Hp1|lia]]|].
        split; [exact Hopen0|]. split; [exact Hroute|]. split; [exact Esnd|].
        intros a b' c' ts' Hc' Hts' Hp' Hopen'.
        destruct Hp' as [Hp'|[-> Hp']].
        -- apply (Hmin a b' c' ts' Hc' Hts'); [left; exact Hp'|exact Hopen'].
        -- assert (b' = List.length pre \/ (b' < List.length pre)%nat) as [->|Hb] by lia.
           ++ rewrite Hc in Hc'. injection Hc' as <-. split; [exact Elt|].
              unfold earlierSlot. intro He. exfalso.
              destruct Hp as [Hp|[Hp1 Hp2]]; lia.
           ++ apply (Hmin ci b' c' ts' Hc' Hts');
                [right; split; [reflexivity|exact Hb]|exact Hopen'].
    + (* nothing found so far *)
      assert (Hnone : fst best = None).
      { unfold BestSoFar in Hbest. destruct (fst best) as [o|]; [|reflexivity].
        destruct Hbest as (c0 & ts0 & _ & _ & _ & _ & _ & Hcost & _). congruence. }
      unfold BestSoFar in Hbest. rewrite Hnone in Hbest. destruct Hbest as [_ Hall].
      apply Hstep. unfold BestSoFar. cbn [fst snd optCarrier optTimeSlot optRoute].
      exists c, timeSlot. split; [exact Hc|]. split; [exact Hts|].
      split; [right; split; [reflexivity|lia]|]. split; [exact Hopen|].
      split; [reflexivity|]. split; [reflexivity|].
      intros a b' c' ts' Hc' Hts' Hp' Hopen'.
      destruct Hp' as [Hp'|[-> Hp']].
      * rewrite (Hall a b' c' ts' Hc' Hts' (or_introl Hp')) in Hopen'. discriminate.
      * assert (b' = List.length pre \/ (b' < List.length pre)%nat) as [->|Hb] by lia.
        -- rewrite Hc in Hc'. injection Hc' as <-. split; [lra|].
           unfold earlierSlot. intro; lia.
        -- rewrite (Hall ci b' c' ts' Hc' Hts' (or_intror (conj eq_refl Hb))) in Hopen'.
           discriminate.
Qed.

Lemma scanCarriers_best shipment ctx carriers :
  forall cs pre best,
    carriers = pre ++ cs ->
    BestSoFar shipment ctx carriers (fun a _ => (a < List.length pre)%nat) best ->
    BestSoFar shipment ctx carriers (fun a _ => (a < List.length carriers)%nat)
      (scanCarriers shipment ctx cs (List.length pre) best).
Proof.
  induction cs as [|c cs IH]; intros pre best Hsplit Hbest.
  - cbn [scanCarriers]. rewrite app_nil_r in Hsplit. subst pre. exact Hbest.
  - cbn [scanCarriers].
    assert (Hc : nth_error carriers (List.length pre) = Some c)
      by (rewrite Hsplit; apply nth_error_snoc_split).
    assert (Hlen : List.length (pre ++ [c]) = S (List.length pre))
      by (rewrite length_app; cbn; lia).
    specialize (IH (pre ++ [c])). rewrite Hlen in IH.
    apply IH; [rewrite <- app_assoc; exact Hsplit|].
    eapply BestSoFar_scanned;
      [|apply (@scanSlots_best shipment ctx carriers (List.length pre) c Hc
                 (timeSlots c) [] best eq_refl)].
    + intros a b c' ts' Hc' Hts'. split.
      * intros [H|[-> H]]; lia.
      * intro H. assert (a = List.length pre \/ (a < List.length pre)%nat) as [->|Ha] by lia.
        -- right. split; [reflexivity|]. rewrite Hc in Hc'. injection Hc' as <-.
           apply nth_error_Some. congruence.
        -- left. exact Ha.
    + eapply BestSoFar_scanned; [|exact Hbest].
      intros a b c' ts' Hc' Hts'. cbn [List.length]. split; [intro; left; assumption|].
      intros [H|[_ H]]; [exact H|lia].
Qed.

Lemma findBestInitialCarrier_best shipment carriers ctx :
  BestSoFar shipment ctx carriers (fun a _ => (a < List.length carriers)%nat)
    (scanCarriers shipment ctx carriers 0 (None, None)).
Proof.
  apply (@scanCarriers_best shipment ctx carriers carriers [] (None, None) eq_refl).
  unfold BestSoFar. cbn [fst snd List.length]. split; [reflexivity|]. intros; lia.
Qed.

(** X9. The seed carrier.  When [findBestInitialCarrier] returns an option,
    it is a slot with a free place whose empty route the insertion scorer
    accepts the shipment on, its route is the single-stop route of the
    shipment with that carrier and time, and it is the cheapest such slot by
    single-stop route cost, the first one in scan order among equally cheap
    ones.  It returns nothing exactly when no slot of any carrier is open
    for the shipment. *)
Theorem findBestInitialCarrier_first_cheapest_open_slot :
  forall (shipment : Shipment) (carriers : list Carrier) (ctx : Context),
    match findBestInitialCarrier shipment carriers ctx with
    | Some o =>
        exists c ts,
          nth_error carriers (optCarrier o) = Some c
          /\ nth_error (timeSlots c) (optTimeSlot o) = Some ts
          /\ seedSlotOpen shipment ctx c ts = true
          /\ optRoute o = seedRoute shipment c ts
          /\ forall ci ti c' ts',
               nth_error carriers ci = Some c' -> nth_error (timeSlots c') ti = Some ts' ->
               seedSlotOpen shipment ctx c' ts' = true ->
               seedCost shipment ctx c <= seedCost shipment ctx c'
               /\ (earlierSlot ci ti (optCarrier o) (optTimeSlot o) ->
                   seedCost shipment ctx c < seedCost shipment ctx c')
    | None =>
        forall c ts, In c carriers -> In ts (timeSlots c) ->
                     seedSlotOpen shipment ctx c ts = false
    end.
Proof.
  intros shipment carriers ctx.
  pose proof (findBestInitialCarrier_best shipment carriers ctx) as H.
  unfold findBestInitialCarrier. unfold BestSoFar in H.
  destruct (fst (scanCarriers shipment ctx carriers 0 (None, None))) as [o|].
  - destruct H as (c & ts & Hc & Hts & _ & Hopen & Hroute & _ & Hmin).
    exists c, ts. repeat (split; [assumption|]).
    intros ci ti c' ts' Hc' Hts'. apply (Hmin ci ti c' ts' Hc' Hts').
    apply nth_error_Some. congruence.
  - destruct H as [_ Hall]. intros c ts Hc Hts.
    apply In_nth_error in Hc, Hts. destruct Hc as [ci Hc]. destruct Hts as [ti Hts].
    apply (Hall ci ti c ts Hc Hts). apply nth_error_Some. congruence.
Qed.

(* ------------------------------------------------------------------ *)
(** ** Invariants of the routes held by the planner *)

(** *** What an accepted insertion and a valid route guarantee *)

Lemma check_capacity shipment route ctx score :
  checkAndScoreInsertion shipment route ctx = Some score ->
  totalPallets route + pallets shipment
  <= capacityFor (carrier route)
       (getRequiredTrailerSize (time route) (stops route ++ [shipment]) (restrictions ctx))
     * OVERPLAN_FACTOR ctx.
Proof.
  unfold checkAndScoreInsertion. cbn zeta.
  destruct (Str.isEmpty (warehouse ctx)); [discriminate|].
  destruct (Z.ltb _ _); [discriminate|].
  destruct (negb (tempCheck ctx _)); [discriminate|].
  destruct (windowRejects ctx shipment (time route)); [discriminate|].
  destruct (orb (Qeq_bool _ 0) _) eqn:E4; [discriminate|].
  intros _. apply orb_false_iff in E4. destruct E4 as [_ E4].
  apply Qlt_bool_false_iff in E4. exact E4.
Qed.

Lemma isRouteValid_limits route ctx :
  isRouteValid route ctx = true ->
  (Zlength_of (uniq (map store (stops route))) <= MAX_STOPS_GENERAL ctx)%Z
  /\ tempCheck ctx (stops route) = true
  /\ totalPallets route <= routeCapacity route ctx * OVERPLAN_FACTOR ctx.
Proof.
  unfold isRouteValid.
  destruct (Z.ltb _ _) eqn:E1; [discriminate|].
  destruct (tempCheck ctx _) eqn:E2; [|discriminate]. cbn [negb].
  destruct (Qlt_bool _ (totalPallets route)) eqn:E3; [discriminate|].
  intros _. apply Z.ltb_ge in E1. apply Qlt_bool_false_iff in E3. auto.
Qed.

Lemma sumPallets_fold l : forall acc,
  fold_left (fun sum s => sum + pallets s) l acc == acc + sumPallets l.
Proof.
  unfold sumPallets. induction l as [|s l IH]; intro acc; cbn [fold_left]; [lra|].
  rewrite IH, (IH (0 + pallets s)). lra.
Qed.

Lemma sumPallets_app l l' : sumPallets (l ++ l') == sumPallets l + sumPallets l'.
Proof.
  unfold sumPallets at 1. rewrite fold_left_app. fold (sumPallets l).
  apply sumPallets_fold.
Qed.

Lemma sumPallets_one s : sumPallets [s] == pallets s.
Proof. unfold sumPallets. cbn [fold_left]. lra. Qed.

(** *** Dependence on the freight of the stops only *)

Lemma freight_fields s s' :
  freight s = freight s' ->
  store s = store s' /\ category s = category s' /\ pallets s = pallets s'.
Proof.
  unfold freight. intro H. injection H as H1 H2 H3 _ _. auto.
Qed.

Lemma map_freight_cons s l s' l' :
  map freight (s :: l) = map freight (s' :: l') ->
  freight s = freight s' /\ map freight l = map freight l'.
Proof.
  intro H. cbn [map] in H. split.
  - exact (f_equal (fun x => hd (freight s) x) H).
  - exact (f_equal (@tl _) H).
Qed.

Lemma freight_store l l' : map freight l = map freight l' -> map store l = map store l'.
Proof.
  revert l'. induction l as [|s l IH]; intros [|s' l'] H; try discriminate; [reflexivity|].
  apply map_freight_cons in H. destruct H as [Hs Hl]. cbn [map]. apply freight_fields in Hs.
  destruct Hs as (-> & _ & _). f_equal. apply IH. exact Hl.
Qed.

Lemma freight_category l l' :
  map freight l = map freight l' -> map category l = map category l'.
Proof.
  revert l'. induction l as [|s l IH]; intros [|s' l'] H; try discriminate; [reflexivity|].
  apply map_freight_cons in H. destruct H as [Hs Hl]. cbn [map]. apply freight_fields in Hs.
  destruct Hs as (_ & -> & _). f_equal. apply IH. exact Hl.
Qed.

Lemma freight_count l l' st c :
  map freight l = map freight l' -> perStoreCount l st c = perStoreCount l' st c.
Proof.
  unfold perStoreCount. generalize 0 as acc. revert l'.
  induction l as [|s l IH]; intros [|s' l'] acc H; try discriminate; [reflexivity|].
  apply map_freight_cons in H. destruct H as [Hs Hl]. cbn [map fold_left]. apply freight_fields in Hs.
  destruct Hs as (Hst & Hc & Hp). unfold countStep at 2 4. rewrite Hst, Hc, Hp.
  apply IH. exact Hl.
Qed.

Lemma freight_sum l l' : map freight l = map freight l' -> sumPallets l = sumPallets l'.
Proof.
  unfold sumPallets. generalize 0 as acc. revert l'.
  induction l as [|s l IH]; intros [|s' l'] acc H; try discriminate; [reflexivity|].
  apply map_freight_cons in H. destruct H as [Hs Hl]. cbn [map fold_left]. apply freight_fields in Hs.
  destruct Hs as (_ & _ & ->). apply IH. exact Hl.
Qed.

Lemma forallb_pointwise {A} (f g : A -> bool) l :
  (forall x, f x = g x) -> forallb f l = forallb g l.
Proof.
  intro H. induction l as [|a l IH]; [reflexivity|].
  cbn [forallb]. rewrite H, IH. reflexivity.
Qed.

Lemma freight_tempCheck ctx l l' :
  map freight l = map freight l' -> tempCheck ctx l = tempCheck ctx l'.
Proof.
  intro H. unfold tempCheck, isTempCompatible.
  rewrite (freight_category _ _ H).
  cbn [perStoreCounts countKeys]. rewrite (freight_store _ _ H).
  destruct (hasCategory Freezer _); [reflexivity|].
  destruct (ALLOW_ALL_ALL ctx); [|reflexivity].
  apply forallb_pointwise. intro k. unfold storeWithinThreshold. cbn [countOf perStoreCounts].
  rewrite !(freight_count _ _ k _ H). reflexivity.
Qed.

Lemma windowRejects_store ctx s s' t :
  store s = store s' -> windowRejects ctx s t = windowRejects ctx s' t.
Proof. unfold windowRejects. intros ->. reflexivity. Qed.

Lemma routeGood_view ctx r r' :
  routeGood ctx r ->
  carrier r' = carrier r -> time r' = time r ->
  map freight (stops r') = map freight (stops r) ->
  totalPallets r' = totalPallets r ->
  routeGood ctx r'.
Proof.
  intros [H1 H2 H3 H4 H5 H6] Hc Ht Hf Hp.
  pose proof (freight_store _ _ Hf) as Hs.
  constructor.
  - rewrite Hs. exact H1.
  - rewrite (freight_tempCheck ctx _ _ Hf). exact H2.
  - unfold routeCapacity, getRequiredTrailerSize in *. rewrite Hp, Hc, Ht, Hs. exact H3.
  - rewrite Hp, (freight_sum _ _ Hf). exact H4.
  - intros s' Hin. rewrite Ht.
    assert (Hin' : In (store s') (map store (stops r))) by (rewrite <- Hs; apply in_map; exact Hin).
    apply in_map_iff in Hin'. destruct Hin' as (s & Hst & Hs_in).
    rewrite (windowRejects_store ctx s' s _ (eq_sym Hst)). apply H5. exact Hs_in.
  - intro E. apply H6. rewrite E in Hf. destruct (stops r); [reflexivity|discriminate].
Qed.

Lemma freight_setFailures s n : freight (setFailures s n) = freight s.
Proof. reflexivity. Qed.

(** *** The moves that build and change routes *)

Lemma routeGood_push ctx r s score :
  routeGood ctx r ->
  checkAndScoreInsertion s r ctx = Some score ->
  routeGood ctx (pushStop r s).
Proof.
  intros [H1 H2 H3 H4 H5 H6] Hcheck.
  pose proof (check_accepted _ _ _ Hcheck) as Hacc.
  pose proof (check_capacity _ _ _ Hcheck) as Hcap.
  constructor; cbn [pushStop withStops stops totalPallets time].
  - apply Hacc.
  - apply Hacc.
  - exact Hcap.
  - rewrite sumPallets_app, sumPallets_one, H4. reflexivity.
  - intros x Hx. apply in_app_or in Hx. destruct Hx as [Hx|[<-|[]]].
    + apply H5. exact Hx.
    + apply Hacc.
  - intro E. apply app_eq_nil in E. destruct E as [_ E]. discriminate.
Qed.

Lemma routeGood_seed ctx s c ts score :
  0 <= pallets s ->
  checkAndScoreInsertion s (withStops (seedRoute s c ts) [] (pallets s)) ctx = Some score ->
  routeGood ctx (seedRoute s c ts).
Proof.
  intros Hp Hcheck.
  pose proof (check_accepted _ _ _ Hcheck) as Hacc.
  pose proof (check_capacity _ _ _ Hcheck) as Hcap.
  destruct Hacc as [A1 A2 A3 _ _ _ _ _ _].
  cbn [withStops seedRoute stops totalPallets time carrier app] in *.
  constructor; cbn [seedRoute stops totalPallets time].
  - exact A1.
  - exact A2.
  - unfold routeCapacity. cbn [seedRoute stops time carrier]. lra.
  - rewrite sumPallets_one. reflexivity.
  - intros x [<-|[]]. exact A3.
  - discriminate.
Qed.

Lemma Forall_setNth {A} (P : A -> Prop) l i x :
  Forall P l -> P x -> Forall P (setNth i x l).
Proof.
  intros Hl Hx. apply Forall_forall. intros y Hy. apply In_setNth in Hy.
  destruct Hy as [->|Hy]; [exact Hx|]. revert y Hy. apply Forall_forall. exact Hl.
Qed.

Lemma Forall_removeAt {A} (P : A -> Prop) l i : Forall P l -> Forall P (removeAt i l).
Proof.
  intro Hl. apply Forall_forall. intros y Hy. apply In_removeAt in Hy.
  revert y Hy. apply Forall_forall. exact Hl.
Qed.

Lemma Forall_nth_error {A} (P : A -> Prop) l i x :
  Forall P l -> nth_error l i = Some x -> P x.
Proof.
  intros Hl Hx. apply nth_error_In in Hx. revert x Hx. apply Forall_forall. exact Hl.
Qed.

Lemma sameSlot_time a b : sameSlot a b = true -> time a = time b.
Proof.
  unfold sameSlot. intro H. apply andb_true_iff in H. destruct H as [_ H].
  apply String.eqb_eq. exact H.
Qed.

Lemma RebalanceMove_good ctx rs rs' :
  RebalanceMove ctx rs rs' -> Forall (routeGood ctx) rs -> Forall (routeGood ctx) rs'.
Proof.
  intros [i j src tgt Hij Ei Ej Hslot Hmove Hvalid
         |i j r1 r2 si sj stop1 stop2 Hij Ei Ej Hslot Es1 Es2 Hacc] Hall.
  - apply Forall_removeAt, Forall_setNth; [exact Hall|].
    pose proof (Forall_nth_error _ Hall Ei) as [_ _ _ S4 S5 _].
    pose proof (Forall_nth_error _ Hall Ej) as [_ _ _ T4 T5 T6].
    destruct (isRouteValid_limits _ _ Hvalid) as (V1 & V2 & V3).
    constructor; cbn [withStops stops totalPallets time] in *; try assumption.
    + rewrite sumPallets_app, S4, T4. reflexivity.
    + intros x Hx. apply in_app_or in Hx. destruct Hx as [Hx|Hx].
      * apply T5. exact Hx.
      * rewrite <- (sameSlot_time _ _ Hslot). apply S5. exact Hx.
    + intro E. apply app_eq_nil in E. destruct E as [E _]. contradiction.
  - unfold swapAccepted in Hacc. apply andb_true_iff in Hacc. destruct Hacc as [Hacc V2].
    apply andb_true_iff in Hacc. destruct Hacc as [_ V1].
    pose proof (Forall_nth_error _ Hall Ei) as [_ _ _ _ A5 A6].
    pose proof (Forall_nth_error _ Hall Ej) as [_ _ _ _ B5 B6].
    apply Forall_setNth; [apply Forall_setNth; [exact Hall|]|].
    + destruct (isRouteValid_limits _ _ V1) as (L1 & L2 & L3).
      constructor; try assumption; cbn [applySwap trial1 withStops stops totalPallets time].
      * reflexivity.
      * intros x Hx. apply In_setNth in Hx. destruct Hx as [->|Hx].
        -- rewrite (sameSlot_time _ _ Hslot). apply B5. eapply nth_error_In; exact Es2.
        -- apply A5. exact Hx.
      * intro E. apply (f_equal (@List.length _)) in E. rewrite setNth_length in E.
        destruct (stops r1); [contradiction|discriminate].
    + destruct (isRouteValid_limits _ _ V2) as (L1 & L2 & L3).
      constructor; try assumption; cbn [applySwap trial2 withStops stops totalPallets time].
      * reflexivity.
      * intros x Hx. apply In_setNth in Hx. destruct Hx as [->|Hx].
        -- rewrite <- (sameSlot_time _ _ Hslot). apply A5. eapply nth_error_In; exact Es1.
        -- apply B5. exact Hx.
      * intro E. apply (f_equal (@List.length _)) in E. rewrite setNth_length in E.
        destruct (stops r2); [contradiction|discriminate].
Qed.

Lemma rebalanceRoutes_good ctx rs :
  Forall (routeGood ctx) rs -> Forall (routeGood ctx) (rebalanceRoutes rs ctx).
Proof.
  unfold rebalanceRoutes.
  pose proof (rebalanceLoop_moves ctx MAX_REBALANCE_ITERATIONS rs) as H.
  revert H. generalize (rebalanceLoop MAX_REBALANCE_ITERATIONS ctx rs) as out.
  intros out H. induction H as [rs|rs rs1 rs2 Hm _ IH]; [auto|].
  intro Hall. apply IH. eapply RebalanceMove_good; eassumption.
Qed.

(** *** The growth phase and the proactive pass *)

Lemma growScan_best ctx r pool :
  forall i pool1 idx score,
    growScan ctx r pool i = (pool1, Some (idx, score)) ->
    exists candidate,
      (i <= idx)%nat
      /\ nth_error pool1 (idx - i) = Some candidate
      /\ checkAndScoreInsertion candidate r ctx = Some score.
Proof.
  induction pool as [|candidate rest IH]; intros i pool1 idx score H; [discriminate|].
  cbn [growScan] in H.
  destruct (growScan ctx r rest (S i)) as [rest' best] eqn:Erest.
  assert (Hrec : forall x, best = Some (idx, score) ->
                   exists c, (i <= idx)%nat /\ nth_error (x :: rest') (idx - i) = Some c
                             /\ checkAndScoreInsertion c r ctx = Some score).
  { intros x ->. destruct (IH _ _ _ _ Erest) as (c & Hle & Hnth & Hc).
    exists c. split; [lia|]. split; [|exact Hc].
    replace (idx - i)%nat with (S (idx - S i)) by lia. exact Hnth. }
  destruct (hasReason candidate).
  { injection H as <- Hb. apply Hrec. exact Hb. }
  destruct (andb _ (negb _)).
  { injection H as <- Hb. apply Hrec. exact Hb. }
  destruct (checkAndScoreInsertion candidate r ctx) as [sc|] eqn:Echeck.
  - destruct (betterScore sc (option_map snd best)).
    + injection H as <- <- <-. exists candidate. split; [lia|].
      rewrite Nat.sub_diag. split; [reflexivity|exact Echeck].
    + injection H as <- Hb. apply Hrec. exact Hb.
  - injection H as <- Hb. apply Hrec. exact Hb.
Qed.

Lemma routeGood_adopt ctx r s : routeGood ctx r -> routeGood ctx (adoptCluster r s).
Proof.
  intro H. unfold adoptCluster. destruct (andb _ _); [|exact H].
  eapply routeGood_view; [exact H|reflexivity..].
Qed.

Lemma growLoop_good ctx fuel :
  forall r pool, routeGood ctx r -> routeGood ctx (fst (growLoop fuel ctx r pool)).
Proof.
  induction fuel as [|fuel IH]; intros r pool Hr; [exact Hr|].
  cbn [growLoop].
  destruct (growScan ctx r pool 0) as [pool1 [[index score]|]] eqn:Escan; [|exact Hr].
  destruct (growScan_best _ _ _ _ Escan) as (candidate & _ & Hnth & Hcheck).
  rewrite Nat.sub_0_r in Hnth. rewrite Hnth.
  apply IH. apply routeGood_adopt.
  eapply routeGood_view;
    [exact (@routeGood_push ctx r candidate score Hr Hcheck)
    |reflexivity|reflexivity| |reflexivity].
  cbn [pushStop withStops stops]. rewrite !map_app. reflexivity.
Qed.

Lemma bestRouteScan_spec ctx s routes :
  forall r0 bi bs r,
    bestRouteScan ctx s routes r0 bi bs = Some r ->
    bi = Some r
    \/ exists route score,
         (r0 <= r)%nat /\ nth_error routes (r - r0) = Some route
         /\ checkAndScoreInsertion s route ctx = Some score.
Proof.
  induction routes as [|route rest IH]; intros r0 bi bs r H; cbn [bestRouteScan] in H.
  - left. exact H.
  - assert (Hrec : forall bi' bs',
               bestRouteScan ctx s rest (S r0) bi' bs' = Some r ->
               bi' = Some r
               \/ exists route' score,
                    (r0 <= r)%nat /\ nth_error (route :: rest) (r - r0) = Some route'
                    /\ checkAndScoreInsertion s route' ctx = Some score).
    { intros bi' bs' H'. destruct (IH _ _ _ _ H') as [Hb|(route' & sc & Hle & Hnth & Hc)].
      - left. exact Hb.
      - right. exists route', sc. split; [lia|]. split; [|exact Hc].
        replace (r - r0)%nat with (S (r - S r0)) by lia. exact Hnth. }
    destruct (checkAndScoreInsertion s route ctx) as [score|] eqn:Echeck.
    + destruct (betterScore score bs).
      * destruct (Hrec _ _ H) as [Hb|Hr]; [|right; exact Hr].
        injection Hb as <-. right. exists route, score.
        split; [lia|]. rewrite Nat.sub_diag. split; [reflexivity|exact Echeck].
      * destruct (Hrec _ _ H) as [Hb|Hr]; [left; exact Hb|right; exact Hr].
    + destruct (Hrec _ _ H) as [Hb|Hr]; [left; exact Hb|right; exact Hr].
Qed.

Lemma proactiveStep_good ctx s acc :
  Forall (routeGood ctx) (fst acc) ->
  Forall (routeGood ctx) (fst (proactiveStep ctx s acc)).
Proof.
  destruct acc as [rs kept]. cbn [fst]. intro Hall. unfold proactiveStep.
  destruct (hasReason s); [exact Hall|].
  destruct (bestRouteScan ctx s rs 0 None None) as [r|] eqn:Escan; [|exact Hall].
  destruct (bestRouteScan_spec _ _ _ _ _ _ Escan) as [Hb|(route & score & _ & Hnth & Hcheck)];
    [discriminate|].
  rewrite Nat.sub_0_r in Hnth. rewrite Hnth. cbn [fst].
  apply Forall_setNth; [exact Hall|].
  eapply routeGood_push; [|exact Hcheck]. eapply Forall_nth_error; eassumption.
Qed.

Lemma proactiveStep_kept ctx s acc x :
  In x (snd (proactiveStep ctx s acc)) -> x = s \/ In x (snd acc).
Proof.
  destruct acc as [rs kept]. unfold proactiveStep.
  assert (Hcons : In x (s :: kept) -> x = s \/ In x kept)
    by (intros [->|H]; [left; reflexivity|right; exact H]).
  destruct (hasReason s); [exact Hcons|].
  destruct (bestRouteScan ctx s rs 0 None None) as [r|];
    [destruct (nth_error rs r)|]; cbn [snd]; auto.
Qed.

Lemma proactiveInsert_good ctx rs pool :
  Forall (routeGood ctx) rs ->
  Forall (routeGood ctx) (fst (proactiveInsert ctx rs pool))
  /\ forall x, In x (snd (proactiveInsert ctx rs pool)) -> In x pool.
Proof.
  intro Hall. unfold proactiveInsert. destruct rs as [|r0 rs]; [split; [exact Hall|auto]|].
  induction pool as [|s pool IH]; cbn [fold_right].
  - split; [exact Hall|]. intros x [].
  - destruct IH as [IH1 IH2]. split.
    + apply proactiveStep_good. exact IH1.
    + intros x Hx. apply proactiveStep_kept in Hx. destruct Hx as [->|Hx];
        [left; reflexivity|right; apply IH2; exact Hx].
Qed.

(** *** Seeding *)

Lemma nonneg_core l l' :
  Permutation (map core l) (map core l') -> nonnegPallets l -> nonnegPallets l'.
Proof.
  unfold nonnegPallets. intros Hp Hl. apply Forall_forall. intros s' Hs'.
  assert (Hin : In (core s') (map core l)).
  { apply (Permutation_in _ (Permutation_sym Hp)). apply in_map. exact Hs'. }
  apply in_map_iff in Hin. destruct Hin as (s & Hc & Hs).
  assert (Hpal : pallets s = pallets s').
  { unfold core in Hc. apply (f_equal (fun c => fst (fst c))) in Hc. cbn [fst] in Hc.
    apply freight_fields in Hc. apply Hc. }
  rewrite <- Hpal. exact (proj1 (Forall_forall _ _) Hl s Hs).
Qed.

Lemma seedStep_good ctx st pool seed0 :
  Forall (routeGood ctx) (routes st) ->
  0 <= pallets seed0 -> nonnegPallets pool ->
  Forall (routeGood ctx) (routes (seedStep ctx st pool seed0))
  /\ nonnegPallets (unassignedShipments (seedStep ctx st pool seed0)).
Proof.
  intros Hall Hseed Hpool. unfold seedStep.
  pose proof (findBestInitialCarrier_best (bumpAttempts seed0) (carriers st) ctx) as Hbest.
  unfold findBestInitialCarrier. unfold BestSoFar in Hbest.
  destruct (fst (scanCarriers (bumpAttempts seed0) ctx (carriers st) 0 (None, None)))
    as [o|].
  - destruct Hbest as (c & ts & _ & _ & _ & Hopen & Hroute & _ & _).
    unfold seedSlotOpen in Hopen. apply andb_true_iff in Hopen. destruct Hopen as [_ Hopen].
    destruct (checkAndScoreInsertion (bumpAttempts seed0) _ ctx) as [score|] eqn:Echeck;
      [|discriminate].
    assert (Hgood0 : routeGood ctx (withSeedAttempts (optRoute o)
                                      (attempts (bumpAttempts seed0)))).
    { eapply routeGood_view;
        [exact (@routeGood_seed ctx (bumpAttempts seed0) c ts score Hseed Echeck)| | | |];
        rewrite Hroute; reflexivity. }
    pose proof (@growLoop_good ctx (S (List.length pool)) _ pool Hgood0) as Hgrown.
    pose proof (growLoop_core (S (List.length pool)) ctx
                  (withSeedAttempts (optRoute o) (attempts (bumpAttempts seed0))) pool) as Hcore.
    destruct (growLoop _ ctx _ pool) as [currentRoute pool1]. cbn [fst snd] in *.
    assert (Hnn : nonnegPallets (stops currentRoute ++ pool1)).
    { apply (@nonneg_core _ _ (Permutation_sym Hcore)).
      cbn [withSeedAttempts stops]. rewrite Hroute. cbn [seedRoute stops app].
      constructor; [exact Hseed|exact Hpool]. }
    apply Forall_app in Hnn. destruct Hnn as [Hnn1 Hnn2].
    destruct (Qlt_bool _ _); cbn [routes unassignedShipments].
    + split; [exact Hall|]. apply Forall_app. split; [exact Hnn2|].
      apply Forall_forall. intros x Hx. apply in_map_iff in Hx.
      destruct Hx as (y & <- & Hy). cbn [bumpFailures setFailures pallets].
      revert y Hy. apply Forall_forall. exact Hnn1.
    + split; [|exact Hnn2]. apply Forall_app. split; [exact Hall|].
      constructor; [|constructor].
      eapply routeGood_view; [exact Hgrown|reflexivity..].
  - cbn [routes unassignedShipments]. split; [exact Hall|].
    apply Forall_app. split; [exact Hpool|]. constructor; [exact Hseed|constructor].
Qed.

(** *** The pull-forward pass *)

(** The scorer is asked about a route that already lists the shipment, so
    its verdict counts the shipment twice; with non-negative pallets the
    verdict carries over to the route that lists it once. *)
Lemma perStoreCount_snoc l s st c :
  perStoreCount (l ++ [s]) st c = countStep st c (perStoreCount l st c) s.
Proof.
  unfold perStoreCount. rewrite fold_left_app. reflexivity.
Qed.

Lemma uniq_snoc_in l x : In x l -> uniq (l ++ [x]) = uniq l.
Proof.
  intro H. rewrite uniq_snoc. destruct (in_dec string_dec x l); [reflexivity|contradiction].
Qed.

Lemma tempCheck_drop_repeat ctx l s :
  In s l -> 0 <= pallets s -> tempCheck ctx (l ++ [s]) = true -> tempCheck ctx l = true.
Proof.
  intros Hin Hp. unfold tempCheck, isTempCompatible. cbn [perStoreCounts countKeys].
  assert (Hcat : forall c, hasCategory c (map category (l ++ [s]))
                           = hasCategory c (map category l)).
  { intro c. unfold hasCategory. apply existsb_same_elements. intro x.
    rewrite map_app, in_app_iff. cbn [map In]. split; [|tauto].
    intros [H|[<-|[]]]; [exact H|apply in_map; exact Hin]. }
  rewrite !Hcat.
  assert (Hkeys : uniq (map store (l ++ [s])) = uniq (map store l)).
  { rewrite map_app. cbn [map]. apply uniq_snoc_in. apply in_map. exact Hin. }
  rewrite Hkeys.
  destruct (hasCategory Freezer _); [auto|].
  destruct (ALLOW_ALL_ALL ctx); [|auto].
  intro H. apply forallb_forall. intros k Hk.
  pose proof (proj1 (forallb_forall _ _) H k Hk) as Hw.
  unfold storeWithinThreshold in *. cbn [countOf perStoreCounts] in *.
  rewrite !perStoreCount_snoc in Hw.
  set (thr := num_or (num_or (SMALL_AMBIENT_THRESHOLD ctx) 4) 6) in *.
  assert (Hge : forall c, perStoreCount l k c <= countStep k c (perStoreCount l k c) s).
  { intro c. unfold countStep.
    destruct (andb (String.eqb (store s) k) (Category_eqb (category s) c)); lra. }
  destruct (andb (Qlt_bool 0 (perStoreCount l k Chiller)) _) eqn:E; [|reflexivity].
  apply andb_true_iff in E. destruct E as [E1 E2].
  apply Qlt_bool_iff in E1, E2.
  assert (E1' : Qlt_bool 0 (countStep k Chiller (perStoreCount l k Chiller) s) = true).
  { apply Qlt_bool_iff. pose proof (Hge Chiller). lra. }
  assert (E2' : Qlt_bool thr (countStep k Ambient (perStoreCount l k Ambient) s
                              + countStep k Produce (perStoreCount l k Produce) s) = true).
  { apply Qlt_bool_iff. pose proof (Hge Ambient). pose proof (Hge Produce). lra. }
  rewrite E1', E2' in Hw. discriminate.
Qed.

Lemma trailer_drop_repeat routeTime l s res :
  In s l ->
  getRequiredTrailerSize routeTime (l ++ [s]) res = getRequiredTrailerSize routeTime l res.
Proof.
  intro Hin. unfold getRequiredTrailerSize. rewrite map_app. cbn [map].
  rewrite uniq_snoc_in by (apply in_map; exact Hin). reflexivity.
Qed.

Lemma routeGood_pull ctx c slot potential total s score :
  (potential = [] /\ total = 0) \/ routeGood ctx (mkRoute c slot potential total "" "" 0 "") ->
  0 <= pallets s ->
  checkAndScoreInsertion s (mkRoute c slot (potential ++ [s]) (total + pallets s) "" "" 0 "") ctx
  = Some score ->
  routeGood ctx (mkRoute c slot (potential ++ [setFailures s 0]) (total + pallets s)
                   "" "" 0 "").
Proof.
  intros Hinv Hp Hcheck.
  pose proof (check_accepted _ _ _ Hcheck) as Hacc.
  pose proof (check_capacity _ _ _ Hcheck) as Hcap.
  destruct Hacc as [A1 A2 A3 _ _ _ _ _ _].
  cbn [stops totalPallets time carrier] in *.
  assert (Hin : In s (potential ++ [s])) by (apply in_or_app; right; left; reflexivity).
  eapply (@routeGood_view ctx (mkRoute c slot (potential ++ [s]) (total + pallets s)
                                "" "" 0 ""));
    [|reflexivity|reflexivity| |reflexivity].
  2:{ cbn [stops]. rewrite !map_app. reflexivity. }
  constructor; cbn [stops totalPallets time].
  - rewrite map_app in A1. cbn [map] in A1.
    rewrite uniq_snoc_in in A1 by (apply in_map; exact Hin). exact A1.
  - eapply tempCheck_drop_repeat; eassumption.
  - unfold routeCapacity. cbn [stops time carrier].
    rewrite trailer_drop_repeat in Hcap by exact Hin. lra.
  - rewrite sumPallets_app, sumPallets_one.
    destruct Hinv as [[-> ->]|[_ _ _ G4 _ _]].
    + reflexivity.
    + cbn [stops totalPallets] in G4. rewrite G4. reflexivity.
  - intros x Hx. apply in_app_or in Hx. destruct Hx as [Hx|[<-|[]]]; [|exact A3].
    destruct Hinv as [[-> _]|[_ _ _ _ G5 _]]; [destruct Hx|].
    apply G5. exact Hx.
  - intro E. apply app_eq_nil in E. destruct E as [_ E]. discriminate.
Qed.

Lemma pfScan_good ctx c slot rest :
  forall skipped potential total extr,
    nonnegPallets rest ->
    (potential = [] /\ total = 0) \/ routeGood ctx (mkRoute c slot potential total "" "" 0 "") ->
    let r := pfScan ctx c slot skipped rest potential total extr in
    (potentialStops r = [] /\ pfPallets r = 0)
    \/ routeGood ctx (mkRoute c slot (potentialStops r) (pfPallets r) "" "" 0 "").
Proof.
  induction rest as [|s rest IH]; intros skipped potential total extr Hnn Hinv; cbn zeta.
  - exact Hinv.
  - cbn [pfScan]. inversion Hnn as [|? ? Hs Hrest]; subst.
    destruct (Qlt_bool total _); [|exact Hinv].
    destruct (checkAndScoreInsertion _ _ _) as [score|] eqn:Echeck.
    + apply IH; [exact Hrest|]. right. eapply routeGood_pull; eassumption.
    + apply IH; assumption.
Qed.

Lemma pfAttempt_good ctx c slot st :
  Forall (routeGood ctx) (routesCreated st) -> nonnegPallets (pfPool st) ->
  Forall (routeGood ctx) (routesCreated (pfAttempt ctx c slot st))
  /\ nonnegPallets (pfPool (pfAttempt ctx c slot st)).
Proof.
  intros Hall Hnn. unfold pfAttempt.
  pose proof (@pfScan_good ctx c slot (pfPool st) [] [] 0 [] Hnn
                (or_introl (conj eq_refl eq_refl))) as Hscan.
  destruct (pfScan_spec ctx c slot (pfPool st) [] [] 0 []) as (added & Hp & He & Hperm).
  cbn zeta in Hscan. cbn [app] in Hp, He, Hperm.
  assert (Hnn' : nonnegPallets (added ++ pfUnassigned (pfScan ctx c slot [] (pfPool st) [] 0 []))).
  { eapply nonneg_core; [apply Permutation_sym; exact Hperm|exact Hnn]. }
  apply Forall_app in Hnn'. destruct Hnn' as [Hnn1 Hnn2].
  destruct (Qle_bool _ _) eqn:Emin; cbn [routesCreated pfPool].
  - split; [|exact Hnn2]. apply Forall_app. split; [exact Hall|].
    constructor; [|constructor].
    destruct Hscan as [[_ Hzero]|Hgood].
    + exfalso. apply Qle_bool_iff in Emin. rewrite Hzero in Emin.
      unfold pfRelaxedMinimum in Emin.
      assert (Hz : (15 <= Z.max 15 (Qceiling (MIN_PALLETS_PER_ROUTE ctx * RELAX_MIN_FACTOR ctx)))%Z)
        by apply Z.le_max_l.
      rewrite Zle_Qle in Hz. change (inject_Z 15) with 15 in Hz. lra.
    + eapply routeGood_view; [exact Hgood|reflexivity..].
  - split; [exact Hall|]. apply Forall_app. split; [exact Hnn2|]. rewrite He. exact Hnn1.
Qed.

Lemma pfIter_good ctx c slot n :
  forall st,
    Forall (routeGood ctx) (routesCreated st) -> nonnegPallets (pfPool st) ->
    Forall (routeGood ctx) (routesCreated (Nat.iter n (pfAttempt ctx c slot) st))
    /\ nonnegPallets (pfPool (Nat.iter n (pfAttempt ctx c slot) st)).
Proof.
  induction n as [|n IH]; intros st Hall Hnn; [split; assumption|].
  rewrite Nat.iter_succ. destruct (IH st Hall Hnn) as [H1 H2].
  apply pfAttempt_good; assumption.
Qed.

Lemma pfSlot_good ctx c acc ts :
  Forall (routeGood ctx) (snd (fst acc)) -> nonnegPallets (fst (fst acc)) ->
  Forall (routeGood ctx) (snd (fst (pfSlot ctx c acc ts)))
  /\ nonnegPallets (fst (fst (pfSlot ctx c acc ts))).
Proof.
  destruct acc as [[pool created] done]. cbn [fst snd]. intros Hall Hnn. unfold pfSlot.
  destruct (Z.ltb _ _); [|split; assumption].
  cbn [fst snd].
  apply (@pfIter_good ctx c (slotTime ts) _ (mkPfState pool created (used ts))); assumption.
Qed.

Lemma pfSlots_good ctx c slots :
  forall acc,
    Forall (routeGood ctx) (snd (fst acc)) -> nonnegPallets (fst (fst acc)) ->
    Forall (routeGood ctx) (snd (fst (fold_left (pfSlot ctx c) slots acc)))
    /\ nonnegPallets (fst (fst (fold_left (pfSlot ctx c) slots acc))).
Proof.
  induction slots as [|ts slots IH]; intros acc Hall Hnn; [split; assumption|].
  cbn [fold_left]. destruct (@pfSlot_good ctx c acc ts Hall Hnn) as [H1 H2].
  apply IH; assumption.
Qed.

Lemma pfCarrier_good ctx acc c :
  Forall (routeGood ctx) (snd (fst acc)) -> nonnegPallets (fst (fst acc)) ->
  Forall (routeGood ctx) (snd (fst (pfCarrier ctx acc c)))
  /\ nonnegPallets (fst (fst (pfCarrier ctx acc c))).
Proof.
  destruct acc as [[pool created] done]. cbn [fst snd]. intros Hall Hnn. unfold pfCarrier.
  pose proof (@pfSlots_good ctx c (timeSlots c) (pool, created, []) Hall Hnn) as H.
  destruct (fold_left (pfSlot ctx c) (timeSlots c) (pool, created, []))
    as [[pool' created'] slots'].
  exact H.
Qed.

Lemma pfCarriers_good ctx cs :
  forall acc,
    Forall (routeGood ctx) (snd (fst acc)) -> nonnegPallets (fst (fst acc)) ->
    Forall (routeGood ctx) (snd (fst (fold_left (pfCarrier ctx) cs acc)))
    /\ nonnegPallets (fst (fst (fold_left (pfCarrier ctx) cs acc))).
Proof.
  induction cs as [|c cs IH]; intros acc Hall Hnn; [split; assumption|].
  cbn [fold_left]. destruct (@pfCarrier_good ctx acc c Hall Hnn) as [H1 H2].
  apply IH; assumption.
Qed.

Lemma utilizePullForwardRequests_good remaining cs ctx existing :
  Forall (routeGood ctx) existing -> nonnegPallets remaining ->
  Forall (routeGood ctx) (pfRoutes (utilizePullForwardRequests remaining cs ctx existing)).
Proof.
  intros Hall Hnn. unfold utilizePullForwardRequests.
  pose proof (@pfCarriers_good ctx cs (remaining, [], []) (Forall_nil _) Hnn) as H.
  destruct (fold_left (pfCarrier ctx) cs (remaining, [], [])) as [[pool created] cs'].
  cbn [fst snd pfRoutes] in *. apply Forall_app. split; [exact Hall|apply H].
Qed.

(** *** The loop *)

Lemma planningLoop_good ctx fuel :
  forall st res,
    Forall (routeGood ctx) (routes st) -> nonnegPallets (unassignedShipments st) ->
    planningLoop fuel ctx st = Some res ->
    Forall (routeGood ctx) (heldRoutes res).
Proof.
  induction fuel as [|fuel IH]; intros st res Hall Hnn H; [discriminate|].
  cbn [planningLoop] in H.
  assert (Hsorted : nonnegPallets (sortByPallets (unassignedShipments st))).
  { unfold nonnegPallets.
    apply (Permutation_Forall (Permutation_sym (sortByPallets_perm _))). exact Hnn. }
  destruct (@proactiveInsert_good ctx (routes st) (sortByPallets (unassignedShipments st)) Hall)
    as [Hall1 Hsub].
  destruct (proactiveInsert ctx (routes st) (sortByPallets (unassignedShipments st)))
    as [routes1 pool]. cbn [fst snd] in *.
  assert (Hpool : nonnegPallets pool).
  { apply Forall_forall. intros x Hx. apply Hsub in Hx.
    exact (proj1 (Forall_forall _ _) Hsorted x Hx). }
  destruct (findSeed ctx [] pool) as [[[b seed] a]|] eqn:Eseed.
  - apply findSeed_split in Eseed. destruct Eseed as [Hsplit _]. cbn [app] in Hsplit.
    rewrite <- Hsplit in Hpool. apply Forall_app in Hpool. destruct Hpool as [Hb Hsa].
    inversion Hsa as [|? ? Hs Ha]; subst.
    destruct (@seedStep_good ctx (mkLoopState (b ++ seed :: a) routes1 (carriers st)
                                    (iteration st)) (b ++ a) seed Hall1 Hs)
      as [Hr Hu].
    { apply Forall_app. split; assumption. }
    eapply IH; [exact Hr|exact Hu|exact H].
  - injection H as <-. unfold finishPlanning. cbn [heldRoutes routes carriers].
    apply utilizePullForwardRequests_good; [|exact Hpool].
    destruct routes1 as [|r0 rs]; [constructor|].
    apply rebalanceRoutes_good. exact Hall1.
Qed.

Lemma runPlanningLoop_returns shipments cs ctx start :
  exists res, runPlanningLoop shipments cs ctx start = Some res.
Proof.
  unfold runPlanningLoop. apply planningLoop_returns. cbn [unassignedShipments].
  pose proof (seedsLeft_le_budget ctx shipments). lia.
Qed.

Lemma runPlanningLoop_good shipments cs ctx start res :
  nonnegPallets shipments ->
  runPlanningLoop shipments cs ctx start = Some res ->
  Forall (routeGood ctx) (heldRoutes res).
Proof.
  intros Hnn H. unfold runPlanningLoop in H.
  eapply planningLoop_good; [| |exact H]; cbn [routes unassignedShipments];
    [constructor|exact Hnn].
Qed.

(** X10. Load limits of the routes held by the planning loop.  When no
    shipment has a negative pallet count, the loop returns, and every route
    in its route array at that point (seeded, grown, filled proactively,
    merged, swapped or built by the pull-forward pass) has at least one stop,
    visits at most [MAX_STOPS_GENERAL] distinct stores, passes the
    temperature rule, carries a pallet total that is the sum of the pallets
    of its stops, and that total is within the capacity of its required
    trailer times the overplan factor. *)
Theorem runPlanningLoop_routes_within_load_limits :
  forall (shipments : list Shipment) (carriers : list Carrier) (ctx : Context) (start : Z),
    nonnegPallets shipments ->
    exists res,
      runPlanningLoop shipments carriers ctx start = Some res
      /\ forall r, In r (heldRoutes res) ->
           stops r <> []
           /\ (Zlength_of (uniq (map store (stops r))) <= MAX_STOPS_GENERAL ctx)%Z
           /\ tempCheck ctx (stops r) = true
           /\ totalPallets r == sumPallets (stops r)
           /\ totalPallets r
              <= capacityFor (carrier r)
                   (getRequiredTrailerSize (time r) (stops r) (restrictions ctx))
                 * OVERPLAN_FACTOR ctx.
Proof.
  intros shipments carriers ctx start Hnn.
  destruct (runPlanningLoop_returns shipments carriers ctx start) as [res Hres].
  exists res. split; [exact Hres|]. intros r Hr.
  pose proof (runPlanningLoop_good _ _ _ Hnn Hres) as Hall.
  destruct (proj1 (Forall_forall _ _) Hall r Hr) as [H1 H2 H3 H4 H5 H6].
  auto.
Qed.

Lemma runPlanningLoop_routes_within_load_limits_witness :
  exists res,
    runPlanningLoop farPairShipments [carrierHB 1] (defaultContext farPairMatrix) 1 = Some res
    /\ forall r, In r (heldRoutes res) ->
         stops r <> []
         /\ (Zlength_of (uniq (map store (stops r)))
             <= MAX_STOPS_GENERAL (defaultContext farPairMatrix))%Z
         /\ tempCheck (defaultContext farPairMatrix) (stops r) = true
         /\ totalPallets r == sumPallets (stops r)
         /\ totalPallets r
            <= capacityFor (carrier r)
                 (getRequiredTrailerSize (time r) (stops r)
                    (restrictions (defaultContext farPairMatrix)))
               * OVERPLAN_FACTOR (defaultContext farPairMatrix).
Proof.
  apply (@runPlanningLoop_routes_within_load_limits
           farPairShipments [carrierHB 1] (defaultContext farPairMatrix) 1).
  repeat constructor; discriminate.
Defined.

(** X11. Delivery windows of the routes held by the planning loop.  When no
    shipment has a negative pallet count, every stop of every route in the
    route array when the loop returns is at a store whose delivery window,
    if it has one that is neither blank nor N/A, admits the time of the
    route (in the fail-open sense of [isTimeInWindow]).  Merges and swaps
    keep this because they only combine routes of the same time. *)
Theorem runPlanningLoop_routes_respect_delivery_windows :
  forall (shipments : list Shipment) (carriers : list Carrier) (ctx : Context) (start : Z),
    nonnegPallets shipments ->
    exists res,
      runPlanningLoop shipments carriers ctx start = Some res
      /\ forall r s w,
           In r (heldRoutes res) -> In s (stops r) ->
           hasDeliveryWindow (restrictions ctx) (store s) = Some w ->
           isTimeInWindow (time r) w = true.
Proof.
  intros shipments carriers ctx start Hnn.
  destruct (runPlanningLoop_returns shipments carriers ctx start) as [res Hres].
  exists res. split; [exact Hres|]. intros r s w Hr Hs Hw.
  pose proof (runPlanningLoop_good _ _ _ Hnn Hres) as Hall.
  destruct (proj1 (Forall_forall _ _) Hall r Hr) as [_ _ _ _ H5 _].
  specialize (H5 s Hs). unfold windowRejects in H5. rewrite Hw in H5.
  apply negb_false_iff in H5. exact H5.
Qed.

Lemma runPlanningLoop_routes_respect_delivery_windows_witness :
  exists res,
    runPlanningLoop farPairShipments [carrierHB 1]
      (withRestrictions (defaultContext farPairMatrix) dayWindow) 1 = Some res
    /\ forall r s w,
         In r (heldRoutes res) -> In s (stops r) ->
         hasDeliveryWindow
           (restrictions (withRestrictions (defaultContext farPairMatrix) dayWindow))
           (store s) = Some w ->
         isTimeInWindow (time r) w = true.
Proof.
  apply (@runPlanningLoop_routes_respect_delivery_windows
           farPairShipments [carrierHB 1]
           (withRestrictions (defaultContext farPairMatrix) dayWindow) 1).
  repeat constructor; discriminate.
Defined.

(* ------------------------------------------------------------------ *)
(** ** Booking of the carrier slots *)

Lemma Forall2_refl {A} (R : A -> A -> Prop) l : (forall x, R x x) -> Forall2 R l l.
Proof. intro H. induction l; constructor; auto. Qed.

Lemma Forall2_trans {A} (R : A -> A -> Prop) l1 :
  (forall x y z, R x y -> R y z -> R x z) ->
  forall l2 l3, Forall2 R l1 l2 -> Forall2 R l2 l3 -> Forall2 R l1 l3.
Proof.
  intro Ht. induction l1 as [|a l1 IH]; intros l2 l3 H12 H23.
  - inversion H12; subst. exact H23.
  - inversion H12 as [|? b ? l2' Hab H12']; subst.
    inversion H23 as [|? c ? l3' Hbc H23']; subst.
    constructor; [exact (Ht _ _ _ Hab Hbc)|exact (IH _ _ H12' H23')].
Qed.

Lemma Forall2_setNth {A} (R : A -> A -> Prop) l i x y :
  (forall z, R z z) -> nth_error l i = Some x -> R x y -> Forall2 R l (setNth i y l).
Proof.
  intros Hr. revert i. induction l as [|a l IH]; intros [|i] Hx Hxy; cbn in *; try discriminate.
  - injection Hx as ->. constructor; [exact Hxy|apply Forall2_refl; exact Hr].
  - constructor; [apply Hr|apply IH; assumption].
Qed.

Lemma slotGrows_refl ts : slotGrows ts ts.
Proof. unfold slotGrows. repeat split; auto; lia. Qed.

Lemma slotGrows_trans a b c : slotGrows a b -> slotGrows b c -> slotGrows a c.
Proof.
  unfold slotGrows. intros (A1 & A2 & A3 & A4) (B1 & B2 & B3 & B4).
  split; [congruence|]. split; [congruence|]. split; [lia|]. intro H. apply B4, A4, H.
Qed.

Lemma carrierGrows_refl c : carrierGrows c c.
Proof.
  unfold carrierGrows. repeat split; auto. apply Forall2_refl, slotGrows_refl.
Qed.

Lemma carrierGrows_trans a b c : carrierGrows a b -> carrierGrows b c -> carrierGrows a c.
Proof.
  unfold carrierGrows.
  intros (A1 & A2 & A3 & A4 & A5 & A6 & A7) (B1 & B2 & B3 & B4 & B5 & B6 & B7).
  repeat split; try congruence.
  eapply Forall2_trans; [exact slotGrows_trans|exact A7|exact B7].
Qed.

Lemma carriersGrow_trans a b c :
  Forall2 carrierGrows a b -> Forall2 carrierGrows b c -> Forall2 carrierGrows a c.
Proof. apply Forall2_trans. exact carrierGrows_trans. Qed.

Lemma sumUsed_setNth slots i ts ts' :
  nth_error slots i = Some ts ->
  sumUsed (setNth i ts' slots) = (sumUsed slots - used ts + used ts')%Z.
Proof.
  revert i. induction slots as [|a l IH]; intros [|i] H; cbn in *; try discriminate.
  - injection H as ->. lia.
  - fold (sumUsed (setNth i ts' l)). fold (sumUsed l). rewrite (IH _ H). lia.
Qed.

Lemma usedTotal_setNth cs i c c' :
  nth_error cs i = Some c ->
  usedTotal (setNth i c' cs) = (usedTotal cs - usedBy c + usedBy c')%Z.
Proof.
  revert i. induction cs as [|a l IH]; intros [|i] H; cbn in *; try discriminate.
  - injection H as ->. lia.
  - fold (usedTotal (setNth i c' l)). fold (usedTotal l). rewrite (IH _ H). lia.
Qed.

Lemma sumUsed_app l l' : sumUsed (l ++ l') = (sumUsed l + sumUsed l')%Z.
Proof.
  induction l as [|a l IH]; cbn; [reflexivity|].
  fold (sumUsed (l ++ l')). fold (sumUsed l). rewrite IH. lia.
Qed.

Lemma usedTotal_app l l' : usedTotal (l ++ l') = (usedTotal l + usedTotal l')%Z.
Proof.
  induction l as [|a l IH]; cbn; [reflexivity|].
  fold (usedTotal (l ++ l')). fold (usedTotal l). rewrite IH. lia.
Qed.

Lemma useSlot_grows cs ci ti c ts :
  nth_error cs ci = Some c -> nth_error (timeSlots c) ti = Some ts ->
  (used ts < capacity ts)%Z ->
  Forall2 carrierGrows cs (useSlot cs ci ti)
  /\ usedTotal (useSlot cs ci ti) = (usedTotal cs + 1)%Z.
Proof.
  intros Hc Hts Hfree. unfold useSlot. rewrite Hc, Hts. split.
  - eapply Forall2_setNth; [exact carrierGrows_refl|exact Hc|].
    unfold carrierGrows. cbn [name costPerMile costPerRoute pallets36 pallets48 pallets53
                              timeSlots].
    repeat split; auto.
    eapply Forall2_setNth; [exact slotGrows_refl|exact Hts|].
    unfold slotGrows. cbn [slotTime capacity used]. repeat split; auto; lia.
  - rewrite (usedTotal_setNth _ _ _ Hc). unfold usedBy at 2. cbn [timeSlots].
    rewrite (sumUsed_setNth _ _ _ Hts). cbn [used]. unfold usedBy. lia.
Qed.

Lemma seedStep_slots ctx st pool seed0 :
  let st' := seedStep ctx st pool seed0 in
  Forall2 carrierGrows (carriers st) (carriers st')
  /\ (Z.of_nat (List.length (routes st')) - usedTotal (carriers st')
      = Z.of_nat (List.length (routes st)) - usedTotal (carriers st))%Z.
Proof.
  cbn zeta. unfold seedStep.
  pose proof (findBestInitialCarrier_best (bumpAttempts seed0) (carriers st) ctx) as Hbest.
  unfold findBestInitialCarrier. unfold BestSoFar in Hbest.
  destruct (fst (scanCarriers (bumpAttempts seed0) ctx (carriers st) 0 (None, None)))
    as [o|].
  - destruct Hbest as (c & ts & Hc & Hts & _ & Hopen & _ & _ & _).
    unfold seedSlotOpen in Hopen. apply andb_true_iff in Hopen. destruct Hopen as [Hfree _].
    apply Z.ltb_lt in Hfree.
    destruct (growLoop _ ctx _ pool) as [currentRoute pool1].
    destruct (Qlt_bool _ _); cbn [routes carriers].
    + split; [apply Forall2_refl, carrierGrows_refl|reflexivity].
    + destruct (@useSlot_grows (carriers st) (optCarrier o) (optTimeSlot o) c ts Hc Hts Hfree)
        as [Hg Hu].
      split; [exact Hg|]. rewrite Hu, length_app. cbn [List.length]. lia.
  - cbn [routes carriers]. split; [apply Forall2_refl, carrierGrows_refl|reflexivity].
Qed.

Lemma pfAttempt_used ctx c slot st :
  let st' := pfAttempt ctx c slot st in
  exists created,
    routesCreated st' = routesCreated st ++ created
    /\ pfUsed st' = (pfUsed st + Z.of_nat (List.length created))%Z
    /\ (List.length created <= 1)%nat
    /\ forall r, In r created ->
         carrier r = c /\ time r = slot
         /\ notes r = "Pull Forward Request"%string
         /\ inject_Z (pfRelaxedMinimum ctx) <= totalPallets r.
Proof.
  cbn zeta. unfold pfAttempt.
  destruct (Qle_bool _ _) eqn:Emin; cbn [routesCreated pfUsed].
  - eexists [_]. split; [reflexivity|]. split; [cbn; lia|]. split; [cbn; lia|].
    intros r [<-|[]]. cbn [carrier time notes totalPallets].
    apply Qle_bool_iff in Emin. auto.
  - exists []. rewrite app_nil_r. split; [reflexivity|]. split; [cbn; lia|].
    split; [cbn; lia|]. intros r [].
Qed.

Lemma pfIter_used ctx c slot n :
  forall st,
    let st' := Nat.iter n (pfAttempt ctx c slot) st in
    exists created,
      routesCreated st' = routesCreated st ++ created
      /\ pfUsed st' = (pfUsed st + Z.of_nat (List.length created))%Z
      /\ (List.length created <= n)%nat
      /\ forall r, In r created ->
           carrier r = c /\ time r = slot
           /\ notes r = "Pull Forward Request"%string
           /\ inject_Z (pfRelaxedMinimum ctx) <= totalPallets r.
Proof.
  induction n as [|n IH]; intro st; cbn zeta.
  - exists []. cbn [Nat.iter]. rewrite app_nil_r.
    split; [reflexivity|]. split; [cbn; lia|]. split; [cbn; lia|]. intros r [].
  - rewrite Nat.iter_succ.
    destruct (IH st) as (cr1 & E1 & U1 & L1 & Q1).
    destruct (pfAttempt_used ctx c slot (Nat.iter n (pfAttempt ctx c slot) st))
      as (cr2 & E2 & U2 & L2 & Q2).
    exists (cr1 ++ cr2). rewrite E2, E1, U2, U1, <- app_assoc, length_app.
    split; [reflexivity|]. split; [lia|]. split; [lia|].
    intros r Hr. apply in_app_or in Hr. destruct Hr; auto.
Qed.

(** What the pull-forward pass has done to an accumulator of routes. *)
Lemma pfSlot_used ctx c pool created done ts :
  exists pool' new ts',
    pfSlot ctx c (pool, created, done) ts = (pool', created ++ new, done ++ [ts'])
    /\ slotGrows ts ts'
    /\ used ts' = (used ts + Z.of_nat (List.length new))%Z
    /\ forall r, In r new ->
         carrier r = c /\ time r = slotTime ts
         /\ notes r = "Pull Forward Request"%string
         /\ inject_Z (pfRelaxedMinimum ctx) <= totalPallets r.
Proof.
  unfold pfSlot. destruct (Z.ltb (used ts) (capacity ts)) eqn:Efree.
  - apply Z.ltb_lt in Efree.
    destruct (pfIter_used ctx c (slotTime ts) (Z.to_nat (capacity ts - used ts))
                (mkPfState pool created (used ts))) as (new & E & U & L & Q).
    cbn zeta in *. cbn [routesCreated pfUsed] in *.
    eexists _, new, _. rewrite E. split; [reflexivity|].
    split; [|split; [exact U|exact Q]].
    unfold slotGrows. cbn [slotTime capacity used]. rewrite U.
    repeat split; lia.
  - exists pool, [], ts. rewrite app_nil_r. split; [reflexivity|].
    split; [apply slotGrows_refl|]. split; [cbn; lia|]. intros r [].
Qed.

Lemma pfSlots_used ctx c slots :
  forall pool created done,
    exists pool' new slots',
      fold_left (pfSlot ctx c) slots (pool, created, done)
      = (pool', created ++ new, done ++ slots')
      /\ Forall2 slotGrows slots slots'
      /\ sumUsed slots' = (sumUsed slots + Z.of_nat (List.length new))%Z
      /\ forall r, In r new ->
           carrier r = c /\ In (time r) (map slotTime slots)
           /\ notes r = "Pull Forward Request"%string
           /\ inject_Z (pfRelaxedMinimum ctx) <= totalPallets r.
Proof.
  induction slots as [|ts slots IH]; intros pool created done.
  - exists pool, [], []. cbn [fold_left]. rewrite !app_nil_r.
    split; [reflexivity|]. split; [constructor|]. split; [reflexivity|]. intros r [].
  - cbn [fold_left].
    destruct (pfSlot_used ctx c pool created done ts) as (pool1 & new1 & ts' & E1 & G1 & U1 & Q1).
    rewrite E1.
    destruct (IH pool1 (created ++ new1) (done ++ [ts'])) as (pool2 & new2 & slots' & E2 & G2 & U2 & Q2).
    rewrite E2. exists pool2, (new1 ++ new2), (ts' :: slots').
    rewrite <- !app_assoc. split; [reflexivity|].
    split; [constructor; assumption|].
    split; [cbn [sumUsed fold_right]; fold (sumUsed slots'); fold (sumUsed slots);
            rewrite U2, U1, length_app; lia|].
    intros r Hr. apply in_app_or in Hr. destruct Hr as [Hr|Hr].
    + destruct (Q1 r Hr) as (Hc & Ht & Hn & Hp). cbn [map In]. auto.
    + destruct (Q2 r Hr) as (Hc & Ht & Hn & Hp). cbn [map In]. auto.
Qed.

Lemma pfCarrier_used ctx pool created done c :
  exists pool' new c',
    pfCarrier ctx (pool, created, done) c = (pool', created ++ new, done ++ [c'])
    /\ carrierGrows c c'
    /\ usedBy c' = (usedBy c + Z.of_nat (List.length new))%Z
    /\ forall r, In r new ->
         carrier r = c /\ In (time r) (map slotTime (timeSlots c))
         /\ notes r = "Pull Forward Request"%string
         /\ inject_Z (pfRelaxedMinimum ctx) <= totalPallets r.
Proof.
  unfold pfCarrier.
  destruct (pfSlots_used ctx c (timeSlots c) pool created []) as (pool' & new & slots' & E & G & U & Q).
  rewrite E. cbn [app]. eexists pool', new, _. split; [reflexivity|].
  split; [|split; [exact U|exact Q]].
  unfold carrierGrows. cbn [name costPerMile costPerRoute pallets36 pallets48 pallets53 timeSlots].
  repeat split; auto.
Qed.

Lemma pfCarriers_used ctx cs :
  forall pool created done,
    exists pool' new cs',
      fold_left (pfCarrier ctx) cs (pool, created, done)
      = (pool', created ++ new, done ++ cs')
      /\ Forall2 carrierGrows cs cs'
      /\ usedTotal cs' = (usedTotal cs + Z.of_nat (List.length new))%Z
      /\ forall r, In r new ->
           In (carrier r) cs /\ In (time r) (map slotTime (timeSlots (carrier r)))
           /\ notes r = "Pull Forward Request"%string
           /\ inject_Z (pfRelaxedMinimum ctx) <= totalPallets r.
Proof.
  induction cs as [|c cs IH]; intros pool created done.
  - exists pool, [], []. cbn [fold_left]. rewrite !app_nil_r.
    split; [reflexivity|]. split; [constructor|]. split; [reflexivity|]. intros r [].
  - cbn [fold_left].
    destruct (pfCarrier_used ctx pool created done c) as (pool1 & new1 & c' & E1 & G1 & U1 & Q1).
    rewrite E1.
    destruct (IH pool1 (created ++ new1) (done ++ [c'])) as (pool2 & new2 & cs' & E2 & G2 & U2 & Q2).
    rewrite E2. exists pool2, (new1 ++ new2), (c' :: cs').
    rewrite <- !app_assoc. split; [reflexivity|].
    split; [constructor; assumption|].
    split; [cbn [usedTotal fold_right]; fold (usedTotal cs'); fold (usedTotal cs);
            rewrite U2, U1, length_app; lia|].
    intros r Hr. apply in_app_or in Hr. destruct Hr as [Hr|Hr].
    + destruct (Q1 r Hr) as (Hc & Ht & Hn & Hp). rewrite Hc. cbn [In]. auto.
    + destruct (Q2 r Hr) as (Hc & Ht & Hn & Hp). cbn [In]. auto.
Qed.

Lemma utilizePullForwardRequests_appends_shape remaining cs ctx existing :
  exists created,
    pfRoutes (utilizePullForwardRequests remaining cs ctx existing) = existing ++ created
    /\ Forall2 carrierGrows cs (pfCarriers (utilizePullForwardRequests remaining cs ctx existing))
    /\ usedTotal (pfCarriers (utilizePullForwardRequests remaining cs ctx existing))
       = (usedTotal cs + Z.of_nat (List.length created))%Z.
Proof.
  unfold utilizePullForwardRequests.
  destruct (pfCarriers_used ctx cs remaining [] []) as (pool & new & cs' & E & G & U & Q).
  rewrite E. cbn [app pfRoutes pfCarriers]. exists new. auto.
Qed.

(** X12. The pull-forward pass leaves the routes it is given untouched and
    appends its new routes after them.  Every new route is on a carrier of
    the list at one of that carrier's slot times, is noted as a pull-forward
    request and carries at least [max(15, ceil(MIN_PALLETS_PER_ROUTE *
    RELAX_MIN_FACTOR))] pallets.  The carriers come back with the same names,
    costs, capacities and slots; a slot's booked count only grows, a slot
    that was within its capacity stays within it, and the booked counts grow
    in total by exactly the number of new routes. *)
Theorem utilizePullForwardRequests_appends_booked_routes :
  forall (remaining : list Shipment) (carriers : list Carrier) (ctx : Context)
         (existing : list Route),
    let pf := utilizePullForwardRequests remaining carriers ctx existing in
    exists created,
      pfRoutes pf = existing ++ created
      /\ Forall2 carrierGrows carriers (pfCarriers pf)
      /\ usedTotal (pfCarriers pf) = (usedTotal carriers + Z.of_nat (List.length created))%Z
      /\ forall r, In r created ->
           In (carrier r) carriers
           /\ In (time r) (map slotTime (timeSlots (carrier r)))
           /\ notes r = "Pull Forward Request"%string
           /\ inject_Z (Z.max 15 (Qceiling (MIN_PALLETS_PER_ROUTE ctx * RELAX_MIN_FACTOR ctx)))
              <= totalPallets r.
Proof.
  intros remaining carriers ctx existing. cbn zeta. unfold utilizePullForwardRequests.
  destruct (pfCarriers_used ctx carriers remaining [] []) as (pool & new & cs' & E & G & U & Q).
  rewrite E. cbn [app pfRoutes pfCarriers]. exists new. auto.
Qed.

Lemma proactiveStep_length ctx s acc :
  List.length (fst (proactiveStep ctx s acc)) = List.length (fst acc).
Proof.
  destruct acc as [rs kept]. unfold proactiveStep.
  destruct (hasReason s); [reflexivity|].
  destruct (bestRouteScan ctx s rs 0 None None) as [r|]; [|reflexivity].
  destruct (nth_error rs r); [|reflexivity]. cbn [fst]. apply setNth_length.
Qed.

Lemma proactiveInsert_length ctx rs pool :
  List.length (fst (proactiveInsert ctx rs pool)) = List.length rs.
Proof.
  unfold proactiveInsert. destruct rs as [|r0 rs]; [reflexivity|].
  induction pool as [|s pool IH]; [reflexivity|].
  cbn [fold_right]. rewrite proactiveStep_length. exact IH.
Qed.

Lemma planningLoop_slots ctx fuel :
  forall st res,
    planningLoop fuel ctx st = Some res ->
    Forall2 carrierGrows (carriers st) (carriersOut res)
    /\ (Z.of_nat (List.length (heldRoutes res)) - usedTotal (carriersOut res)
        <= Z.of_nat (List.length (routes st)) - usedTotal (carriers st))%Z.
Proof.
  induction fuel as [|fuel IH]; intros st res H; [discriminate|].
  cbn [planningLoop] in H.
  pose proof (proactiveInsert_length ctx (routes st) (sortByPallets (unassignedShipments st)))
    as Hlen.
  destruct (proactiveInsert ctx (routes st) (sortByPallets (unassignedShipments st)))
    as [routes1 pool]. cbn [fst] in Hlen.
  destruct (findSeed ctx [] pool) as [[[b seed] a]|].
  - destruct (seedStep_slots ctx (mkLoopState pool routes1 (carriers st) (iteration st))
                (b ++ a) seed) as [Hg Hu].
    cbn [routes carriers] in Hg, Hu.
    destruct (IH _ _ H) as [Hg' Hu'].
    split; [eapply carriersGrow_trans; eassumption|]. lia.
  - injection H as <-. unfold finishPlanning. cbn [heldRoutes carriersOut routes carriers].
    destruct (utilizePullForwardRequests_appends_shape pool (carriers st) ctx
                (match routes1 with [] => [] | _ :: _ => rebalanceRoutes routes1 ctx end))
      as (created & E & G & U).
    rewrite E, U, length_app. split; [exact G|].
    assert (Hreb : (List.length (match routes1 with
                                 | [] => []
                                 | _ :: _ => rebalanceRoutes routes1 ctx
                                 end) <= List.length routes1)%nat).
    { destruct routes1 as [|r0 rs]; [cbn; lia|].
      apply (RebalanceMoves_facts (rebalanceLoop_moves ctx MAX_REBALANCE_ITERATIONS (r0 :: rs))). }
    lia.
Qed.

(** X13. Bookkeeping of the carrier slots over a planning run.  The loop
    returns the carriers with the same names, costs, capacities and slots; a
    slot's booked count only grows and a slot that was within its capacity
    is never overbooked; and the loop never holds more routes than the slots
    it booked (merged routes keep their slots booked, so it may hold
    fewer). *)
Theorem runPlanningLoop_never_overbooks_a_slot :
  forall (shipments : list Shipment) (availableCarriers : list Carrier) (ctx : Context) (start : Z),
    exists res,
      runPlanningLoop shipments availableCarriers ctx start = Some res
      /\ Forall2 carrierGrows availableCarriers (carriersOut res)
      /\ (Z.of_nat (List.length (heldRoutes res))
          <= usedTotal (carriersOut res) - usedTotal availableCarriers)%Z.
Proof.
  intros shipments availableCarriers ctx start.
  destruct (runPlanningLoop_returns shipments availableCarriers ctx start) as [res Hres].
  exists res. split; [exact Hres|].
  unfold runPlanningLoop in Hres. apply planningLoop_slots in Hres.
  cbn [routes carriers List.length] in Hres. destruct Hres as [Hg Hu].
  split; [exact Hg|lia].
Qed.

(* ------------------------------------------------------------------ *)
(** ** What is left for the overflow handler *)

Lemma findSeed_none ctx pool :
  forall front, findSeed ctx front pool = None ->
                forall s, In s pool -> seedEligible ctx s = false.
Proof.
  induction pool as [|x pool IH]; intros front H s Hs; [destruct Hs|].
  cbn [findSeed] in H. destruct (seedEligible ctx x) eqn:E; [discriminate|].
  destruct Hs as [<-|Hs]; [exact E|]. eapply IH; eassumption.
Qed.

Lemma seedEligible_core ctx s s' :
  core s = core s' -> seedEligible ctx s = seedEligible ctx s'.
Proof.
  intro H. unfold seedEligible, hasReason.
  pose proof (f_equal (fun c => snd (fst c)) H) as Ha.
  pose proof (f_equal snd H) as Hr.
  cbn [core fst snd] in Ha, Hr. rewrite Ha, Hr. reflexivity.
Qed.

Lemma utilizePullForwardRequests_remaining remaining cs ctx existing s :
  In s (pfRemaining (utilizePullForwardRequests remaining cs ctx existing)) ->
  exists s0, In s0 remaining /\ core s0 = core s.
Proof.
  unfold utilizePullForwardRequests.
  pose proof (pfCarriers_perm ctx cs (remaining, [], [])) as H.
  destruct (fold_left (pfCarrier ctx) cs (remaining, [], [])) as [[pool created] cs'].
  cbn [fst snd pfRemaining] in *. unfold pfHeld in H. cbn [allStops flat_map app] in H.
  intro Hs.
  assert (Hin : In (core s) (map core remaining)).
  { apply (Permutation_in _ H). apply in_map. apply in_or_app. right. exact Hs. }
  apply in_map_iff in Hin. destruct Hin as (s0 & Hc & Hs0). exists s0. auto.
Qed.

Lemma planningLoop_exhausted ctx fuel :
  forall st res,
    planningLoop fuel ctx st = Some res ->
    forall s, In s (remainingShipments res) -> seedEligible ctx s = false.
Proof.
  induction fuel as [|fuel IH]; intros st res H; [discriminate|].
  cbn [planningLoop] in H.
  destruct (proactiveInsert ctx (routes st) (sortByPallets (unassignedShipments st)))
    as [routes1 pool].
  destruct (findSeed ctx [] pool) as [[[b seed] a]|] eqn:Eseed.
  - eapply IH. exact H.
  - injection H as <-. unfold finishPlanning. cbn [remainingShipments].
    intros s Hs. apply utilizePullForwardRequests_remaining in Hs.
    destruct Hs as (s0 & Hs0 & Hcore). rewrite <- (@seedEligible_core ctx _ _ Hcore).
    eapply findSeed_none; eassumption.
Qed.

(** X14. Nothing is handed to the overflow handler before the planner gave
    up on it: every shipment in the list the planning loop returns either
    carries a failure reason or has reached [MAX_PLANNING_ATTEMPTS] seed
    attempts. *)
Theorem runPlanningLoop_remaining_shipments_are_exhausted :
  forall (shipments : list Shipment) (availableCarriers : list Carrier) (ctx : Context)
         (start : Z),
    exists res,
      runPlanningLoop shipments availableCarriers ctx start = Some res
      /\ forall s, In s (remainingShipments res) ->
           failureReason s <> None \/ (MAX_PLANNING_ATTEMPTS ctx <= attempts s)%Z.
Proof.
  intros shipments availableCarriers ctx start.
  destruct (runPlanningLoop_returns shipments availableCarriers ctx start) as [res Hres].
  exists res. split; [exact Hres|]. intros s Hs.
  unfold runPlanningLoop in Hres.
  pose proof (@planningLoop_exhausted ctx _ _ _ Hres s Hs) as He.
  unfold seedEligible, hasReason in He. apply andb_false_iff in He.
  destruct He as [He|He].
  - right. apply Z.ltb_ge in He. exact He.
  - left. destruct (failureReason s); [discriminate|discriminate].
Qed.

(* ------------------------------------------------------------------ *)
(** ** Reading the shipment sheet *)

Lemma string_length_append a b :
  String.length (a ++ b) = (String.length a + String.length b)%nat.
Proof.
  induction a as [|c a IH]; cbn [String.append String.length]; [reflexivity|].
  rewrite IH. reflexivity.
Qed.

Lemma append_inj_suffix a :
  forall b t t',
    String.length t = String.length t' ->
    (a ++ t)%string = (b ++ t')%string -> a = b /\ t = t'.
Proof.
  induction a as [|c a IH]; intros [|d b] t t' Hlen H; cbn [String.append] in H.
  - auto.
  - exfalso. rewrite H in Hlen. cbn [String.length] in Hlen.
    rewrite string_length_append in Hlen. lia.
  - exfalso. rewrite <- H in Hlen. cbn [String.length] in Hlen.
    rewrite string_length_append in Hlen. lia.
  - injection H as -> H. destruct (IH _ _ _ Hlen H) as [-> ->]. auto.
Qed.

Lemma categoryName_length c : String.length ("-" ++ categoryName c) = 8%nat.
Proof. destruct c; reflexivity. Qed.

Lemma categoryName_inj c c' : categoryName c = categoryName c' -> c = c'.
Proof. destruct c, c'; cbn; congruence. Qed.

Lemma shipmentKey_inj s s' :
  shipmentKey s = shipmentKey s' ->
  shStore s = shStore s' /\ shCategory s = shCategory s'.
Proof.
  unfold shipmentKey. intro H.
  apply append_inj_suffix in H; [|rewrite !categoryName_length; reflexivity].
  destruct H as [Hs Hc]. split; [exact Hs|].
  cbn [String.append] in Hc. injection Hc as Hc. apply categoryName_inj. exact Hc.
Qed.

Lemma shipmentKey_addPallets s p : shipmentKey (addPallets s p) = shipmentKey s.
Proof. reflexivity. Qed.

Lemma addShipment_keys key s agg :
  map fst (addShipment key s agg)
  = if in_dec string_dec key (map fst agg) then map fst agg else map fst agg ++ [key].
Proof.
  induction agg as [|[k old] agg IH]; [reflexivity|].
  cbn [addShipment map fst]. destruct (String.eqb_spec k key) as [->|Hne].
  - cbn [map fst]. destruct (in_dec string_dec key (key :: map fst agg)) as [_|Hn];
      [reflexivity|]. exfalso. apply Hn. left. reflexivity.
  - cbn [map fst]. rewrite IH.
    destruct (in_dec string_dec key (map fst agg)) as [Hin|Hnin];
      destruct (in_dec string_dec key (k :: map fst agg)) as [Hin'|Hnin']; try reflexivity.
    + exfalso. apply Hnin'. right. exact Hin.
    + exfalso. destruct Hin' as [E|Hin']; [congruence|contradiction].
Qed.

Lemma addShipment_In key s agg k' s' :
  In (k', s') (addShipment key s agg) ->
  In (k', s') agg
  \/ (k' = key /\ s' = s)
  \/ (k' = key /\ exists old, In (key, old) agg /\ s' = addPallets old (shPallets s)).
Proof.
  induction agg as [|[k old] agg IH]; cbn [addShipment].
  - intros [H|[]]. injection H as <- <-. right. left. auto.
  - destruct (String.eqb_spec k key) as [->|Hne].
    + intros [H|H].
      * injection H as <- <-. right. right. split; [reflexivity|].
        exists old. split; [left; reflexivity|reflexivity].
      * left. right. exact H.
    + intros [H|H].
      * left. left. exact H.
      * destruct (IH H) as [Hin|[Hnew|(Hk & old' & Hold & Hs')]].
        -- left. right. exact Hin.
        -- right. left. exact Hnew.
        -- right. right. split; [exact Hk|]. exists old'. split; [right; exact Hold|exact Hs'].
Qed.

Lemma palletsOf_app st c l l' :
  palletsOf st c (l ++ l') == palletsOf st c l + palletsOf st c l'.
Proof.
  induction l as [|s l IH].
  - cbn [app]. unfold palletsOf at 2. cbn [fold_right]. lra.
  - cbn [app]. unfold palletsOf at 1 2. cbn [fold_right].
    fold (palletsOf st c (l ++ l')). fold (palletsOf st c l).
    destruct (andb (String.eqb (shStore s) st) (Category_eqb (shCategory s) c));
      rewrite IH; lra.
Qed.

Lemma palletsOf_addShipment st c s agg :
  (forall k x, In (k, x) agg -> k = shipmentKey x) ->
  palletsOf st c (map snd (addShipment (shipmentKey s) s agg))
  == palletsOf st c (map snd agg) + palletsOf st c [s].
Proof.
  intro Hkeys.
  assert (Hone : palletsOf st c [s]
                 == if (String.eqb (shStore s) st && Category_eqb (shCategory s) c)%bool
                    then shPallets s else 0).
  { unfold palletsOf. cbn [fold_right]. destruct (andb _ _); lra. }
  set (ps := palletsOf st c [s]) in *.
  induction agg as [|[k old] agg IH]; cbn [addShipment map snd].
  - change (palletsOf st c []) with 0. subst ps. lra.
  - assert (IH' := IH (fun k' x H => Hkeys k' x (or_intror H))).
    destruct (String.eqb_spec k (shipmentKey s)) as [E|Hne].
    + cbn [map snd palletsOf fold_right]. fold (palletsOf st c (map snd agg)).
      rewrite (Hkeys k old (or_introl eq_refl)) in E.
      apply shipmentKey_inj in E. destruct E as [Es Ec].
      cbn [addPallets shStore shCategory shPallets]. rewrite Es, Ec.
      destruct (andb (String.eqb (shStore s) st) (Category_eqb (shCategory s) c)); lra.
    + cbn [map snd palletsOf fold_right].
      fold (palletsOf st c (map snd (addShipment (shipmentKey s) s agg))).
      fold (palletsOf st c (map snd agg)).
      destruct (andb (String.eqb (shStore old) st) _); rewrite IH'; lra.
Qed.

(** What the aggregation keeps while it walks the rows; [seen] lists the
    valid rows so far. *)
Lemma aggregate_invariant numberText parseFloatText cols productTypeMap rows :
  forall agg seen,
    map fst agg = uniq (map shipmentKey seen) ->
    (forall k x, In (k, x) agg -> k = shipmentKey x) ->
    (forall st c, palletsOf st c (map snd agg) == palletsOf st c seen) ->
    let agg' := fold_left (aggregateRow numberText parseFloatText cols productTypeMap)
                          rows agg in
    let seen' := seen ++ shipmentRows numberText parseFloatText cols productTypeMap rows in
    map fst agg' = uniq (map shipmentKey seen')
    /\ (forall k x, In (k, x) agg' -> k = shipmentKey x)
    /\ (forall st c, palletsOf st c (map snd agg') == palletsOf st c seen').
Proof.
  induction rows as [|row rows IH]; intros agg seen Hk He Hp; cbn zeta.
  - cbn [fold_left shipmentRows flat_map]. rewrite app_nil_r. auto.
  - cbn [fold_left shipmentRows flat_map].
    fold (shipmentRows numberText parseFloatText cols productTypeMap rows).
    change (aggregateRow numberText parseFloatText cols productTypeMap agg row)
      with (match readShipmentRow numberText parseFloatText cols productTypeMap row with
            | Some s => addShipment (shipmentKey s) s agg
            | None => agg
            end).
    destruct (readShipmentRow numberText parseFloatText cols productTypeMap row) as [s|].
    + rewrite app_assoc. apply IH.
      * rewrite addShipment_keys, map_app. cbn [map]. rewrite uniq_snoc, Hk.
        destruct (in_dec string_dec (shipmentKey s) (uniq (map shipmentKey seen)))
          as [Hin|Hnin];
          destruct (in_dec string_dec (shipmentKey s) (map shipmentKey seen))
          as [Hin'|Hnin']; try reflexivity.
        -- exfalso. apply Hnin'. apply uniq_In. exact Hin.
        -- exfalso. apply Hnin. apply uniq_In. exact Hin'.
      * intros k x Hin. apply addShipment_In in Hin.
        destruct Hin as [Hin|[[-> ->]|(-> & old & Hold & ->)]].
        -- apply He. exact Hin.
        -- reflexivity.
        -- rewrite shipmentKey_addPallets. apply He. exact Hold.
      * intros st c. rewrite (palletsOf_addShipment st c s agg He), palletsOf_app, Hp.
        reflexivity.
    + cbn [app]. apply IH; assumption.
Qed.

Lemma readShipmentRow_valid numberText parseFloatText cols productTypeMap row s :
  readShipmentRow numberText parseFloatText cols productTypeMap row = Some s ->
  shStore s <> ""%string /\ shCategory s <> Produce.
Proof.
  unfold readShipmentRow. cbn zeta.
  destruct (parseFloatCell parseFloatText _) as [pallets|]; [|discriminate].
  destruct (orb _ _) eqn:E; [discriminate|].
  destruct (String.eqb _ "standby"); [discriminate|].
  intro H. injection H as <-. cbn [shStore shCategory].
  apply orb_false_iff in E. destruct E as [E _]. split.
  - apply isEmpty_false. exact E.
  - unfold categoryOfPalletType. destruct (orb _ _); [discriminate|].
    destruct (orb _ _); discriminate.
Qed.

(** X18. Aggregation of the shipment sheet.  With the required columns
    present, [getShipments] returns at most one shipment per store and
    category, in the order in which the store-category pairs first appear
    among the valid rows; for every store and category the pallets of that
    shipment are the sum over the valid rows of that pair; every shipment
    has a non-empty store and a category among Ambient, Chiller and Freezer
    (never Produce).  A sheet that is missing, has no data row, or lacks a
    required column gives no shipment. *)
Theorem getShipments_aggregates_by_store_and_category :
  forall (numberText : Q -> string) (parseFloatText : string -> option Q)
         (productTypeMap : string -> option string)
         (headers : list Cell) (row : list Cell) (rows : list (list Cell)),
    getShipments numberText parseFloatText productTypeMap None = []
    /\ getShipments numberText parseFloatText productTypeMap (Some [headers]) = []
    /\ match shipmentColumns headers with
       | None =>
           getShipments numberText parseFloatText productTypeMap (Some (headers :: row :: rows))
           = []
       | Some cols =>
           let out := getShipments numberText parseFloatText productTypeMap
                        (Some (headers :: row :: rows)) in
           let valid := shipmentRows numberText parseFloatText cols productTypeMap
                          (row :: rows) in
           NoDup (map (fun s => (shStore s, shCategory s)) out)
           /\ map shipmentKey out = uniq (map shipmentKey valid)
           /\ (forall st c, palletsOf st c out == palletsOf st c valid)
           /\ (forall s, In s out -> shStore s <> ""%string /\ shCategory s <> Produce)
       end.
Proof.
  intros numberText parseFloatText productTypeMap headers row rows.
  split; [reflexivity|]. split; [reflexivity|].
  unfold getShipments. destruct (shipmentColumns headers) as [cols|]; [|reflexivity].
  cbn zeta.
  destruct (@aggregate_invariant numberText parseFloatText cols productTypeMap (row :: rows)
              [] [] eq_refl) as (Hk & He & Hp).
  { intros k x []. }
  { intros st c. reflexivity. }
  cbn [app] in Hk, Hp.
  set (agg := fold_left (aggregateRow numberText parseFloatText cols productTypeMap)
                (row :: rows) []) in *.
  assert (Hkeys : map shipmentKey (map snd agg) = map fst agg).
  { rewrite map_map. apply map_ext_in. intros [k x] Hin. cbn [fst snd].
    symmetry. apply He. exact Hin. }
  split; [|split; [|split]].
  - assert (Hnd : NoDup (map shipmentKey (map snd agg)))
      by (rewrite Hkeys, Hk; apply uniq_NoDup).
    revert Hnd. generalize (map snd agg) as out. intros out.
    induction out as [|s out IH]; intro Hnd; [constructor|].
    cbn [map] in *. inversion Hnd as [|? ? Hnotin Hnd']; subst. constructor; [|apply IH; exact Hnd'].
    intro Hin. apply Hnotin. apply in_map_iff in Hin.
    destruct Hin as (s' & Heq & Hs'). apply in_map_iff. exists s'. split; [|exact Hs'].
    unfold shipmentKey. injection Heq as -> ->. reflexivity.
  - rewrite Hkeys. exact Hk.
  - exact Hp.
  - intros s Hs.
    assert (Hin : In (shipmentKey s) (map shipmentKey
                    (shipmentRows numberText parseFloatText cols productTypeMap (row :: rows)))).
    { apply uniq_In. rewrite <- Hk, <- Hkeys. apply in_map. exact Hs. }
    apply in_map_iff in Hin. destruct Hin as (v & Hkey & Hv).
    apply shipmentKey_inj in Hkey. destruct Hkey as [Hst Hc]. rewrite <- Hst, <- Hc.
    unfold shipmentRows in Hv. apply in_flat_map in Hv. destruct Hv as (r & _ & Hv).
    destruct (readShipmentRow numberText parseFloatText cols productTypeMap r) as [x|] eqn:E;
      [|destruct Hv].
    destruct Hv as [<-|[]]. eapply readShipmentRow_valid. exact E.
Qed.

(* ------------------------------------------------------------------ *)
(** ** The first stop of a route is weighed twice *)

Lemma check_capacity_nonzero shipment route ctx score :
  checkAndScoreInsertion shipment route ctx = Some score ->
  ~ capacityFor (carrier route)
      (getRequiredTrailerSize (time route) (stops route ++ [shipment]) (restrictions ctx)) == 0.
Proof.
  unfold checkAndScoreInsertion. cbn zeta.
  destruct (Str.isEmpty (warehouse ctx)); [discriminate|].
  destruct (Z.ltb _ _); [discriminate|].
  destruct (negb (tempCheck ctx _)); [discriminate|].
  destruct (windowRejects ctx shipment (time route)); [discriminate|].
  destruct (orb (Qeq_bool _ 0) _) eqn:E4; [discriminate|].
  intros _ Hzero. apply Bool.orb_false_elim in E4. destruct E4 as [E4 _].
  apply Qeq_bool_iff in Hzero. rewrite Hzero in E4. discriminate.
Qed.

Lemma seedSlotOpen_room shipment ctx c ts :
  seedSlotOpen shipment ctx c ts = true ->
  let capacity :=
    capacityFor c (getRequiredTrailerSize (slotTime ts) [shipment] (restrictions ctx)) in
  ~ capacity == 0
  /\ pallets shipment + pallets shipment <= capacity * OVERPLAN_FACTOR ctx.
Proof.
  unfold seedSlotOpen. intro H. apply Bool.andb_true_iff in H. destruct H as [_ H].
  destruct (checkAndScoreInsertion _ _ _) as [score|] eqn:Echeck; [|discriminate].
  cbn zeta. split.
  - exact (check_capacity_nonzero _ _ _ Echeck).
  - exact (check_capacity _ _ _ Echeck).
Qed.

(** X19. A seed is weighed twice.  [findBestInitialCarrier] hands the scorer
    an empty route that already carries the shipment's pallets as its total,
    so the slot it returns is one whose trailer (the size required for the
    shipment alone at the slot's time) has a capacity that is not zero and
    holds the shipment's pallets twice within the overplan factor; when no
    slot of any carrier has that much room it returns nothing. *)
Theorem findBestInitialCarrier_needs_room_for_the_shipment_twice :
  forall (shipment : Shipment) (availableCarriers : list Carrier) (ctx : Context),
    match findBestInitialCarrier shipment availableCarriers ctx with
    | Some o =>
        exists c ts,
          nth_error availableCarriers (optCarrier o) = Some c
          /\ nth_error (timeSlots c) (optTimeSlot o) = Some ts
          /\ ~ capacityFor c (getRequiredTrailerSize (slotTime ts) [shipment]
                                (restrictions ctx)) == 0
          /\ pallets shipment + pallets shipment
             <= capacityFor c (getRequiredTrailerSize (slotTime ts) [shipment]
                                 (restrictions ctx))
                * OVERPLAN_FACTOR ctx
    | None => True
    end
    /\ ((forall c ts,
            In c availableCarriers -> In ts (timeSlots c) ->
            capacityFor c (getRequiredTrailerSize (slotTime ts) [shipment] (restrictions ctx))
            * OVERPLAN_FACTOR ctx
            < pallets shipment + pallets shipment) ->
        findBestInitialCarrier shipment availableCarriers ctx = None).
Proof.
  intros shipment availableCarriers ctx.
  pose proof (findBestInitialCarrier_best shipment availableCarriers ctx) as Hbest.
  unfold findBestInitialCarrier. unfold BestSoFar in Hbest.
  destruct (fst (scanCarriers shipment ctx availableCarriers 0 (None, None))) as [o|].
  - destruct Hbest as (c & ts & Hc & Hts & _ & Hopen & _).
    destruct (seedSlotOpen_room _ _ _ _ Hopen) as [Hnz Hroom].
    split.
    + exists c, ts. split; [exact Hc|]. split; [exact Hts|]. split; [exact Hnz|exact Hroom].
    + intro Hall. exfalso.
      pose proof (Hall c ts (nth_error_In _ _ Hc) (nth_error_In _ _ Hts)) as Hlt.
      lra.
  - split; [exact I|]. intros _. reflexivity.
Qed.

(* ------------------------------------------------------------------ *)
(** ** Pull-forward routes keep room for their last stop *)

Lemma pfScan_room ctx c slot rest :
  forall skipped potential total extr,
    ((potential = [] /\ total = 0)
     \/ roomForLastStopAgain ctx (mkRoute c slot potential total "" "" 0 "")) ->
    let r := pfScan ctx c slot skipped rest potential total extr in
    (potentialStops r = [] /\ pfPallets r = 0)
    \/ roomForLastStopAgain ctx (mkRoute c slot (potentialStops r) (pfPallets r) "" "" 0 "").
Proof.
  induction rest as [|s rest IH]; intros skipped potential total extr Hinv; cbn zeta.
  - exact Hinv.
  - cbn [pfScan].
    destruct (Qlt_bool total _); [|exact Hinv].
    destruct (checkAndScoreInsertion _ _ _) as [score|] eqn:Echeck.
    + apply IH. right.
      pose proof (check_capacity _ _ _ Echeck) as Hcap.
      pose proof (check_capacity_nonzero _ _ _ Echeck) as Hnz.
      cbn [stops totalPallets time carrier] in Hcap, Hnz.
      assert (Hin : In s (potential ++ [s])) by (apply in_or_app; right; left; reflexivity).
      rewrite trailer_drop_repeat in Hcap, Hnz by exact Hin.
      assert (Htr : getRequiredTrailerSize slot (potential ++ [setFailures s 0]) (restrictions ctx)
                    = getRequiredTrailerSize slot (potential ++ [s]) (restrictions ctx)).
      { unfold getRequiredTrailerSize. rewrite !map_app. reflexivity. }
      exists potential, (setFailures s 0).
      unfold routeCapacity. cbn [stops totalPallets time carrier].
      rewrite Htr. split; [reflexivity|]. split; [exact Hnz|exact Hcap].
    + apply IH. exact Hinv.
Qed.

Lemma roomForLastStopAgain_view ctx r r' :
  roomForLastStopAgain ctx r ->
  carrier r' = carrier r -> time r' = time r -> stops r' = stops r ->
  totalPallets r' = totalPallets r ->
  roomForLastStopAgain ctx r'.
Proof.
  intros (front & s & Hs & Hnz & Hroom) Hc Ht Hst Htot.
  exists front, s. unfold routeCapacity in *. rewrite Hc, Ht, Hst, Htot.
  split; [exact Hs|]. split; [exact Hnz|exact Hroom].
Qed.

Lemma pfAttempt_room ctx c slot st :
  Forall (roomForLastStopAgain ctx) (routesCreated st) ->
  Forall (roomForLastStopAgain ctx) (routesCreated (pfAttempt ctx c slot st)).
Proof.
  intros Hall. unfold pfAttempt.
  pose proof (@pfScan_room ctx c slot (pfPool st) [] [] 0 []
                (or_introl (conj eq_refl eq_refl))) as Hscan.
  cbn zeta in Hscan.
  destruct (Qle_bool _ _) eqn:Emin; cbn [routesCreated]; [|exact Hall].
  apply Forall_app. split; [exact Hall|]. constructor; [|constructor].
  destruct Hscan as [[_ Hzero]|Hroom].
  - exfalso. apply Qle_bool_iff in Emin. rewrite Hzero in Emin.
    unfold pfRelaxedMinimum in Emin.
    assert (Hz : (15 <= Z.max 15 (Qceiling (MIN_PALLETS_PER_ROUTE ctx * RELAX_MIN_FACTOR ctx)))%Z)
      by apply Z.le_max_l.
    rewrite Zle_Qle in Hz. change (inject_Z 15) with 15 in Hz. lra.
  - eapply roomForLastStopAgain_view; [exact Hroom|reflexivity..].
Qed.

Lemma pfIter_room ctx c slot n :
  forall st,
    Forall (roomForLastStopAgain ctx) (routesCreated st) ->
    Forall (roomForLastStopAgain ctx) (routesCreated (Nat.iter n (pfAttempt ctx c slot) st)).
Proof.
  induction n as [|n IH]; intros st Hall; [exact Hall|].
  rewrite Nat.iter_succ. apply pfAttempt_room. apply IH. exact Hall.
Qed.

Lemma pfSlot_room ctx c acc ts :
  Forall (roomForLastStopAgain ctx) (snd (fst acc)) ->
  Forall (roomForLastStopAgain ctx) (snd (fst (pfSlot ctx c acc ts))).
Proof.
  destruct acc as [[pool created] done]. cbn [fst snd]. intros Hall. unfold pfSlot.
  destruct (Z.ltb _ _); [|exact Hall].
  cbn [fst snd].
  apply (@pfIter_room ctx c (slotTime ts) _ (mkPfState pool created (used ts))). exact Hall.
Qed.

Lemma pfSlots_room ctx c slots :
  forall acc,
    Forall (roomForLastStopAgain ctx) (snd (fst acc)) ->
    Forall (roomForLastStopAgain ctx) (snd (fst (fold_left (pfSlot ctx c) slots acc))).
Proof.
  induction slots as [|ts slots IH]; intros acc Hall; [exact Hall|].
  cbn [fold_left]. apply IH. apply pfSlot_room. exact Hall.
Qed.

Lemma pfCarrier_room ctx acc c :
  Forall (roomForLastStopAgain ctx) (snd (fst acc)) ->
  Forall (roomForLastStopAgain ctx) (snd (fst (pfCarrier ctx acc c))).
Proof.
  destruct acc as [[pool created] done]. cbn [fst snd]. intros Hall. unfold pfCarrier.
  pose proof (@pfSlots_room ctx c (timeSlots c) (pool, created, []) Hall) as H.
  destruct (fold_left (pfSlot ctx c) (timeSlots c) (pool, created, []))
    as [[pool' created'] slots'].
  exact H.
Qed.

Lemma pfCarriers_room ctx cs :
  forall acc,
    Forall (roomForLastStopAgain ctx) (snd (fst acc)) ->
    Forall (roomForLastStopAgain ctx) (snd (fst (fold_left (pfCarrier ctx) cs acc))).
Proof.
  induction cs as [|c cs IH]; intros acc Hall; [exact Hall|].
  cbn [fold_left]. apply IH. apply pfCarrier_room. exact Hall.
Qed.

(** X20. Every stop of a pull-forward route is weighed twice.
    [utilizePullForwardRequests] hands the scorer a route that already holds
    the candidate, so each route it creates ends with a stop whose pallets
    would fit on the route's trailer once more: the stored total plus the
    pallets of the last stop is within the trailer capacity times the
    overplan factor, and that capacity is not zero. *)
Theorem utilizePullForwardRequests_routes_keep_room_for_their_last_stop :
  forall (remaining : list Shipment) (availableCarriers : list Carrier) (ctx : Context)
         (existing : list Route),
    exists created,
      pfRoutes (utilizePullForwardRequests remaining availableCarriers ctx existing)
      = existing ++ created
      /\ forall r, In r created ->
           exists front s,
             stops r = front ++ [s]
             /\ ~ routeCapacity r ctx == 0
             /\ totalPallets r + pallets s <= routeCapacity r ctx * OVERPLAN_FACTOR ctx.
Proof.
  intros remaining availableCarriers ctx existing. unfold utilizePullForwardRequests.
  pose proof (@pfCarriers_room ctx availableCarriers (remaining, [], []) (Forall_nil _)) as H.
  destruct (fold_left (pfCarrier ctx) availableCarriers (remaining, [], []))
    as [[pool created] cs'].
  cbn [fst snd pfRoutes] in *. exists created. split; [reflexivity|].
  intros r Hr. exact (proj1 (Forall_forall _ _) H r Hr).
Qed.

(* ------------------------------------------------------------------ *)
(** ** The distance matrix sheet and the direction finder *)

Lemma setLeg_same matrix from to leg : setLeg matrix from to leg from to = Some leg.
Proof. unfold setLeg. rewrite !String.eqb_refl. reflexivity. Qed.

Lemma setLeg_other matrix from to leg a b :
  (a, b) <> (from, to) -> setLeg matrix from to leg a b = matrix a b.
Proof.
  intro Hne. unfold setLeg.
  destruct (String.eqb_spec a from) as [->|]; [|reflexivity].
  destruct (String.eqb_spec b to) as [->|]; [|reflexivity].
  exfalso. apply Hne. reflexivity.
Qed.

Lemma pair_eq_dec (a b from to : string) :
  {a = from /\ b = to} + {(a, b) <> (from, to)}.
Proof.
  destruct (string_dec a from) as [->|Ha].
  - destruct (string_dec b to) as [->|Hb].
    + left. auto.
    + right. intro E. apply Hb. congruence.
  - right. intro E. apply Ha. congruence.
Qed.

Lemma snoc_split_last {A} (l pre post : list A) (r row : A) :
  l ++ [r] = pre ++ row :: post ->
  (post = [] /\ l = pre /\ r = row)
  \/ exists post', post = post' ++ [r] /\ l = pre ++ row :: post'.
Proof.
  intro E. destruct post as [|p post] using rev_ind.
  - left. apply app_inj_tail in E. destruct E as [-> ->]. auto.
  - right. clear IHpost. exists post.
    change (pre ++ row :: post ++ [p]) with (pre ++ (row :: post) ++ [p]) in E.
    rewrite app_assoc in E. apply app_inj_tail in E. destruct E as [-> ->]. auto.
Qed.

Lemma sheet_lookup numberText parseFloatText cols rows a b l :
  fold_left (readMatrixRow numberText parseFloatText cols) rows (fun _ _ => None) a b = Some l
  <-> exists pre row post,
        rows = pre ++ row :: post
        /\ rowKeys numberText cols row = Some (a, b)
        /\ rowLeg parseFloatText cols row = l
        /\ Forall (fun r => rowKeys numberText cols r <> Some (a, b)) post.
Proof.
  revert l. induction rows as [|r rows IH] using rev_ind; intro l.
  - cbn [fold_left]. split; [discriminate|].
    intros (pre & row & post & E & _). destruct pre; discriminate.
  - rewrite fold_left_app. cbn [fold_left]. unfold readMatrixRow at 1.
    destruct (rowKeys numberText cols r) as [[from to]|] eqn:Ekeys.
    + destruct (pair_eq_dec a b from to) as [[-> ->]|Hne].
      * rewrite setLeg_same. split.
        -- intro E. injection E as <-. exists rows, r, []. auto.
        -- intros (pre & row & post & E & Hk & Hl & Hpost).
           apply snoc_split_last in E.
           destruct E as [(-> & -> & ->)|(post' & -> & ->)].
           ++ rewrite Hl. reflexivity.
           ++ exfalso. apply Forall_app in Hpost. destruct Hpost as [_ Hr].
              inversion Hr as [|? ? Hbad _]; subst. apply Hbad. exact Ekeys.
      * rewrite setLeg_other by exact Hne. rewrite IH. split.
        -- intros (pre & row & post & -> & Hk & Hl & Hpost).
           exists pre, row, (post ++ [r]). rewrite <- app_assoc. cbn [app].
           split; [reflexivity|]. split; [exact Hk|]. split; [exact Hl|].
           apply Forall_app. split; [exact Hpost|]. constructor; [|constructor].
           rewrite Ekeys. intro E. injection E as -> ->. apply Hne. reflexivity.
        -- intros (pre & row & post & E & Hk & Hl & Hpost).
           apply snoc_split_last in E.
           destruct E as [(-> & -> & ->)|(post' & -> & ->)].
           ++ exfalso. rewrite Ekeys in Hk. injection Hk as -> ->. apply Hne. reflexivity.
           ++ exists pre, row, post'. apply Forall_app in Hpost.
              split; [reflexivity|]. split; [exact Hk|]. split; [exact Hl|apply Hpost].
    + rewrite IH. split.
      * intros (pre & row & post & -> & Hk & Hl & Hpost).
        exists pre, row, (post ++ [r]). rewrite <- app_assoc. cbn [app].
        split; [reflexivity|]. split; [exact Hk|]. split; [exact Hl|].
        apply Forall_app. split; [exact Hpost|]. constructor; [|constructor].
        rewrite Ekeys. discriminate.
      * intros (pre & row & post & E & Hk & Hl & Hpost).
        apply snoc_split_last in E.
        destruct E as [(-> & -> & ->)|(post' & -> & ->)].
        -- rewrite Ekeys in Hk. discriminate.
        -- exists pre, row, post'. apply Forall_app in Hpost.
           split; [reflexivity|]. split; [exact Hk|]. split; [exact Hl|apply Hpost].
Qed.

Lemma missingPairs_In matrix stores a b :
  In (a, b) (missingPairs matrix stores)
  <-> In a stores /\ In b stores /\ matrix a b = None /\ a <> b.
Proof.
  unfold missingPairs. rewrite in_flat_map. split.
  - intros (from & Hfrom & Hin). apply in_flat_map in Hin. destruct Hin as (to & Hto & Hin).
    destruct (matrix from to) eqn:Em; [destruct Hin|].
    destruct (String.eqb_spec from to) as [|Hne]; [destruct Hin|].
    destruct Hin as [E|[]]. injection E as <- <-. auto.
  - intros (Ha & Hb & Hm & Hne). exists a. split; [exact Ha|].
    apply in_flat_map. exists b. split; [exact Hb|]. rewrite Hm.
    destruct (String.eqb_spec a b) as [|_]; [contradiction|]. left. reflexivity.
Qed.

Section Directions.

Variable directions : nat -> string -> string -> option (Q * Q).
Variable addressData : AddressData.
Variable sheet : DistanceMatrix.

Lemma askDirections_inv (known : string -> string -> Leg -> Prop) pairs :
  (forall a b fromAdr toAdr n meters seconds,
      In (a, b) pairs ->
      addressLine addressData a = Some fromAdr -> addressLine addressData b = Some toAdr ->
      directions n fromAdr toAdr = Some (meters, seconds) ->
      known a b (directionsLeg meters seconds)) ->
  forall ps acc,
    incl ps pairs ->
    (forall a b l, fst acc a b = Some l -> sheet a b = Some l \/ known a b l) ->
    forall a b l,
      fst (fold_left (askDirections directions addressData) ps acc) a b = Some l ->
      sheet a b = Some l \/ known a b l.
Proof.
  intros Hknown. induction ps as [|[from to] ps IH]; intros acc Hincl Hacc; [exact Hacc|].
  cbn [fold_left]. apply IH.
  - intros p Hp. apply Hincl. right. exact Hp.
  - destruct acc as [matrix requests]. unfold askDirections. cbn [fst snd].
    destruct (addressLine addressData from) as [fromAdr|] eqn:Ef; [|exact Hacc].
    destruct (addressLine addressData to) as [toAdr|] eqn:Et; [|exact Hacc].
    destruct (directions requests fromAdr toAdr) as [[meters seconds]|] eqn:Ed; [|exact Hacc].
    cbn [fst]. intros a b l Hl.
    destruct (pair_eq_dec a b from to) as [[-> ->]|Hne].
    + rewrite setLeg_same in Hl. injection Hl as <-. right.
      eapply Hknown; [apply Hincl; left; reflexivity|eassumption..].
    + rewrite setLeg_other in Hl by exact Hne. apply Hacc. exact Hl.
Qed.

Lemma askDirections_keeps pairs :
  (forall a b, In (a, b) pairs -> sheet a b = None) ->
  forall ps acc,
    incl ps pairs ->
    extends sheet (fst acc) ->
    extends sheet (fst (fold_left (askDirections directions addressData) ps acc)).
Proof.
  intros Hmissing. induction ps as [|[from to] ps IH]; intros acc Hincl Hacc; [exact Hacc|].
  cbn [fold_left]. apply IH.
  - intros p Hp. apply Hincl. right. exact Hp.
  - destruct acc as [matrix requests]. unfold askDirections. cbn [fst snd].
    destruct (addressLine addressData from) as [fromAdr|]; [|exact Hacc].
    destruct (addressLine addressData to) as [toAdr|]; [|exact Hacc].
    destruct (directions requests fromAdr toAdr) as [[meters seconds]|]; [|exact Hacc].
    cbn [fst]. intros a b l Hl.
    rewrite setLeg_other; [apply Hacc; exact Hl|].
    intro E. injection E as -> ->.
    rewrite (Hmissing from to) in Hl by (apply Hincl; left; reflexivity). discriminate.
Qed.

Lemma askDirections_fills a b fromAdr toAdr :
  addressLine addressData a = Some fromAdr -> addressLine addressData b = Some toAdr ->
  (forall n, directions n fromAdr toAdr <> None) ->
  forall ps acc,
    fst acc a b <> None \/ In (a, b) ps ->
    fst (fold_left (askDirections directions addressData) ps acc) a b <> None.
Proof.
  intros Ha Hb Hans. induction ps as [|[from to] ps IH]; intros acc Hcase.
  - destruct Hcase as [H|[]]. exact H.
  - cbn [fold_left]. apply IH.
    destruct acc as [matrix requests]. unfold askDirections. cbn [fst snd] in *.
    destruct (pair_eq_dec a b from to) as [[<- <-]|Hne].
    + left. rewrite Ha, Hb.
      destruct (directions requests fromAdr toAdr) as [[meters seconds]|] eqn:Ed.
      * cbn [fst]. rewrite setLeg_same. discriminate.
      * exfalso. exact (Hans requests Ed).
    + destruct Hcase as [H|[E|Hin]].
      * left.
        destruct (addressLine addressData from); [|exact H].
        destruct (addressLine addressData to); [|exact H].
        destruct (directions requests _ _) as [[meters seconds]|]; [|exact H].
        cbn [fst]. rewrite setLeg_other by exact Hne. exact H.
      * exfalso. apply Hne. symmetry. exact E.
      * right. exact Hin.
Qed.

End Directions.

(** X21. The distance matrix.  [getDistanceMatrix] throws exactly when the
    sheet has a data row and lacks one of the columns From, To, Distance (M),
    Duration (Min).  Otherwise the sheet is read first: a pair of keys has an
    entry exactly when some row has these two truthy keys, and the entry is
    that of the last such row, an unreadable number counting as 0.  The
    result knows every entry of the sheet unchanged.  An entry that is not
    on the sheet joins two different places of the plan (a shipment's store
    or the warehouse), was answered by the direction finder for their
    addresses under a usable key, and holds the rounded miles and minutes of
    that answer; and with a usable key every such pair whose addresses are
    known and whose requests are all answered has an entry. *)
Theorem getDistanceMatrix_sheet_entries_win_and_directions_fill_gaps :
  forall (numberText : Q -> string) (parseFloatText : string -> option Q)
         (directions : nat -> string -> string -> option (Q * Q))
         (shipments : list SheetShipment) (addressData : AddressData)
         (warehouseLocation apiKey : string) (sheetData : Sheet),
    let places := uniqueStoreNumbers (map shStore shipments) warehouseLocation in
    let result := getDistanceMatrix numberText parseFloatText directions shipments addressData
                    warehouseLocation apiKey sheetData in
    (result = None
     <-> exists headers row rows,
           sheetData = Some (headers :: row :: rows) /\ matrixColumns headers = None)
    /\
    match sheetMatrix numberText parseFloatText sheetData with
    | None => result = None
    | Some sheet =>
        (forall a b l,
            sheet a b = Some l
            <-> exists headers cols pre row post,
                  sheetData = Some (headers :: pre ++ row :: post)
                  /\ matrixColumns headers = Some cols
                  /\ rowKeys numberText cols row = Some (a, b)
                  /\ rowLeg parseFloatText cols row = l
                  /\ Forall (fun r => rowKeys numberText cols r <> Some (a, b)) post)
        /\ exists matrix,
             result = Some matrix
             /\ extends sheet matrix
             /\ (forall a b l,
                    sheet a b = None -> matrix a b = Some l ->
                    a <> b /\ In a places /\ In b places /\ keyUsable apiKey = true
                    /\ exists fromAdr toAdr n meters seconds,
                         addressLine addressData a = Some fromAdr
                         /\ addressLine addressData b = Some toAdr
                         /\ directions n fromAdr toAdr = Some (meters, seconds)
                         /\ l = directionsLeg meters seconds)
             /\ (keyUsable apiKey = true ->
                 forall a b fromAdr toAdr,
                   In a places -> In b places -> a <> b ->
                   addressLine addressData a = Some fromAdr ->
                   addressLine addressData b = Some toAdr ->
                   (forall n, directions n fromAdr toAdr <> None) ->
                   matrix a b <> None)
    end.
Proof.
  intros numberText parseFloatText directions shipments addressData warehouseLocation apiKey
         sheetData places result.
  split.
  { subst result. unfold getDistanceMatrix. split.
    - destruct (sheetMatrix numberText parseFloatText sheetData) as [sheet|] eqn:Esheet.
      + destruct (missingPairs sheet _); [discriminate|].
        destruct (keyUsable apiKey); discriminate.
      + intros _. unfold sheetMatrix in Esheet.
        destruct sheetData as [[|headers [|row rows]]|]; try discriminate.
        destruct (matrixColumns headers) eqn:Ecols; [discriminate|].
        exists headers, row, rows. auto.
    - intros (headers & row & rows & -> & Hcols). unfold sheetMatrix. rewrite Hcols.
      reflexivity. }
  destruct (sheetMatrix numberText parseFloatText sheetData) as [sheet|] eqn:Esheet.
  - split.
    + (* the sheet *)
      intros a b l. unfold sheetMatrix in Esheet.
      destruct sheetData as [[|headers [|row rows]]|].
      * injection Esheet as <-. split; [discriminate|].
        intros (h & c & pre & r & post & E & _). discriminate.
      * injection Esheet as <-. split; [discriminate|].
        intros (h & c & pre & r & post & E & _). injection E as _ E. destruct pre; discriminate.
      * destruct (matrixColumns headers) as [cols|] eqn:Ecols; [|discriminate].
        injection Esheet as <-.
        pose proof (sheet_lookup numberText parseFloatText cols (row :: rows) a b l) as Hlook.
        split.
        -- intro H. apply Hlook in H. destruct H as (pre & r & post & E & Hk & Hl & Hpost).
           exists headers, cols, pre, r, post. rewrite E. auto.
        -- intros (h & c & pre & r & post & E & Hc & Hk & Hl & Hpost).
           injection E as <- E. rewrite Ecols in Hc. injection Hc as <-.
           apply Hlook. exists pre, r, post. auto.
      * injection Esheet as <-. split; [discriminate|].
        intros (h & c & pre & r & post & E & _). discriminate.
    + (* the direction finder *)
      subst result. unfold getDistanceMatrix. rewrite Esheet. fold places.
      set (pairs := missingPairs sheet places).
      assert (Hsame : forall a b l, sheet a b = None -> sheet a b = Some l -> False)
        by (intros a b l H1 H2; rewrite H1 in H2; discriminate).
      assert (Hplain :
                exists matrix,
                  Some sheet = Some matrix /\ extends sheet matrix
                  /\ forall a b l, sheet a b = None -> matrix a b = Some l -> False).
      { exists sheet. split; [reflexivity|]. split; [intros a b l H; exact H|exact Hsame]. }
      destruct (keyUsable apiKey) eqn:Ekey.
      * (* usable key *)
        exists (fst (fold_left (askDirections directions addressData) pairs (sheet, 0%nat))).
        split; [destruct pairs eqn:Ep; [|reflexivity]|].
        { cbn [fold_left fst]. reflexivity. }
        split.
        { apply (@askDirections_keeps directions addressData sheet pairs).
          - intros a b Hin. apply missingPairs_In in Hin. apply Hin.
          - apply incl_refl.
          - intros a b l H. exact H. }
        split.
        { intros a b l Hnone Hl.
          pose proof (@askDirections_inv directions addressData sheet
                        (fun a b l =>
                           In (a, b) pairs
                           /\ exists fromAdr toAdr n meters seconds,
                                addressLine addressData a = Some fromAdr
                                /\ addressLine addressData b = Some toAdr
                                /\ directions n fromAdr toAdr = Some (meters, seconds)
                                /\ l = directionsLeg meters seconds) pairs) as Hinv.
          destruct (Hinv ltac:(intros a' b' fa ta n m s Hin Hfa Hta Hd;
                               split; [exact Hin|exists fa, ta, n, m, s; auto])
                         pairs (sheet, 0%nat) (incl_refl _)
                         ltac:(intros a' b' l' H; left; exact H) a b l Hl)
            as [Hs|[Hin Hfrom]].
          - exfalso. exact (Hsame a b l Hnone Hs).
          - apply missingPairs_In in Hin. destruct Hin as (Ha & Hb & _ & Hne).
            split; [exact Hne|]. split; [exact Ha|]. split; [exact Hb|].
            split; [reflexivity|exact Hfrom]. }
        { intros _ a b fromAdr toAdr Ha Hb Hne Hfa Hta Hans.
          destruct (sheet a b) as [l|] eqn:Es.
          - pose proof (@askDirections_keeps directions addressData sheet pairs
                          ltac:(intros a' b' Hin; apply missingPairs_In in Hin; apply Hin)
                          pairs (sheet, 0%nat) (incl_refl _)
                          ltac:(intros a' b' l' H; exact H) a b l Es) as Hk.
            rewrite Hk. discriminate.
          - apply (@askDirections_fills directions addressData a b fromAdr toAdr Hfa Hta Hans).
            right. apply missingPairs_In. auto. }
      * (* no usable key *)
        exists sheet.
        split; [destruct pairs; reflexivity|].
        split; [intros a b l H; exact H|].
        split; [intros a b l H1 H2; exfalso; exact (Hsame a b l H1 H2)|].
        intro H. discriminate.
  - subst result. unfold getDistanceMatrix. rewrite Esheet. reflexivity.
Qed.

(* ------------------------------------------------------------------ *)
(** ** The carrier sheets *)

Lemma entryOf_upsert_same {A} k (f : option A -> A) entries :
  entryOf k (upsert k f entries) = Some (f (entryOf k entries)).
Proof.
  induction entries as [|[k' v] entries IH]; cbn [upsert entryOf].
  - rewrite String.eqb_refl. reflexivity.
  - destruct (String.eqb_spec k' k) as [->|Hne]; cbn [entryOf].
    + rewrite String.eqb_refl. reflexivity.
    + destruct (String.eqb_spec k' k) as [|_]; [contradiction|]. exact IH.
Qed.

Lemma entryOf_upsert_other {A} k k0 (f : option A -> A) entries :
  k0 <> k -> entryOf k0 (upsert k f entries) = entryOf k0 entries.
Proof.
  intro Hne. induction entries as [|[k' v] entries IH]; cbn [upsert entryOf].
  - destruct (String.eqb_spec k k0) as [E|_]; [congruence|reflexivity].
  - destruct (String.eqb_spec k' k) as [->|Hne']; cbn [entryOf].
    + destruct (String.eqb_spec k k0) as [E|_]; [congruence|reflexivity].
    + destruct (String.eqb_spec k' k0); [reflexivity|exact IH].
Qed.

Lemma upsert_keys {A} k (f : option A -> A) entries :
  map fst (upsert k f entries)
  = if in_dec string_dec k (map fst entries) then map fst entries
    else map fst entries ++ [k].
Proof.
  induction entries as [|[k' v] entries IH]; [reflexivity|].
  cbn [upsert map fst]. destruct (String.eqb_spec k' k) as [->|Hne].
  - cbn [map fst]. destruct (in_dec string_dec k (k :: map fst entries)) as [_|Hn];
      [reflexivity|]. exfalso. apply Hn. left. reflexivity.
  - cbn [map fst]. rewrite IH.
    destruct (in_dec string_dec k (map fst entries)) as [Hin|Hnin];
      destruct (in_dec string_dec k (k' :: map fst entries)) as [Hin'|Hnin']; try reflexivity.
    + exfalso. apply Hnin'. right. exact Hin.
    + exfalso. destruct Hin' as [E|Hin']; [congruence|contradiction].
Qed.

Lemma entryOf_None {A} k (entries : list (string * A)) :
  entryOf k entries = None <-> ~ In k (map fst entries).
Proof.
  induction entries as [|[k' v] entries IH]; cbn [entryOf map fst In].
  - tauto.
  - destruct (String.eqb_spec k' k) as [->|Hne].
    + split; [discriminate|]. intro H. exfalso. apply H. left. reflexivity.
    + rewrite IH. tauto.
Qed.

Lemma objectValues_In {A} (entries : list (string * A)) v :
  In v (objectValues entries) <-> exists k, entryOf k entries = Some v.
Proof.
  unfold objectValues. rewrite in_flat_map. split.
  - intros (k & _ & Hv). exists k. destruct (entryOf k entries) as [v'|]; [|destruct Hv].
    destruct Hv as [<-|[]]. reflexivity.
  - intros (k & Hk). exists k. split.
    + apply ownKeys_In. destruct (in_dec string_dec k (map fst entries)) as [Hin|Hnin];
        [exact Hin|]. pose proof (proj2 (entryOf_None _ _) Hnin) as E. congruence.
    + rewrite Hk. left. reflexivity.
Qed.

Lemma objectValues_map {A B} (entries : list (string * A)) (g : A -> B) (h : string -> B) :
  (forall k v, entryOf k entries = Some v -> g v = h k) ->
  map g (objectValues entries)
  = map h (Keys.ownKeys (map fst entries)).
Proof.
  intro Hg. unfold objectValues.
  assert (Hall : forall k, In k (Keys.ownKeys (map fst entries)) ->
                           exists v, entryOf k entries = Some v).
  { intros k Hk. apply (proj1 (ownKeys_In _ _)) in Hk.
    destruct (entryOf k entries) as [v|] eqn:E; [exists v; reflexivity|].
    exfalso. exact (proj1 (entryOf_None _ _) E Hk). }
  induction (Keys.ownKeys (map fst entries)) as [|k ks IH]; [reflexivity|].
  cbn [flat_map map]. destruct (Hall k (or_introl eq_refl)) as (v & Hv). rewrite Hv.
  cbn [app map]. rewrite (Hg k v Hv). f_equal. apply IH.
  intros k' Hk'. apply Hall. right. exact Hk'.
Qed.

Lemma slotsOfRow_open numberText parseIntText hs row :
  forall j,
    Forall (fun ts => (0 < capacity ts)%Z /\ used ts = 0%Z)
           (slotsOfRow numberText parseIntText hs row j).
Proof.
  induction hs as [|time hs IH]; intro j; cbn [slotsOfRow]; [constructor|].
  apply Forall_app. split; [|apply IH].
  destruct (Z.ltb_spec 0 (intOrZero numberText parseIntText (nth_error row (S j))));
    constructor; [|constructor]. cbn [capacity used]. auto.
Qed.

Lemma capacityOr_nonzero capacities field d : ~ d == 0 -> ~ capacityOr capacities field d == 0.
Proof.
  intro Hd. unfold capacityOr. destruct capacities as [c|]; [|exact Hd].
  destruct (field c) as [q|]; [|exact Hd]. unfold num_or.
  destruct (Qeq_bool q 0) eqn:E; [exact Hd|].
  intro H. apply Qeq_bool_iff in H. congruence.
Qed.

Section CarrierTable.

Variable numberText : Q -> string.
Variable parseIntText : string -> option Z.
Variable palletCapacities : list (string * Capacities).
Variable carrierCosts : list (string * Costs).
Variable timeSlotsHeaders : list Cell.

Lemma named_In rows n :
  In n (namedCarriers numberText rows)
  <-> n <> ""%string /\ exists row, In row rows /\ rowName numberText row = n.
Proof.
  unfold namedCarriers. rewrite filter_In, in_map_iff. unfold Str.isEmpty.
  destruct (String.eqb_spec n "") as [->|Hne]; cbn [negb].
  - split; [intros [_ H]; discriminate|intros [H _]; congruence].
  - split.
    + intros [(row & E & Hin) _]. split; [exact Hne|]. exists row. auto.
    + intros [_ (row & Hin & E)]. split; [|reflexivity]. exists row. auto.
Qed.

Lemma carrierRows_none rows n :
  ~ (exists row, In row rows /\ rowName numberText row = n) ->
  carrierRows numberText n rows = [].
Proof.
  intro H. unfold carrierRows. induction rows as [|row rows IH]; [reflexivity|].
  cbn [filter]. destruct (String.eqb_spec (rowName numberText row) n) as [E|_].
  - exfalso. apply H. exists row. split; [left; reflexivity|exact E].
  - apply IH. intros (r & Hin & E). apply H. exists r. split; [right; exact Hin|exact E].
Qed.

Lemma readCarrierRows_table rows :
  let table := fold_left (readCarrierRow numberText parseIntText palletCapacities carrierCosts
                            timeSlotsHeaders) rows [] in
  map fst table = uniq (namedCarriers numberText rows)
  /\ forall n,
       In n (namedCarriers numberText rows) ->
       entryOf n table
       = Some (carrierOfRows numberText parseIntText palletCapacities carrierCosts
                 timeSlotsHeaders n rows).
Proof.
  induction rows as [|row rows IH] using rev_ind; cbn zeta.
  - split; [reflexivity|]. intros n [].
  - cbn zeta in IH. destruct IH as [Hkeys Hval].
    rewrite fold_left_app. cbn [fold_left].
    set (table := fold_left _ rows []) in *.
    assert (Hnamed : namedCarriers numberText (rows ++ [row])
                     = namedCarriers numberText rows
                       ++ (if Str.isEmpty (rowName numberText row) then []
                           else [rowName numberText row])).
    { unfold namedCarriers. rewrite map_app, filter_app. cbn [map filter].
      destruct (Str.isEmpty (rowName numberText row)); reflexivity. }
    assert (Hrows : forall n, carrierRows numberText n (rows ++ [row])
                              = carrierRows numberText n rows
                                ++ (if String.eqb (rowName numberText row) n then [row] else [])).
    { intro n. unfold carrierRows. rewrite filter_app. cbn [filter].
      destruct (String.eqb _ n); reflexivity. }
    assert (Hstep :
              readCarrierRow numberText parseIntText palletCapacities carrierCosts
                timeSlotsHeaders table row
              = if Str.isEmpty (rowName numberText row) then table
                else upsert (rowName numberText row)
                       (fun old =>
                          appendSlots
                            (match old with
                             | Some c => c
                             | None => newCarrier palletCapacities carrierCosts
                                         (rowName numberText row)
                             end)
                            (slotsOfRow numberText parseIntText timeSlotsHeaders row 0))
                       table) by reflexivity.
    rewrite Hstep. clear Hstep.
    destruct (Str.isEmpty (rowName numberText row)) eqn:Eempty.
    + rewrite Hnamed, app_nil_r. split; [exact Hkeys|].
      intros n Hn. rewrite (Hval n Hn). unfold carrierOfRows. rewrite Hrows.
      destruct (String.eqb_spec (rowName numberText row) n) as [E|_];
        [|rewrite app_nil_r; reflexivity].
      exfalso. apply named_In in Hn. destruct Hn as [Hne _]. subst n.
      unfold Str.isEmpty in Eempty. apply String.eqb_eq in Eempty. contradiction.
    + set (n0 := rowName numberText row) in *. rewrite Hnamed. split.
      * rewrite upsert_keys, Hkeys, uniq_snoc.
        destruct (in_dec string_dec n0 (uniq (namedCarriers numberText rows))) as [Hin|Hnin];
          destruct (in_dec string_dec n0 (namedCarriers numberText rows)) as [Hin'|Hnin'];
          try reflexivity.
        -- exfalso. apply Hnin'. apply uniq_In. exact Hin.
        -- exfalso. apply Hnin. apply uniq_In. exact Hin'.
      * intros n Hn. destruct (string_dec n n0) as [->|Hne].
        -- rewrite entryOf_upsert_same. f_equal. unfold carrierOfRows. rewrite Hrows.
           unfold n0 at 3. rewrite String.eqb_refl, flat_map_app. cbn [flat_map].
           rewrite app_nil_r.
           destruct (in_dec string_dec n0 (namedCarriers numberText rows)) as [Hin|Hnin].
           ++ rewrite (Hval n0 Hin). unfold carrierOfRows, appendSlots.
              cbn [name costPerMile costPerRoute pallets36 pallets48 pallets53 timeSlots].
              reflexivity.
           ++ assert (Hno : entryOf n0 table = None).
              { apply entryOf_None. rewrite Hkeys, uniq_In. exact Hnin. }
              rewrite Hno. rewrite carrierRows_none; [reflexivity|].
              intros (r & Hr & E). apply Hnin. apply named_In. split.
              ** intro E0. unfold Str.isEmpty in Eempty. rewrite E0 in Eempty. discriminate.
              ** exists r. auto.
        -- rewrite entryOf_upsert_other by exact Hne.
           apply in_app_or in Hn. destruct Hn as [Hn|[E|[]]]; [|congruence].
           rewrite (Hval n Hn). unfold carrierOfRows. rewrite Hrows.
           destruct (String.eqb_spec n0 n) as [E|_]; [congruence|].
           rewrite app_nil_r. reflexivity.
Qed.

End CarrierTable.

(** X22. The carrier list.  [getCarriers] returns no carrier when the sheet
    is missing or has no data row.  Otherwise it returns one carrier per
    distinct non-blank trimmed name in the first column, the rows of a name
    being merged: the carrier's slots are the slots of its rows in row order,
    one per column with a positive whole capacity, each with nothing booked.
    Costs come from the cost sheet and are 0 for a carrier it does not list;
    the pallet capacities come from the inventory and fall back to 18, 22 and
    26 when it has no usable number, so none of them is ever 0. *)
Theorem getCarriers_merges_rows_by_name_with_open_slots :
  forall (numberText : Q -> string) (parseFloatText : string -> option Q)
         (parseIntText : string -> option Z) (carriers2 inventory costs : Sheet),
    let result := getCarriers numberText parseFloatText parseIntText carriers2 inventory costs in
    let palletCapacities := getPalletCapacities numberText parseFloatText inventory in
    let carrierCosts := getCarrierCosts numberText parseFloatText costs in
    NoDup (map name result)
    /\ (forall n,
           In n (map name result)
           <-> n <> ""%string
               /\ exists headers row rows r,
                    carriers2 = Some (headers :: row :: rows)
                    /\ In r (row :: rows) /\ rowName numberText r = n)
    /\ forall c, In c result ->
         (forall headers rows,
             carriers2 = Some (headers :: rows) ->
             timeSlots c
             = flat_map (fun row => slotsOfRow numberText parseIntText (tl headers) row 0)
                        (carrierRows numberText (name c) rows))
         /\ Forall (fun ts => (0 < capacity ts)%Z /\ used ts = 0%Z) (timeSlots c)
         /\ costPerMile c
            = match entryOf (name c) carrierCosts with Some k => perMile k | None => 0 end
         /\ costPerRoute c
            = match entryOf (name c) carrierCosts with Some k => perRoute k | None => 0 end
         /\ pallets36 c = capacityOr (entryOf (name c) palletCapacities) max36 18
         /\ pallets48 c = capacityOr (entryOf (name c) palletCapacities) max48 22
         /\ pallets53 c = capacityOr (entryOf (name c) palletCapacities) max53 26
         /\ ~ pallets36 c == 0 /\ ~ pallets48 c == 0 /\ ~ pallets53 c == 0.
Proof.
  intros numberText parseFloatText parseIntText carriers2 inventory costs.
  cbn zeta. unfold getCarriers.
  destruct carriers2 as [[|headers [|row rows]]|].
  1,2,4: (split; [constructor|]; split;
          [intro n; split; [intros []|intros [_ (h & r0 & rs & r & E & _)]; discriminate]
          |intros c []]).
  set (pc := getPalletCapacities numberText parseFloatText inventory).
  set (cc := getCarrierCosts numberText parseFloatText costs).
  destruct (readCarrierRows_table numberText parseIntText pc cc (tl headers) (row :: rows))
    as [Hkeys Hval].
  set (table := fold_left _ (row :: rows) []) in *.
  assert (Hentry : forall k c, entryOf k table = Some c ->
                     In k (namedCarriers numberText (row :: rows))
                     /\ c = carrierOfRows numberText parseIntText pc cc (tl headers) k
                              (row :: rows)).
  { intros k c Hk.
    assert (Hin : In k (namedCarriers numberText (row :: rows))).
    { apply uniq_In. rewrite <- Hkeys.
      destruct (in_dec string_dec k (map fst table)) as [H|H]; [exact H|].
      apply (proj2 (entryOf_None _ _)) in H. congruence. }
    split; [exact Hin|]. rewrite (Hval k Hin) in Hk. congruence. }
  assert (Hnames : map name (objectValues table)
                   = Keys.ownKeys (uniq (namedCarriers numberText (row :: rows)))).
  { rewrite (@objectValues_map _ _ table name (fun k => k)).
    - rewrite map_id, Hkeys. reflexivity.
    - intros k c Hk. destruct (Hentry k c Hk) as [_ ->]. reflexivity. }
  split; [rewrite Hnames; apply ownKeys_NoDup, uniq_NoDup|].
  split.
  - intro n. rewrite Hnames. split.
    + intro Hn. apply (proj1 (ownKeys_In _ _)) in Hn. apply (proj1 (uniq_In _ _)) in Hn.
      apply (proj1 (named_In _ _ _)) in Hn. destruct Hn as [Hne (r & Hr & E)].
      split; [exact Hne|]. exists headers, row, rows, r. auto.
    + intros [Hne (h & r0 & rs & r & E & Hr & En)]. injection E as <- <- <-.
      apply ownKeys_In. apply uniq_In. apply named_In. split; [exact Hne|].
      exists r. auto.
  - intros c Hc. apply objectValues_In in Hc. destruct Hc as (k & Hk).
    destruct (Hentry k c Hk) as [_ ->].
    unfold carrierOfRows, appendSlots, newCarrier.
    cbn [name costPerMile costPerRoute pallets36 pallets48 pallets53 timeSlots app].
    split.
    { intros h rs E. injection E as <- <-. reflexivity. }
    split.
    { apply Forall_flat_map. apply Forall_forall. intros r _. apply slotsOfRow_open. }
    split; [destruct (entryOf k cc); reflexivity|].
    split; [destruct (entryOf k cc); reflexivity|].
    split; [reflexivity|]. split; [reflexivity|]. split; [reflexivity|].
    split; [|split]; apply capacityOr_nonzero; discriminate.
Qed.

(* ------------------------------------------------------------------ *)
(** ** The restrictions column *)

Lemma flagged_no_size v size :
  Str.includes size "" = false -> Str.includes size "N/A" = false ->
  flagged v = false -> Str.includes size v = false.
Proof.
  intros Hempty Hna. unfold flagged, Str.isEmpty.
  destruct (String.eqb_spec v "") as [->|_]; [intros _; exact Hempty|].
  destruct (String.eqb_spec v "N/A") as [->|_]; [intros _; exact Hna|].
  discriminate.
Qed.

Lemma unrestricted_store res st routeTime :
  match res st with Some r => storeRestricted r | None => false end = false ->
  Str.includes "36" (equipmentFor res routeTime st) = false
  /\ Str.includes "48" (equipmentFor res routeTime st) = false
  /\ hasDeliveryWindow res st = None.
Proof.
  unfold equipmentFor, hasDeliveryWindow.
  destruct (res st) as [r|]; [|intros _; split; [reflexivity|split; reflexivity]].
  unfold storeRestricted. intro H.
  apply Bool.orb_false_elim in H. destruct H as [H Hwin].
  apply Bool.orb_false_elim in H. destruct H as [H Hday].
  apply Bool.orb_false_elim in H. destruct H as [_ Hnight].
  split; [|split].
  - cbn zeta. destruct (orb _ _); apply flagged_no_size; try reflexivity; assumption.
  - cbn zeta. destruct (orb _ _); apply flagged_no_size; try reflexivity; assumption.
  - cbn zeta.
    destruct (Str.isEmpty (deliveryWindow r)) eqn:E1; [reflexivity|].
    destruct (Str.isEmpty (Str.trim (deliveryWindow r))) eqn:E2; [reflexivity|].
    cbn [negb andb] in Hwin |- *.
    destruct (String.eqb_spec (deliveryWindow r) "N/A") as [E|_]; [|discriminate].
    rewrite E. reflexivity.
Qed.

(** X23. The restrictions column and the trailer column of a plan row.  When
    [checkRouteForRestrictions] answers "No" for the stops written on the row
    of a route, the row's trailer is the 53-foot one whatever the route's
    time, and no stop of the route has a delivery window that the scorer
    would check. *)
Theorem checkRouteForRestrictions_no_means_53_and_no_window :
  forall (route : Route) (ctx : Context) (row : Row),
    In row (writeRouteToSheet route ctx) ->
    checkRouteForRestrictions (rowStops row) (restrictions ctx) = "No"%string ->
    rowTrailer row = T53
    /\ forall s, In s (stops route) ->
         hasDeliveryWindow (restrictions ctx) (store s) = None
         /\ forall routeTime, windowRejects ctx s routeTime = false.
Proof.
  intros route ctx row Hrow Hno. unfold writeRouteToSheet in Hrow.
  destruct (stops route) as [|s0 rest] eqn:Estops; [destruct Hrow|].
  destruct Hrow as [<-|[]]. cbn [rowStops rowTrailer] in *.
  unfold checkRouteForRestrictions in Hno.
  destruct (existsb _ _) eqn:Eex; [discriminate|]. clear Hno.
  assert (Hall : forall s, In s (s0 :: rest) ->
                   match restrictions ctx (store s) with
                   | Some r => storeRestricted r
                   | None => false
                   end = false).
  { intros s Hs.
    apply (Permutation_in _ (Permutation_sym (sequencer_perm (s0 :: rest) (warehouse ctx)
                                                (distanceMatrix ctx)))) in Hs.
    destruct (match restrictions ctx (store s) with
              | Some r => storeRestricted r
              | None => false
              end) eqn:E; [|reflexivity].
    assert (Hex : existsb (fun s => match restrictions ctx (store s) with
                                    | Some r => storeRestricted r
                                    | None => false
                                    end)
                    (advancedOptimizeStopOrder (s0 :: rest) (warehouse ctx)
                       (distanceMatrix ctx)) = true)
      by (apply existsb_exists; exists s; split; [exact Hs|exact E]).
    congruence. }
  split.
  - unfold getRequiredTrailerSize.
    assert (H36 : existsb (fun st => Str.includes "36"
                                       (equipmentFor (restrictions ctx) (time route) st))
                    (uniq (map store (s0 :: rest))) = false).
    { apply Bool.not_true_is_false. intro H. apply existsb_exists in H.
      destruct H as (st & Hst & H). apply (proj1 (uniq_In _ _)) in Hst.
      apply in_map_iff in Hst. destruct Hst as (s & <- & Hs).
      destruct (unrestricted_store (restrictions ctx) (store s) (time route) (Hall s Hs))
        as [E _]. congruence. }
    assert (H48 : existsb (fun st => Str.includes "48"
                                       (equipmentFor (restrictions ctx) (time route) st))
                    (uniq (map store (s0 :: rest))) = false).
    { apply Bool.not_true_is_false. intro H. apply existsb_exists in H.
      destruct H as (st & Hst & H). apply (proj1 (uniq_In _ _)) in Hst.
      apply in_map_iff in Hst. destruct Hst as (s & <- & Hs).
      destruct (unrestricted_store (restrictions ctx) (store s) (time route) (Hall s Hs))
        as (_ & E & _). congruence. }
    rewrite H36, H48. reflexivity.
  - intros s Hs.
    destruct (unrestricted_store (restrictions ctx) (store s) (time route) (Hall s Hs))
      as (_ & _ & Hw).
    split; [exact Hw|]. intro routeTime. unfold windowRejects. rewrite Hw. reflexivity.
Qed.

Lemma checkRouteForRestrictions_no_means_53_and_no_window_witness :
  exists row,
    In row (writeRouteToSheet loneStopRoute (defaultContext farPairMatrix))
    /\ checkRouteForRestrictions (rowStops row) (restrictions (defaultContext farPairMatrix))
       = "No"%string
    /\ rowTrailer row = T53.
Proof.
  eexists. split; [left; reflexivity|]. split; [reflexivity|].
  apply (checkRouteForRestrictions_no_means_53_and_no_window
           loneStopRoute (defaultContext farPairMatrix)).
  - left. reflexivity.
  - reflexivity.
Defined.

(* ------------------------------------------------------------------ *)
(** ** The rebalancer's route score *)

Lemma square_zero (u : Q) : u * u * 5000 == 0 <-> u == 0.
Proof.
  split; intro H.
  - destruct (Qmult_integral _ _ H) as [H1|H1]; [|discriminate].
    destruct (Qmult_integral _ _ H1); assumption.
  - rewrite H. reflexivity.
Qed.

Lemma square_nonneg (u k : Q) : 0 <= k -> 0 <= u * u * k.
Proof.
  intro Hk. apply Qmult_le_0_compat; [|exact Hk].
  destruct (Qlt_le_dec u 0) as [Hneg|Hpos].
  - setoid_replace (u * u) with ((- u) * (- u)) by ring.
    apply Qmult_le_0_compat; lra.
  - apply Qmult_le_0_compat; exact Hpos.
Qed.

Lemma uniq_mixed l :
  (1 <? List.length (uniq l))%nat = true <-> exists x y, In x l /\ In y l /\ x <> y.
Proof.
  destruct l as [|a l]; cbn [uniq List.length].
  - split; [discriminate|]. intros (x & _ & [] & _).
  - rewrite Nat.ltb_lt. split.
    + intro H.
      destruct (filter (fun y => negb (String.eqb y a)) (uniq l)) as [|y rest] eqn:E;
        [cbn [List.length] in H; lia|].
      assert (Hy : In y (filter (fun y => negb (String.eqb y a)) (uniq l)))
        by (rewrite E; left; reflexivity).
      apply filter_In in Hy. destruct Hy as [Hy Hne].
      apply (proj1 (uniq_In _ _)) in Hy. apply negb_true_iff in Hne.
      apply String.eqb_neq in Hne.
      exists a, y. split; [left; reflexivity|]. split; [right; exact Hy|congruence].
    + intros (x & y & Hx & Hy & Hne).
      assert (Hex : exists z, In z l /\ z <> a).
      { destruct Hx as [<-|Hx]; destruct Hy as [<-|Hy].
        - contradiction.
        - exists y. split; [exact Hy|congruence].
        - exists x. split; [exact Hx|congruence].
        - destruct (string_dec x a) as [->|Hxa].
          + exists y. split; [exact Hy|congruence].
          + exists x. split; [exact Hx|exact Hxa]. }
      destruct Hex as (z & Hz & Hza).
      assert (Hin : In z (filter (fun y => negb (String.eqb y a)) (uniq l))).
      { apply filter_In. split; [apply uniq_In; exact Hz|].
        apply negb_true_iff. apply String.eqb_neq. exact Hza. }
      destruct (filter _ (uniq l)); [destruct Hin|]. cbn [List.length]. lia.
Qed.

Lemma clusterPenalty_cases route :
  ((exists s s', In s (stops route) /\ In s' (stops route) /\ cluster s <> cluster s')
   -> clusterPenalty route = 800)
  /\ ((forall s s', In s (stops route) -> In s' (stops route) -> cluster s = cluster s')
      -> clusterPenalty route = 0).
Proof.
  unfold clusterPenalty. split.
  - intros (s & s' & Hs & Hs' & Hne).
    assert (Hmixed : (1 <? List.length (uniq (map cluster (stops route))))%nat = true).
    { apply uniq_mixed. exists (cluster s), (cluster s').
      split; [apply in_map; exact Hs|]. split; [apply in_map; exact Hs'|exact Hne]. }
    assert (Hlen : (1 <? List.length (stops route))%nat = true).
    { apply Nat.ltb_lt. destruct (stops route) as [|a [|b l]]; cbn [List.length]; [| |lia].
      - destruct Hs.
      - destruct Hs as [<-|[]]. destruct Hs' as [<-|[]]. contradiction. }
    rewrite Hlen, Hmixed. reflexivity.
  - intro Hsame.
    destruct (1 <? List.length (uniq (map cluster (stops route))))%nat eqn:E.
    + exfalso. apply uniq_mixed in E. destruct E as (x & y & Hx & Hy & Hne).
      apply in_map_iff in Hx. destruct Hx as (s & <- & Hs).
      apply in_map_iff in Hy. destruct Hy as (s' & <- & Hs').
      apply Hne. apply Hsame; assumption.
    + rewrite Bool.andb_false_r. reflexivity.
Qed.

(** X24. The route score of the rebalancer.  When the capacity of the
    route's required trailer is 0 the score is not a finite number (NaN for
    an empty load, infinite otherwise).  Otherwise it is the route's cost
    plus three penalties, none of them negative: one for utilization, 5000
    times the square of the load's distance from the capacity relative to the
    capacity, which vanishes exactly when the load equals the capacity and
    charges a load over the capacity like one equally far under it; one for
    mileage, which vanishes exactly when the distance is within 85 percent of
    [MAX_ROUTE_MILEAGE] (of 425 when that is 0); and 800 for a route with two
    stops of different clusters, 0 for any other route. *)
Theorem calculateRouteScore_is_cost_plus_three_penalties :
  forall (route : Route) (ctx : Context),
    let capacity := routeCapacity route ctx in
    let miles := inject_Z (totalDistance (routeMetrics route ctx)) in
    let cost := miles * num_or (costPerMile (carrier route)) 0
                + num_or (costPerRoute (carrier route)) 0 in
    if Qeq_bool capacity 0
    then calculateRouteScore route ctx
         = (if Qeq_bool (totalPallets route) 0 then NaN else PosInf)
    else exists utilization mileage mixing,
           calculateRouteScore route ctx = Finite (cost + utilization + mileage + mixing)
           /\ utilization
              == ((totalPallets route - capacity) / capacity)
                 * ((totalPallets route - capacity) / capacity) * 5000
           /\ 0 <= utilization
           /\ (utilization == 0 <-> totalPallets route == capacity)
           /\ 0 <= mileage
           /\ (mileage == 0 <-> miles <= num_or (MAX_ROUTE_MILEAGE ctx) 425 * (85 # 100))
           /\ ((exists s s', In s (stops route) /\ In s' (stops route)
                             /\ cluster s <> cluster s') -> mixing = 800)
           /\ ((forall s s', In s (stops route) -> In s' (stops route)
                             -> cluster s = cluster s') -> mixing = 0).
Proof.
  intros route ctx. cbn zeta. unfold calculateRouteScore. cbn zeta.
  unfold utilizationPenalty.
  destruct (Qeq_bool (routeCapacity route ctx) 0) eqn:Ecap.
  - destruct (Qeq_bool (totalPallets route) 0); reflexivity.
  - assert (Hc : ~ routeCapacity route ctx == 0)
      by (intro H; apply Qeq_bool_iff in H; congruence).
    set (c := routeCapacity route ctx) in *. set (t := totalPallets route).
    exists ((1 - t / c) * (1 - t / c) * 5000), (mileagePenalty ctx (routeMetrics route ctx)),
      (clusterPenalty route).
    split; [reflexivity|].
    assert (Hu : 1 - t / c == - ((t - c) / c)) by (field; exact Hc).
    split; [rewrite Hu; ring|].
    split; [apply square_nonneg; discriminate|].
    split.
    { split; intro H.
      - apply (proj1 (square_zero _)) in H.
        assert (H1 : t / c == 1).
        { set (q := t / c) in *. lra. }
        assert (H2 : t == (t / c) * c) by (field; exact Hc).
        rewrite H2, H1. ring.
      - apply square_zero. rewrite H. field. exact Hc. }
    unfold mileagePenalty. cbn zeta.
    set (target := num_or (MAX_ROUTE_MILEAGE ctx) 425 * (85 # 100)).
    set (miles := inject_Z (totalDistance (routeMetrics route ctx))).
    unfold Qlt_bool. destruct (Qle_bool miles target) eqn:Ele; cbn [negb].
    + apply Qle_bool_iff in Ele.
      split; [apply Qle_refl|]. split; [split; [intros _; exact Ele|reflexivity]|].
      apply clusterPenalty_cases.
    + assert (Hlt : target < miles).
      { apply Qnot_le_lt. intro H. apply Qle_bool_iff in H. congruence. }
      split.
      { setoid_replace ((miles - target) / 10 * ((miles - target) / 10) * 100)
          with ((miles - target) * (miles - target) * 1) by field.
        apply square_nonneg. discriminate. }
      split.
      { split; [|intro H; lra].
        intro H. exfalso.
        assert (H1 : (miles - target) * (miles - target) * 5000 == 0).
        { setoid_replace ((miles - target) * (miles - target) * 5000)
            with (((miles - target) / 10 * ((miles - target) / 10) * 100) * 5000) by field.
          rewrite H. ring. }
        apply (proj1 (square_zero _)) in H1. lra. }
      apply clusterPenalty_cases.
Qed.

(* ------------------------------------------------------------------ *)
(** ** Route ids *)

Lemma map_setNth_same {A B} (f : A -> B) l i x y :
  nth_error l i = Some y -> f x = f y -> map f (setNth i x l) = map f l.
Proof.
  revert i. induction l as [|a l IH]; intros [|i] Hy Hf; cbn in *; try discriminate.
  - injection Hy as ->. rewrite Hf. reflexivity.
  - rewrite (IH i Hy Hf). reflexivity.
Qed.

Lemma map_removeAt {A B} (f : A -> B) l i :
  map f (removeAt i l) = removeAt i (map f l).
Proof. unfold removeAt. rewrite map_app, firstn_map, skipn_map. reflexivity. Qed.

Lemma Forall2_removeAt {A B} (R : A -> B -> Prop) l ks :
  Forall2 R l ks -> forall i, Forall2 R (removeAt i l) (removeAt i ks).
Proof.
  induction 1 as [|a k l ks Hak Hl IH]; intro i.
  - unfold removeAt. rewrite !firstn_nil, !skipn_nil. constructor.
  - destruct i as [|i].
    + unfold removeAt. cbn. exact Hl.
    + change (removeAt (S i) (a :: l)) with (a :: removeAt i l).
      change (removeAt (S i) (k :: ks)) with (k :: removeAt i ks).
      constructor; [exact Hak|apply IH].
Qed.

Lemma increasingWithin_weaken lo lo' hi ks :
  (lo' <= lo)%Z -> increasingWithin lo hi ks -> increasingWithin lo' hi ks.
Proof.
  destruct ks as [|k ks]; [auto|]. cbn [increasingWithin]. intros Hle [Hk Hrest].
  split; [lia|exact Hrest].
Qed.

Lemma increasingWithin_removeAt hi ks :
  forall lo i, increasingWithin lo hi ks -> increasingWithin lo hi (removeAt i ks).
Proof.
  induction ks as [|k ks IH]; intros lo i H.
  - unfold removeAt. rewrite firstn_nil, skipn_nil. exact I.
  - cbn [increasingWithin] in H. destruct H as [Hk Hrest]. destruct i as [|i].
    + unfold removeAt. cbn. apply (@increasingWithin_weaken (k + 1)); [lia|exact Hrest].
    + change (removeAt (S i) (k :: ks)) with (k :: removeAt i ks).
      cbn [increasingWithin]. split; [exact Hk|apply IH; exact Hrest].
Qed.

Lemma increasingWithin_snoc hi ks :
  forall lo, (lo <= hi)%Z -> increasingWithin lo hi ks ->
             increasingWithin lo (hi + 1) (ks ++ [hi]).
Proof.
  induction ks as [|k ks IH]; intros lo Hle H; cbn [app increasingWithin] in *.
  - split; [lia|exact I].
  - destruct H as [Hk Hrest]. split; [lia|]. apply IH; [lia|exact Hrest].
Qed.

Lemma increasingWithin_length hi ks :
  forall lo, (lo <= hi)%Z -> increasingWithin lo hi ks ->
             (lo + Z.of_nat (List.length ks) <= hi)%Z.
Proof.
  induction ks as [|k ks IH]; intros lo Hle H; cbn [List.length increasingWithin] in *.
  - lia.
  - destruct H as [Hk Hrest]. pose proof (IH (k + 1)%Z ltac:(lia) Hrest). lia.
Qed.

Lemma increasingWithin_above hi ks :
  forall lo k, increasingWithin lo hi ks -> In k ks -> (lo <= k)%Z.
Proof.
  induction ks as [|k0 ks IH]; intros lo k H Hin; [destruct Hin|].
  cbn [increasingWithin] in H. destruct H as [Hk Hrest].
  destruct Hin as [<-|Hin]; [lia|]. pose proof (IH _ _ Hrest Hin). lia.
Qed.

(** *** Numerals hold no underscore *)

Lemma uint_digits d :
  Forall (fun c => c <> "_"%char) (list_ascii_of_string (NilEmpty.string_of_uint d)).
Proof.
  induction d; cbn [NilEmpty.string_of_uint list_ascii_of_string];
    constructor; try assumption; discriminate.
Qed.

Lemma nilzero_digits d :
  Forall (fun c => c <> "_"%char) (list_ascii_of_string (NilZero.string_of_uint d)).
Proof.
  destruct d;
    [cbn; repeat constructor; discriminate
    |match goal with |- context [NilZero.string_of_uint ?x] => exact (uint_digits x) end..].
Qed.

Lemma ofZ_digits k :
  Forall (fun c => c <> "_"%char) (list_ascii_of_string (Str.ofZ k)).
Proof.
  unfold Str.ofZ, NilZero.string_of_int.
  destruct (Z.to_int k) as [d|d].
  - apply nilzero_digits.
  - cbn [list_ascii_of_string]. constructor; [discriminate|apply nilzero_digits].
Qed.

Lemma ofZ_inj k k' : Str.ofZ k = Str.ofZ k' -> k = k'.
Proof.
  unfold Str.ofZ. intro H. apply DecimalZ.to_int_inj.
  assert (Hnn : forall z, Z.to_int z <> Decimal.Pos Decimal.Nil
                          /\ Z.to_int z <> Decimal.Neg Decimal.Nil).
  { intros [|p|p]; cbn [Z.to_int]; split; try discriminate;
      intro E; injection E as E; exact (DecimalPos.Unsigned.to_uint_nonnil p E). }
  apply (f_equal NilZero.int_of_string) in H.
  rewrite !NilZero.isi in H by apply Hnn. congruence.
Qed.

(** A text splits in one way only at the underscore before a numeral. *)
Lemma underscore_split (a b x y : string) :
  Forall (fun c => c <> "_"%char) (list_ascii_of_string x) ->
  Forall (fun c => c <> "_"%char) (list_ascii_of_string y) ->
  (a ++ "_" ++ x)%string = (b ++ "_" ++ y)%string -> x = y.
Proof.
  intros Hx Hy. revert b. induction a as [|c a IH]; intros [|c' b] E; cbn in E.
  - injection E as E. exact E.
  - injection E as Ec Ex. subst c'. exfalso.
    rewrite Ex in Hx.
    assert (Hin : In "_"%char (list_ascii_of_string (b ++ String "_" y))).
    { clear. induction b as [|d b IHb]; cbn; [left; reflexivity|right; exact IHb]. }
    exact (proj1 (Forall_forall _ _) Hx _ Hin eq_refl).
  - injection E as Ec Ey. subst c. exfalso.
    rewrite <- Ey in Hy.
    assert (Hin : In "_"%char (list_ascii_of_string (a ++ String "_" x))).
    { clear. induction a as [|d a IHa]; cbn; [left; reflexivity|right; exact IHa]. }
    exact (proj1 (Forall_forall _ _) Hy _ Hin eq_refl).
  - injection E as _ E. exact (IH b E).
Qed.

Lemma routeIdOf_inj c c' k k' : routeIdOf c k = routeIdOf c' k' -> k = k'.
Proof.
  unfold routeIdOf. intro H. apply ofZ_inj.
  exact (underscore_split _ _ _ _ (ofZ_digits k) (ofZ_digits k') H).
Qed.

Lemma Forall2_In_left {A B} (R : A -> B -> Prop) l ks a :
  Forall2 R l ks -> In a l -> exists k, In k ks /\ R a k.
Proof.
  induction 1 as [|x k l ks Hxk Hl IH]; intros Hin; [destruct Hin|].
  destruct Hin as [<-|Hin].
  - exists k. split; [left; reflexivity|exact Hxk].
  - destruct (IH Hin) as (k' & Hk' & HR). exists k'. split; [right; exact Hk'|exact HR].
Qed.

Lemma numbered_NoDup routes :
  forall ks lo hi,
    numbered routes ks -> increasingWithin lo hi ks -> NoDup (map routeId routes).
Proof.
  induction routes as [|r routes IH]; intros ks lo hi Hn Hinc; [constructor|].
  inversion Hn as [|? k ? ks' Hr Hrest]; subst. cbn [increasingWithin] in Hinc.
  destruct Hinc as [Hk Hinc]. cbn [map]. constructor; [|exact (IH _ _ _ Hrest Hinc)].
  intro Hin. apply in_map_iff in Hin. destruct Hin as (r' & Hid & Hr').
  destruct (@Forall2_In_left _ _ _ _ _ r' Hrest Hr') as (k' & Hk' & Hr'k).
  rewrite Hr, Hr'k in Hid. apply routeIdOf_inj in Hid. subst k'.
  pose proof (@increasingWithin_above hi ks' (k + 1)%Z k Hinc Hk'). lia.
Qed.

(** *** The ids of the routes over a planning run *)

Lemma numbered_view routes ks :
  numbered routes ks ->
  forall routes',
    map (fun r => (routeId r, carrier r)) routes' = map (fun r => (routeId r, carrier r)) routes ->
    numbered routes' ks.
Proof.
  induction 1 as [|r k routes ks Hr Hrest IH]; intros [|r' routes'] E; cbn [map] in E;
    try discriminate; [constructor|].
  injection E as Eid Ec E. constructor; [|apply IH; exact E].
  rewrite Eid, Ec. exact Hr.
Qed.

Lemma idsWithin_setNth lo hi routes i r r' :
  idsWithin lo hi routes -> nth_error routes i = Some r ->
  routeId r' = routeId r -> carrier r' = carrier r ->
  idsWithin lo hi (setNth i r' routes).
Proof.
  intros (ks & Hn & Hinc) Hnth Hid Hc. exists ks. split; [|exact Hinc].
  apply (numbered_view Hn).
  apply (@map_setNth_same _ _ (fun r => (routeId r, carrier r)) routes i r' r Hnth).
  rewrite Hid, Hc. reflexivity.
Qed.

Lemma idsWithin_removeAt lo hi routes i :
  idsWithin lo hi routes -> idsWithin lo hi (removeAt i routes).
Proof.
  intros (ks & Hn & Hinc). exists (removeAt i ks). split.
  - apply Forall2_removeAt. exact Hn.
  - apply increasingWithin_removeAt. exact Hinc.
Qed.

Lemma RebalanceMove_ids ctx lo hi routes out :
  RebalanceMove ctx routes out -> idsWithin lo hi routes -> idsWithin lo hi out.
Proof.
  intros Hm Hids. destruct Hm as [i j sourceRoute targetRoute _ _ Hj _ _ _
                                 |i j route1 route2 si sj stop1 stop2 Hij Hi Hj _ _ _ _].
  - apply idsWithin_removeAt.
    refine (@idsWithin_setNth lo hi routes j targetRoute _ Hids Hj _ _); reflexivity.
  - apply (@idsWithin_setNth lo hi _ j route2 _).
    + refine (@idsWithin_setNth lo hi routes i route1 _ Hids Hi _ _); reflexivity.
    + rewrite nth_error_setNth_other by lia. exact Hj.
    + reflexivity.
    + reflexivity.
Qed.

Lemma RebalanceMoves_ids ctx lo hi routes out :
  RebalanceMoves ctx routes out -> idsWithin lo hi routes -> idsWithin lo hi out.
Proof.
  induction 1 as [rs|rs rs1 rs2 Hm _ IH]; intro Hids; [exact Hids|].
  apply IH. exact (@RebalanceMove_ids ctx lo hi rs rs1 Hm Hids).
Qed.

Lemma proactiveStep_ids ctx lo hi s acc :
  idsWithin lo hi (fst acc) -> idsWithin lo hi (fst (proactiveStep ctx s acc)).
Proof.
  destruct acc as [rs kept]. cbn [fst]. intro Hids. unfold proactiveStep.
  destruct (hasReason s); [exact Hids|].
  destruct (bestRouteScan ctx s rs 0 None None) as [r|]; [|exact Hids].
  destruct (nth_error rs r) as [route|] eqn:Hnth; [|exact Hids]. cbn [fst].
  refine (@idsWithin_setNth lo hi rs r route _ Hids Hnth _ _); reflexivity.
Qed.

Lemma proactiveInsert_ids ctx lo hi rs pool :
  idsWithin lo hi rs -> idsWithin lo hi (fst (proactiveInsert ctx rs pool)).
Proof.
  intro Hids. unfold proactiveInsert. destruct rs as [|r0 rs]; [exact Hids|].
  induction pool as [|s pool IH]; cbn [fold_right]; [exact Hids|].
  apply proactiveStep_ids. exact IH.
Qed.

Lemma seedStep_ids ctx lo st pool seed0 :
  (lo <= iteration st)%Z -> idsWithin lo (iteration st) (routes st) ->
  (lo <= iteration (seedStep ctx st pool seed0))%Z
  /\ idsWithin lo (iteration (seedStep ctx st pool seed0)) (routes (seedStep ctx st pool seed0)).
Proof.
  intros Hle Hids. unfold seedStep.
  destruct (findBestInitialCarrier _ _ _) as [o|]; [|split; assumption].
  destruct (growLoop _ _ _ _) as [currentRoute pool1].
  destruct (Qlt_bool _ _); cbn [iteration routes]; [split; assumption|].
  split; [lia|].
  destruct Hids as (ks & Hn & Hinc). exists (ks ++ [iteration st]). split.
  - apply Forall2_app; [exact Hn|]. constructor; [|constructor]. reflexivity.
  - apply increasingWithin_snoc; assumption.
Qed.

Lemma rows_ids ctx written :
  NoDup (map routeId written) ->
  NoDup (map rowRouteId (flat_map (fun r => writeRouteToSheet r ctx) written))
  /\ forall id, In id (map rowRouteId (flat_map (fun r => writeRouteToSheet r ctx) written)) ->
                In id (map routeId written).
Proof.
  induction written as [|r written IH]; intro Hnd; cbn [flat_map map].
  - split; [constructor|intros id []].
  - inversion Hnd as [|? ? Hr Hrest]; subst. destruct (IH Hrest) as [IH1 IH2].
    unfold writeRouteToSheet at 1 3. destruct (stops r) as [|s0 l].
    + cbn [app]. split; [exact IH1|]. intros id Hid. right. apply IH2. exact Hid.
    + cbn [app map rowRouteId]. split.
      * constructor; [|exact IH1]. intro Hin. apply Hr. apply IH2. exact Hin.
      * intros id [<-|Hid]; [left; reflexivity|right; apply IH2; exact Hid].
Qed.

Lemma finishPlanning_ids ctx lo st pool :
  idsWithin lo (iteration st) (routes st) ->
  exists written pulled,
    heldRoutes (finishPlanning ctx st pool) = written ++ pulled
    /\ sheetRows (finishPlanning ctx st pool)
       = flat_map (fun r => writeRouteToSheet r ctx) written
    /\ idsWithin lo (iterationOut (finishPlanning ctx st pool)) written.
Proof.
  intro Hids. unfold finishPlanning. cbn [heldRoutes sheetRows iterationOut].
  set (routes1 := match routes st with [] => [] | _ :: _ => rebalanceRoutes (routes st) ctx end).
  unfold utilizePullForwardRequests.
  destruct (fold_left (pfCarrier ctx) (carriers st) (pool, [], [])) as [[pool' created] cs'].
  exists routes1, created. cbn [pfRoutes]. split; [reflexivity|]. split; [reflexivity|].
  subst routes1. destruct (routes st) as [|r0 rs] eqn:E; [exact Hids|].
  unfold rebalanceRoutes.
  exact (@RebalanceMoves_ids ctx lo (iteration st) _ _ (rebalanceLoop_moves ctx _ _) Hids).
Qed.

Lemma planningLoop_ids ctx lo fuel :
  forall st res,
    (lo <= iteration st)%Z -> idsWithin lo (iteration st) (routes st) ->
    planningLoop fuel ctx st = Some res ->
    (lo <= iterationOut res)%Z
    /\ exists written pulled,
         heldRoutes res = written ++ pulled
         /\ sheetRows res = flat_map (fun r => writeRouteToSheet r ctx) written
         /\ idsWithin lo (iterationOut res) written.
Proof.
  induction fuel as [|fuel IH]; intros st res Hle Hids H; [discriminate|].
  cbn [planningLoop] in H.
  pose proof (@proactiveInsert_ids ctx lo (iteration st) (routes st)
                (sortByPallets (unassignedShipments st)) Hids) as Hids1.
  destruct (proactiveInsert ctx (routes st) (sortByPallets (unassignedShipments st)))
    as [routes1 pool]. cbn [fst] in Hids1.
  destruct (findSeed ctx [] pool) as [[[b seed] a]|].
  - destruct (@seedStep_ids ctx lo (mkLoopState pool routes1 (carriers st) (iteration st))
                (b ++ a) seed Hle Hids1) as [Hle' Hids'].
    exact (IH _ _ Hle' Hids' H).
  - injection H as <-. split; [exact Hle|].
    apply (@finishPlanning_ids ctx lo (mkLoopState pool routes1 (carriers st) (iteration st))
             pool Hids1).
Qed.

(** X25. Route ids.  The routes whose rows the planning loop writes carry
    the ids [<carrier name without blanks>_<n>] of strictly increasing
    iteration numbers [n] between the start iteration and the returned
    iteration, so no two written routes, and no two rows, share a route id;
    the returned iteration is at least the start iteration plus the number
    of written routes. *)
Theorem runPlanningLoop_writes_distinct_route_ids :
  forall (shipments : list Shipment) (availableCarriers : list Carrier) (ctx : Context)
         (start : Z),
    exists res written pulled ks,
      runPlanningLoop shipments availableCarriers ctx start = Some res
      /\ heldRoutes res = written ++ pulled
      /\ sheetRows res = flat_map (fun r => writeRouteToSheet r ctx) written
      /\ Forall2 (fun r k => routeId r = routeIdOf (carrier r) k) written ks
      /\ increasingWithin start (iterationOut res) ks
      /\ (start + Z.of_nat (List.length written) <= iterationOut res)%Z
      /\ NoDup (map routeId written)
      /\ NoDup (map rowRouteId (sheetRows res)).
Proof.
  intros shipments availableCarriers ctx start. unfold runPlanningLoop.
  destruct (@planningLoop_returns ctx (S (seedBudget ctx shipments))
              (mkLoopState shipments [] availableCarriers start)) as [res Hres].
  { cbn [unassignedShipments]. pose proof (seedsLeft_le_budget ctx shipments). lia. }
  destruct (@planningLoop_ids ctx start (S (seedBudget ctx shipments))
              (mkLoopState shipments [] availableCarriers start) res (Z.le_refl start)
              (ex_intro _ [] (conj (Forall2_nil _) I)) Hres)
    as (Hle & written & pulled & Hh & Hr & ks & Hn & Hinc).
  exists res, written, pulled, ks.
  pose proof (@numbered_NoDup written ks start (iterationOut res) Hn Hinc) as Hnd.
  split; [exact Hres|]. split; [exact Hh|]. split; [exact Hr|]. split; [exact Hn|].
  split; [exact Hinc|]. split.
  - rewrite (Forall2_length Hn).
    exact (@increasingWithin_length (iterationOut res) ks start Hle Hinc).
  - split; [exact Hnd|]. rewrite Hr. apply rows_ids. exact Hnd.
Qed.

(* ------------------------------------------------------------------ *)
(** ** Candidates of the growth phase *)

Lemma growCandidate_gate ctx r candidate :
  hasReason candidate = false ->
  growCandidate ctx r candidate
  = negb ((negb (String.eqb (routeCluster r) "Others")
           && negb (String.eqb (cluster candidate) (routeCluster r)))
          && negb ((negb (String.eqb (routeCluster r) "Others")
                    && negb (String.eqb (cluster candidate) (routeCluster r)))
                   && ((CLUSTER_FAILURE_THRESHOLD ctx <=? insertionFailures candidate)%Z
                       || (RELAX_MIN_ATTEMPTS ctx <=? seedAttempts r)%Z))).
Proof.
  intro Hr. unfold growCandidate. rewrite Hr. cbn [negb andb].
  destruct (String.eqb (routeCluster r) "Others");
    destruct (String.eqb (cluster candidate) (routeCluster r));
    destruct (CLUSTER_FAILURE_THRESHOLD ctx <=? insertionFailures candidate)%Z;
    destruct (RELAX_MIN_ATTEMPTS ctx <=? seedAttempts r)%Z; reflexivity.
Qed.

Lemma growScan_spec ctx r pool :
  forall i,
    fst (growScan ctx r pool i) = map (afterScan ctx r) pool
    /\ match snd (growScan ctx r pool i) with
       | Some (idx, score) =>
           (i <= idx)%nat
           /\ exists candidate,
                nth_error pool (idx - i) = Some candidate
                /\ growCandidate ctx r candidate = true
                /\ checkAndScoreInsertion candidate r ctx = Some score
                /\ forall j c' score',
                     nth_error pool j = Some c' ->
                     growCandidate ctx r c' = true ->
                     checkAndScoreInsertion c' r ctx = Some score' ->
                     score <= score' /\ ((idx - i < j)%nat -> score < score')
       | None =>
           forall j c',
             nth_error pool j = Some c' -> growCandidate ctx r c' = true ->
             checkAndScoreInsertion c' r ctx = None
       end.
Proof.
  induction pool as [|candidate rest IH]; intro i.
  - cbn [growScan fst snd map]. split; [reflexivity|]. intros [|j] c' H; discriminate.
  - cbn [growScan]. specialize (IH (S i)).
    destruct (growScan ctx r rest (S i)) as [rest' best]. cbn [fst snd] in IH.
    destruct IH as [Hpool Hbest]. cbn [map].
    (* what the rest of the pool knows, seen from this position *)
    assert (Hskip :
              (growCandidate ctx r candidate = true ->
               checkAndScoreInsertion candidate r ctx = None) ->
              match best with
              | Some (idx, score) =>
                  (i <= idx)%nat
                  /\ exists c,
                       nth_error (candidate :: rest) (idx - i) = Some c
                       /\ growCandidate ctx r c = true
                       /\ checkAndScoreInsertion c r ctx = Some score
                       /\ forall j c' score',
                            nth_error (candidate :: rest) j = Some c' ->
                            growCandidate ctx r c' = true ->
                            checkAndScoreInsertion c' r ctx = Some score' ->
                            score <= score' /\ ((idx - i < j)%nat -> score < score')
              | None =>
                  forall j c',
                    nth_error (candidate :: rest) j = Some c' ->
                    growCandidate ctx r c' = true ->
                    checkAndScoreInsertion c' r ctx = None
              end).
    { intro Hrej. destruct best as [[idx score]|].
      - destruct Hbest as (Hle & c & Hnth & Hg & Hc & Hmin).
        split; [lia|]. exists c.
        replace (idx - i)%nat with (S (idx - S i)) by lia.
        split; [exact Hnth|]. split; [exact Hg|]. split; [exact Hc|].
        intros [|j] c' score' Hj Hg' Hc'.
        + cbn in Hj. injection Hj as <-. rewrite (Hrej Hg') in Hc'. discriminate.
        + cbn in Hj. destruct (Hmin j c' score' Hj Hg' Hc') as [H1 H2].
          split; [exact H1|]. intro; apply H2; lia.
      - intros [|j] c' Hj Hg'.
        + cbn in Hj. injection Hj as <-. exact (Hrej Hg').
        + cbn in Hj. exact (Hbest j c' Hj Hg'). }
    unfold afterScan at 1.
    destruct (hasReason candidate) eqn:Ereason.
    { cbn [fst snd]. split; [rewrite Hpool; reflexivity|].
      apply Hskip. unfold growCandidate. rewrite Ereason. discriminate. }
    rewrite (growCandidate_gate ctx r candidate Ereason).
    destruct (andb (andb _ _) (negb _)) eqn:Egate; cbn [negb].
    { cbn [fst snd]. split; [rewrite Hpool; reflexivity|].
      apply Hskip. rewrite (growCandidate_gate ctx r candidate Ereason), Egate. discriminate. }
    assert (Hcand : growCandidate ctx r candidate = true)
      by (rewrite (growCandidate_gate ctx r candidate Ereason), Egate; reflexivity).
    destruct (checkAndScoreInsertion candidate r ctx) as [sc|] eqn:Echeck.
    2:{ cbn [fst snd]. split; [rewrite Hpool; reflexivity|]. apply Hskip. reflexivity. }
    destruct (betterScore sc (option_map snd best)) eqn:Ebetter; cbn [fst snd].
    + split; [rewrite Hpool; reflexivity|]. split; [lia|].
      exists candidate. rewrite Nat.sub_diag.
      split; [reflexivity|]. split; [exact Hcand|]. split; [exact Echeck|].
      intros [|j] c' score' Hj Hg' Hc'.
      * cbn in Hj. injection Hj as <-. rewrite Echeck in Hc'. injection Hc' as <-.
        split; [apply Qle_refl|]. intro; lia.
      * cbn in Hj. destruct best as [[idx score]|].
        -- destruct Hbest as (_ & _ & _ & _ & _ & Hmin).
           destruct (Hmin j c' score' Hj Hg' Hc') as [H1 _].
           cbn [option_map snd betterScore] in Ebetter. apply Qlt_bool_iff in Ebetter.
           split; [lra|]. intros _. lra.
        -- rewrite (Hbest j c' Hj Hg') in Hc'. discriminate.
    + split; [rewrite Hpool; reflexivity|].
      destruct best as [[idx score]|]; [|discriminate].
      cbn [option_map snd betterScore] in Ebetter. apply Qlt_bool_false_iff in Ebetter.
      destruct Hbest as (Hle & c & Hnth & Hg & Hc & Hmin).
      split; [lia|]. exists c.
      replace (idx - i)%nat with (S (idx - S i)) by lia.
      split; [exact Hnth|]. split; [exact Hg|]. split; [exact Hc|].
      intros [|j] c' score' Hj Hg' Hc'.
      * cbn in Hj. injection Hj as <-. rewrite Echeck in Hc'. injection Hc' as <-.
        split; [exact Ebetter|]. intro; lia.
      * cbn in Hj. destruct (Hmin j c' score' Hj Hg' Hc') as [H1 H2].
        split; [exact H1|]. intro; apply H2; lia.
Qed.

Lemma afterScan_accepted ctx r candidate score :
  growCandidate ctx r candidate = true ->
  checkAndScoreInsertion candidate r ctx = Some score ->
  afterScan ctx r candidate = candidate.
Proof.
  intros Hg Hc. unfold afterScan. rewrite Hg, Hc. destruct (hasReason candidate); reflexivity.
Qed.

(** X26. One pass of the growth phase.  The pass submits to the scorer the
    shipments without a failure reason that share the route's cluster, or
    meet a route of cluster Others, or for which the cluster rule is relaxed
    (the shipment has [CLUSTER_FAILURE_THRESHOLD] insertion failures or the
    seed has [RELAX_MIN_ATTEMPTS] attempts).  It picks the accepted one with
    the lowest score, the last in the pool among equals, and picks none
    exactly when the scorer rejects them all.  Every shipment without a
    failure reason that was not submitted or was rejected has its failure
    counter raised by one; nothing else in the pool changes. *)
Theorem growScan_picks_cheapest_candidate_last_among_equals :
  forall (ctx : Context) (currentRoute : Route) (pool : list Shipment),
    fst (growScan ctx currentRoute pool 0) = map (afterScan ctx currentRoute) pool
    /\ match snd (growScan ctx currentRoute pool 0) with
       | Some (index, score) =>
           exists candidate,
             nth_error pool index = Some candidate
             /\ nth_error (fst (growScan ctx currentRoute pool 0)) index = Some candidate
             /\ growCandidate ctx currentRoute candidate = true
             /\ checkAndScoreInsertion candidate currentRoute ctx = Some score
             /\ forall j c' score',
                  nth_error pool j = Some c' ->
                  growCandidate ctx currentRoute c' = true ->
                  checkAndScoreInsertion c' currentRoute ctx = Some score' ->
                  score <= score' /\ ((index < j)%nat -> score < score')
       | None =>
           forall c',
             In c' pool -> growCandidate ctx currentRoute c' = true ->
             checkAndScoreInsertion c' currentRoute ctx = None
       end.
Proof.
  intros ctx currentRoute pool.
  destruct (growScan_spec ctx currentRoute pool 0) as [Hpool Hbest].
  split; [exact Hpool|].
  destruct (snd (growScan ctx currentRoute pool 0)) as [[index score]|].
  - destruct Hbest as (_ & candidate & Hnth & Hg & Hc & Hmin).
    rewrite Nat.sub_0_r in Hnth. exists candidate.
    split; [exact Hnth|]. split.
    { rewrite Hpool, nth_error_map, Hnth. cbn [option_map].
      rewrite (afterScan_accepted ctx currentRoute candidate Hg Hc). reflexivity. }
    split; [exact Hg|]. split; [exact Hc|].
    intros j c' score' Hj Hg' Hc'. destruct (Hmin j c' score' Hj Hg' Hc') as [H1 H2].
    split; [exact H1|]. intro; apply H2; lia.
  - intros c' Hin Hg'. apply In_nth_error in Hin. destruct Hin as [j Hj].
    exact (Hbest j c' Hj Hg').
Qed.

(* ------------------------------------------------------------------ *)
(** ** Proactive insertion *)

Lemma bestRouteScan_min ctx s routes :
  forall r0 bi bs,
    match bi, bs with
    | Some b, Some _ => (b < r0)%nat
    | None, None => True
    | _, _ => False
    end ->
    match bestRouteScan ctx s routes r0 bi bs with
    | Some r =>
        (bi = Some r
         /\ forall j route score',
              nth_error routes j = Some route ->
              checkAndScoreInsertion s route ctx = Some score' ->
              exists sb, bs = Some sb /\ sb <= score')
        \/ ((r0 <= r)%nat
            /\ exists route score,
                 nth_error routes (r - r0) = Some route
                 /\ checkAndScoreInsertion s route ctx = Some score
                 /\ (forall sb, bs = Some sb -> score < sb)
                 /\ forall j route' score',
                      nth_error routes j = Some route' ->
                      checkAndScoreInsertion s route' ctx = Some score' ->
                      score <= score' /\ ((j < r - r0)%nat -> score < score'))
    | None =>
        bi = None
        /\ forall j route, nth_error routes j = Some route ->
                           checkAndScoreInsertion s route ctx = None
    end.
Proof.
  induction routes as [|route rest IH]; intros r0 bi bs Hwf.
  - cbn [bestRouteScan]. destruct bi as [b|].
    + left. split; [reflexivity|]. intros [|j] ? ? H; discriminate.
    + split; [reflexivity|]. intros [|j] ? H; discriminate.
  - cbn [bestRouteScan].
    destruct (checkAndScoreInsertion s route ctx) as [score|] eqn:Echeck.
    + destruct (betterScore score bs) eqn:Ebetter.
      * (* the route becomes the best one *)
        specialize (IH (S r0) (Some r0) (Some score) (Nat.lt_succ_diag_r r0)).
        destruct (bestRouteScan ctx s rest (S r0) (Some r0) (Some score)) as [r|];
          [|destruct IH as [E _]; discriminate].
        right. destruct IH as [[E Hall]|(Hle & route' & score' & Hnth & Hc & Hlt & Hmin)].
        -- injection E as <-. split; [lia|]. exists route, score. rewrite Nat.sub_diag.
           split; [reflexivity|]. split; [exact Echeck|]. split.
           { intros sb ->. cbn [betterScore] in Ebetter. apply Qlt_bool_iff. exact Ebetter. }
           intros [|j] rt sc Hj Hsc.
           ++ cbn in Hj. injection Hj as <-. rewrite Echeck in Hsc. injection Hsc as <-.
              split; [apply Qle_refl|]. intro; lia.
           ++ cbn in Hj. destruct (Hall j rt sc Hj Hsc) as (sb & E & Hsb).
              injection E as <-. split; [exact Hsb|]. intro; lia.
        -- pose proof (Hlt score eq_refl) as Hbelow.
           split; [lia|]. exists route', score'.
           replace (r - r0)%nat with (S (r - S r0)) by lia.
           split; [exact Hnth|]. split; [exact Hc|]. split.
           { intros sb ->. cbn [betterScore] in Ebetter. apply Qlt_bool_iff in Ebetter. lra. }
           intros [|j] rt sc Hj Hsc.
           ++ cbn in Hj. injection Hj as <-. rewrite Echeck in Hsc. injection Hsc as <-.
              split; [lra|]. intro; exact Hbelow.
           ++ cbn in Hj. destruct (Hmin j rt sc Hj Hsc) as [H1 H2].
              split; [exact H1|]. intro; apply H2; lia.
      * (* the best one so far stays *)
        destruct bs as [sb|]; [|discriminate].
        destruct bi as [b|]; [|destruct Hwf].
        cbn [betterScore] in Ebetter. apply Qlt_bool_false_iff in Ebetter.
        specialize (IH (S r0) (Some b) (Some sb) (Nat.lt_lt_succ_r _ _ Hwf)).
        destruct (bestRouteScan ctx s rest (S r0) (Some b) (Some sb)) as [r|];
          [|destruct IH as [E _]; discriminate].
        destruct IH as [[E Hall]|(Hle & route' & score' & Hnth & Hc & Hlt & Hmin)].
        -- left. split; [exact E|]. intros [|j] rt sc Hj Hsc.
           ++ cbn in Hj. injection Hj as <-. rewrite Echeck in Hsc. injection Hsc as <-.
              exists sb. split; [reflexivity|exact Ebetter].
           ++ cbn in Hj. exact (Hall j rt sc Hj Hsc).
        -- right. pose proof (Hlt sb eq_refl) as Hbelow.
           split; [lia|]. exists route', score'.
           replace (r - r0)%nat with (S (r - S r0)) by lia.
           split; [exact Hnth|]. split; [exact Hc|]. split; [exact Hlt|].
           intros [|j] rt sc Hj Hsc.
           ++ cbn in Hj. injection Hj as <-. rewrite Echeck in Hsc. injection Hsc as <-.
              split; [lra|]. intro; lra.
           ++ cbn in Hj. destruct (Hmin j rt sc Hj Hsc) as [H1 H2].
              split; [exact H1|]. intro; apply H2; lia.
    + (* the route rejects the shipment *)
      specialize (IH (S r0) bi bs).
      match type of IH with
      | ?P -> _ =>
          assert (Hwf' : P)
            by (destruct bi as [b|]; destruct bs as [sb|]; try exact Hwf;
                apply Nat.lt_lt_succ_r; exact Hwf)
      end.
      specialize (IH Hwf').
      destruct (bestRouteScan ctx s rest (S r0) bi bs) as [r|].
      * destruct IH as [[E Hall]|(Hle & route' & score' & Hnth & Hc & Hlt & Hmin)].
        -- left. split; [exact E|]. intros [|j] rt sc Hj Hsc.
           ++ cbn in Hj. injection Hj as <-. rewrite Echeck in Hsc. discriminate.
           ++ cbn in Hj. exact (Hall j rt sc Hj Hsc).
        -- right. split; [lia|]. exists route', score'.
           replace (r - r0)%nat with (S (r - S r0)) by lia.
           split; [exact Hnth|]. split; [exact Hc|]. split; [exact Hlt|].
           intros [|j] rt sc Hj Hsc.
           ++ cbn in Hj. injection Hj as <-. rewrite Echeck in Hsc. discriminate.
           ++ cbn in Hj. destruct (Hmin j rt sc Hj Hsc) as [H1 H2].
              split; [exact H1|]. intro; apply H2; lia.
      * destruct IH as [E Hall]. split; [exact E|]. intros [|j] rt Hj.
        -- cbn in Hj. injection Hj as <-. exact Echeck.
        -- cbn in Hj. exact (Hall j rt Hj).
Qed.

(** X27. Proactive insertion of one shipment.  A shipment with a failure
    reason stays in the pool.  Any other shipment goes on the route that the
    scorer accepts it on with the lowest score, the first such route among
    equals: it becomes the last stop of that route and its pallets are added
    to the route's total, every other route being untouched; it stays in the
    pool exactly when every route rejects it. *)
Theorem proactiveStep_inserts_on_cheapest_route_first_among_equals :
  forall (ctx : Context) (shipment : Shipment) (routes : list Route) (kept : list Shipment),
    if hasReason shipment
    then proactiveStep ctx shipment (routes, kept) = (routes, shipment :: kept)
    else
      (exists r route score,
          nth_error routes r = Some route
          /\ checkAndScoreInsertion shipment route ctx = Some score
          /\ (forall j route' score',
                 nth_error routes j = Some route' ->
                 checkAndScoreInsertion shipment route' ctx = Some score' ->
                 score <= score' /\ ((j < r)%nat -> score < score'))
          /\ proactiveStep ctx shipment (routes, kept)
             = (setNth r (pushStop route shipment) routes, kept))
      \/ ((forall route, In route routes -> checkAndScoreInsertion shipment route ctx = None)
          /\ proactiveStep ctx shipment (routes, kept) = (routes, shipment :: kept)).
Proof.
  intros ctx shipment routes kept. unfold proactiveStep.
  destruct (hasReason shipment); [reflexivity|].
  pose proof (@bestRouteScan_min ctx shipment routes 0 None None I) as Hscan.
  destruct (bestRouteScan ctx shipment routes 0 None None) as [r|].
  - left. destruct Hscan as [[E _]|(_ & route & score & Hnth & Hc & _ & Hmin)];
      [discriminate|].
    rewrite Nat.sub_0_r in Hnth, Hmin. exists r, route, score.
    split; [exact Hnth|]. split; [exact Hc|]. split; [exact Hmin|].
    rewrite Hnth. reflexivity.
  - right. destruct Hscan as [_ Hall]. split; [|reflexivity].
    intros route Hin. apply In_nth_error in Hin. destruct Hin as [j Hj].
    exact (Hall j route Hj).
Qed.

(* ------------------------------------------------------------------ *)
(** ** The seed of a round *)

Lemma insertDesc_In x l y : In y (insertDesc x l) <-> y = x \/ In y l.
Proof.
  induction l as [|a l IH]; cbn [insertDesc].
  - cbn. intuition.
  - destruct (Qlt_bool (pallets x) (pallets a)); cbn [In]; [rewrite IH|]; intuition.
Qed.

Lemma insertDesc_descending x l : descending l -> descending (insertDesc x l).
Proof.
  induction l as [|a l IH]; intro Hl; cbn [insertDesc].
  - cbn. split; [constructor|exact I].
  - cbn [descending] in Hl. destruct Hl as [Ha Hl].
    destruct (Qlt_bool (pallets x) (pallets a)) eqn:E.
    + apply Qlt_bool_iff in E. cbn [descending]. split; [|apply IH; exact Hl].
      apply Forall_forall. intros y Hy. apply insertDesc_In in Hy.
      destruct Hy as [->|Hy]; [apply Qlt_le_weak; exact E|].
      exact (proj1 (Forall_forall _ _) Ha y Hy).
    + apply Qlt_bool_false_iff in E. cbn [descending].
      split; [|split; [exact Ha|exact Hl]].
      constructor; [exact E|]. apply Forall_forall. intros y Hy.
      pose proof (proj1 (Forall_forall _ _) Ha y Hy) as Hya. cbn beta in Hya |- *. lra.
Qed.

Lemma sortByPallets_descending l : descending (sortByPallets l).
Proof.
  unfold sortByPallets. induction l as [|x l IH]; cbn [fold_right]; [exact I|].
  apply insertDesc_descending. exact IH.
Qed.

Lemma proactiveInsert_descending ctx rs pool :
  descending pool -> descending (snd (proactiveInsert ctx rs pool)).
Proof.
  intro Hd. unfold proactiveInsert. destruct rs as [|r0 rs]; [exact Hd|].
  assert (H : descending (snd (fold_right (proactiveStep ctx) (r0 :: rs, []) pool))
              /\ forall x, In x (snd (fold_right (proactiveStep ctx) (r0 :: rs, []) pool)) ->
                           In x pool).
  { induction pool as [|s pool IH]; cbn [fold_right].
    - split; [exact I|]. intros x [].
    - cbn [descending] in Hd. destruct Hd as [Hs Hd]. destruct (IH Hd) as [IH1 IH2].
      set (acc := fold_right (proactiveStep ctx) (r0 :: rs, []) pool) in *.
      assert (Hkept : snd (proactiveStep ctx s acc) = snd acc
                      \/ snd (proactiveStep ctx s acc) = s :: snd acc).
      { destruct acc as [routes kept]. unfold proactiveStep.
        destruct (hasReason s); [right; reflexivity|].
        destruct (bestRouteScan ctx s routes 0 None None) as [r|]; [|right; reflexivity].
        destruct (nth_error routes r); [left|right]; reflexivity. }
      destruct Hkept as [->| ->].
      + split; [exact IH1|]. intros x Hx. right. apply IH2. exact Hx.
      + split.
        * cbn [descending]. split; [|exact IH1]. apply Forall_forall. intros y Hy.
          exact (proj1 (Forall_forall _ _) Hs y (IH2 y Hy)).
        * intros x [<-|Hx]; [left; reflexivity|right; apply IH2; exact Hx]. }
  apply H.
Qed.

Lemma findSeed_first ctx pool :
  forall front,
    match findSeed ctx front pool with
    | Some (before, seed, after) =>
        exists skipped,
          before = front ++ skipped
          /\ pool = skipped ++ seed :: after
          /\ seedEligible ctx seed = true
          /\ forall x, In x skipped -> seedEligible ctx x = false
    | None => forall x, In x pool -> seedEligible ctx x = false
    end.
Proof.
  induction pool as [|s pool IH]; intro front; cbn [findSeed]; [intros x []|].
  destruct (seedEligible ctx s) eqn:E.
  - exists []. rewrite app_nil_r. split; [reflexivity|]. split; [reflexivity|].
    split; [exact E|]. intros x [].
  - specialize (IH (front ++ [s])).
    destruct (findSeed ctx (front ++ [s]) pool) as [[[before seed] after]|].
    + destruct IH as (skipped & Hb & Hp & He & Hs).
      exists (s :: skipped). rewrite Hb, <- app_assoc. split; [reflexivity|].
      split; [rewrite Hp; reflexivity|]. split; [exact He|].
      intros x [<-|Hx]; [exact E|apply Hs; exact Hx].
    + intros x [<-|Hx]; [exact E|apply IH; exact Hx].
Qed.

Lemma descending_middle front x back :
  descending (front ++ x :: back) ->
  Forall (fun y => pallets x <= pallets y) front
  /\ Forall (fun y => pallets y <= pallets x) back.
Proof.
  induction front as [|a front IH]; cbn [app descending].
  - intros [H _]. split; [constructor|exact H].
  - intros [Ha Hd]. destruct (IH Hd) as [H1 H2]. split; [|exact H2].
    constructor; [|exact H1].
    apply (proj1 (Forall_forall _ _) Ha x). apply in_or_app. right. left. reflexivity.
Qed.

(** X28. The seed of a round.  A planning round sorts the pool by pallets,
    largest first, and the proactive insertion keeps that order; the seed is
    then the first shipment of the pool that has attempts left and no failure
    reason, so no such shipment of the pool has more pallets than the seed,
    and every shipment in front of it has at least as many but can no longer
    seed.  The round is the last one exactly when no shipment of the pool can
    seed. *)
Theorem seed_of_a_round_is_the_largest_eligible_shipment :
  forall (ctx : Context) (routes : list Route) (unassigned : list Shipment),
    let pool := snd (proactiveInsert ctx routes (sortByPallets unassigned)) in
    descending pool
    /\ match findSeed ctx [] pool with
       | Some (before, seed, after) =>
           pool = before ++ seed :: after
           /\ seedEligible ctx seed = true
           /\ (forall x, In x before ->
                 seedEligible ctx x = false /\ pallets seed <= pallets x)
           /\ (forall x, In x pool -> seedEligible ctx x = true -> pallets x <= pallets seed)
       | None => forall x, In x pool -> seedEligible ctx x = false
       end.
Proof.
  intros ctx routes unassigned pool.
  assert (Hd : descending pool)
    by (apply proactiveInsert_descending, sortByPallets_descending).
  split; [exact Hd|].
  pose proof (findSeed_first ctx pool []) as Hseed.
  destruct (findSeed ctx [] pool) as [[[before seed] after]|]; [|exact Hseed].
  destruct Hseed as (skipped & Hb & Hp & He & Hs). cbn [app] in Hb. subst skipped.
  rewrite Hp in Hd. destruct (descending_middle _ _ _ Hd) as [Hfront Hback].
  split; [exact Hp|]. split; [exact He|]. split.
  - intros x Hx. split; [apply Hs; exact Hx|].
    exact (proj1 (Forall_forall _ _) Hfront x Hx).
  - intros x Hx Hex. rewrite Hp in Hx. apply in_app_or in Hx.
    destruct Hx as [Hx|[<-|Hx]].
    + rewrite (Hs x Hx) in Hex. discriminate.
    + apply Qle_refl.
    + exact (proj1 (Forall_forall _ _) Hback x Hx).
Qed.

(* ------------------------------------------------------------------ *)
(** ** The address sheet and the clusters of the shipments *)

Lemma setEntry_same {V} (table : string -> option V) k v : setEntry table k v k = Some v.
Proof. unfold setEntry. rewrite String.eqb_refl. reflexivity. Qed.

Lemma setEntry_other {V} (table : string -> option V) k v x :
  x <> k -> setEntry table k v x = table x.
Proof.
  intro H. unfold setEntry. destruct (String.eqb_spec x k); [contradiction|reflexivity].
Qed.

Lemma address_lookup numberText headers rows k a :
  fold_left (readAddressRow numberText headers) rows (fun _ => None) k = Some a
  <-> exists pre row post,
        rows = pre ++ row :: post
        /\ addressKey numberText headers row = Some k
        /\ addressOfRow numberText headers row = a
        /\ Forall (fun r => addressKey numberText headers r <> Some k) post.
Proof.
  revert a. induction rows as [|r rows IH] using rev_ind; intro a.
  - cbn [fold_left]. split; [discriminate|].
    intros (pre & row & post & E & _). destruct pre; discriminate.
  - rewrite fold_left_app. cbn [fold_left]. unfold readAddressRow at 1.
    destruct (addressKey numberText headers r) as [k0|] eqn:Ekey.
    + destruct (string_dec k k0) as [->|Hne].
      * rewrite setEntry_same. split.
        -- intro E. injection E as <-. exists rows, r, []. auto.
        -- intros (pre & row & post & E & Hk & Ha & Hpost).
           apply snoc_split_last in E.
           destruct E as [(-> & -> & ->)|(post' & -> & ->)].
           ++ rewrite Ha. reflexivity.
           ++ exfalso. apply Forall_app in Hpost. destruct Hpost as [_ Hr].
              inversion Hr as [|? ? Hbad _]; subst. apply Hbad. exact Ekey.
      * rewrite setEntry_other by exact Hne. split.
        -- intro H. apply IH in H. destruct H as (pre & row & post & -> & Hk & Ha & Hpost).
           exists pre, row, (post ++ [r]). rewrite <- app_assoc. cbn [app].
           split; [reflexivity|]. split; [exact Hk|]. split; [exact Ha|].
           apply Forall_app. split; [exact Hpost|]. constructor; [|constructor].
           rewrite Ekey. intro E. injection E as ->. apply Hne. reflexivity.
        -- intros (pre & row & post & E & Hk & Ha & Hpost). apply IH.
           apply snoc_split_last in E.
           destruct E as [(-> & -> & ->)|(post' & -> & ->)].
           ++ exfalso. rewrite Ekey in Hk. injection Hk as ->. apply Hne. reflexivity.
           ++ exists pre, row, post'. apply Forall_app in Hpost.
              split; [reflexivity|]. split; [exact Hk|]. split; [exact Ha|apply Hpost].
    + split.
      * intro H. apply IH in H. destruct H as (pre & row & post & -> & Hk & Ha & Hpost).
        exists pre, row, (post ++ [r]). rewrite <- app_assoc. cbn [app].
        split; [reflexivity|]. split; [exact Hk|]. split; [exact Ha|].
        apply Forall_app. split; [exact Hpost|]. constructor; [|constructor].
        rewrite Ekey. discriminate.
      * intros (pre & row & post & E & Hk & Ha & Hpost). apply IH.
        apply snoc_split_last in E.
        destruct E as [(-> & -> & ->)|(post' & -> & ->)].
        -- rewrite Ekey in Hk. discriminate.
        -- exists pre, row, post'. apply Forall_app in Hpost.
           split; [reflexivity|]. split; [exact Hk|]. split; [exact Ha|apply Hpost].
Qed.

(** *** Trimmed text *)

Lemma dropHead_fixed w2 w3 l : Str.headWs w2 w3 l = false -> Str.dropHead w2 w3 l = l.
Proof.
  destruct l as [|b1 [|b2 [|b3 l3]]]; cbn [Str.headWs Str.dropHead]; [reflexivity|..].
  - destruct (Str.is_ws b1); [discriminate|reflexivity].
  - destruct (Str.is_ws b1); [discriminate|]. destruct (w2 b1 b2); [discriminate|reflexivity].
  - destruct (Str.is_ws b1); [discriminate|]. destruct (w2 b1 b2); [discriminate|].
    intros ->. reflexivity.
Qed.

Lemma dropHead_spec w2 w3 n :
  forall l, (List.length l <= n)%nat ->
    Str.headWs w2 w3 (Str.dropHead w2 w3 l) = false
    /\ exists p, l = p ++ Str.dropHead w2 w3 l.
Proof.
  induction n as [|n IH]; intros l Hlen.
  - destruct l; [|cbn in Hlen; lia]. split; [reflexivity|]. exists []. reflexivity.
  - destruct l as [|b1 l1]; [split; [reflexivity|exists []; reflexivity]|].
    cbn [List.length] in Hlen.
    assert (H1 : (List.length l1 <= n)%nat) by lia.
    cbn [Str.dropHead]. destruct (Str.is_ws b1) eqn:E1.
    { destruct (IH l1 H1) as [Hh (p & Hp)]. split; [exact Hh|].
      exists (b1 :: p). cbn [app]. rewrite <- Hp. reflexivity. }
    destruct l1 as [|b2 l2].
    { split; [cbn [Str.headWs]; rewrite E1; reflexivity|exists []; reflexivity]. }
    cbn [List.length] in H1.
    assert (H2 : (List.length l2 <= n)%nat) by lia.
    destruct (w2 b1 b2) eqn:E2.
    { destruct (IH l2 H2) as [Hh (p & Hp)]. split; [exact Hh|].
      exists (b1 :: b2 :: p). cbn [app]. rewrite <- Hp. reflexivity. }
    destruct l2 as [|b3 l3].
    { split; [cbn [Str.headWs]; rewrite E1, E2; reflexivity|exists []; reflexivity]. }
    cbn [List.length] in H2.
    assert (H3 : (List.length l3 <= n)%nat) by lia.
    destruct (w3 b1 b2 b3) eqn:E3.
    { destruct (IH l3 H3) as [Hh (p & Hp)]. split; [exact Hh|].
      exists (b1 :: b2 :: b3 :: p). cbn [app]. rewrite <- Hp. reflexivity. }
    split; [cbn [Str.headWs]; rewrite E1, E2, E3; reflexivity|exists []; reflexivity].
Qed.

Lemma dropHead_head w2 w3 l : Str.headWs w2 w3 (Str.dropHead w2 w3 l) = false.
Proof. apply (@dropHead_spec w2 w3 (List.length l) l). lia. Qed.

Lemma dropHead_suffix w2 w3 l : exists p, l = p ++ Str.dropHead w2 w3 l.
Proof. apply (@dropHead_spec w2 w3 (List.length l) l). lia. Qed.

Lemma headWs_prefix w2 w3 p q :
  Str.headWs w2 w3 (p ++ q) = false -> Str.headWs w2 w3 p = false.
Proof.
  destruct p as [|b1 [|b2 [|b3 p3]]]; cbn [app Str.headWs]; [reflexivity|..].
  - destruct (Str.is_ws b1); [discriminate|reflexivity].
  - destruct (Str.is_ws b1); [discriminate|]. destruct (w2 b1 b2); [discriminate|reflexivity].
  - destruct (Str.is_ws b1); [discriminate|]. destruct (w2 b1 b2); [discriminate|].
    intros ->. reflexivity.
Qed.

Lemma trim_twice s : Str.trim (Str.trim s) = Str.trim s.
Proof.
  unfold Str.trim. rewrite list_ascii_of_string_of_list_ascii. f_equal. f_equal.
  set (x := Str.dropWs (list_ascii_of_string s)).
  set (y := Str.dropWsBackwards (rev x)).
  assert (Hx : Str.headWs Str.is_ws2 Str.is_ws3 x = false) by apply dropHead_head.
  destruct (dropHead_suffix (fun b2 b1 => Str.is_ws2 b1 b2)
              (fun b3 b2 b1 => Str.is_ws3 b1 b2 b3) (rev x)) as (p & Hp).
  fold (Str.dropWsBackwards (rev x)) in Hp. fold y in Hp.
  assert (Ex : x = rev y ++ rev p).
  { rewrite <- (rev_involutive x), Hp, rev_app_distr. reflexivity. }
  assert (Hy : Str.dropWs (rev y) = rev y).
  { apply dropHead_fixed. apply headWs_prefix with (q := rev p). rewrite <- Ex. exact Hx. }
  rewrite Hy, rev_involutive. apply dropHead_fixed. apply dropHead_head.
Qed.

Lemma getShipments_from_row numberText parseFloatText productTypeMap values s :
  In s (getShipments numberText parseFloatText productTypeMap values) ->
  exists cols row v,
    readShipmentRow numberText parseFloatText cols productTypeMap row = Some v
    /\ shStore s = shStore v /\ shCategory s = shCategory v.
Proof.
  unfold getShipments.
  destruct values as [[|headers [|row rows]]|]; try (intros []).
  destruct (shipmentColumns headers) as [cols|]; [|intros []].
  destruct (@aggregate_invariant numberText parseFloatText cols productTypeMap (row :: rows)
              [] [] eq_refl) as (Hk & He & _).
  { intros k x []. }
  { intros st c. reflexivity. }
  cbn [app] in Hk.
  set (agg := fold_left (aggregateRow numberText parseFloatText cols productTypeMap)
                (row :: rows) []) in *.
  assert (Hkeys : map shipmentKey (map snd agg) = map fst agg).
  { rewrite map_map. apply map_ext_in. intros [k x] Hin. cbn [fst snd].
    symmetry. apply He. exact Hin. }
  intro Hs.
  assert (Hin : In (shipmentKey s) (map shipmentKey
                  (shipmentRows numberText parseFloatText cols productTypeMap (row :: rows)))).
  { apply uniq_In. rewrite <- Hk, <- Hkeys. apply in_map. exact Hs. }
  apply in_map_iff in Hin. destruct Hin as (v & Hkey & Hv).
  apply shipmentKey_inj in Hkey. destruct Hkey as [Hst Hc].
  unfold shipmentRows in Hv. apply in_flat_map in Hv. destruct Hv as (r & _ & Hv).
  destruct (readShipmentRow numberText parseFloatText cols productTypeMap r) as [x|] eqn:E;
    [|destruct Hv].
  destruct Hv as [<-|[]]. exists cols, r, x. auto.
Qed.

Lemma getShipments_trimmed numberText parseFloatText productTypeMap values s :
  In s (getShipments numberText parseFloatText productTypeMap values) ->
  Str.trim (shStore s) = shStore s /\ shStore s <> ""%string.
Proof.
  intro Hs. destruct (getShipments_from_row _ _ _ _ _ Hs) as (cols & row & v & Hv & Hst & _).
  rewrite Hst. split; [|exact (proj1 (readShipmentRow_valid _ _ _ _ _ Hv))].
  unfold readShipmentRow in Hv. cbn zeta in Hv.
  destruct (parseFloatCell parseFloatText _); [|discriminate].
  destruct (orb _ _); [discriminate|].
  destruct (String.eqb _ "standby"); [discriminate|].
  injection Hv as <-. cbn [shStore]. apply trim_twice.
Qed.

(** X29. Addresses and clusters.  In [getAddressData] a store has an entry
    exactly when some row has a truthy Store Number with its text, and the
    entry is that of the last such row.  Every shipment that [generatePlan]
    hands to the planner gets a cluster that is not empty: the cluster of
    its store's entry, and Others when there is no entry or its cluster is
    blank.  The store of a shipment is trimmed while the keys of the address
    sheet are not, so a row whose Store Number has blanks around it is never
    the entry of a shipment. *)
Theorem getAddressData_last_row_wins_and_clusters_default_to_Others :
  forall (numberText : Q -> string) (parseFloatText : string -> option Q)
         (productTypeMap : string -> option string) (addressSheet shipmentSheet : Sheet),
    let addressData := getAddressData numberText addressSheet in
    (forall k a,
        addressData k = Some a
        <-> exists headers pre row post,
              addressSheet = Some (headers :: pre ++ row :: post)
              /\ addressKey numberText headers row = Some k
              /\ addressOfRow numberText headers row = a
              /\ Forall (fun r => addressKey numberText headers r <> Some k) post)
    /\ forall s,
         In s (getShipments numberText parseFloatText productTypeMap shipmentSheet) ->
         cluster (planShipment addressData s) <> ""%string
         /\ (addressData (shStore s) = None ->
             cluster (planShipment addressData s) = "Others"%string)
         /\ (forall a, addressData (shStore s) = Some a ->
                       cluster (planShipment addressData s)
                       = if Str.isEmpty (adCluster a) then "Others"%string else adCluster a)
         /\ Str.trim (shStore s) = shStore s
         /\ (forall headers row k,
                addressKey numberText headers row = Some k -> Str.trim k <> k ->
                shStore s <> k).
Proof.
  intros numberText parseFloatText productTypeMap addressSheet shipmentSheet addressData.
  split.
  - intros k a. subst addressData. unfold getAddressData.
    destruct addressSheet as [[|headers [|row rows]]|].
    + split; [discriminate|]. intros (h & pre & r & post & E & _). discriminate.
    + split; [discriminate|].
      intros (h & pre & r & post & E & _). injection E as _ E. destruct pre; discriminate.
    + pose proof (address_lookup numberText headers (row :: rows) k a) as Hlook. split.
      * intro H. apply Hlook in H. destruct H as (pre & r & post & E & Hk & Ha & Hpost).
        exists headers, pre, r, post. rewrite E. auto.
      * intros (h & pre & r & post & E & Hk & Ha & Hpost). injection E as <- E.
        apply Hlook. exists pre, r, post. auto.
    + split; [discriminate|]. intros (h & pre & r & post & E & _). discriminate.
  - intros s Hs. destruct (getShipments_trimmed _ _ _ _ _ Hs) as [Htrim Hne].
    assert (Hstore : Str.isEmpty (shStore s) = false).
    { unfold Str.isEmpty. apply String.eqb_neq. exact Hne. }
    unfold planShipment. cbn [cluster]. rewrite Hstore.
    split; [|split; [|split; [|split]]].
    + destruct (addressData (shStore s)) as [adr|]; [|discriminate].
      destruct (Str.isEmpty (adCluster adr)) eqn:E; [discriminate|].
      unfold Str.isEmpty in E. apply String.eqb_neq. exact E.
    + intros ->. reflexivity.
    + intros a ->. reflexivity.
    + exact Htrim.
    + intros headers row k _ Hk E. apply Hk. rewrite <- E. exact Htrim.
Qed.

(* ------------------------------------------------------------------ *)
(** ** Routes and bookings of a carrier at a time *)

Lemma routesAt_app n t a b : routesAt n t (a ++ b) = (routesAt n t a + routesAt n t b)%Z.
Proof. unfold routesAt. rewrite filter_app, length_app. lia. Qed.

Lemma routesAt_setNth n t l i r r' :
  nth_error l i = Some r -> carrier r' = carrier r -> time r' = time r ->
  routesAt n t (setNth i r' l) = routesAt n t l.
Proof.
  intros Hnth Hc Ht. unfold routesAt. f_equal.
  assert (E : atSlot n t r' = atSlot n t r) by (unfold atSlot; rewrite Hc, Ht; reflexivity).
  revert i Hnth.
  induction l as [|a l IH]; intros [|i] Hnth; cbn [nth_error] in Hnth; try discriminate.
  - injection Hnth as ->. cbn [setNth filter]. rewrite E.
    destruct (atSlot n t r); reflexivity.
  - cbn [setNth filter]. destruct (atSlot n t a); cbn [List.length]; rewrite (IH i Hnth);
      reflexivity.
Qed.

Lemma routesAt_removeAt n t l i : (routesAt n t (removeAt i l) <= routesAt n t l)%Z.
Proof.
  unfold routesAt. apply inj_le. revert i.
  induction l as [|a l IH]; intro i.
  - unfold removeAt. rewrite firstn_nil, skipn_nil. cbn. lia.
  - destruct i as [|i].
    + unfold removeAt. cbn [firstn skipn app filter].
      destruct (atSlot n t a); cbn [List.length]; lia.
    + change (removeAt (S i) (a :: l)) with (a :: removeAt i l). cbn [filter].
      specialize (IH i). destruct (atSlot n t a); cbn [List.length]; lia.
Qed.

Lemma RebalanceMove_routesAt ctx n t routes out :
  RebalanceMove ctx routes out -> (routesAt n t out <= routesAt n t routes)%Z.
Proof.
  intros Hm. destruct Hm as [i j sourceRoute targetRoute _ _ Hj _ _ _
                            |i j route1 route2 si sj stop1 stop2 Hij Hi Hj _ _ _ _].
  - eapply Z.le_trans; [apply routesAt_removeAt|].
    erewrite routesAt_setNth; [|exact Hj|reflexivity|reflexivity]. lia.
  - erewrite routesAt_setNth;
      [|rewrite nth_error_setNth_other by lia; exact Hj|reflexivity|reflexivity].
    erewrite routesAt_setNth; [|exact Hi|reflexivity|reflexivity]. lia.
Qed.

Lemma RebalanceMoves_routesAt ctx n t routes out :
  RebalanceMoves ctx routes out -> (routesAt n t out <= routesAt n t routes)%Z.
Proof.
  induction 1 as [rs|rs rs1 rs2 Hm _ IH]; [lia|].
  pose proof (@RebalanceMove_routesAt ctx n t rs rs1 Hm). lia.
Qed.

Lemma proactiveStep_routesAt ctx n t s acc :
  routesAt n t (fst (proactiveStep ctx s acc)) = routesAt n t (fst acc).
Proof.
  destruct acc as [rs kept]. cbn [fst]. unfold proactiveStep.
  destruct (hasReason s); [reflexivity|].
  destruct (bestRouteScan ctx s rs 0 None None) as [r|]; [|reflexivity].
  destruct (nth_error rs r) as [route|] eqn:Hnth; [|reflexivity]. cbn [fst].
  erewrite routesAt_setNth; [reflexivity|exact Hnth|reflexivity|reflexivity].
Qed.

Lemma proactiveInsert_routesAt ctx n t rs pool :
  routesAt n t (fst (proactiveInsert ctx rs pool)) = routesAt n t rs.
Proof.
  unfold proactiveInsert. destruct rs as [|r0 rs]; [reflexivity|].
  induction pool as [|s pool IH]; cbn [fold_right]; [reflexivity|].
  rewrite proactiveStep_routesAt. exact IH.
Qed.

Lemma adoptCluster_slot r s :
  carrier (adoptCluster r s) = carrier r /\ time (adoptCluster r s) = time r.
Proof. unfold adoptCluster. destruct (andb _ _); split; reflexivity. Qed.

Lemma growLoop_slot fuel ctx :
  forall r pool,
    carrier (fst (growLoop fuel ctx r pool)) = carrier r
    /\ time (fst (growLoop fuel ctx r pool)) = time r.
Proof.
  induction fuel as [|fuel IH]; intros r pool; [split; reflexivity|].
  cbn [growLoop]. destruct (growScan ctx r pool 0) as [pool1 [[index score]|]];
    [|split; reflexivity].
  destruct (nth_error pool1 index) as [added|]; [|split; reflexivity].
  destruct (IH (adoptCluster (pushStop r (setFailures added 0)) (setFailures added 0))
               (removeAt index pool1)) as [H1 H2].
  destruct (adoptCluster_slot (pushStop r (setFailures added 0)) (setFailures added 0))
    as [H3 H4].
  rewrite H1, H2, H3, H4. split; reflexivity.
Qed.

(** *** Bookings *)

Lemma sumUsed_slotsAt_setNth t slots i ts ts' :
  nth_error slots i = Some ts -> slotTime ts' = slotTime ts ->
  sumUsed (slotsAt t (setNth i ts' slots))
  = (sumUsed (slotsAt t slots)
     + (if String.eqb (slotTime ts) t then used ts' - used ts else 0))%Z.
Proof.
  intros Hnth Ht. revert i Hnth.
  induction slots as [|a l IH]; intros [|i] Hnth; cbn in Hnth; try discriminate.
  - injection Hnth as ->. cbn [setNth slotsAt filter]. rewrite Ht.
    destruct (String.eqb (slotTime ts) t); cbn [sumUsed fold_right]; lia.
  - cbn [setNth slotsAt filter]. specialize (IH i Hnth). unfold slotsAt in IH.
    destruct (String.eqb (slotTime a) t); cbn [sumUsed fold_right];
      fold (sumUsed (filter (fun ts0 => String.eqb (slotTime ts0) t) (setNth i ts' l)));
      fold (sumUsed (filter (fun ts0 => String.eqb (slotTime ts0) t) l)); lia.
Qed.

Lemma usedAt_setNth n t cs i c c' :
  nth_error cs i = Some c -> name c' = name c ->
  usedAt n t (setNth i c' cs)
  = (usedAt n t cs
     + (if String.eqb (name c) n
        then sumUsed (slotsAt t (timeSlots c')) - sumUsed (slotsAt t (timeSlots c))
        else 0))%Z.
Proof.
  intros Hnth Hn. revert i Hnth.
  induction cs as [|a l IH]; intros [|i] Hnth; cbn in Hnth; try discriminate.
  - injection Hnth as ->. unfold usedAt, named. cbn [setNth filter]. rewrite Hn.
    destruct (String.eqb (name c) n); cbn [fold_right]; lia.
  - unfold usedAt, named in *. cbn [setNth filter]. specialize (IH i Hnth).
    destruct (String.eqb (name a) n); cbn [fold_right]; lia.
Qed.

Lemma useSlot_usedAt n t cs ci ti c ts :
  nth_error cs ci = Some c -> nth_error (timeSlots c) ti = Some ts ->
  usedAt n t (useSlot cs ci ti)
  = (usedAt n t cs
     + (if (String.eqb (name c) n && String.eqb (slotTime ts) t)%bool then 1 else 0))%Z.
Proof.
  intros Hc Hts. unfold useSlot. rewrite Hc, Hts.
  erewrite usedAt_setNth; [|exact Hc|reflexivity]. cbn [timeSlots].
  erewrite sumUsed_slotsAt_setNth; [|exact Hts|reflexivity]. cbn [used].
  destruct (String.eqb (name c) n); destruct (String.eqb (slotTime ts) t); cbn [andb]; lia.
Qed.

Lemma routesAt_one n t r :
  routesAt n t [r]
  = (if (String.eqb (name (carrier r)) n && String.eqb (time r) t)%bool then 1 else 0)%Z.
Proof.
  unfold routesAt. cbn [filter]. unfold atSlot.
  destruct (andb _ _); reflexivity.
Qed.

Lemma seedStep_at ctx n t st pool seed0 :
  let st' := seedStep ctx st pool seed0 in
  (routesAt n t (routes st') - usedAt n t (carriers st')
   = routesAt n t (routes st) - usedAt n t (carriers st))%Z.
Proof.
  cbn zeta. unfold seedStep.
  pose proof (findBestInitialCarrier_best (bumpAttempts seed0) (carriers st) ctx) as Hbest.
  unfold findBestInitialCarrier. unfold BestSoFar in Hbest.
  destruct (fst (scanCarriers (bumpAttempts seed0) ctx (carriers st) 0 (None, None)))
    as [o|]; [|reflexivity].
  destruct Hbest as (c & ts & Hc & Hts & _ & _ & Hroute & _ & _).
  pose proof (growLoop_slot (S (List.length pool)) ctx
                (withSeedAttempts (optRoute o) (attempts (bumpAttempts seed0))) pool) as Hslot.
  destruct (growLoop _ ctx _ pool) as [currentRoute pool1]. cbn [fst] in Hslot.
  destruct Hslot as [Hcar Htime].
  destruct (Qlt_bool _ _); cbn [routes carriers]; [reflexivity|].
  rewrite routesAt_app, routesAt_one.
  rewrite (@useSlot_usedAt n t (carriers st) (optCarrier o) (optTimeSlot o) c ts Hc Hts).
  cbn [withRouteId carrier time]. rewrite Hcar, Htime, Hroute.
  cbn [withSeedAttempts seedRoute carrier time]. lia.
Qed.

(** *** The pull-forward pass *)

Lemma routesAt_all n t c tm new :
  (forall r, In r new -> carrier r = c /\ time r = tm) ->
  routesAt n t new
  = (if (String.eqb (name c) n && String.eqb tm t)%bool
     then Z.of_nat (List.length new) else 0)%Z.
Proof.
  intro Hall. unfold routesAt.
  induction new as [|r new IH]; [destruct (andb _ _); reflexivity|].
  cbn [filter]. unfold atSlot at 1.
  destruct (Hall r (or_introl eq_refl)) as [-> ->].
  assert (IH' := IH (fun x Hx => Hall x (or_intror Hx))).
  destruct (andb _ _); cbn [List.length]; lia.
Qed.

Lemma usedAt_cons n t c cs :
  usedAt n t (c :: cs)
  = ((if String.eqb (name c) n then sumUsed (slotsAt t (timeSlots c)) else 0)
     + usedAt n t cs)%Z.
Proof.
  unfold usedAt, named. cbn [filter].
  destruct (String.eqb (name c) n); cbn [fold_right]; lia.
Qed.

Lemma sumUsed_slotsAt_cons t ts slots :
  sumUsed (slotsAt t (ts :: slots))
  = ((if String.eqb (slotTime ts) t then used ts else 0) + sumUsed (slotsAt t slots))%Z.
Proof.
  unfold slotsAt, sumUsed. cbn [filter].
  destruct (String.eqb (slotTime ts) t); cbn [fold_right]; lia.
Qed.

Lemma pfSlots_at ctx c slots :
  forall pool created done,
    exists pool' new slots',
      fold_left (pfSlot ctx c) slots (pool, created, done)
      = (pool', created ++ new, done ++ slots')
      /\ forall n t,
           routesAt n t new
           = (if String.eqb (name c) n
              then sumUsed (slotsAt t slots') - sumUsed (slotsAt t slots)
              else 0)%Z.
Proof.
  induction slots as [|ts slots IH]; intros pool created done.
  - exists pool, [], []. cbn [fold_left]. rewrite !app_nil_r.
    split; [reflexivity|]. intros n t. destruct (String.eqb (name c) n); reflexivity.
  - cbn [fold_left].
    destruct (pfSlot_used ctx c pool created done ts)
      as (pool1 & new1 & ts' & E1 & G1 & U1 & Q1).
    rewrite E1.
    destruct (IH pool1 (created ++ new1) (done ++ [ts'])) as (pool2 & new2 & slots' & E2 & A2).
    rewrite E2. exists pool2, (new1 ++ new2), (ts' :: slots').
    rewrite <- !app_assoc. split; [reflexivity|].
    intros n t. rewrite routesAt_app, (A2 n t).
    rewrite (@routesAt_all n t c (slotTime ts) new1)
      by (intros r Hr; destruct (Q1 r Hr) as (H1 & H2 & _); auto).
    rewrite !sumUsed_slotsAt_cons. destruct G1 as (Ht & _). rewrite Ht, U1.
    destruct (String.eqb (name c) n); destruct (String.eqb (slotTime ts) t); cbn [andb]; lia.
Qed.

Lemma pfCarrier_at ctx pool created done c :
  exists pool' new c',
    pfCarrier ctx (pool, created, done) c = (pool', created ++ new, done ++ [c'])
    /\ name c' = name c
    /\ forall n t,
         routesAt n t new
         = (if String.eqb (name c) n
            then sumUsed (slotsAt t (timeSlots c')) - sumUsed (slotsAt t (timeSlots c))
            else 0)%Z.
Proof.
  unfold pfCarrier.
  destruct (pfSlots_at ctx c (timeSlots c) pool created []) as (pool' & new & slots' & E & A).
  rewrite E. cbn [app]. eexists pool', new, _. split; [reflexivity|].
  cbn [name timeSlots]. split; [reflexivity|exact A].
Qed.

Lemma pfCarriers_at ctx cs :
  forall pool created done,
    exists pool' new cs',
      fold_left (pfCarrier ctx) cs (pool, created, done)
      = (pool', created ++ new, done ++ cs')
      /\ forall n t, usedAt n t cs' = (usedAt n t cs + routesAt n t new)%Z.
Proof.
  induction cs as [|c cs IH]; intros pool created done.
  - exists pool, [], []. cbn [fold_left]. rewrite !app_nil_r.
    split; [reflexivity|]. intros n t. cbn. lia.
  - cbn [fold_left].
    destruct (pfCarrier_at ctx pool created done c) as (pool1 & new1 & c' & E1 & N1 & A1).
    rewrite E1.
    destruct (IH pool1 (created ++ new1) (done ++ [c'])) as (pool2 & new2 & cs' & E2 & A2).
    rewrite E2. exists pool2, (new1 ++ new2), (c' :: cs').
    rewrite <- !app_assoc. split; [reflexivity|].
    intros n t. rewrite !usedAt_cons, routesAt_app, (A2 n t), (A1 n t), N1.
    destruct (String.eqb (name c) n); lia.
Qed.

Lemma utilizePullForwardRequests_at remaining cs ctx existing :
  forall n t,
    (routesAt n t (pfRoutes (utilizePullForwardRequests remaining cs ctx existing))
     - usedAt n t (pfCarriers (utilizePullForwardRequests remaining cs ctx existing))
     = routesAt n t existing - usedAt n t cs)%Z.
Proof.
  intros n t. unfold utilizePullForwardRequests.
  destruct (pfCarriers_at ctx cs remaining [] []) as (pool & new & cs' & E & A).
  rewrite E. cbn [app pfRoutes pfCarriers]. rewrite routesAt_app, (A n t). lia.
Qed.

Lemma planningLoop_at ctx n t fuel :
  forall st res,
    planningLoop fuel ctx st = Some res ->
    (routesAt n t (heldRoutes res) - usedAt n t (carriersOut res)
     <= routesAt n t (routes st) - usedAt n t (carriers st))%Z.
Proof.
  induction fuel as [|fuel IH]; intros st res H; [discriminate|].
  cbn [planningLoop] in H.
  pose proof (proactiveInsert_routesAt ctx n t (routes st)
                (sortByPallets (unassignedShipments st))) as Hsame.
  destruct (proactiveInsert ctx (routes st) (sortByPallets (unassignedShipments st)))
    as [routes1 pool]. cbn [fst] in Hsame.
  destruct (findSeed ctx [] pool) as [[[b seed] a]|].
  - pose proof (seedStep_at ctx n t (mkLoopState pool routes1 (carriers st) (iteration st))
                  (b ++ a) seed) as Hstep.
    cbn zeta in Hstep. cbn [routes carriers] in Hstep.
    pose proof (IH _ _ H). lia.
  - injection H as <-. unfold finishPlanning. cbn [heldRoutes carriersOut routes carriers].
    rewrite utilizePullForwardRequests_at.
    assert (Hreb : (routesAt n t (match routes1 with
                                  | [] => []
                                  | _ :: _ => rebalanceRoutes routes1 ctx
                                  end) <= routesAt n t routes1)%Z).
    { destruct routes1 as [|r0 rs]; [lia|].
      apply (@RebalanceMoves_routesAt ctx n t). apply rebalanceLoop_moves. }
    lia.
Qed.

(** *** Places offered *)

Lemma slots_within t slots slots' :
  Forall2 slotGrows slots slots' ->
  Forall (fun ts => (used ts <= capacity ts)%Z) slots ->
  (sumUsed (slotsAt t slots')
   <= fold_right (fun ts m => (capacity ts + m)%Z) 0%Z (slotsAt t slots))%Z.
Proof.
  induction 1 as [|ts ts' slots slots' Hg _ IH]; intro Hall; [cbn; lia|].
  inversion Hall as [|? ? Hts Hrest]; subst. specialize (IH Hrest).
  destruct Hg as (Ht & Hc & _ & Hin). specialize (Hin Hts).
  unfold slotsAt in *. cbn [filter]. rewrite Ht.
  destruct (String.eqb (slotTime ts) t); cbn [sumUsed fold_right];
    [fold (sumUsed (filter (fun ts0 => String.eqb (slotTime ts0) t) slots'))|]; lia.
Qed.

Lemma carriers_within n t cs cs' :
  Forall2 carrierGrows cs cs' ->
  (forall c ts, In c cs -> In ts (timeSlots c) -> (used ts <= capacity ts)%Z) ->
  (usedAt n t cs' <= capacityAt n t cs)%Z.
Proof.
  induction 1 as [|c c' cs cs' Hg _ IH]; intro Hall; [cbn; lia|].
  assert (IH' := IH (fun c0 ts Hc0 => Hall c0 ts (or_intror Hc0))).
  destruct Hg as (Hn & _ & _ & _ & _ & _ & Hslots).
  pose proof (@slots_within t _ _ Hslots
                (proj2 (Forall_forall _ _) (fun ts => Hall c ts (or_introl eq_refl)))) as Hc.
  unfold usedAt, capacityAt, named in *. cbn [filter]. rewrite Hn.
  destruct (String.eqb (name c) n); cbn [fold_right]; lia.
Qed.

(** X30. Routes per carrier and time.  For every carrier name and slot time
    the planning loop holds, when it returns, at most as many routes of that
    name starting at that time as bookings were added there during the run
    (a merged route keeps its booking); so when every slot is within its
    capacity at the start, the routes of a name at a time never exceed the
    places that the carriers of that name offer at that time, less the
    bookings they came with. *)
Theorem runPlanningLoop_routes_per_carrier_and_time_within_capacity :
  forall (shipments : list Shipment) (availableCarriers : list Carrier) (ctx : Context)
         (start : Z),
    exists res,
      runPlanningLoop shipments availableCarriers ctx start = Some res
      /\ forall n t,
           (routesAt n t (heldRoutes res)
            <= usedAt n t (carriersOut res) - usedAt n t availableCarriers)%Z
           /\ ((forall c ts, In c availableCarriers -> In ts (timeSlots c) ->
                             (used ts <= capacity ts)%Z) ->
               (routesAt n t (heldRoutes res)
                <= capacityAt n t availableCarriers - usedAt n t availableCarriers)%Z).
Proof.
  intros shipments availableCarriers ctx start. unfold runPlanningLoop.
  destruct (@planningLoop_returns ctx (S (seedBudget ctx shipments))
              (mkLoopState shipments [] availableCarriers start)) as [res Hres].
  { cbn [unassignedShipments]. pose proof (seedsLeft_le_budget ctx shipments). lia. }
  exists res. split; [exact Hres|]. intros n t.
  pose proof (@planningLoop_at ctx n t _ _ _ Hres) as Hat.
  cbn [routes carriers] in Hat. change (routesAt n t []) with 0%Z in Hat.
  split; [lia|]. intro Hwithin.
  destruct (@planningLoop_slots ctx _ _ _ Hres) as [Hgrow _]. cbn [carriers] in Hgrow.
  pose proof (@carriers_within n t _ _ Hgrow Hwithin). lia.
Qed.

(* ------------------------------------------------------------------ *)
(** ** Overflow handler *)

Lemma scorerAccepts_tests ctx : testsWindowAndStops ctx (scorerAccepts ctx).
Proof.
  intros s r H. unfold scorerAccepts in H.
  destruct (checkAndScoreInsertion s r ctx) as [score|] eqn:E; [|discriminate].
  destruct (check_accepted _ _ _ E) as [A1 _ A3 _ _ _ _ _ _]. split; assumption.
Qed.

Lemma addToOverspill_by_scorer ctx s rs :
  addToOverspill ctx s rs = addToOverspillBy (scorerAccepts ctx) s rs.
Proof.
  induction rs as [|r rs IH]; cbn [addToOverspill addToOverspillBy]; [reflexivity|].
  unfold scorerAccepts. destruct (checkAndScoreInsertion s r ctx); [reflexivity|].
  rewrite IH. reflexivity.
Qed.

Lemma classifyRemaining_by_scorer shipments ctx :
  classifyRemaining shipments ctx = classifyRemainingBy (scorerAccepts ctx) shipments.
Proof.
  unfold classifyRemaining, classifyRemainingBy, packOverspill, packOverspillBy.
  do 2 f_equal. generalize (@nil Route).
  generalize (sortByPallets (filter (fun s => negb (hasReason s)) shipments)).
  induction l as [|s l IH]; intro rs; cbn [fold_left]; [reflexivity|].
  rewrite addToOverspill_by_scorer. apply IH.
Qed.

Lemma addToOverspillBy_perm accepts s rs :
  Permutation (allStops (addToOverspillBy accepts s rs)) (s :: allStops rs).
Proof.
  induction rs as [|r rs IH]; cbn [addToOverspillBy]; [reflexivity|].
  destruct (accepts s r); cbn [allStops flat_map].
  - cbn [pushStop withStops stops]. rewrite <- app_assoc. cbn [app].
    symmetry. apply Permutation_middle.
  - fold (allStops (addToOverspillBy accepts s rs)). fold (allStops rs). rewrite IH.
    symmetry. apply Permutation_middle.
Qed.

Lemma packOverspillBy_perm accepts l : Permutation (allStops (packOverspillBy accepts l)) l.
Proof.
  unfold packOverspillBy. rewrite <- (sortByPallets_perm l) at 2.
  generalize (sortByPallets l) as sorted. intro sorted.
  assert (H : forall rs, Permutation
                           (allStops (fold_left (fun routes s => addToOverspillBy accepts s routes)
                                                sorted rs))
                           (allStops rs ++ sorted)).
  { induction sorted as [|s sorted IH]; intro rs; cbn [fold_left].
    - rewrite app_nil_r. reflexivity.
    - rewrite IH, addToOverspillBy_perm. cbn [app]. apply Permutation_middle. }
  apply H.
Qed.

Lemma descending_snoc l s :
  descending l -> Forall (fun y => pallets s <= pallets y) l -> descending (l ++ [s]).
Proof.
  induction l as [|x l IH]; cbn [app descending]; intros Hd Hall.
  - split; [constructor|exact I].
  - destruct Hd as [Hx Hd]. inversion Hall as [|? ? Hsx Hl]; subst. split.
    + apply Forall_app. split; [exact Hx|]. constructor; [exact Hsx|constructor].
    + apply IH; assumption.
Qed.

Lemma overspillShape_new ctx s :
  overspillShape ctx (mkRoute overspillCarrier "23:00" [s] (pallets s) "Overspill" "" 0 "").
Proof.
  unfold overspillShape. cbn [carrier time stops].
  split; [reflexivity|]. split; [reflexivity|].
  split; [cbn [descending]; split; [constructor|exact I]|].
  exists s, []. split; [reflexivity|]. split; [intros x []|]. intro H. congruence.
Qed.

Lemma overspillShape_push ctx accepts r s :
  testsWindowAndStops ctx accepts ->
  overspillShape ctx r -> Forall (fun y => pallets s <= pallets y) (stops r) ->
  accepts s r = true ->
  overspillShape ctx (pushStop r s).
Proof.
  intros Htests (Hc & Ht & Hd & first & rest & Hstops & Hwin & _) Habove Hacc.
  destruct (Htests _ _ Hacc) as [Hw Hn].
  unfold overspillShape. cbn [pushStop withStops carrier time stops].
  split; [exact Hc|]. split; [exact Ht|].
  split; [apply descending_snoc; assumption|].
  exists first, (rest ++ [s]). split; [rewrite Hstops; reflexivity|]. split.
  - intros x Hx. apply in_app_or in Hx. destruct Hx as [Hx|[<-|[]]]; [apply Hwin; exact Hx|].
    rewrite <- Ht. exact Hw.
  - intros _. exact Hn.
Qed.

Lemma addToOverspillBy_shape ctx accepts s rs :
  testsWindowAndStops ctx accepts ->
  Forall (overspillShape ctx) rs ->
  Forall (fun y => pallets s <= pallets y) (allStops rs) ->
  Forall (overspillShape ctx) (addToOverspillBy accepts s rs).
Proof.
  intros Htests. induction 1 as [|r rs Hr Hrs IH]; intro Habove; cbn [addToOverspillBy].
  - constructor; [apply overspillShape_new|constructor].
  - cbn [allStops flat_map] in Habove. apply Forall_app in Habove.
    destruct Habove as [Hr' Hrs'].
    destruct (accepts s r) eqn:E.
    + constructor; [eapply overspillShape_push; eassumption|exact Hrs].
    + constructor; [exact Hr|]. apply IH. exact Hrs'.
Qed.

Lemma packOverspillBy_shape ctx accepts l :
  testsWindowAndStops ctx accepts ->
  Forall (overspillShape ctx) (packOverspillBy accepts l).
Proof.
  intro Htests. unfold packOverspillBy.
  pose proof (sortByPallets_descending l) as Hd. revert Hd.
  generalize (sortByPallets l) as sorted.
  assert (H : forall sorted rs,
             descending sorted ->
             Forall (overspillShape ctx) rs ->
             (forall s, In s sorted -> Forall (fun y => pallets s <= pallets y) (allStops rs)) ->
             Forall (overspillShape ctx)
               (fold_left (fun routes s => addToOverspillBy accepts s routes) sorted rs)).
  { induction sorted as [|s sorted IH]; intros rs Hd Hrs Habove; [exact Hrs|].
    cbn [fold_left]. cbn [descending] in Hd. destruct Hd as [Hs Hd]. apply IH.
    - exact Hd.
    - apply addToOverspillBy_shape; [exact Htests|exact Hrs|].
      apply Habove. left. reflexivity.
    - intros s' Hs'. apply Forall_forall. intros y Hy.
      apply (Permutation_in _ (addToOverspillBy_perm accepts s rs)) in Hy.
      destruct Hy as [<-|Hy].
      + rewrite Forall_forall in Hs. apply Hs. exact Hs'.
      + specialize (Habove s' (or_intror Hs')). rewrite Forall_forall in Habove.
        apply Habove. exact Hy. }
  intros sorted Hd. apply H; [exact Hd|constructor|].
  intros s _. constructor.
Qed.

Lemma numberOverspill_shape ctx l :
  forall i, Forall (overspillShape ctx) l -> Forall (overspillShape ctx) (numberOverspill i l).
Proof.
  induction l as [|r l IH]; intros i H; [constructor|].
  inversion H as [|? ? Hr Hl]; subst. cbn [numberOverspill].
  constructor; [exact Hr|apply IH; exact Hl].
Qed.

Lemma numberOverspill_length l : forall i, List.length (numberOverspill i l) = List.length l.
Proof.
  induction l as [|r l IH]; intro i; [reflexivity|]. cbn [numberOverspill List.length].
  f_equal. apply IH.
Qed.

Lemma numberOverspill_ids l :
  forall i,
    map routeId (numberOverspill i l)
    = map (fun k => ("Overspill_" ++ Str.ofZ (i + Z.of_nat k))%string)
          (seq 1 (List.length l)).
Proof.
  induction l as [|r l IH]; intro i; [reflexivity|].
  cbn [numberOverspill map List.length seq withRouteId routeId].
  f_equal. rewrite IH, <- (seq_shift (List.length l) 1), map_map. apply map_ext. intro k.
  rewrite Nat2Z.inj_succ. do 2 f_equal. lia.
Qed.

(** X15. The overflow handler sorts the remaining shipments into three
    classes by their failure reason: 'Time Constraint' shipments, shipments
    with another failure reason, and shipments without one, which alone go
    on overspill routes, each on exactly the routes its class says.  The
    overspill routes are numbered [Overspill_1], [Overspill_2], ... in
    order; each is on the Overspill carrier at 23:00 and has at least one
    stop, its stops in descending order of their pallets.  Only its first
    shipment is placed unchecked: every later stop is inside its delivery
    window at 23:00, and a route with more than one shipment is within the
    stop limit.  This holds for the loops of [planRemainingShipments] over
    any acceptance test that has the scorer's tests of the window and of the
    number of stores, whatever else it tests and however it computes. *)
Theorem planRemainingShipments_classes_and_overspill_routes :
  forall (accepts : Shipment -> Route -> bool) (shipments : list Shipment) (ctx : Context),
    testsWindowAndStops ctx accepts ->
    let o := classifyRemainingBy accepts shipments in
    (forall s, In s (timeGroup o) <-> In s shipments /\ failureReason s = Some TimeConstraint)
    /\ (forall s, In s (otherGroup o)
                  <-> In s shipments /\ failureReason s = Some NoViableCarrier)
    /\ (forall s, In s (allStops (overspillRoutes o))
                  <-> In s shipments /\ failureReason s = None)
    /\ Forall (overspillShape ctx) (overspillRoutes o)
    /\ map routeId (overspillRoutes o)
       = map (fun k => ("Overspill_" ++ Str.ofZ (Z.of_nat k))%string)
             (seq 1 (List.length (overspillRoutes o))).
Proof.
  intros accepts shipments ctx Htests. cbn zeta. unfold classifyRemainingBy.
  cbn [timeGroup otherGroup overspillRoutes].
  split; [|split; [|split; [|split]]].
  - intro s. rewrite filter_In. unfold isTimeConstraint.
    destruct (failureReason s) as [[|]|]; split; intros [H1 H2]; try discriminate; auto.
  - intro s. rewrite filter_In. unfold isOtherFailure.
    destruct (failureReason s) as [[|]|]; split; intros [H1 H2]; try discriminate; auto.
  - intro s. rewrite numberOverspill_stops.
    pose proof (packOverspillBy_perm accepts
                  (filter (fun s => negb (hasReason s)) shipments)) as Hperm.
    assert (Hiff : In s (filter (fun s => negb (hasReason s)) shipments)
                   <-> In s shipments /\ failureReason s = None).
    { rewrite filter_In. unfold hasReason.
      destruct (failureReason s); split; intros [H1 H2]; try discriminate; auto. }
    rewrite <- Hiff. split; intro H.
    + apply (Permutation_in _ Hperm). exact H.
    + apply (Permutation_in _ (Permutation_sym Hperm)). exact H.
  - apply numberOverspill_shape, packOverspillBy_shape. exact Htests.
  - rewrite numberOverspill_ids, numberOverspill_length. reflexivity.
Qed.

(** The handler with the scorer as its test, on four shipments that end on
    two overspill routes of two stops each. *)
Lemma planRemainingShipments_classes_and_overspill_routes_witness :
  testsWindowAndStops (defaultContext penaltyLegMatrix)
    (scorerAccepts (defaultContext penaltyLegMatrix))
  /\ classifyRemaining overflowShipments (defaultContext penaltyLegMatrix)
     = classifyRemainingBy (scorerAccepts (defaultContext penaltyLegMatrix)) overflowShipments
  /\ map (fun r => map store (stops r))
         (overspillRoutes
            (classifyRemainingBy (scorerAccepts (defaultContext penaltyLegMatrix))
               overflowShipments))
     = [["S1"; "S2"]; ["S2"; "S1"]]%string
  /\ Forall (overspillShape (defaultContext penaltyLegMatrix))
       (overspillRoutes
          (classifyRemainingBy (scorerAccepts (defaultContext penaltyLegMatrix))
             overflowShipments)).
Proof.
  split; [apply scorerAccepts_tests|]. split; [apply classifyRemaining_by_scorer|].
  split; [vm_compute; reflexivity|].
  apply (@planRemainingShipments_classes_and_overspill_routes
           (scorerAccepts (defaultContext penaltyLegMatrix)) overflowShipments
           (defaultContext penaltyLegMatrix)).
  apply scorerAccepts_tests.
Defined.
